(** * kv_engine: the vBucket coordinator and the collections manifest

    A shallow embedding of
      - engines/ep/src/collections/manifest.cc  (bucket manifest: name
        validation, JSON decoding, JSON encoding), and
      - engines/ep/src/vbucket.cc               (the per-partition coordinator:
        set / add / replace / deleteItem / commit / abort, the CAS policy of
        processSet, memory admission, replication-topology validation).

    Collaborators whose sources are not part of the tree (StoredValue,
    HashTable, CheckpointManager, the durability monitors, the id codecs)
    are modelled from the specification; each such definition says so in
    its doc comment. *)

From Stdlib Require Import ZArith NArith Ascii String List Bool Lia.
From Stdlib Require QArith.
From stdpp Require Import base option list gmap strings.

Local Open Scope string_scope.

(** ** Exceptions and results

    C++ exceptions are modelled by an explicit error alternative. *)

Inductive exception :=
  | invalid_argument
  | out_of_range
  | logic_error
  | bad_cast
  | fail_fast
  | json_out_of_range.

Inductive result (A : Type) :=
  | Ok (a : A)
  | Throw (e : exception).
Arguments Ok {A} a.
Arguments Throw {A} e.

Definition rbind {A B} (r : result A) (k : A -> result B) : result B :=
  match r with
  | Ok a => k a
  | Throw e => Throw e
  end.

#[global] Instance result_ret : MRet result := fun _ a => Ok a.
#[global] Instance result_bind : MBind result := fun _ _ k r => rbind r k.

Definition is_Ok {A} (r : result A) : Prop :=
  match r with Ok _ => True | Throw _ => False end.

(** ** Characters *)

Module CType.

  (** [std::isdigit] and [std::isalpha] of <cctype> in the "C" locale. *)
Definition isdigit (c : ascii) : bool :=
    let n := nat_of_ascii c in (48 <=? n)%nat && (n <=? 57)%nat.

Definition isupper (c : ascii) : bool :=
    let n := nat_of_ascii c in (65 <=? n)%nat && (n <=? 90)%nat.

Definition islower (c : ascii) : bool :=
    let n := nat_of_ascii c in (97 <=? n)%nat && (n <=? 122)%nat.

Definition isalpha (c : ascii) : bool := isupper c || islower c.

End CType.

(** ** JSON documents

    The value tree of nlohmann::json. An object keeps its members in key
    order, as the library's std::map does. *)

Module Json.

Inductive value_t :=
  | t_null
  | t_object
  | t_array
  | t_string
  | t_boolean
  | t_number_integer
  | t_number_unsigned
  | t_number_float.

#[global] Instance value_t_eq_dec : EqDecision value_t.
Proof. solve_decision. Defined.

#[warnings="-register-all"]
Inductive json :=
  | Null
  | Boolean (b : bool)
  | NumberInteger (z : Z)
  | NumberUnsigned (n : N)
  | NumberFloat (mantissa exponent : Z)
  | Str (s : string)
  | Array (elems : list json)
  | Object (members : list (string * json)).

Definition type (j : json) : value_t :=
  match j with
  | Null => t_null
  | Boolean _ => t_boolean
  | NumberInteger _ => t_number_integer
  | NumberUnsigned _ => t_number_unsigned
  | NumberFloat _ _ => t_number_float
  | Str _ => t_string
  | Array _ => t_array
  | Object _ => t_object
  end.

Definition is_null (j : json) : bool :=
  match j with Null => true | _ => false end.
Definition is_array (j : json) : bool :=
  match j with Array _ => true | _ => false end.
Definition is_object (j : json) : bool :=
  match j with Object _ => true | _ => false end.

(** [size()]: 0 for null, the number of elements of an array or object, 1
    for a scalar. *)
Definition size (j : json) : nat :=
  match j with
  | Null => 0
  | Array l => length l
  | Object l => length l
  | _ => 1
  end.

(** The elements a range-for visits: those of an array, the values of an
    object, the value itself for a scalar, nothing for null. *)
Definition elements (j : json) : list json :=
  match j with
  | Null => []
  | Array l => l
  | Object l => map snd l
  | _ => [j]
  end.

Fixpoint assoc (key : string) (l : list (string * json)) : option json :=
  match l with
  | [] => None
  | (k, v) :: rest => if String.eqb k key then Some v else assoc key rest
  end.

(** [find(key)] on an object; nothing is found in a value of another type. *)
Definition find (j : json) (key : string) : option json :=
  match j with
  | Object l => assoc key l
  | _ => None
  end.

End Json.

(** ** Collections::Manifest::validName *)

Module Collections.

Section WithLimit.

    (** [MaxCollectionNameSize] is declared in collections_types.h. *)
Variable MaxCollectionNameSize : nat.

Definition name_char_ok (c : ascii) : bool :=
      CType.isdigit c || CType.isalpha c ||
      Ascii.eqb c "_" || Ascii.eqb c "-" || Ascii.eqb c "%" || Ascii.eqb c "$".

    (** The range-for over the characters, returning [false] at the first
        character that is not allowed. *)
Fixpoint all_chars_ok (s : string) : bool :=
      match s with
      | EmptyString => true
      | String c rest => if negb (name_char_ok c) then false else all_chars_ok rest
      end.

Definition starts_with_dollar (name : string) : bool :=
      match name with
      | String c _ => Ascii.eqb c "$"
      | EmptyString => false
      end.

Definition validName (name : string) : bool :=
      if (String.length name =? 0)%nat
         || (MaxCollectionNameSize <? String.length name)%nat
         || starts_with_dollar name
      then false
      else all_chars_ok name.

    (** The wording of the specification, stated independently. *)
Definition ascii_letter (c : ascii) : Prop :=
      (65 <= nat_of_ascii c <= 90)%nat \/ (97 <= nat_of_ascii c <= 122)%nat.

Definition ascii_digit (c : ascii) : Prop :=
      (48 <= nat_of_ascii c <= 57)%nat.

Definition allowed_char (c : ascii) : Prop :=
      ascii_letter c \/ ascii_digit c \/
      c = "_"%char \/ c = "-"%char \/ c = "%"%char \/ c = "$"%char.

Definition spec_valid_name (s : string) : Prop :=
      s <> EmptyString /\
      (String.length s <= MaxCollectionNameSize)%nat /\
      (forall rest, s <> String "$" rest) /\
      Forall allowed_char (list_ascii_of_string s).

Lemma name_char_ok_spec c : name_char_ok c = true <-> allowed_char c.
    Proof.
      unfold name_char_ok, allowed_char, ascii_letter, ascii_digit,
        CType.isdigit, CType.isalpha, CType.isupper, CType.islower.
      rewrite !orb_true_iff, !andb_true_iff, !Nat.leb_le, !Ascii.eqb_eq.
      tauto.
    Qed.

Lemma all_chars_ok_spec s :
      all_chars_ok s = true <-> Forall allowed_char (list_ascii_of_string s).
    Proof.
      induction s as [|c s IH]; simpl.
      - split; [constructor | reflexivity].
      - destruct (name_char_ok c) eqn:Hc; simpl.
        + rewrite IH. split.
          * intros H. constructor; [by apply name_char_ok_spec | done].
          * by inversion 1.
        + split; [discriminate |].
          inversion 1 as [|? ? Hbad]; subst.
          apply name_char_ok_spec in Hbad. congruence.
    Qed.

Lemma starts_with_dollar_spec s :
      starts_with_dollar s = false <-> forall rest, s <> String "$" rest.
    Proof.
      destruct s as [|c s]; simpl.
      - split; [intros _ rest; discriminate | reflexivity].
      - destruct (Ascii.eqb_spec c "$") as [->|Hne].
        + split; [discriminate | intros H; by destruct (H s)].
        + split; [intros _ rest [= ? ?]; contradiction | reflexivity].
    Qed.

    (** C9. For every string [s], the scope/collection name validator
        accepts [s] if and only if [s] is non-empty, has length at most the
        maximum name size, does not start with '$', and every character is
        an ASCII letter, a digit, or one of '_', '-', '%', '$'. *)
Theorem validName_iff (s : string) :
      validName s = true <-> spec_valid_name s.
    Proof.
      unfold validName, spec_valid_name.
      destruct (String.length s =? 0)%nat eqn:Hlen; simpl.
      { apply Nat.eqb_eq in Hlen. destruct s; [|discriminate].
        split; [discriminate | intros [H _]; by destruct H]. }
      apply Nat.eqb_neq in Hlen.
      destruct (MaxCollectionNameSize <? String.length s)%nat eqn:Hmax; simpl.
      { apply Nat.ltb_lt in Hmax. split; [discriminate | intros (_ & H & _); lia]. }
      apply Nat.ltb_ge in Hmax.
      destruct (starts_with_dollar s) eqn:Hd.
      { split; [discriminate |]. intros (_ & _ & H & _).
        apply starts_with_dollar_spec in H. congruence. }
      rewrite all_chars_ok_spec. split.
      - intros H. repeat split; try done.
        + intros ->. simpl in Hlen. lia.
        + by apply starts_with_dollar_spec.
      - tauto.
    Qed.

(** ** Collections::Manifest: the bucket manifest *)

(** *** Identifiers and their hexadecimal form

    Modelled from the spec: uids are hex strings ([std::hex] on output,
    [makeUid] on input; collections_types.h is not part of the tree). The
    manifest uid has 64 bits, scope and collection ids 32. *)

Definition hex_digit (d : N) : ascii :=
  match d with
  | 0 => "0" | 1 => "1" | 2 => "2" | 3 => "3" | 4 => "4" | 5 => "5"
  | 6 => "6" | 7 => "7" | 8 => "8" | 9 => "9" | 10 => "a" | 11 => "b"
  | 12 => "c" | 13 => "d" | 14 => "e" | _ => "f"
  end%N%char.

(** The value of a character that [std::isxdigit] accepts. *)
Definition hex_value (c : ascii) : option N :=
  let n := N_of_ascii c in
  if (48 <=? n)%N && (n <=? 57)%N then Some (n - 48)%N
  else if (97 <=? n)%N && (n <=? 102)%N then Some (n - 87)%N
  else if (65 <=? n)%N && (n <=? 70)%N then Some (n - 55)%N
  else None.

(** The digits of [n], least significant first. *)
Fixpoint hex_digits (fuel : nat) (n : N) : list ascii :=
  match fuel with
  | O => []
  | S fuel' =>
      hex_digit (n mod 16) ::
      (if (n / 16 =? 0)%N then [] else hex_digits fuel' (n / 16)%N)
  end.

(** [std::hex << n]. *)
Definition to_hex (n : N) : string :=
  string_of_list_ascii (rev (hex_digits (S (N.to_nat (N.log2 n))) n)).

(** [strtoull(s, nullptr, 16)] on a string of hex digits. *)
Fixpoint parse_hex (acc : N) (l : list ascii) : option N :=
  match l with
  | [] => Some acc
  | c :: rest =>
      match hex_value c with
      | Some d => parse_hex (acc * 16 + d)%N rest
      | None => None
      end
  end.

(** [makeUid(uid, len)]: the string must be non-empty, at most [len]
    characters long, and consist of hex digits. *)
Definition makeUid (s : string) (len : nat) : result N :=
  if (String.length s =? 0)%nat || (len <? String.length s)%nat
  then Throw invalid_argument
  else match parse_hex 0 (list_ascii_of_string s) with
       | Some n => Ok n
       | None => Throw invalid_argument
       end.

Definition makeManifestUid (s : string) : result N := makeUid s 16.
Definition makeScopeID (s : string) : result N := makeUid s 8.
Definition makeCollectionID (s : string) : result N := makeUid s 8.

Definition ScopeID_Default : N := 0.
Definition CollectionID_Default : N := 0.
Definition CollectionID_System : N := 1.

(** *** The manifest *)

Record CollectionEntry := {
  ce_id : N;
  ce_maxTtl : option N;
}.

Record Scope := {
  scope_name : string;
  scope_collections : list CollectionEntry;
}.

Record Manifest := {
  defaultCollectionExists : bool;
  scopes : gmap N Scope;
  collections : gmap N string;
  uid : N;
}.

(** *** Decoding *)

(** [cb::getJsonObject]: the member must exist and have the expected type.

    Modelled from the spec and from the declaration in manifest.cc, which
    documents what is returned and what is thrown; the helpers of the JSON
    utilities are outside the tree. *)
Definition getJsonObject (object : Json.json) (key : string)
    (expectedType : Json.value_t) : result Json.json :=
  match Json.find object key with
  | None => Throw invalid_argument
  | Some v =>
      if bool_decide (Json.type v = expectedType) then Ok v
      else Throw invalid_argument
  end.

(** [cb::getOptionalJsonObject]: a member that exists must have the
    expected type. *)
Definition getOptionalJsonObject (object : Json.json) (key : string)
    (expectedType : Json.value_t) : result (option Json.json) :=
  match Json.find object key with
  | None => Ok None
  | Some v =>
      if bool_decide (Json.type v = expectedType) then Ok (Some v)
      else Throw invalid_argument
  end.

Definition throwIfWrongType (object : Json.json) (expectedType : Json.value_t)
  : result unit :=
  if bool_decide (Json.type object = expectedType) then Ok tt
  else Throw invalid_argument.

(** [getJsonObject(...)] followed by [get<std::string>()]. *)
Definition getJsonString (object : Json.json) (key : string) : result string :=
  v ← getJsonObject object key Json.t_string;
  match v with
  | Json.Str s => Ok s
  | _ => Throw invalid_argument
  end.

(** The manifest under construction: the members the constructor fills. *)
Record Partial := {
  p_scopes : gmap N Scope;
  p_collections : gmap N string;
  p_default : bool;
}.

Definition uint32_max : N := 4294967295.

Definition invalidCollectionID (identifier : N) : bool :=
  (identifier =? CollectionID_System)%N.

(** Some collection already read for this scope carries the name. *)
Definition name_taken_in_scope (p : Partial)
    (scopeCollections : list CollectionEntry) (name : string) : bool :=
  existsb (fun itr => match p_collections p !! ce_id itr with
                      | Some existing => String.eqb existing name
                      | None => false
                      end) scopeCollections.

Definition read_maxTtl (cmaxttl : option Json.json) : result (option N) :=
  match cmaxttl with
  | None => Ok None
  | Some (Json.NumberUnsigned value) =>
      if (uint32_max <? value)%N then Throw out_of_range
      else Ok (Some value)
  | Some _ => Throw invalid_argument
  end.

(** The body of the loop over the collections of one scope. *)
Definition read_collection (scopeUid : N)
    (st : Partial * list CollectionEntry) (collection : Json.json)
  : result (Partial * list CollectionEntry) :=
  let '(p, scopeCollections) := st in
  _ ← throwIfWrongType collection Json.t_object;
  cnameValue ← getJsonString collection "name";
  cuid ← getJsonString collection "uid";
  cmaxttl ← getOptionalJsonObject collection "max_ttl" Json.t_number_unsigned;
  if negb (validName cnameValue) then Throw invalid_argument
  else
    cuidValue ← makeCollectionID cuid;
    if invalidCollectionID cuidValue then Throw invalid_argument
    else if bool_decide (is_Some (p_collections p !! cuidValue))
    then Throw invalid_argument
    else if name_taken_in_scope p scopeCollections cnameValue
    then Throw invalid_argument
    else if (cuidValue =? CollectionID_Default)%N
            && negb (scopeUid =? ScopeID_Default)%N
    then Throw invalid_argument
    else
      maxTtl ← read_maxTtl cmaxttl;
      Ok ({| p_scopes := p_scopes p;
             p_collections := <[cuidValue := cnameValue]> (p_collections p);
             p_default := p_default p
                          || (cuidValue =? CollectionID_Default)%N |},
          (scopeCollections
             ++ [{| ce_id := cuidValue; ce_maxTtl := maxTtl |}])%list).

Fixpoint foldlM {A B} (f : B -> A -> result B) (l : list A) (b : B)
  : result B :=
  match l with
  | [] => Ok b
  | a :: rest => b' ← f b a; foldlM f rest b'
  end.

Definition scope_name_taken (p : Partial) (name : string) : bool :=
  bool_decide (map_Exists (fun _ s => scope_name s = name) (p_scopes p)).

(** The body of the loop over the scopes. *)
Definition read_scope (maxNumberOfCollections : nat) (p : Partial)
    (scope : Json.json) : result Partial :=
  _ ← throwIfWrongType scope Json.t_object;
  nameValue ← getJsonString scope "name";
  suid ← getJsonString scope "uid";
  if negb (validName nameValue) then Throw invalid_argument
  else
    uidValue ← makeScopeID suid;
    if bool_decide (is_Some (p_scopes p !! uidValue))
    then Throw invalid_argument
    else if scope_name_taken p nameValue then Throw invalid_argument
    else
      jcollections ← getJsonObject scope "collections" Json.t_array;
      if (maxNumberOfCollections
          <? Json.size jcollections + size (p_collections p))%nat
      then Throw invalid_argument
      else
        '(p, scopeCollections) ←
          foldlM (read_collection uidValue) (Json.elements jcollections) (p, []);
        Ok {| p_scopes :=
                <[uidValue := {| scope_name := nameValue;
                                 scope_collections := scopeCollections |}]>
                  (p_scopes p);
              p_collections := p_collections p;
              p_default := p_default p |}.

Definition Partial_empty : Partial :=
  {| p_scopes := ∅; p_collections := ∅; p_default := false |}.

(** [Manifest::Manifest], from the parsed document on. *)
Definition Manifest_of_json (parsed : Json.json)
    (maxNumberOfScopes maxNumberOfCollections : nat) : result Manifest :=
  jsonUid ← getJsonString parsed "uid";
  muid ← makeManifestUid jsonUid;
  jscopes ← getJsonObject parsed "scopes" Json.t_array;
  if (maxNumberOfScopes <? Json.size jscopes)%nat then Throw invalid_argument
  else
    p ← foldlM (read_scope maxNumberOfCollections) (Json.elements jscopes)
          Partial_empty;
    if bool_decide (p_scopes p = ∅) then Throw invalid_argument
    else if negb (bool_decide (is_Some (p_scopes p !! ScopeID_Default)))
    then Throw invalid_argument
    else Ok {| defaultCollectionExists := p_default p;
               scopes := p_scopes p;
               collections := p_collections p;
               uid := muid |}.

(** *** Encoding

    [toJson] writes the document as text; the model gives the document that
    the text denotes. The names written are valid names, which need no
    escaping. The scopes are visited in the iteration order of the
    unordered map, here the list [order]. *)

Definition collection_toJson (m : Manifest) (c : CollectionEntry)
  : result Json.json :=
  match collections m !! ce_id c with
  | None => Throw out_of_range
  | Some name =>
      Ok (Json.Object
            ((match ce_maxTtl c with
              | Some ttl => [("max_ttl", Json.NumberUnsigned ttl)]
              | None => []
              end ++
              [("name", Json.Str name);
               ("uid", Json.Str (to_hex (ce_id c)))])%list))
  end.

Fixpoint mapM {A B} (f : A -> result B) (l : list A) : result (list B) :=
  match l with
  | [] => Ok []
  | a :: rest => b ← f a; bs ← mapM f rest; Ok (b :: bs)
  end.

Definition scope_toJson (m : Manifest) (entry : N * Scope) : result Json.json :=
  cs ← mapM (collection_toJson m) (scope_collections entry.2);
  Ok (Json.Object [("collections", Json.Array cs);
                   ("name", Json.Str (scope_name entry.2));
                   ("uid", Json.Str (to_hex entry.1))]).

Definition toJson (order : list (N * Scope)) (m : Manifest)
  : result Json.json :=
  ss ← mapM (scope_toJson m) order;
  Ok (Json.Object [("scopes", Json.Array ss);
                   ("uid", Json.Str (to_hex (uid m)))]).

(** *** The hexadecimal form is read back *)

Lemma hex_value_digit (d : N) :
  (d < 16)%N -> hex_value (hex_digit d) = Some d.
Proof.
  intros Hd. destruct d as [|p]; [reflexivity|].
  do 5 (destruct p as [p|p|]; try reflexivity; try lia).
Qed.

Lemma hex_value_bound (c : ascii) (d : N) :
  hex_value c = Some d -> (d < 16)%N.
Proof.
  unfold hex_value.
  repeat match goal with
         | |- context [if ?b then _ else _] =>
             let E := fresh "E" in
             destruct b eqn:E;
             [apply andb_true_iff in E as [?%N.leb_le ?%N.leb_le]|]
         end; intros [= <-]; lia.
Qed.

Lemma parse_hex_app (acc : N) (l : list ascii) (c : ascii) (d : N) :
  hex_value c = Some d ->
  parse_hex acc (l ++ [c]) = (fun a => a * 16 + d)%N <$> parse_hex acc l.
Proof.
  intros Hc. revert acc.
  induction l as [|x l IH]; intros acc; simpl.
  - by rewrite Hc.
  - destruct (hex_value x); [apply IH | reflexivity].
Qed.

Lemma parse_hex_bound (l : list ascii) (acc n : N) (k : nat) :
  parse_hex acc l = Some n ->
  (acc < 16 ^ N.of_nat k)%N ->
  (n < 16 ^ N.of_nat (k + length l))%N.
Proof.
  revert acc k. induction l as [|c l IH]; intros acc k; simpl.
  - intros [= <-]. by rewrite Nat.add_0_r.
  - destruct (hex_value c) as [d|] eqn:Hc; [|done].
    intros Hp Hacc. apply hex_value_bound in Hc.
    replace (k + S (length l))%nat with (S k + length l)%nat by lia.
    apply (IH _ _ Hp).
    rewrite Nat2N.inj_succ, N.pow_succ_r'. lia.
Qed.

Lemma parse_hex_digits (fuel : nat) (n : N) :
  fuel <> 0%nat ->
  (n < 16 ^ N.of_nat fuel)%N ->
  parse_hex 0 (rev (hex_digits fuel n)) = Some n.
Proof.
  revert n. induction fuel as [|fuel IH]; intros n Hf Hn; [done|].
  cbn [hex_digits rev].
  assert (Hd : (n mod 16 < 16)%N) by (apply N.mod_lt; lia).
  rewrite (parse_hex_app _ _ _ _ (hex_value_digit _ Hd)).
  pose proof (N.div_mod n 16 ltac:(lia)) as Hdm.
  destruct (n / 16 =? 0)%N eqn:Hq.
  - apply N.eqb_eq in Hq. simpl. f_equal. lia.
  - apply N.eqb_neq in Hq.
    rewrite Nat2N.inj_succ, N.pow_succ_r' in Hn.
    rewrite IH.
    + simpl. f_equal. lia.
    + intros ->. change (N.of_nat 0) with 0%N in Hn.
      rewrite N.pow_0_r in Hn. apply Hq, N.div_small. lia.
    + apply N.Div0.div_lt_upper_bound; lia.
Qed.

Lemma hex_digits_length (fuel k : nat) (n : N) :
  k <> 0%nat ->
  (n < 16 ^ N.of_nat k)%N ->
  (1 <= length (hex_digits (S fuel) n) <= k)%nat.
Proof.
  revert n k. induction fuel as [|fuel IH]; intros n k Hk Hn.
  - cbn [hex_digits]. destruct (n / 16 =? 0)%N; simpl; lia.
  - change (hex_digits (S (S fuel)) n)
      with (hex_digit (n mod 16) ::
            (if (n / 16 =? 0)%N then [] else hex_digits (S fuel) (n / 16)%N)).
    destruct (n / 16 =? 0)%N eqn:Hq; [simpl; lia|].
    apply N.eqb_neq in Hq.
    destruct k as [|k]; [done|].
    rewrite Nat2N.inj_succ, N.pow_succ_r' in Hn.
    assert (k <> 0%nat).
    { intros ->. change (N.of_nat 0) with 0%N in Hn.
      rewrite N.pow_0_r in Hn. apply Hq, N.div_small. lia. }
    assert ((n / 16 < 16 ^ N.of_nat k)%N)
      by (apply N.Div0.div_lt_upper_bound; lia).
    cbn [length]. specialize (IH (n / 16)%N k). lia.
Qed.

Lemma string_of_list_ascii_length (l : list ascii) :
  String.length (string_of_list_ascii l) = length l.
Proof. induction l; simpl; congruence. Qed.

Lemma to_hex_fuel (n : N) :
  (n < 16 ^ N.of_nat (S (N.to_nat (N.log2 n))))%N.
Proof.
  rewrite Nat2N.inj_succ, N2Nat.id.
  destruct (N.eq_dec n 0%N) as [->|Hn]; [done|].
  apply N.lt_le_trans with (2 ^ N.succ (N.log2 n))%N.
  - apply N.log2_spec. lia.
  - apply N.pow_le_mono_l. lia.
Qed.

Lemma makeUid_to_hex (n : N) (len : nat) :
  len <> 0%nat ->
  (n < 16 ^ N.of_nat len)%N ->
  makeUid (to_hex n) len = Ok n.
Proof.
  intros Hlen Hn. unfold makeUid, to_hex.
  rewrite string_of_list_ascii_length, length_rev.
  pose proof (hex_digits_length (N.to_nat (N.log2 n)) len n Hlen Hn) as Hl.
  destruct (Nat.eqb_spec (length (hex_digits (S (N.to_nat (N.log2 n))) n)) 0);
    [lia|].
  destruct (Nat.ltb_spec len
              (length (hex_digits (S (N.to_nat (N.log2 n))) n))); [lia|].
  cbn [orb]. rewrite list_ascii_of_string_of_list_ascii.
  by rewrite parse_hex_digits by (done || apply to_hex_fuel).
Qed.

Lemma makeUid_bound (s : string) (len : nat) (n : N) :
  makeUid s len = Ok n -> (n < 16 ^ N.of_nat len)%N.
Proof.
  unfold makeUid.
  destruct (Nat.eqb_spec (String.length s) 0); [done|].
  destruct (Nat.ltb_spec len (String.length s)); [done|]. cbn [orb].
  destruct (parse_hex 0 (list_ascii_of_string s)) as [v|] eqn:Hp; [|done].
  intros [= <-].
  apply (parse_hex_bound _ _ _ 0) in Hp; [|done].
  eapply N.lt_le_trans; [exact Hp|].
  apply N.pow_le_mono_r; [lia|].
  assert (length (list_ascii_of_string s) = String.length s) as ->.
  { clear. induction s; simpl; congruence. }
  lia.
Qed.

(** *** What the constructor guarantees *)

Definition id_bound : N := (16 ^ N.of_nat 8)%N.
Definition uid_bound : N := (16 ^ N.of_nat 16)%N.

(** The names of the collections listed for a scope, as the collection map
    gives them. *)
Definition names_of (colls : gmap N string) (cs : list CollectionEntry)
  : list (option string) :=
  (fun c => colls !! ce_id c) <$> cs.

Definition entry_ok (colls : gmap N string) (sid : N) (c : CollectionEntry)
  : Prop :=
  (ce_id c < id_bound)%N /\
  ce_id c <> CollectionID_System /\
  (ce_id c = CollectionID_Default -> sid = ScopeID_Default) /\
  (forall ttl, ce_maxTtl c = Some ttl -> (ttl <= uint32_max)%N) /\
  (exists name, colls !! ce_id c = Some name /\ validName name = true).

Definition entries_ok (colls : gmap N string) (sid : N)
    (cs : list CollectionEntry) : Prop :=
  Forall (entry_ok colls sid) cs /\ NoDup (names_of colls cs).

Definition scope_ok (colls : gmap N string) (sid : N) (s : Scope) : Prop :=
  (sid < id_bound)%N /\
  validName (scope_name s) = true /\
  entries_ok colls sid (scope_collections s).

(** The scope map, the collection map and the default-collection flag fit
    together. *)
Record consistent (ss : gmap N Scope) (colls : gmap N string) (dflt : bool)
  : Prop := {
  c_scopes : map_Forall (scope_ok colls) ss;
  c_scope_names : forall sid1 sid2 s1 s2,
      ss !! sid1 = Some s1 -> ss !! sid2 = Some s2 ->
      scope_name s1 = scope_name s2 -> sid1 = sid2;
  c_disjoint : forall sid1 sid2 s1 s2 c1 c2,
      ss !! sid1 = Some s1 -> ss !! sid2 = Some s2 ->
      c1 ∈ scope_collections s1 -> c2 ∈ scope_collections s2 ->
      ce_id c1 = ce_id c2 -> sid1 = sid2;
  c_owned : forall cid,
      is_Some (colls !! cid) ->
      exists sid s c, ss !! sid = Some s /\ c ∈ scope_collections s
                      /\ ce_id c = cid;
  c_default : dflt = bool_decide (is_Some (colls !! CollectionID_Default));
}.

(** A manifest as the constructor leaves it. *)
Record valid (maxNumberOfScopes maxNumberOfCollections : nat) (m : Manifest)
  : Prop := {
  v_consistent :
    consistent (scopes m) (collections m) (defaultCollectionExists m);
  v_uid : (uid m < uid_bound)%N;
  v_scopes : size (scopes m) <= maxNumberOfScopes;
  v_collections : size (collections m) <= maxNumberOfCollections;
  v_default_scope : is_Some (scopes m !! ScopeID_Default);
}.

Definition consistent_partial (p : Partial) : Prop :=
  consistent (p_scopes p) (p_collections p) (p_default p).

Lemma consistent_empty : consistent_partial Partial_empty.
Proof.
  split; simpl.
  - apply map_Forall_empty.
  - intros ???? H. by rewrite lookup_empty in H.
  - intros ?????? H. by rewrite lookup_empty in H.
  - intros cid [? H]. by rewrite lookup_empty in H.
  - rewrite lookup_empty. symmetry. apply bool_decide_eq_false.
    by intros [? ?].
Qed.

Lemma entry_ok_listed (colls : gmap N string) (sid : N) (c : CollectionEntry) :
  entry_ok colls sid c -> is_Some (colls !! ce_id c).
Proof. intros (_ & _ & _ & _ & name & -> & _). by eexists. Qed.

Lemma names_of_insert (colls : gmap N string) (sid cid : N) (cname : string)
    (cs : list CollectionEntry) :
  Forall (entry_ok colls sid) cs ->
  colls !! cid = None ->
  names_of (<[cid := cname]> colls) cs = names_of colls cs.
Proof.
  intros Hall Hfresh. unfold names_of. apply list_fmap_ext.
  intros i c Hc. rewrite lookup_insert_ne; [done|].
  intros ->.
  apply (Forall_lookup_1 _ _ _ _ Hall), entry_ok_listed in Hc.
  rewrite Hfresh in Hc. by destruct Hc.
Qed.

Lemma entry_ok_insert (colls : gmap N string) (sid cid : N) (cname : string)
    (c : CollectionEntry) :
  colls !! cid = None ->
  entry_ok colls sid c -> entry_ok (<[cid := cname]> colls) sid c.
Proof.
  intros Hfresh (? & ? & ? & ? & name & Hn & ?).
  repeat split; try done. exists name. split; [|done].
  rewrite lookup_insert_ne; [done|]. intros ->. congruence.
Qed.

Lemma entries_ok_insert (colls : gmap N string) (sid cid : N) (cname : string)
    (cs : list CollectionEntry) :
  colls !! cid = None ->
  entries_ok colls sid cs -> entries_ok (<[cid := cname]> colls) sid cs.
Proof.
  intros Hfresh [Hall Hnd]. split.
  - eapply Forall_impl; [exact Hall|]. intros c. by apply entry_ok_insert.
  - by rewrite (names_of_insert _ sid).
Qed.

(** A scope that is new to the manifest is added, as yet without
    collections. *)
Lemma add_scope_consistent (ss : gmap N Scope) (colls : gmap N string)
    (dflt : bool) (sid : N) (name : string) :
  consistent ss colls dflt ->
  ss !! sid = None ->
  (sid < id_bound)%N ->
  validName name = true ->
  (forall sid' s', ss !! sid' = Some s' -> scope_name s' <> name) ->
  consistent
    (<[sid := {| scope_name := name; scope_collections := [] |}]> ss)
    colls dflt.
Proof.
  intros [Hs Hn Hd Ho Hdf] Hfresh Hsid Hname Hunique. split.
  - apply map_Forall_insert_2; [|done].
    repeat split; try done; (apply Forall_nil_2 || apply NoDup_nil_2).
  - intros sid1 sid2 s1 s2.
    rewrite !lookup_insert.
    repeat case_decide; intros; simplify_eq/=; try done.
    + by edestruct Hunique.
    + by edestruct Hunique.
    + eauto.
  - intros sid1 sid2 s1 s2 c1 c2.
    rewrite !lookup_insert.
    repeat case_decide; intros; simplify_eq/=; try done;
      try (by match goal with H : _ ∈ [] |- _ => apply elem_of_nil in H end).
    eauto.
  - intros cid Hc. destruct (Ho cid Hc) as (sid' & s' & c & Hl & Hin & Hid).
    exists sid', s', c. split; [|done].
    rewrite lookup_insert_ne; [done|]. intros <-. congruence.
  - done.
Qed.

(** A collection that is new to the manifest is added to a scope. *)
Lemma add_collection_consistent (ss : gmap N Scope) (colls : gmap N string)
    (dflt : bool) (sid : N) (s : Scope) (cid : N) (cname : string)
    (ttl : option N) :
  consistent ss colls dflt ->
  ss !! sid = Some s ->
  colls !! cid = None ->
  (cid < id_bound)%N ->
  cid <> CollectionID_System ->
  (cid = CollectionID_Default -> sid = ScopeID_Default) ->
  (forall t, ttl = Some t -> (t <= uint32_max)%N) ->
  validName cname = true ->
  (forall c, c ∈ scope_collections s -> colls !! ce_id c <> Some cname) ->
  consistent
    (<[sid := {| scope_name := scope_name s;
                 scope_collections :=
                   (scope_collections s
                      ++ [{| ce_id := cid; ce_maxTtl := ttl |}])%list |}]> ss)
    (<[cid := cname]> colls)
    (dflt || (cid =? CollectionID_Default)%N).
Proof.
  intros [Hs Hn Hd Ho Hdf] Hsid Hfresh Hcid Hsys Hdef Httl Hname Hunique.
  assert (Hold : forall sid' s' c, ss !! sid' = Some s' ->
                   c ∈ scope_collections s' -> ce_id c <> cid).
  { intros sid' s' c Hl Hin <-.
    destruct (Hs _ _ Hl) as (_ & _ & Hall & _).
    rewrite Forall_forall in Hall.
    apply Hall, entry_ok_listed in Hin. rewrite Hfresh in Hin.
    by destruct Hin. }
  split.
  - apply map_Forall_insert_2.
    + destruct (Hs _ _ Hsid) as (? & ? & Hall & Hnd).
      repeat split; try done; simpl.
      * apply Forall_app. split.
        { eapply Forall_impl; [exact Hall|].
          intros c. by apply entry_ok_insert. }
        apply Forall_singleton. repeat split; try done.
        exists cname. simpl. by rewrite lookup_insert_eq.
      * unfold names_of. rewrite fmap_app.
        fold (names_of (<[cid:=cname]> colls) (scope_collections s)).
        rewrite (names_of_insert _ sid) by done. simpl.
        rewrite lookup_insert_eq.
        apply NoDup_app. split; [done|]. split; [|apply NoDup_singleton].
        intros x Hx ->%list_elem_of_singleton.
        apply list_elem_of_fmap in Hx as (c & Hc & Hin).
        by eapply Hunique.
    + intros sid' s' Hl.
      destruct (Hs _ _ Hl) as (? & ? & ?).
      split; [done|]. split; [done|]. by apply entries_ok_insert.
  - intros sid1 sid2 s1 s2.
    rewrite !lookup_insert.
    repeat case_decide; intros; simplify_eq/=; eauto.
  - intros sid1 sid2 s1 s2 c1 c2.
    rewrite !lookup_insert.
    repeat case_decide; intros H1 H2 Hc1 Hc2 Hid; simplify_eq/=; try done.
    + apply elem_of_app in Hc1 as [Hc1 | ->%list_elem_of_singleton].
      * eauto.
      * simpl in Hid. symmetry in Hid. by edestruct Hold.
    + apply elem_of_app in Hc2 as [Hc2 | ->%list_elem_of_singleton].
      * eauto.
      * simpl in Hid. by edestruct Hold.
    + eauto.
  - intros cid'. rewrite lookup_insert. case_decide as Hc; subst.
    + intros _.
      eexists sid, _, {| ce_id := cid'; ce_maxTtl := ttl |}.
      rewrite lookup_insert_eq.
      split; [reflexivity|]. simpl. split; [|done].
      apply elem_of_app. right. by apply list_elem_of_singleton.
    + intros Hsome.
      destruct (Ho _ Hsome) as (sid' & s' & c & Hl & Hin & Hid).
      destruct (decide (sid' = sid)) as [->|Hne].
      * eexists sid, _, c. rewrite lookup_insert_eq.
        split; [reflexivity|]. simpl. split; [|done].
        apply elem_of_app. left. congruence.
      * exists sid', s', c. by rewrite lookup_insert_ne.
  - rewrite lookup_insert. case_decide as Hc.
    + subst. rewrite N.eqb_refl, orb_true_r. symmetry.
      by apply bool_decide_eq_true.
    + apply N.eqb_neq in Hc. rewrite Hc, orb_false_r. done.
Qed.

(** *** The constructor establishes the invariant *)

Lemma bind_Ok {A B} (r : result A) (k : A -> result B) (b : B) :
  r ≫= k = Ok b -> exists a, r = Ok a /\ k a = Ok b.
Proof. destruct r as [a|e]; [|done]. intros H. by exists a. Qed.

(** One step through a successful run: the next call returned ... *)
Tactic Notation "returned" hyp(H) "as" ident(x) ident(E) :=
  apply bind_Ok in H as (x & E & H); cbv beta in H.

(** ... or the next check passed. *)
Tactic Notation "passed" hyp(H) "as" ident(E) :=
  lazymatch type of H with
  | (if ?b then Throw _ else _) = Ok _ =>
      destruct b eqn:E; [discriminate H|]
  end.

Lemma name_taken_in_scope_false (p : Partial) (acc : list CollectionEntry)
    (name : string) :
  name_taken_in_scope p acc name = false ->
  forall c, c ∈ acc -> p_collections p !! ce_id c <> Some name.
Proof.
  unfold name_taken_in_scope. intros H c Hin Heq.
  assert (existsb (fun itr => match p_collections p !! ce_id itr with
                              | Some existing => String.eqb existing name
                              | None => false
                              end) acc = true) as Ht; [|congruence].
  apply existsb_exists. exists c. split; [by apply list_elem_of_In|].
  rewrite Heq. apply String.eqb_refl.
Qed.

Lemma scope_name_taken_false (p : Partial) (name : string) :
  scope_name_taken p name = false ->
  forall sid s, p_scopes p !! sid = Some s -> scope_name s <> name.
Proof.
  unfold scope_name_taken. intros H%bool_decide_eq_false sid s Hl Hn.
  apply H. by exists sid, s.
Qed.

Lemma read_maxTtl_bound (j : option Json.json) (ttl : option N) :
  read_maxTtl j = Ok ttl ->
  forall t, ttl = Some t -> (t <= uint32_max)%N.
Proof.
  unfold read_maxTtl. destruct j as [[]|]; try done.
  - destruct (N.ltb_spec uint32_max n); [done|]. by intros [= <-] t [= <-].
  - by intros [= <-].
Qed.

Lemma read_collection_consistent (sid : N) (name : string) (p p' : Partial)
    (acc acc' : list CollectionEntry) (j : Json.json) :
  read_collection sid (p, acc) j = Ok (p', acc') ->
  consistent
    (<[sid := {| scope_name := name; scope_collections := acc |}]>
       (p_scopes p))
    (p_collections p) (p_default p) ->
  consistent
    (<[sid := {| scope_name := name; scope_collections := acc' |}]>
       (p_scopes p'))
    (p_collections p') (p_default p')
  /\ p_scopes p' = p_scopes p
  /\ size (p_collections p') <= S (size (p_collections p)).
Proof.
  intros H Hc. unfold read_collection in H.
  returned H as u Eobject. returned H as cname Ecname.
  returned H as cuid Ecuid. returned H as cmaxttl Ecmaxttl.
  passed H as Evalid. returned H as cid Ecid.
  passed H as Esystem. passed H as Ecount. passed H as Etaken.
  passed H as Edefault. returned H as maxTtl EmaxTtl.
  injection H as <- <-. cbn [p_scopes p_collections p_default].
  apply negb_false_iff in Evalid.
  apply makeUid_bound in Ecid.
  apply N.eqb_neq in Esystem.
  apply bool_decide_eq_false in Ecount.
  assert (p_collections p !! cid = None) as Hfresh.
  { destruct (p_collections p !! cid) eqn:Hl; [|done].
    destruct Ecount. by eexists. }
  split; [|split; [done|]].
  - eapply add_collection_consistent in Hc;
      [ | apply lookup_insert_eq | exact Hfresh | exact Ecid | exact Esystem
        | | exact (read_maxTtl_bound _ _ EmaxTtl) | exact Evalid
        | exact (name_taken_in_scope_false _ _ _ Etaken) ].
    + cbn [scope_name scope_collections] in Hc.
      by rewrite insert_insert_eq in Hc.
    + intros ->. rewrite N.eqb_refl in Edefault. cbn [andb] in Edefault.
      by apply negb_false_iff, N.eqb_eq in Edefault.
  - by rewrite map_size_insert_None.
Qed.

Lemma read_collections_consistent (sid : N) (name : string)
    (js : list Json.json) (p p' : Partial) (acc acc' : list CollectionEntry) :
  foldlM (read_collection sid) js (p, acc) = Ok (p', acc') ->
  consistent
    (<[sid := {| scope_name := name; scope_collections := acc |}]>
       (p_scopes p))
    (p_collections p) (p_default p) ->
  consistent
    (<[sid := {| scope_name := name; scope_collections := acc' |}]>
       (p_scopes p'))
    (p_collections p') (p_default p')
  /\ p_scopes p' = p_scopes p
  /\ size (p_collections p') <= size (p_collections p) + length js.
Proof.
  revert p acc. induction js as [|j js IH]; intros p acc H Hc.
  - injection H as <- <-. split; [done|]. split; [done|lia].
  - cbn [foldlM] in H. returned H as st E. destruct st as [p1 acc1].
    destruct (read_collection_consistent _ name _ _ _ _ _ E Hc)
      as (Hc1 & Hs1 & Hsz1).
    destruct (IH _ _ H Hc1) as (Hc2 & Hs2 & Hsz2).
    split; [done|]. split; [congruence|]. cbn [length]. lia.
Qed.

Lemma getJsonObject_array (object v : Json.json) (key : string) :
  getJsonObject object key Json.t_array = Ok v ->
  exists l, v = Json.Array l.
Proof.
  unfold getJsonObject. destruct (Json.find object key) as [w|]; [|done].
  case_bool_decide as Ht; [|done]. intros [= <-].
  destruct w; try done. by eexists.
Qed.

Lemma read_scope_consistent (maxNumberOfCollections : nat) (p p' : Partial)
    (j : Json.json) :
  read_scope maxNumberOfCollections p j = Ok p' ->
  consistent_partial p ->
  consistent_partial p'
  /\ size (p_collections p') <= maxNumberOfCollections
  /\ size (p_scopes p') <= S (size (p_scopes p)).
Proof.
  intros H Hc. unfold read_scope in H.
  returned H as u Eobject. returned H as name Ename.
  returned H as suid Esuid. passed H as Evalid.
  returned H as sid Esid. passed H as Ecount. passed H as Etaken.
  returned H as jcollections Ecollections. passed H as Elimit.
  returned H as st Eloop. destruct st as [p1 acc1].
  injection H as <-. unfold consistent_partial.
  cbn [p_scopes p_collections p_default].
  apply negb_false_iff in Evalid.
  apply makeUid_bound in Esid.
  apply bool_decide_eq_false in Ecount.
  assert (p_scopes p !! sid = None) as Hfresh.
  { destruct (p_scopes p !! sid) eqn:Hl; [|done].
    destruct Ecount. by eexists. }
  apply Nat.ltb_ge in Elimit.
  destruct (getJsonObject_array _ _ _ Ecollections) as [l ->].
  cbn [Json.size Json.elements] in *.
  pose proof (add_scope_consistent _ _ _ sid name Hc Hfresh Esid Evalid
                (scope_name_taken_false _ _ Etaken)) as Hc0.
  destruct (read_collections_consistent _ _ _ _ _ _ _ Eloop Hc0)
    as (Hc1 & Hs1 & Hsz1).
  split; [exact Hc1|]. split; [lia|].
  rewrite Hs1. by rewrite map_size_insert_None.
Qed.

Lemma read_scopes_consistent (maxNumberOfCollections : nat)
    (js : list Json.json) (p p' : Partial) :
  foldlM (read_scope maxNumberOfCollections) js p = Ok p' ->
  consistent_partial p ->
  size (p_collections p) <= maxNumberOfCollections ->
  consistent_partial p'
  /\ size (p_collections p') <= maxNumberOfCollections
  /\ size (p_scopes p') <= size (p_scopes p) + length js.
Proof.
  revert p. induction js as [|j js IH]; intros p H Hc Hsz.
  - injection H as <-. split; [done|]. split; [done|lia].
  - cbn [foldlM] in H. returned H as p1 E.
    destruct (read_scope_consistent _ _ _ _ E Hc) as (Hc1 & Hsz1 & Hn1).
    destruct (IH _ H Hc1 Hsz1) as (Hc2 & Hsz2 & Hn2).
    split; [done|]. split; [done|]. cbn [length]. lia.
Qed.

Lemma Manifest_of_json_valid (parsed : Json.json)
    (maxNumberOfScopes maxNumberOfCollections : nat) (m : Manifest) :
  Manifest_of_json parsed maxNumberOfScopes maxNumberOfCollections = Ok m ->
  valid maxNumberOfScopes maxNumberOfCollections m.
Proof.
  intros H. unfold Manifest_of_json in H.
  returned H as jsonUid EjsonUid. returned H as muid Emuid.
  returned H as jscopes Ejscopes. passed H as Elimit.
  returned H as p Eloop. passed H as Eempty. passed H as Edefault.
  injection H as <-.
  apply makeUid_bound in Emuid. apply Nat.ltb_ge in Elimit.
  apply negb_false_iff, bool_decide_eq_true in Edefault.
  destruct (getJsonObject_array _ _ _ Ejscopes) as [l ->].
  cbn [Json.size Json.elements] in *.
  destruct (read_scopes_consistent _ _ _ _ Eloop consistent_empty)
    as (Hc & Hsz & Hn).
  { simpl. rewrite map_size_empty. lia. }
  simpl in Hn. rewrite map_size_empty in Hn.
  split; cbn [scopes collections defaultCollectionExists uid];
    try done; lia.
Qed.

(** *** Reading back what [toJson] wrote *)

Ltac simpl_bind := cbn [mbind result_bind rbind].

(** The documents [toJson] writes for a collection and for a scope. *)
Definition collection_doc (name : string) (c : CollectionEntry) : Json.json :=
  Json.Object
    ((match ce_maxTtl c with
      | Some ttl => [("max_ttl", Json.NumberUnsigned ttl)]
      | None => []
      end ++
      [("name", Json.Str name); ("uid", Json.Str (to_hex (ce_id c)))])%list).

Definition scope_doc (name : string) (sid : N) (js : list Json.json)
  : Json.json :=
  Json.Object [("collections", Json.Array js);
               ("name", Json.Str name);
               ("uid", Json.Str (to_hex sid))].

Definition ids_of (cs : list CollectionEntry) : gset N :=
  list_to_set (ce_id <$> cs).

Lemma collection_toJson_doc (m : Manifest) (c : CollectionEntry)
    (name : string) :
  collections m !! ce_id c = Some name ->
  collection_toJson m c = Ok (collection_doc name c).
Proof. intros H. unfold collection_toJson. by rewrite H. Qed.

Lemma collection_doc_name (name : string) (c : CollectionEntry) :
  getJsonString (collection_doc name c) "name" = Ok name.
Proof. by destruct c as [cid [ttl|]]. Qed.

Lemma collection_doc_uid (name : string) (c : CollectionEntry) :
  getJsonString (collection_doc name c) "uid" = Ok (to_hex (ce_id c)).
Proof. by destruct c as [cid [ttl|]]. Qed.

Lemma collection_doc_max_ttl (name : string) (c : CollectionEntry) :
  getOptionalJsonObject (collection_doc name c) "max_ttl"
    Json.t_number_unsigned
  = Ok (Json.NumberUnsigned <$> ce_maxTtl c).
Proof. by destruct c as [cid [ttl|]]. Qed.

Lemma read_maxTtl_doc (ttl : option N) :
  (forall t, ttl = Some t -> (t <= uint32_max)%N) ->
  read_maxTtl (Json.NumberUnsigned <$> ttl) = Ok ttl.
Proof.
  destruct ttl as [t|]; [|done]. intros H. simpl.
  destruct (N.ltb_spec uint32_max t); [|done].
  specialize (H t eq_refl). lia.
Qed.

Lemma bool_decide_is_Some_None {A} (o : option A)
    `{!Decision (is_Some o)} :
  o = None -> bool_decide (is_Some o) = false.
Proof. intros ->. apply bool_decide_eq_false_2. by intros [? ?]. Qed.

(** A collection that passes the checks is read back as it was written. *)
Lemma read_collection_doc (sid : N) (p : Partial)
    (acc : list CollectionEntry) (c : CollectionEntry) (name : string) :
  validName name = true ->
  (ce_id c < id_bound)%N ->
  ce_id c <> CollectionID_System ->
  p_collections p !! ce_id c = None ->
  name_taken_in_scope p acc name = false ->
  (ce_id c = CollectionID_Default -> sid = ScopeID_Default) ->
  (forall t, ce_maxTtl c = Some t -> (t <= uint32_max)%N) ->
  read_collection sid (p, acc) (collection_doc name c)
  = Ok ({| p_scopes := p_scopes p;
           p_collections := <[ce_id c := name]> (p_collections p);
           p_default := p_default p
                        || (ce_id c =? CollectionID_Default)%N |},
        (acc ++ [c])%list).
Proof.
  intros Hname Hid Hsys Hfresh Htaken Hdef Httl. unfold read_collection.
  assert (throwIfWrongType (collection_doc name c) Json.t_object = Ok tt)
    as -> by done.
  simpl_bind.
  rewrite collection_doc_name, collection_doc_uid, collection_doc_max_ttl.
  simpl_bind. rewrite Hname. cbn [negb].
  unfold makeCollectionID. rewrite makeUid_to_hex by done. simpl_bind.
  unfold invalidCollectionID.
  apply N.eqb_neq in Hsys. rewrite Hsys.
  rewrite (bool_decide_is_Some_None _ Hfresh), Htaken.
  assert ((ce_id c =? CollectionID_Default)%N
          && negb (sid =? ScopeID_Default)%N = false) as ->.
  { destruct (N.eqb_spec (ce_id c) CollectionID_Default) as [Hc|]; [|done].
    rewrite (Hdef Hc). done. }
  rewrite read_maxTtl_doc by done. simpl_bind. by destruct c.
Qed.

Lemma names_of_ids (colls : gmap N string) (cs : list CollectionEntry) :
  NoDup (names_of colls cs) -> NoDup (ce_id <$> cs).
Proof.
  unfold names_of. intros H.
  apply (NoDup_fmap_1 (fun cid => colls !! cid)).
  by rewrite <- list_fmap_compose.
Qed.

(** The collections of one scope are read back one after the other. *)
Lemma read_collections_docs (m : Manifest) (sid : N)
    (todo : list CollectionEntry) (p : Partial)
    (acc : list CollectionEntry) :
  Forall (entry_ok (collections m) sid) todo ->
  NoDup (names_of (collections m) (acc ++ todo)) ->
  p_collections p ⊆ collections m ->
  p_default p
  = bool_decide (is_Some (p_collections p !! CollectionID_Default)) ->
  (forall c, c ∈ todo -> p_collections p !! ce_id c = None) ->
  (forall c, c ∈ acc ->
             p_collections p !! ce_id c = collections m !! ce_id c) ->
  exists js p',
    mapM (collection_toJson m) todo = Ok js
    /\ length js = length todo
    /\ foldlM (read_collection sid) js (p, acc) = Ok (p', (acc ++ todo)%list)
    /\ p_scopes p' = p_scopes p
    /\ p_collections p' ⊆ collections m
    /\ p_default p'
       = bool_decide (is_Some (p_collections p' !! CollectionID_Default))
    /\ dom (p_collections p') = dom (p_collections p) ∪ ids_of todo.
Proof.
  revert p acc.
  induction todo as [|c todo IH]; intros p acc Hall Hnd Hsub Hdf Hfresh Hacc.
  - exists [], p. rewrite app_nil_r. repeat split; try done.
    unfold ids_of. cbn [fmap list_fmap list_to_set foldr].
    by rewrite (right_id_L ∅ (∪)).
  - apply Forall_cons in Hall as [Hc Hall].
    destruct Hc as (Hid & Hsys & Hdef & Httl & name & Hname & Hvalid).
    assert (Hnd' := Hnd). unfold names_of in Hnd'.
    rewrite fmap_app, fmap_cons, Hname in Hnd'.
    apply NoDup_app in Hnd' as (_ & Hacc_names & Htodo_names).
    apply NoDup_cons in Htodo_names as [Htodo_names _].
    assert (name_taken_in_scope p acc name = false) as Htaken.
    { unfold name_taken_in_scope.
      destruct (existsb _ acc) eqn:E; [|done].
      apply existsb_exists in E as (c' & Hin%list_elem_of_In & Hc').
      rewrite (Hacc _ Hin) in Hc'.
      destruct (collections m !! ce_id c') as [name'|] eqn:Hl; [|done].
      apply String.eqb_eq in Hc' as ->.
      destruct (Hacc_names (Some name)).
      - apply list_elem_of_fmap. by exists c'.
      - apply list_elem_of_here. }
    pose proof (read_collection_doc sid p acc c name Hvalid Hid Hsys
                  (Hfresh c ltac:(apply list_elem_of_here)) Htaken Hdef Httl)
      as Hstep.
    set (p1 := {| p_scopes := p_scopes p;
                  p_collections := <[ce_id c := name]> (p_collections p);
                  p_default := p_default p
                               || (ce_id c =? CollectionID_Default)%N |})
      in Hstep.
    destruct (IH p1 (acc ++ [c])%list) as (js & p' & Hjs & Hlen & Hrun & Hs
                                            & Hsub' & Hdf' & Hdom);
      try done.
    + by rewrite <- app_assoc.
    + by apply insert_subseteq_l.
    + unfold p1. cbn [p_collections p_default].
      rewrite lookup_insert. case_decide as Hcd.
      * rewrite Hcd, N.eqb_refl, orb_true_r. symmetry.
        by apply bool_decide_eq_true.
      * apply N.eqb_neq in Hcd. by rewrite Hcd, orb_false_r.
    + intros c' Hin. unfold p1. cbn [p_collections].
      rewrite lookup_insert_ne.
      * apply Hfresh. by apply list_elem_of_further.
      * intros Heq. apply Htodo_names.
        apply list_elem_of_fmap. exists c'. by rewrite <- Heq.
    + intros c' Hin. unfold p1. cbn [p_collections].
      rewrite lookup_insert. case_decide as Hcd.
      * by rewrite <- Hcd.
      * apply Hacc. apply elem_of_app in Hin as [|Hin]; [done|].
        apply list_elem_of_singleton in Hin as ->. done.
    + exists (collection_doc name c :: js), p'.
      cbn [mapM foldlM].
      rewrite (collection_toJson_doc _ _ _ Hname). simpl_bind.
      rewrite Hjs, Hstep. simpl_bind.
      rewrite <- app_assoc in Hrun.
      repeat split; try done.
      * cbn [length]. by rewrite Hlen.
      * rewrite Hdom. unfold p1, ids_of. cbn [p_collections].
        rewrite dom_insert_L. cbn [fmap list_fmap list_to_set foldr].
        rewrite (comm_L (∪) {[ce_id c]}). by rewrite <- (assoc_L (∪)).
Qed.

Lemma scope_doc_name (name : string) (sid : N) (js : list Json.json) :
  getJsonString (scope_doc name sid js) "name" = Ok name.
Proof. done. Qed.

Lemma scope_doc_uid (name : string) (sid : N) (js : list Json.json) :
  getJsonString (scope_doc name sid js) "uid" = Ok (to_hex sid).
Proof. done. Qed.

Lemma scope_doc_collections (name : string) (sid : N) (js : list Json.json) :
  getJsonObject (scope_doc name sid js) "collections" Json.t_array
  = Ok (Json.Array js).
Proof. done. Qed.

Lemma elem_of_ids_of (c : CollectionEntry) (cs : list CollectionEntry) :
  c ∈ cs -> ce_id c ∈ ids_of cs.
Proof.
  intros H. unfold ids_of. apply elem_of_list_to_set, list_elem_of_fmap.
  by exists c.
Qed.

Lemma ids_of_listed (colls : gmap N string) (sid : N)
    (cs : list CollectionEntry) :
  Forall (entry_ok colls sid) cs -> ids_of cs ⊆ dom colls.
Proof.
  intros Hall cid Hin. unfold ids_of in Hin.
  apply elem_of_list_to_set, list_elem_of_fmap in Hin as (c & -> & Hin).
  apply elem_of_dom. rewrite Forall_forall in Hall.
  by eapply entry_ok_listed, Hall.
Qed.

(** The collections already read and those of a scope yet to be read fit
    within the limit that the manifest as a whole respects. *)
Lemma collections_within_limit (m : Manifest) (p : Partial) (sid : N)
    (cs : list CollectionEntry) :
  entries_ok (collections m) sid cs ->
  p_collections p ⊆ collections m ->
  dom (p_collections p) ## ids_of cs ->
  length cs + size (p_collections p) <= size (collections m).
Proof.
  intros [Hall Hnd] Hsub Hdisj.
  rewrite <- (size_dom (D := gset N) (p_collections p)).
  rewrite <- (size_dom (D := gset N) (collections m)).
  rewrite <- (length_fmap ce_id cs).
  rewrite <- (size_list_to_set (C := gset N) (ce_id <$> cs))
    by by eapply names_of_ids.
  fold (ids_of cs). rewrite Nat.add_comm, <- size_union by done.
  apply subseteq_size, union_least.
  - by apply subseteq_dom.
  - by eapply ids_of_listed.
Qed.

(** A scope of the manifest that has not been read yet is read back as it
    was written. *)
Lemma read_scope_doc (m : Manifest) (maxNumberOfCollections : nat)
    (p : Partial) (sid : N) (s : Scope) :
  consistent (scopes m) (collections m) (defaultCollectionExists m) ->
  size (collections m) <= maxNumberOfCollections ->
  scopes m !! sid = Some s ->
  p_scopes p ⊆ scopes m ->
  p_scopes p !! sid = None ->
  p_collections p ⊆ collections m ->
  dom (p_collections p) ## ids_of (scope_collections s) ->
  p_default p
  = bool_decide (is_Some (p_collections p !! CollectionID_Default)) ->
  exists j p',
    scope_toJson m (sid, s) = Ok j
    /\ read_scope maxNumberOfCollections p j = Ok p'
    /\ p_scopes p' = <[sid := s]> (p_scopes p)
    /\ p_collections p' ⊆ collections m
    /\ dom (p_collections p')
       = dom (p_collections p) ∪ ids_of (scope_collections s)
    /\ p_default p'
       = bool_decide (is_Some (p_collections p' !! CollectionID_Default)).
Proof.
  intros Hm Hlimit Hs Hsub Hfresh Hcsub Hdisj Hdf.
  destruct (c_scopes _ _ _ Hm _ _ Hs) as (Hsid & Hname & Hentries).
  pose proof (collections_within_limit m p sid _ Hentries Hcsub Hdisj)
    as Hcount.
  destruct Hentries as [Hall Hnd].
  destruct (read_collections_docs m sid (scope_collections s) p [])
    as (js & p' & Hjs & Hlen & Hrun & Hscopes & Hcsub' & Hdf' & Hdom);
    try done.
  { intros c Hin. apply not_elem_of_dom. intros Hd.
    apply (Hdisj (ce_id c)); [done|]. by apply elem_of_ids_of. }
  { intros c Hin. by apply elem_of_nil in Hin. }
  exists (scope_doc (scope_name s) sid js),
         {| p_scopes := <[sid := s]> (p_scopes p');
            p_collections := p_collections p';
            p_default := p_default p' |}.
  split; [|split].
  - unfold scope_toJson. cbn [fst snd]. by rewrite Hjs.
  - unfold read_scope.
    assert (throwIfWrongType (scope_doc (scope_name s) sid js) Json.t_object
            = Ok tt) as -> by done.
    simpl_bind.
    rewrite scope_doc_name, scope_doc_uid. simpl_bind.
    rewrite Hname. cbn [negb].
    unfold makeScopeID. rewrite makeUid_to_hex by done. simpl_bind.
    rewrite (bool_decide_is_Some_None _ Hfresh).
    assert (scope_name_taken p (scope_name s) = false) as ->.
    { apply bool_decide_eq_false_2. intros (sid' & s' & Hl & Heq).
      pose proof (lookup_weaken _ _ _ _ Hl Hsub) as Hl'.
      rewrite (c_scope_names _ _ _ Hm _ _ _ _ Hl' Hs Heq) in Hl.
      congruence. }
    rewrite scope_doc_collections. simpl_bind. cbn [Json.size Json.elements].
    assert ((maxNumberOfCollections <? length js + size (p_collections p))%nat
            = false) as ->.
    { apply Nat.ltb_ge. lia. }
    rewrite Hrun. simpl_bind. by destruct s.
  - cbn [p_scopes p_collections p_default]. by rewrite Hscopes.
Qed.

Definition scope_ids (l : list (N * Scope)) : gset N := list_to_set (l.*1).

Definition collection_ids (l : list (N * Scope)) : gset N :=
  ⋃ ((fun e => ids_of (scope_collections e.2)) <$> l).

Lemma scope_ids_snoc (l : list (N * Scope)) (sid : N) (s : Scope) :
  scope_ids (l ++ [(sid, s)])%list = {[sid]} ∪ scope_ids l.
Proof.
  unfold scope_ids. rewrite fmap_app, list_to_set_app_L.
  cbn [fmap list_fmap fst list_to_set foldr].
  by rewrite (right_id_L ∅ (∪)), (comm_L (∪)).
Qed.

Lemma collection_ids_snoc (l : list (N * Scope)) (sid : N) (s : Scope) :
  collection_ids (l ++ [(sid, s)])%list
  = collection_ids l ∪ ids_of (scope_collections s).
Proof.
  unfold collection_ids. rewrite fmap_app, union_list_app_L.
  cbn [fmap list_fmap snd union_list foldr].
  by rewrite (right_id_L ∅ (∪)).
Qed.

Lemma elem_of_collection_ids (l : list (N * Scope)) (cid : N) :
  cid ∈ collection_ids l <->
  exists sid s c, (sid, s) ∈ l /\ c ∈ scope_collections s /\ ce_id c = cid.
Proof.
  unfold collection_ids. rewrite elem_of_union_list. split.
  - intros (X & HX & Hin).
    apply list_elem_of_fmap in HX as ([sid s] & -> & He).
    unfold ids_of in Hin. cbn [snd] in Hin.
    apply elem_of_list_to_set, list_elem_of_fmap in Hin as (c & -> & Hc).
    by exists sid, s, c.
  - intros (sid & s & c & He & Hc & <-).
    exists (ids_of (scope_collections s)). split.
    + apply list_elem_of_fmap. by exists (sid, s).
    + by apply elem_of_ids_of.
Qed.

(** The scopes are read back one after the other, in whatever order they
    were written. *)
Lemma read_scopes_docs (m : Manifest) (maxNumberOfCollections : nat)
    (rest seen : list (N * Scope)) (p : Partial) :
  consistent (scopes m) (collections m) (defaultCollectionExists m) ->
  size (collections m) <= maxNumberOfCollections ->
  NoDup ((seen ++ rest)%list.*1) ->
  (forall sid s, (sid, s) ∈ (seen ++ rest)%list -> scopes m !! sid = Some s) ->
  p_scopes p ⊆ scopes m ->
  dom (p_scopes p) = scope_ids seen ->
  p_collections p ⊆ collections m ->
  dom (p_collections p) = collection_ids seen ->
  p_default p
  = bool_decide (is_Some (p_collections p !! CollectionID_Default)) ->
  exists js p',
    mapM (scope_toJson m) rest = Ok js
    /\ length js = length rest
    /\ foldlM (read_scope maxNumberOfCollections) js p = Ok p'
    /\ p_scopes p' ⊆ scopes m
    /\ dom (p_scopes p') = scope_ids (seen ++ rest)%list
    /\ p_collections p' ⊆ collections m
    /\ dom (p_collections p') = collection_ids (seen ++ rest)%list
    /\ p_default p'
       = bool_decide (is_Some (p_collections p' !! CollectionID_Default)).
Proof.
  intros Hm Hlimit. revert seen p.
  induction rest as [|[sid s] rest IH];
    intros seen p Hnd Hin Hsub Hdom Hcsub Hcdom Hdf.
  - exists [], p. rewrite app_nil_r. by repeat split.
  - assert (scopes m !! sid = Some s) as Hs.
    { apply Hin, elem_of_app. right. apply list_elem_of_here. }
    assert (sid ∉ seen.*1) as Hnew.
    { rewrite fmap_app in Hnd. apply NoDup_app in Hnd as (_ & Hnd & _).
      intros Hd. apply (Hnd _ Hd). cbn [fmap list_fmap fst].
      apply list_elem_of_here. }
    assert (p_scopes p !! sid = None) as Hfresh.
    { apply not_elem_of_dom. rewrite Hdom. unfold scope_ids.
      by rewrite elem_of_list_to_set. }
    assert (dom (p_collections p) ## ids_of (scope_collections s)) as Hdisj.
    { intros cid H1 H2. rewrite Hcdom in H1.
      apply elem_of_collection_ids in H1 as (sid' & s' & c1 & He & Hc1 & Hid).
      unfold ids_of in H2.
      apply elem_of_list_to_set, list_elem_of_fmap in H2 as (c2 & Hid2 & Hc2).
      assert (scopes m !! sid' = Some s') as Hs'.
      { apply Hin, elem_of_app. by left. }
      assert (sid' = sid) as ->.
      { apply (c_disjoint _ _ _ Hm _ _ _ _ c1 c2 Hs' Hs Hc1 Hc2).
        congruence. }
      apply Hnew, list_elem_of_fmap. by exists (sid, s'). }
    destruct (read_scope_doc m maxNumberOfCollections p sid s)
      as (j & p1 & Hj & Hstep & Hscopes1 & Hcsub1 & Hcdom1 & Hdf1); try done.
    destruct (IH (seen ++ [(sid, s)])%list p1)
      as (js & p' & Hjs & Hlen & Hrun & Hsub' & Hdom' & Hcsub' & Hcdom'
          & Hdf'); try done.
    + by rewrite <- app_assoc.
    + intros sid' s' He. apply Hin. by rewrite <- app_assoc in He.
    + rewrite Hscopes1. by apply insert_subseteq_l.
    + by rewrite Hscopes1, dom_insert_L, Hdom, scope_ids_snoc.
    + by rewrite Hcdom1, Hcdom, collection_ids_snoc.
    + exists (j :: js), p'. cbn [mapM foldlM].
      rewrite Hj, Hstep. simpl_bind. rewrite Hjs, Hrun.
      rewrite <- app_assoc in Hdom'. rewrite <- app_assoc in Hcdom'.
      repeat split; try done. cbn [length]. by rewrite Hlen.
Qed.

(** A manifest that satisfies the invariant is read back from what
    [toJson] writes, in whatever order the scopes are visited. *)
Lemma toJson_read_back (m : Manifest)
    (maxNumberOfScopes maxNumberOfCollections : nat)
    (order : list (N * Scope)) :
  valid maxNumberOfScopes maxNumberOfCollections m ->
  order ≡ₚ map_to_list (scopes m) ->
  exists written,
    toJson order m = Ok written
    /\ Manifest_of_json written maxNumberOfScopes maxNumberOfCollections
       = Ok m.
Proof.
  intros [Hm Huid Hns Hnc Hdefault] Horder.
  assert (forall sid s, (sid, s) ∈ order <-> scopes m !! sid = Some s)
    as Hin.
  { intros sid s. rewrite Horder. apply elem_of_map_to_list. }
  assert (NoDup (([] ++ order)%list.*1)) as Hnd.
  { cbn [app]. rewrite Horder. apply NoDup_fst_map_to_list. }
  assert (forall sid s, (sid, s) ∈ ([] ++ order)%list ->
                        scopes m !! sid = Some s) as Hin'.
  { intros sid s. cbn [app]. apply Hin. }
  destruct (read_scopes_docs m maxNumberOfCollections order [] Partial_empty
              Hm Hnc Hnd Hin' (map_empty_subseteq _) dom_empty_L
              (map_empty_subseteq _) dom_empty_L eq_refl)
    as (js & p & Hjs & Hlen & Hrun & Hsub & Hdom & Hcsub & Hcdom & Hdf).
  cbn [app] in Hdom, Hcdom.
  assert (p_scopes p = scopes m) as Hscopes.
  { apply subseteq_dom_eq; [done|]. intros sid [s Hs]%elem_of_dom.
    rewrite Hdom. unfold scope_ids.
    apply elem_of_list_to_set, list_elem_of_fmap.
    exists (sid, s). split; [done|]. by apply Hin. }
  assert (p_collections p = collections m) as Hcollections.
  { apply subseteq_dom_eq; [done|]. intros cid Hc%elem_of_dom.
    rewrite Hcdom. apply elem_of_collection_ids.
    destruct (c_owned _ _ _ Hm _ Hc) as (sid & s & c & Hs & Hcs & Hid).
    exists sid, s, c. split; [|done]. by apply Hin. }
  exists (Json.Object [("scopes", Json.Array js);
                       ("uid", Json.Str (to_hex (uid m)))]).
  split.
  - unfold toJson. by rewrite Hjs.
  - unfold Manifest_of_json.
    assert (getJsonString
              (Json.Object [("scopes", Json.Array js);
                            ("uid", Json.Str (to_hex (uid m)))]) "uid"
            = Ok (to_hex (uid m))) as -> by done.
    simpl_bind. unfold makeManifestUid.
    rewrite makeUid_to_hex by done. simpl_bind.
    assert (getJsonObject
              (Json.Object [("scopes", Json.Array js);
                            ("uid", Json.Str (to_hex (uid m)))]) "scopes"
              Json.t_array
            = Ok (Json.Array js)) as -> by done.
    simpl_bind. cbn [Json.size Json.elements].
    assert ((maxNumberOfScopes <? length js)%nat = false) as ->.
    { apply Nat.ltb_ge. rewrite Hlen, Horder, length_map_to_list. lia. }
    rewrite Hrun. simpl_bind. rewrite Hscopes.
    rewrite bool_decide_eq_false_2.
    2: { intros Hempty. rewrite Hempty, lookup_empty in Hdefault.
         by destruct Hdefault. }
    rewrite (bool_decide_eq_true_2 _ Hdefault). cbn [negb].
    rewrite Hdf, Hcollections, <- (c_default _ _ _ Hm).
    by destruct m.
Qed.

(** C8. Every valid manifest is written by [toJson], in whatever order the
    scope map is iterated, as a document from which the constructor builds
    the same manifest again: the same uid, the same scopes with their ids,
    names and collection lists, the same collection names, and the same
    optional maximum TTLs. Validity is the invariant [valid], stated on the
    manifest alone; by [Manifest_of_json_valid] every manifest that the
    constructor builds has it. *)
Theorem toJson_round_trip (m : Manifest)
    (maxNumberOfScopes maxNumberOfCollections : nat)
    (order : list (N * Scope)) :
  valid maxNumberOfScopes maxNumberOfCollections m ->
  order ≡ₚ map_to_list (scopes m) ->
  exists written,
    toJson order m = Ok written
    /\ Manifest_of_json written maxNumberOfScopes maxNumberOfCollections
       = Ok m.
Proof.
  intros [Hm Huid Hns Hnc Hdefault] Horder.
  assert (forall sid s, (sid, s) ∈ order <-> scopes m !! sid = Some s)
    as Hin.
  { intros sid s. rewrite Horder. apply elem_of_map_to_list. }
  assert (NoDup (([] ++ order)%list.*1)) as Hnd.
  { cbn [app]. rewrite Horder. apply NoDup_fst_map_to_list. }
  assert (forall sid s, (sid, s) ∈ ([] ++ order)%list ->
                        scopes m !! sid = Some s) as Hin'.
  { intros sid s. cbn [app]. apply Hin. }
  destruct (read_scopes_docs m maxNumberOfCollections order [] Partial_empty
              Hm Hnc Hnd Hin' (map_empty_subseteq _) dom_empty_L
              (map_empty_subseteq _) dom_empty_L eq_refl)
    as (js & p & Hjs & Hlen & Hrun & Hsub & Hdom & Hcsub & Hcdom & Hdf).
  cbn [app] in Hdom, Hcdom.
  assert (p_scopes p = scopes m) as Hscopes.
  { apply subseteq_dom_eq; [done|]. intros sid [s Hs]%elem_of_dom.
    rewrite Hdom. unfold scope_ids.
    apply elem_of_list_to_set, list_elem_of_fmap.
    exists (sid, s). split; [done|]. by apply Hin. }
  assert (p_collections p = collections m) as Hcollections.
  { apply subseteq_dom_eq; [done|]. intros cid Hc%elem_of_dom.
    rewrite Hcdom. apply elem_of_collection_ids.
    destruct (c_owned _ _ _ Hm _ Hc) as (sid & s & c & Hs & Hcs & Hid).
    exists sid, s, c. split; [|done]. by apply Hin. }
  exists (Json.Object [("scopes", Json.Array js);
                       ("uid", Json.Str (to_hex (uid m)))]).
  split.
  - unfold toJson. by rewrite Hjs.
  - unfold Manifest_of_json.
    assert (getJsonString
              (Json.Object [("scopes", Json.Array js);
                            ("uid", Json.Str (to_hex (uid m)))]) "uid"
            = Ok (to_hex (uid m))) as -> by done.
    simpl_bind. unfold makeManifestUid.
    rewrite makeUid_to_hex by done. simpl_bind.
    assert (getJsonObject
              (Json.Object [("scopes", Json.Array js);
                            ("uid", Json.Str (to_hex (uid m)))]) "scopes"
              Json.t_array
            = Ok (Json.Array js)) as -> by done.
    simpl_bind. cbn [Json.size Json.elements].
    assert ((maxNumberOfScopes <? length js)%nat = false) as ->.
    { apply Nat.ltb_ge. rewrite Hlen, Horder, length_map_to_list. lia. }
    rewrite Hrun. simpl_bind. rewrite Hscopes.
    rewrite bool_decide_eq_false_2.
    2: { intros Hempty. rewrite Hempty, lookup_empty in Hdefault.
         by destruct Hdefault. }
    rewrite (bool_decide_eq_true_2 _ Hdefault). cbn [negb].
    rewrite Hdf, Hcollections, <- (c_default _ _ _ Hm).
    by destruct m.
Qed.

(** ** What every manifest built by the constructor satisfies *)

(** X1. A manifest the constructor built never lists the System collection;
    its default-collection flag is set exactly when the default collection is
    listed, and the default collection is listed in no scope but the default
    one. *)
Theorem constructor_reserved_ids (parsed : Json.json)
    (maxNumberOfScopes maxNumberOfCollections : nat) (m : Manifest) :
  Manifest_of_json parsed maxNumberOfScopes maxNumberOfCollections = Ok m ->
  collections m !! CollectionID_System = None
  /\ (defaultCollectionExists m = true
      <-> is_Some (collections m !! CollectionID_Default))
  /\ (forall sid s c,
         scopes m !! sid = Some s -> c ∈ scope_collections s ->
         ce_id c <> CollectionID_System
         /\ (ce_id c = CollectionID_Default -> sid = ScopeID_Default)).
Proof.
  intros [Hm _ _ _ _]%Manifest_of_json_valid.
  assert (forall sid s c,
             scopes m !! sid = Some s -> c ∈ scope_collections s ->
             ce_id c <> CollectionID_System
             /\ (ce_id c = CollectionID_Default -> sid = ScopeID_Default))
    as Hentries.
  { intros sid s c Hs Hc.
    destruct (c_scopes _ _ _ Hm _ _ Hs) as (_ & _ & Hall & _).
    rewrite Forall_forall in Hall.
    by destruct (Hall _ Hc) as (_ & ? & ? & _). }
  split; [|split; [|done]].
  - destruct (collections m !! CollectionID_System) as [name|] eqn:Hl;
      [|done].
    destruct (c_owned _ _ _ Hm CollectionID_System) as (sid & s & c & Hs & Hc & Hid);
      [by eexists|].
    by destruct (Hentries _ _ _ Hs Hc) as [Hne _].
  - rewrite (c_default _ _ _ Hm). apply bool_decide_eq_true.
Qed.

(** X2. In a manifest the constructor built every scope name and every
    collection name is a valid name, no two scopes share a name, every
    collection a scope lists has a name in the collection map, no two
    collections of one scope share a name, and every named collection is
    listed by exactly one scope. *)
Theorem constructor_names (parsed : Json.json)
    (maxNumberOfScopes maxNumberOfCollections : nat) (m : Manifest) :
  Manifest_of_json parsed maxNumberOfScopes maxNumberOfCollections = Ok m ->
  (forall sid s, scopes m !! sid = Some s -> validName (scope_name s) = true)
  /\ (forall sid1 sid2 s1 s2,
         scopes m !! sid1 = Some s1 -> scopes m !! sid2 = Some s2 ->
         scope_name s1 = scope_name s2 -> sid1 = sid2)
  /\ (forall sid s c,
         scopes m !! sid = Some s -> c ∈ scope_collections s ->
         exists name, collections m !! ce_id c = Some name
                      /\ validName name = true)
  /\ (forall sid s,
         scopes m !! sid = Some s ->
         NoDup (names_of (collections m) (scope_collections s)))
  /\ (forall cid name,
         collections m !! cid = Some name ->
         exists sid s,
           scopes m !! sid = Some s
           /\ cid ∈ ce_id <$> scope_collections s
           /\ forall sid' s',
               scopes m !! sid' = Some s' ->
               cid ∈ ce_id <$> scope_collections s' -> sid' = sid).
Proof.
  intros [Hm _ _ _ _]%Manifest_of_json_valid.
  repeat split.
  - intros sid s Hs. by destruct (c_scopes _ _ _ Hm _ _ Hs) as (_ & ? & _).
  - apply (c_scope_names _ _ _ Hm).
  - intros sid s c Hs Hc.
    destruct (c_scopes _ _ _ Hm _ _ Hs) as (_ & _ & Hall & _).
    rewrite Forall_forall in Hall.
    by destruct (Hall _ Hc) as (_ & _ & _ & _ & ?).
  - intros sid s Hs.
    by destruct (c_scopes _ _ _ Hm _ _ Hs) as (_ & _ & _ & ?).
  - intros cid name Hl.
    destruct (c_owned _ _ _ Hm cid) as (sid & s & c & Hs & Hc & Hid);
      [by eexists|].
    exists sid, s. split; [done|]. split.
    + apply list_elem_of_fmap. by exists c.
    + intros sid' s' Hs' (c' & Hid' & Hc')%list_elem_of_fmap.
      apply (c_disjoint _ _ _ Hm _ _ _ _ c' c Hs' Hs Hc' Hc). congruence.
Qed.

(** X3. A manifest the constructor built respects the two limits it was
    given, has the default scope, and holds only ids below 2^32, a uid below
    2^64 and maximum TTLs that fit in 32 bits. *)
Theorem constructor_limits (parsed : Json.json)
    (maxNumberOfScopes maxNumberOfCollections : nat) (m : Manifest) :
  Manifest_of_json parsed maxNumberOfScopes maxNumberOfCollections = Ok m ->
  size (scopes m) <= maxNumberOfScopes
  /\ size (collections m) <= maxNumberOfCollections
  /\ is_Some (scopes m !! ScopeID_Default)
  /\ (uid m < 2 ^ 64)%N
  /\ (forall sid s c,
         scopes m !! sid = Some s -> c ∈ scope_collections s ->
         (sid < 2 ^ 32)%N /\ (ce_id c < 2 ^ 32)%N
         /\ forall ttl, ce_maxTtl c = Some ttl -> (ttl < 2 ^ 32)%N).
Proof.
  intros [Hm Huid Hns Hnc Hdefault]%Manifest_of_json_valid.
  do 4 (split; [done|]).
  intros sid s c Hs Hc.
  destruct (c_scopes _ _ _ Hm _ _ Hs) as (Hsid & _ & Hall & _).
  rewrite Forall_forall in Hall.
  destruct (Hall _ Hc) as (Hcid & _ & _ & Hbound & _).
  do 2 (split; [done|]).
  intros ttl Httl. specialize (Hbound _ Httl).
  unfold uint32_max in Hbound. lia.
Qed.

(** ** What the constructor throws *)

Lemma bind_Throw {A B} (r : result A) (k : A -> result B) (e : exception) :
  r ≫= k = Throw e ->
  r = Throw e \/ exists a, r = Ok a /\ k a = Throw e.
Proof.
  destruct r as [a|e']; intros H.
  - right. exists a. split; [reflexivity | exact H].
  - left. cbn [mbind result_bind rbind] in H. by injection H as ->.
Qed.

(** One step through a failed run: either the next call threw, or it
    returned and the rest threw. *)
Tactic Notation "threw" hyp(H) "as" ident(x) ident(E) :=
  apply bind_Throw in H as [H | (x & E & H)]; cbv beta in H.

Lemma foldlM_Throw {A B} (f : B -> A -> result B) (l : list A) (b : B)
    (e : exception) :
  foldlM f l b = Throw e -> exists a b', a ∈ l /\ f b' a = Throw e.
Proof.
  revert b. induction l as [|a l IH]; intros b H; [done|].
  cbn [foldlM] in H. threw H as b1 E.
  - exists a, b. split; [apply list_elem_of_here | done].
  - destruct (IH _ H) as (a' & b' & Hin & Ha).
    exists a', b'. split; [by apply list_elem_of_further | done].
Qed.

Lemma getJsonObject_throws (object : Json.json) (key : string)
    (expectedType : Json.value_t) (e : exception) :
  getJsonObject object key expectedType = Throw e -> e = invalid_argument.
Proof.
  unfold getJsonObject. destruct (Json.find object key); [|congruence].
  case_bool_decide; congruence.
Qed.

Lemma getJsonObject_found (object v : Json.json) (key : string)
    (expectedType : Json.value_t) :
  getJsonObject object key expectedType = Ok v -> Json.find object key = Some v.
Proof.
  unfold getJsonObject. destruct (Json.find object key); [|done].
  case_bool_decide; congruence.
Qed.

Lemma getOptionalJsonObject_throws (object : Json.json) (key : string)
    (expectedType : Json.value_t) (e : exception) :
  getOptionalJsonObject object key expectedType = Throw e ->
  e = invalid_argument.
Proof.
  unfold getOptionalJsonObject. destruct (Json.find object key); [|done].
  case_bool_decide; congruence.
Qed.

Lemma getOptionalJsonObject_found (object v : Json.json) (key : string)
    (expectedType : Json.value_t) :
  getOptionalJsonObject object key expectedType = Ok (Some v) ->
  Json.find object key = Some v.
Proof.
  unfold getOptionalJsonObject. destruct (Json.find object key); [|done].
  case_bool_decide; congruence.
Qed.

Lemma getJsonString_throws (object : Json.json) (key : string)
    (e : exception) :
  getJsonString object key = Throw e -> e = invalid_argument.
Proof.
  unfold getJsonString. intros H. threw H as v E.
  - by eapply getJsonObject_throws.
  - destruct v; congruence.
Qed.

Lemma throwIfWrongType_throws (object : Json.json)
    (expectedType : Json.value_t) (e : exception) :
  throwIfWrongType object expectedType = Throw e -> e = invalid_argument.
Proof. unfold throwIfWrongType. case_bool_decide; congruence. Qed.

Lemma makeUid_throws (s : string) (len : nat) (e : exception) :
  makeUid s len = Throw e -> e = invalid_argument.
Proof.
  unfold makeUid. destruct (_ || _); [congruence|].
  destruct (parse_hex _ _); congruence.
Qed.

(** The member [max_ttl] of a collection is a number that does not fit in
    32 bits. *)
Definition oversized_max_ttl (collection : Json.json) : Prop :=
  exists value,
    Json.find collection "max_ttl" = Some (Json.NumberUnsigned value)
    /\ (uint32_max < value)%N.

Lemma read_maxTtl_throws (cmaxttl : option Json.json) (e : exception) :
  read_maxTtl cmaxttl = Throw e ->
  e = invalid_argument
  \/ (e = out_of_range
      /\ exists value, cmaxttl = Some (Json.NumberUnsigned value)
                       /\ (uint32_max < value)%N).
Proof.
  unfold read_maxTtl. destruct cmaxttl as [[]|]; try (left; congruence).
  destruct (N.ltb_spec uint32_max n); [|done].
  intros [= <-]. right. split; [done|]. by exists n.
Qed.

(** A check that throws [invalid_argument] when it fails. *)
Ltac failed H :=
  lazymatch type of H with
  | (if ?b then Throw invalid_argument else _) = Throw _ =>
      destruct b; [left; congruence|]
  end.

Lemma read_collection_throws (scopeUid : N)
    (st : Partial * list CollectionEntry) (collection : Json.json)
    (e : exception) :
  read_collection scopeUid st collection = Throw e ->
  e = invalid_argument \/ (e = out_of_range /\ oversized_max_ttl collection).
Proof.
  destruct st as [p acc]. intros H. unfold read_collection in H.
  threw H as u Eobject; [left; by eapply throwIfWrongType_throws|].
  threw H as cname Ecname; [left; by eapply getJsonString_throws|].
  threw H as cuid Ecuid; [left; by eapply getJsonString_throws|].
  threw H as cmaxttl Ecmaxttl;
    [left; by eapply getOptionalJsonObject_throws|].
  failed H.
  threw H as cid Ecid; [left; by eapply makeUid_throws|].
  failed H. failed H. failed H. failed H.
  threw H as maxTtl EmaxTtl; [|done].
  destruct (read_maxTtl_throws _ _ H) as [->|(-> & value & -> & Hbig)];
    [by left|].
  right. split; [done|]. exists value. split; [|done].
  by eapply getOptionalJsonObject_found.
Qed.

Lemma read_scope_throws (maxNumberOfCollections : nat) (p : Partial)
    (scope : Json.json) (e : exception) :
  read_scope maxNumberOfCollections p scope = Throw e ->
  e = invalid_argument
  \/ (e = out_of_range
      /\ exists jcollections collection,
          Json.find scope "collections" = Some jcollections
          /\ collection ∈ Json.elements jcollections
          /\ oversized_max_ttl collection).
Proof.
  intros H. unfold read_scope in H.
  threw H as u Eobject; [left; by eapply throwIfWrongType_throws|].
  threw H as name Ename; [left; by eapply getJsonString_throws|].
  threw H as suid Esuid; [left; by eapply getJsonString_throws|].
  failed H.
  threw H as sid Esid; [left; by eapply makeUid_throws|].
  failed H. failed H.
  threw H as jcollections Ecollections;
    [left; by eapply getJsonObject_throws|].
  failed H.
  threw H as st Eloop; [|by destruct st].
  apply foldlM_Throw in H as (collection & st & Hin & H).
  destruct (read_collection_throws _ _ _ _ H) as [->|[-> Hbig]]; [by left|].
  right. split; [done|]. exists jcollections, collection.
  split; [by eapply getJsonObject_found | done].
Qed.

(** X4. The constructor throws nothing but [std::invalid_argument] and
    [std::out_of_range], and the latter only for a document in which some
    collection of some scope has a [max_ttl] that does not fit in 32 bits. *)
Theorem constructor_exceptions (parsed : Json.json)
    (maxNumberOfScopes maxNumberOfCollections : nat) (e : exception) :
  Manifest_of_json parsed maxNumberOfScopes maxNumberOfCollections = Throw e ->
  e = invalid_argument
  \/ (e = out_of_range
      /\ exists jscopes scope jcollections collection,
          Json.find parsed "scopes" = Some jscopes
          /\ scope ∈ Json.elements jscopes
          /\ Json.find scope "collections" = Some jcollections
          /\ collection ∈ Json.elements jcollections
          /\ oversized_max_ttl collection).
Proof.
  intros H. unfold Manifest_of_json in H.
  threw H as jsonUid EjsonUid; [left; by eapply getJsonString_throws|].
  threw H as muid Emuid; [left; by eapply makeUid_throws|].
  threw H as jscopes Ejscopes; [left; by eapply getJsonObject_throws|].
  failed H.
  threw H as p Eloop.
  - apply foldlM_Throw in H as (scope & p & Hin & H).
    destruct (read_scope_throws _ _ _ _ H)
      as [->|(-> & jcollections & collection & ? & ? & ?)]; [by left|].
    right. split; [done|]. exists jscopes, scope, jcollections, collection.
    split; [by eapply getJsonObject_found | done].
  - failed H. destruct (negb _); left; congruence.
Qed.

(** ** The encoding determines the manifest *)

Lemma valid_weaken (maxS maxC maxS' maxC' : nat) (m : Manifest) :
  valid maxS maxC m -> maxS <= maxS' -> maxC <= maxC' -> valid maxS' maxC' m.
Proof. intros [? ? ? ? ?] ? ?. split; try done; lia. Qed.

(** X5. Two manifests the constructor built for which [toJson] writes the
    same document, each in some iteration order of its scope map, are the
    same manifest. *)
Theorem toJson_injective (parsed1 parsed2 : Json.json)
    (maxS1 maxC1 maxS2 maxC2 : nat) (m1 m2 : Manifest)
    (order1 order2 : list (N * Scope)) (written : Json.json) :
  Manifest_of_json parsed1 maxS1 maxC1 = Ok m1 ->
  Manifest_of_json parsed2 maxS2 maxC2 = Ok m2 ->
  order1 ≡ₚ map_to_list (scopes m1) ->
  order2 ≡ₚ map_to_list (scopes m2) ->
  toJson order1 m1 = Ok written ->
  toJson order2 m2 = Ok written ->
  m1 = m2.
Proof.
  intros H1%Manifest_of_json_valid H2%Manifest_of_json_valid Ho1 Ho2 Hw1 Hw2.
  apply (valid_weaken _ _ (maxS1 `max` maxS2) (maxC1 `max` maxC2)) in H1;
    [|lia..].
  apply (valid_weaken _ _ (maxS1 `max` maxS2) (maxC1 `max` maxC2)) in H2;
    [|lia..].
  destruct (toJson_read_back _ _ _ _ H1 Ho1) as (w1 & Hw1' & Hr1).
  destruct (toJson_read_back _ _ _ _ H2 Ho2) as (w2 & Hw2' & Hr2).
  congruence.
Qed.

(** ** Looking up a scope or a collection by its path *)

(** [DefaultScopeIdentifier] and [DefaultCollectionIdentifier] are declared in
    collections_types.h. *)
Variable DefaultScopeIdentifier : string.
Variable DefaultCollectionIdentifier : string.

Inductive engine_errc :=
  | invalid_arguments
  | unknown_scope.

(** What a lookup throws: a [cb::engine_error], or the [std::out_of_range]
    of [std::string::substr]. *)
Inductive lookup_error :=
  | engine_error (e : engine_errc)
  | substr_out_of_range.

Inductive lookup (A : Type) :=
  | Returns (a : A)
  | Raises (e : lookup_error).
#[global] Arguments Returns {A} a.
#[global] Arguments Raises {A} e.

(** [std::string::npos], the largest [size_t]. *)
Definition npos : Z := 18446744073709551615.

(** [s.find_first_of(c)], counting from index [i]. *)
Fixpoint find_first_of (c : ascii) (s : string) (i : Z) : Z :=
  match s with
  | EmptyString => npos
  | String a rest => if Ascii.eqb a c then i else find_first_of c rest (i + 1)
  end.

(** The conversions between [size_t] and [int]. *)
Definition to_int (z : Z) : Z :=
  (z + 2147483648) mod 4294967296 - 2147483648.
Definition to_size_t (z : Z) : Z := z mod 18446744073709551616.

(** [s.substr(pos, count)]: it throws when [pos] is beyond the end, and
    stops at the end of the string. *)
Definition substr (s : string) (pos count : Z) : option string :=
  let size := Z.of_nat (String.length s) in
  if (size <? pos)%Z then None
  else Some (String.substring (Z.to_nat pos)
               (Z.to_nat (Z.min count (size - pos))) s).

Definition empty (s : string) : bool :=
  match s with EmptyString => true | String _ _ => false end.

(** The scope that a path names: what precedes the first '.', the default
    scope when that is empty. *)
Definition requested_scope (path : string) : option string :=
  let pos := to_int (find_first_of "." path 0) in
  match substr path 0 (to_size_t pos) with
  | None => None
  | Some scope => Some (if empty scope then DefaultScopeIdentifier else scope)
  end.

(** The collection that a path names: what follows the first '.', the
    default collection when that is empty. The sum [pos + 1] is within the
    range of [int] for every path shorter than 2^31 characters. *)
Definition requested_collection (path : string) : option string :=
  let pos := to_int (find_first_of "." path 0) in
  match substr path (to_size_t (pos + 1)) npos with
  | None => None
  | Some collection =>
      Some (if empty collection then DefaultCollectionIdentifier
            else collection)
  end.

(** [getScopeID]; the scopes are visited in the iteration order of the
    unordered map, here the list [order]. *)
Definition getScopeID (order : list (N * Scope)) (path : string)
  : lookup (option N) :=
  match requested_scope path with
  | None => Raises substr_out_of_range
  | Some scope =>
      if negb (validName scope) then Raises (engine_error invalid_arguments)
      else Returns (fst <$> List.find
                              (fun s => String.eqb (scope_name s.2) scope)
                              order)
  end.

Definition collection_named (m : Manifest) (collection : string)
    (c : CollectionEntry) : bool :=
  match collections m !! ce_id c with
  | Some name => String.eqb name collection
  | None => false
  end.

Definition getCollectionID (m : Manifest) (scope : N) (path : string)
  : lookup (option N) :=
  match requested_collection path with
  | None => Raises substr_out_of_range
  | Some collection =>
      if negb (validName collection)
      then Raises (engine_error invalid_arguments)
      else match scopes m !! scope with
           | None => Raises (engine_error unknown_scope)
           | Some s =>
               Returns (ce_id <$> List.find (collection_named m collection)
                                    (scope_collections s))
           end
  end.

(** *** How a path is split *)

Definition no_dot (s : string) : Prop :=
  ~ In "."%char (list_ascii_of_string s).

Lemma find_first_of_none (s : string) (i : Z) :
  no_dot s -> find_first_of "." s i = npos.
Proof.
  revert i. induction s as [|a s IH]; intros i Hs; [done|].
  cbn [find_first_of]. destruct (Ascii.eqb_spec a ".") as [->|Hne].
  - destruct Hs. by left.
  - apply IH. intros Hin. apply Hs. by right.
Qed.

Lemma append_cons (a : ascii) (s rest : string) :
  String a s ++ rest = String a (s ++ rest).
Proof. reflexivity. Qed.

Lemma append_nil (rest : string) : EmptyString ++ rest = rest.
Proof. reflexivity. Qed.

Lemma find_first_of_dot (s rest : string) (i : Z) :
  no_dot s ->
  find_first_of "." (s ++ String "." rest) i
  = (i + Z.of_nat (String.length s))%Z.
Proof.
  revert i. induction s as [|a s IH]; intros i Hs.
  - rewrite append_nil. cbn. lia.
  - rewrite append_cons. cbn [find_first_of String.length].
    destruct (Ascii.eqb_spec a ".") as [->|Hne].
    + destruct Hs. by left.
    + rewrite IH; [lia|]. intros Hin. apply Hs. by right.
Qed.

Lemma substring_prefix (s rest : string) :
  String.substring 0 (String.length s) (s ++ rest) = s.
Proof.
  induction s as [|a s IH]; [by destruct rest|].
  rewrite append_cons. cbn [String.length String.substring]. by rewrite IH.
Qed.

Lemma substring_all (s : string) :
  String.substring 0 (String.length s) s = s.
Proof.
  induction s as [|a s IH]; [done|].
  cbn [String.length String.substring]. by rewrite IH.
Qed.

Lemma substring_suffix (s rest : string) :
  String.substring (String.length s) (String.length rest) (s ++ rest) = rest.
Proof.
  induction s as [|a s IH]; [apply substring_all|].
  rewrite append_cons. cbn [String.length String.substring]. exact IH.
Qed.

Lemma append_length (s rest : string) :
  String.length (s ++ rest) = String.length s + String.length rest.
Proof.
  induction s as [|a s IH]; [done|].
  rewrite append_cons. cbn [String.length]. by rewrite IH.
Qed.

Lemma requested_parts (s c : string) :
  no_dot s ->
  (Z.of_nat (String.length (s ++ String "." c)) < 2 ^ 31)%Z ->
  requested_scope (s ++ String "." c)
  = Some (if empty s then DefaultScopeIdentifier else s)
  /\ requested_collection (s ++ String "." c)
     = Some (if empty c then DefaultCollectionIdentifier else c)
  /\ requested_scope s
     = Some (if empty s then DefaultScopeIdentifier else s)
  /\ requested_collection s
     = Some (if empty s then DefaultCollectionIdentifier else s).
Proof.
  intros Hs Hlen.
  rewrite append_length in Hlen. cbn [String.length] in Hlen.
  unfold requested_scope, requested_collection.
  rewrite find_first_of_dot, find_first_of_none by done.
  assert (to_int (0 + Z.of_nat (String.length s))
          = Z.of_nat (String.length s)) as ->.
  { unfold to_int. rewrite Z.mod_small; lia. }
  assert (to_int npos = (-1)%Z) as -> by done.
  assert (to_size_t (Z.of_nat (String.length s))
          = Z.of_nat (String.length s)) as ->.
  { unfold to_size_t. rewrite Z.mod_small; lia. }
  assert (to_size_t (Z.of_nat (String.length s) + 1)
          = Z.of_nat (String.length (s ++ "."))) as ->.
  { unfold to_size_t. rewrite append_length. cbn [String.length].
    rewrite Z.mod_small; lia. }
  assert (to_size_t (-1) = npos) as -> by done.
  assert (to_size_t (-1 + 1) = 0%Z) as -> by done.
  unfold substr.
  rewrite !append_length. cbn [String.length].
  repeat match goal with
         | |- context [(?a <? ?b)%Z] =>
             destruct (Z.ltb_spec a b); [unfold npos in *; lia|]
         end.
  repeat split.
  - rewrite Z.min_l by lia. rewrite Nat2Z.id, Z2Nat.inj_0.
    by rewrite substring_prefix.
  - rewrite Z.min_r by (unfold npos; lia).
    replace (Z.to_nat (Z.of_nat (String.length s + 1)))
      with (String.length (s ++ ".")) by (rewrite append_length; simpl; lia).
    replace (Z.to_nat (Z.of_nat (String.length s + S (String.length c))
                       - Z.of_nat (String.length s + 1)))
      with (String.length c) by lia.
    replace (s ++ String "." c) with ((s ++ ".") ++ c).
    + by rewrite substring_suffix.
    + clear. induction s as [|a s IH]; [done|].
      rewrite !append_cons. by rewrite IH.
  - rewrite Z.min_r by (unfold npos; lia).
    rewrite Z.sub_0_r, Nat2Z.id, Z2Nat.inj_0. by rewrite substring_all.
  - rewrite Z.min_r by (unfold npos; lia).
    rewrite Z.sub_0_r, Nat2Z.id, Z2Nat.inj_0. by rewrite substring_all.
Qed.

(** X6. A path [scope.collection] whose scope part has no '.' names that
    scope and that collection, the default ones for empty parts; a path
    without any '.' names itself both as scope and as collection. This holds
    for paths shorter than 2^31 characters. *)
Theorem path_split (s c : string) :
  no_dot s ->
  (Z.of_nat (String.length (s ++ String "." c)) < 2 ^ 31)%Z ->
  requested_scope (s ++ String "." c)
  = Some (if empty s then DefaultScopeIdentifier else s)
  /\ requested_collection (s ++ String "." c)
     = Some (if empty c then DefaultCollectionIdentifier else c)
  /\ requested_scope s
     = Some (if empty s then DefaultScopeIdentifier else s)
  /\ requested_collection s
     = Some (if empty s then DefaultCollectionIdentifier else s).
Proof.
  intros Hs Hlen.
  rewrite append_length in Hlen. cbn [String.length] in Hlen.
  unfold requested_scope, requested_collection.
  rewrite find_first_of_dot, find_first_of_none by done.
  assert (to_int (0 + Z.of_nat (String.length s))
          = Z.of_nat (String.length s)) as ->.
  { unfold to_int. rewrite Z.mod_small; lia. }
  assert (to_int npos = (-1)%Z) as -> by done.
  assert (to_size_t (Z.of_nat (String.length s))
          = Z.of_nat (String.length s)) as ->.
  { unfold to_size_t. rewrite Z.mod_small; lia. }
  assert (to_size_t (Z.of_nat (String.length s) + 1)
          = Z.of_nat (String.length (s ++ "."))) as ->.
  { unfold to_size_t. rewrite append_length. cbn [String.length].
    rewrite Z.mod_small; lia. }
  assert (to_size_t (-1) = npos) as -> by done.
  assert (to_size_t (-1 + 1) = 0%Z) as -> by done.
  unfold substr.
  rewrite !append_length. cbn [String.length].
  repeat match goal with
         | |- context [(?a <? ?b)%Z] =>
             destruct (Z.ltb_spec a b); [unfold npos in *; lia|]
         end.
  repeat split.
  - rewrite Z.min_l by lia. rewrite Nat2Z.id, Z2Nat.inj_0.
    by rewrite substring_prefix.
  - rewrite Z.min_r by (unfold npos; lia).
    replace (Z.to_nat (Z.of_nat (String.length s + 1)))
      with (String.length (s ++ ".")) by (rewrite append_length; simpl; lia).
    replace (Z.to_nat (Z.of_nat (String.length s + S (String.length c))
                       - Z.of_nat (String.length s + 1)))
      with (String.length c) by lia.
    replace (s ++ String "." c) with ((s ++ ".") ++ c).
    + by rewrite substring_suffix.
    + clear. induction s as [|a s IH]; [done|].
      rewrite !append_cons. by rewrite IH.
  - rewrite Z.min_r by (unfold npos; lia).
    rewrite Z.sub_0_r, Nat2Z.id, Z2Nat.inj_0. by rewrite substring_all.
  - rewrite Z.min_r by (unfold npos; lia).
    rewrite Z.sub_0_r, Nat2Z.id, Z2Nat.inj_0. by rewrite substring_all.
Qed.

(** *** What the lookups find *)

Lemma find_unique {A} (P : A -> bool) (l : list A) (found : option A) :
  List.find P l = found ->
  (forall x y, x ∈ l -> y ∈ l -> P x = true -> P y = true -> x = y) ->
  forall x, found = Some x <-> x ∈ l /\ P x = true.
Proof.
  intros <- Hunique x. destruct (List.find P l) as [y|] eqn:E.
  - apply find_some in E as [Hy%list_elem_of_In HPy]. split.
    + by intros [= <-].
    + intros [Hx HPx]. f_equal. by apply Hunique.
  - split; [done|]. intros [Hx%list_elem_of_In HPx].
    by rewrite (find_none _ _ E _ Hx) in HPx.
Qed.

Lemma NoDup_fmap_elem {A B} (f : A -> B) (l : list A) (x y : A) :
  NoDup (f <$> l) -> x ∈ l -> y ∈ l -> f x = f y -> x = y.
Proof.
  induction l as [|a l IH]; intros Hnd Hx Hy Heq;
    [by apply elem_of_nil in Hx|].
  rewrite fmap_cons in Hnd. apply NoDup_cons in Hnd as [Ha Hnd].
  apply elem_of_cons in Hx as [->|Hx]; apply elem_of_cons in Hy as [->|Hy];
    try done.
  - destruct Ha. rewrite Heq. apply list_elem_of_fmap. by exists y.
  - destruct Ha. rewrite <- Heq. apply list_elem_of_fmap. by exists x.
  - by apply IH.
Qed.

Lemma getScopeID_consistent (m : Manifest) (order : list (N * Scope))
    (path name : string) :
  consistent (scopes m) (collections m) (defaultCollectionExists m) ->
  order ≡ₚ map_to_list (scopes m) ->
  requested_scope path = Some name ->
  validName name = true ->
  exists found,
    getScopeID order path = Returns found
    /\ forall sid,
        found = Some sid
        <-> exists s, scopes m !! sid = Some s /\ scope_name s = name.
Proof.
  intros Hm Horder Hpath Hname.
  assert (forall sid s, (sid, s) ∈ order <-> scopes m !! sid = Some s)
    as Hin.
  { intros sid s. rewrite Horder. apply elem_of_map_to_list. }
  unfold getScopeID. rewrite Hpath, Hname. cbn [negb].
  eexists. split; [reflexivity|]. intros sid.
  assert (forall x y : N * Scope,
             x ∈ order -> y ∈ order ->
             String.eqb (scope_name x.2) name = true ->
             String.eqb (scope_name y.2) name = true -> x = y) as Hunique.
  { intros [sid1 s1] [sid2 s2] H1%Hin H2%Hin Hn1%String.eqb_eq
      Hn2%String.eqb_eq. cbn [snd] in *.
    assert (sid1 = sid2) as -> by
      (apply (c_scope_names _ _ _ Hm _ _ _ _ H1 H2); congruence).
    congruence. }
  pose proof (find_unique (fun s => String.eqb (scope_name s.2) name) order
                _ eq_refl Hunique) as Hfind.
  destruct (List.find _ order) as [[sid' s']|] eqn:E; cbn [fmap option_fmap
    option_map fst].
  - destruct (proj1 (Hfind (sid', s')) eq_refl) as [He Hn].
    apply Hin in He. apply String.eqb_eq in Hn. cbn [snd] in Hn. split.
    + intros [= <-]. by exists s'.
    + intros (s & Hs & Hsn). f_equal.
      apply (c_scope_names _ _ _ Hm _ _ _ _ He Hs). congruence.
  - split; [done|]. intros (s & Hs%Hin%list_elem_of_In & Hsn).
    apply (find_none _ _ E) in Hs. cbn [snd] in Hs.
    rewrite Hsn, String.eqb_refl in Hs. done.
Qed.

(** X7. On a manifest the constructor built, [getScopeID] with a path that
    names a valid scope name returns the id of the scope of that name, and
    nothing when there is none, whatever the iteration order of the scope
    map. *)
Theorem getScopeID_finds (parsed : Json.json)
    (maxNumberOfScopes maxNumberOfCollections : nat) (m : Manifest)
    (order : list (N * Scope)) (path name : string) :
  Manifest_of_json parsed maxNumberOfScopes maxNumberOfCollections = Ok m ->
  order ≡ₚ map_to_list (scopes m) ->
  requested_scope path = Some name ->
  validName name = true ->
  exists found,
    getScopeID order path = Returns found
    /\ forall sid,
        found = Some sid
        <-> exists s, scopes m !! sid = Some s /\ scope_name s = name.
Proof.
  intros [Hm _ _ _ _]%Manifest_of_json_valid. by apply getScopeID_consistent.
Qed.

Lemma getCollectionID_consistent (m : Manifest) (sid : N)
    (path name : string) :
  consistent (scopes m) (collections m) (defaultCollectionExists m) ->
  requested_collection path = Some name ->
  validName name = true ->
  match scopes m !! sid with
  | None => getCollectionID m sid path = Raises (engine_error unknown_scope)
  | Some s =>
      exists found,
        getCollectionID m sid path = Returns found
        /\ forall cid,
            found = Some cid
            <-> cid ∈ ce_id <$> scope_collections s
                /\ collections m !! cid = Some name
  end.
Proof.
  intros Hm Hpath Hname.
  unfold getCollectionID. rewrite Hpath, Hname. cbn [negb].
  destruct (scopes m !! sid) as [s|] eqn:Hs; [|done].
  destruct (c_scopes _ _ _ Hm _ _ Hs) as (_ & _ & _ & Hnd).
  eexists. split; [reflexivity|]. intros cid.
  pose proof (find_unique (collection_named m name) (scope_collections s)
                _ eq_refl) as Hfind.
  assert (forall c, collection_named m name c = true
                    <-> collections m !! ce_id c = Some name) as Hnamed.
  { intros c. unfold collection_named.
    destruct (collections m !! ce_id c) as [n|]; [|done].
    rewrite String.eqb_eq. split; congruence. }
  assert (forall x y, x ∈ scope_collections s -> y ∈ scope_collections s ->
                      collection_named m name x = true ->
                      collection_named m name y = true -> x = y) as Hunique.
  { intros x y Hx Hy Hnx%Hnamed Hny%Hnamed.
    apply (NoDup_fmap_elem _ _ _ _ Hnd Hx Hy). congruence. }
  specialize (Hfind Hunique).
  destruct (List.find _ (scope_collections s)) as [c|] eqn:E;
    cbn [fmap option_fmap option_map].
  - destruct (proj1 (Hfind c) eq_refl) as [Hc Hn%Hnamed]. split.
    + intros [= <-]. split; [|done]. apply list_elem_of_fmap. by exists c.
    + intros [(c' & -> & Hc')%list_elem_of_fmap Hn']. f_equal. f_equal.
      apply Hunique; try done; by apply Hnamed.
  - split; [done|].
    intros [(c' & -> & Hc')%list_elem_of_fmap Hn'%Hnamed].
    discriminate (proj2 (Hfind c') (conj Hc' Hn')).
Qed.

(** X8. On a manifest the constructor built, [getCollectionID] with a path
    that names a valid collection name throws unknown-scope for a scope the
    manifest does not have, and otherwise returns the id of the collection
    of that name among those the scope lists, and nothing when there is
    none. *)
Theorem getCollectionID_finds (parsed : Json.json)
    (maxNumberOfScopes maxNumberOfCollections : nat) (m : Manifest)
    (sid : N) (path name : string) :
  Manifest_of_json parsed maxNumberOfScopes maxNumberOfCollections = Ok m ->
  requested_collection path = Some name ->
  validName name = true ->
  match scopes m !! sid with
  | None => getCollectionID m sid path = Raises (engine_error unknown_scope)
  | Some s =>
      exists found,
        getCollectionID m sid path = Returns found
        /\ forall cid,
            found = Some cid
            <-> cid ∈ ce_id <$> scope_collections s
                /\ collections m !! cid = Some name
  end.
Proof.
  intros [Hm _ _ _ _]%Manifest_of_json_valid.
  by apply getCollectionID_consistent.
Qed.

Lemma all_chars_ok_no_dot (s : string) : all_chars_ok s = true -> no_dot s.
Proof.
  unfold no_dot. induction s as [|a s IH]; intros H; [by intros []|].
  cbn [all_chars_ok] in H.
  destruct (name_char_ok a) eqn:Ha; [|done]. cbn [negb] in H.
  cbn [list_ascii_of_string]. intros [->|Hin]; [|by apply IH].
  vm_compute in Ha. discriminate Ha.
Qed.

Lemma validName_no_dot (s : string) :
  validName s = true -> no_dot s /\ empty s = false.
Proof.
  unfold validName. destruct s as [|a s]; [done|].
  destruct (_ || _); [done|]. intros H. split; [|done].
  by apply all_chars_ok_no_dot.
Qed.

Lemma validName_length (s : string) :
  validName s = true -> String.length s <= MaxCollectionNameSize.
Proof.
  unfold validName.
  destruct (Nat.ltb_spec MaxCollectionNameSize (String.length s)); [|done].
  by rewrite orb_true_r.
Qed.

(** X9. Every collection of a manifest the constructor built is found by
    its path: for a scope and a collection it lists, [getScopeID] on
    [scope.collection] returns the scope's id and [getCollectionID] with that
    id returns the collection's id. Names are short enough for the path to
    stay below 2^31 characters. *)
Theorem lookup_by_path (parsed : Json.json)
    (maxNumberOfScopes maxNumberOfCollections : nat) (m : Manifest)
    (order : list (N * Scope)) (sid : N) (s : Scope) (c : CollectionEntry)
    (cname : string) :
  Manifest_of_json parsed maxNumberOfScopes maxNumberOfCollections = Ok m ->
  order ≡ₚ map_to_list (scopes m) ->
  (Z.of_nat MaxCollectionNameSize < 2 ^ 30)%Z ->
  scopes m !! sid = Some s ->
  c ∈ scope_collections s ->
  collections m !! ce_id c = Some cname ->
  getScopeID order (scope_name s ++ String "." cname) = Returns (Some sid)
  /\ getCollectionID m sid (scope_name s ++ String "." cname)
     = Returns (Some (ce_id c)).
Proof.
  intros [Hm _ _ _ _]%Manifest_of_json_valid Horder Hmax Hs Hc Hcname.
  destruct (c_scopes _ _ _ Hm _ _ Hs) as (_ & Hsname & Hall & _).
  rewrite Forall_forall in Hall.
  destruct (Hall _ Hc) as (_ & _ & _ & _ & cname' & Hl & Hcvalid).
  assert (cname' = cname) as -> by congruence.
  destruct (validName_no_dot _ Hsname) as [Hnodot Hsne].
  destruct (validName_no_dot _ Hcvalid) as [_ Hcne].
  pose proof (validName_length _ Hsname).
  pose proof (validName_length _ Hcvalid).
  destruct (requested_parts (scope_name s) cname Hnodot) as (Hps & Hpc & _).
  { rewrite append_length. cbn [String.length]. lia. }
  rewrite Hsne in Hps. rewrite Hcne in Hpc.
  split.
  - destruct (getScopeID_consistent m order _ _ Hm Horder Hps Hsname)
      as (found & -> & Hfound).
    f_equal. apply Hfound. by exists s.
  - pose proof (getCollectionID_consistent m sid _ _ Hm Hpc Hcvalid)
      as Hfinds.
    rewrite Hs in Hfinds. destruct Hfinds as (found & -> & Hfound).
    f_equal. apply Hfound. split; [|done].
    apply list_elem_of_fmap. by exists c.
Qed.

End WithLimit.

(** ** A manifest with two scopes *)

Module Sample.

Definition MaxCollectionNameSize : nat := 30.

Definition document : Json.json :=
  Json.Object
    [("scopes",
      Json.Array
        [Json.Object
           [("collections",
             Json.Array
               [Json.Object [("name", Json.Str "_default");
                             ("uid", Json.Str "0")];
                Json.Object [("max_ttl", Json.NumberUnsigned 72);
                             ("name", Json.Str "meat");
                             ("uid", Json.Str "1F")]]);
            ("name", Json.Str "_default");
            ("uid", Json.Str "0")];
         Json.Object
           [("collections",
             Json.Array
               [Json.Object [("name", Json.Str "meat");
                             ("uid", Json.Str "a0")]]);
            ("name", Json.Str "shop");
            ("uid", Json.Str "8")]]);
     ("uid", Json.Str "abc")].

Definition default_scope : Scope :=
  {| scope_name := "_default";
     scope_collections := [{| ce_id := 0; ce_maxTtl := None |};
                           {| ce_id := 31; ce_maxTtl := Some 72%N |}] |}.

Definition shop_scope : Scope :=
  {| scope_name := "shop";
     scope_collections := [{| ce_id := 160; ce_maxTtl := None |}] |}.

Definition manifest : Manifest :=
  {| defaultCollectionExists := true;
     scopes := <[0%N := default_scope]> (<[8%N := shop_scope]> ∅);
     collections :=
       <[0%N := "_default"]> (<[31%N := "meat"]> (<[160%N := "meat"]> ∅));
     uid := 2748 |}.

Lemma toJson_round_trip_witness :
  valid MaxCollectionNameSize 10 10 manifest /\
  exists written,
    toJson [(0%N, default_scope); (8%N, shop_scope)] manifest = Ok written
    /\ Manifest_of_json MaxCollectionNameSize written 10 10 = Ok manifest.
Proof.
  assert (valid MaxCollectionNameSize 10 10 manifest) as Hvalid.
  { apply (Manifest_of_json_valid MaxCollectionNameSize document).
    vm_compute. reflexivity. }
  split; [exact Hvalid|].
  apply (toJson_round_trip MaxCollectionNameSize manifest 10 10
           [(0%N, default_scope); (8%N, shop_scope)] Hvalid).
  vm_compute. apply perm_swap.
Defined.

(** *** The manifest above, looked at and looked up *)

Definition DefaultScopeIdentifier : string := "_default".
Definition DefaultCollectionIdentifier : string := "_default".

Lemma constructor_reserved_ids_witness :
  collections manifest !! CollectionID_System = None
  /\ (defaultCollectionExists manifest = true
      <-> is_Some (collections manifest !! CollectionID_Default))
  /\ (forall sid s c,
         scopes manifest !! sid = Some s -> c ∈ scope_collections s ->
         ce_id c <> CollectionID_System
         /\ (ce_id c = CollectionID_Default -> sid = ScopeID_Default)).
Proof.
  apply (constructor_reserved_ids MaxCollectionNameSize document 10 10).
  vm_compute. reflexivity.
Defined.

Lemma constructor_names_witness :
  (forall sid s,
      scopes manifest !! sid = Some s ->
      validName MaxCollectionNameSize (scope_name s) = true)
  /\ (forall sid1 sid2 s1 s2,
         scopes manifest !! sid1 = Some s1 ->
         scopes manifest !! sid2 = Some s2 ->
         scope_name s1 = scope_name s2 -> sid1 = sid2)
  /\ (forall sid s c,
         scopes manifest !! sid = Some s -> c ∈ scope_collections s ->
         exists name, collections manifest !! ce_id c = Some name
                      /\ validName MaxCollectionNameSize name = true)
  /\ (forall sid s,
         scopes manifest !! sid = Some s ->
         NoDup (names_of (collections manifest) (scope_collections s)))
  /\ (forall cid name,
         collections manifest !! cid = Some name ->
         exists sid s,
           scopes manifest !! sid = Some s
           /\ cid ∈ ce_id <$> scope_collections s
           /\ forall sid' s',
               scopes manifest !! sid' = Some s' ->
               cid ∈ ce_id <$> scope_collections s' -> sid' = sid).
Proof.
  apply (constructor_names MaxCollectionNameSize document 10 10).
  vm_compute. reflexivity.
Defined.

Lemma constructor_limits_witness :
  size (scopes manifest) <= 10
  /\ size (collections manifest) <= 10
  /\ is_Some (scopes manifest !! ScopeID_Default)
  /\ (uid manifest < 2 ^ 64)%N
  /\ (forall sid s c,
         scopes manifest !! sid = Some s -> c ∈ scope_collections s ->
         (sid < 2 ^ 32)%N /\ (ce_id c < 2 ^ 32)%N
         /\ forall ttl, ce_maxTtl c = Some ttl -> (ttl < 2 ^ 32)%N).
Proof.
  apply (constructor_limits MaxCollectionNameSize document 10 10).
  vm_compute. reflexivity.
Defined.

(** A document in which a maximum TTL needs 33 bits. *)
Definition oversized_document : Json.json :=
  Json.Object
    [("scopes",
      Json.Array
        [Json.Object
           [("collections",
             Json.Array
               [Json.Object [("max_ttl", Json.NumberUnsigned 4294967296);
                             ("name", Json.Str "meat");
                             ("uid", Json.Str "8")]]);
            ("name", Json.Str "_default");
            ("uid", Json.Str "0")]]);
     ("uid", Json.Str "1")].

Lemma constructor_exceptions_witness :
  out_of_range = invalid_argument
  \/ (out_of_range = out_of_range
      /\ exists jscopes scope jcollections collection,
          Json.find oversized_document "scopes" = Some jscopes
          /\ scope ∈ Json.elements jscopes
          /\ Json.find scope "collections" = Some jcollections
          /\ collection ∈ Json.elements jcollections
          /\ oversized_max_ttl collection).
Proof.
  apply (constructor_exceptions MaxCollectionNameSize oversized_document
           10 10).
  vm_compute. reflexivity.
Defined.

(** What [toJson] writes for the manifest when the default scope comes
    first. *)
Definition written_document : Json.json :=
  Json.Object
    [("scopes",
      Json.Array
        [Json.Object
           [("collections",
             Json.Array
               [Json.Object [("name", Json.Str "_default");
                             ("uid", Json.Str "0")];
                Json.Object [("max_ttl", Json.NumberUnsigned 72);
                             ("name", Json.Str "meat");
                             ("uid", Json.Str "1f")]]);
            ("name", Json.Str "_default");
            ("uid", Json.Str "0")];
         Json.Object
           [("collections",
             Json.Array
               [Json.Object [("name", Json.Str "meat");
                             ("uid", Json.Str "a0")]]);
            ("name", Json.Str "shop");
            ("uid", Json.Str "8")]]);
     ("uid", Json.Str "abc")].

Lemma toJson_injective_witness : manifest = manifest.
Proof.
  apply (toJson_injective MaxCollectionNameSize document written_document
           10 10 20 20 manifest manifest
           [(0%N, default_scope); (8%N, shop_scope)]
           [(0%N, default_scope); (8%N, shop_scope)]
           written_document).
  - vm_compute. reflexivity.
  - vm_compute. reflexivity.
  - vm_compute. apply perm_swap.
  - vm_compute. apply perm_swap.
  - vm_compute. reflexivity.
  - vm_compute. reflexivity.
Defined.

Lemma path_split_witness :
  requested_scope DefaultScopeIdentifier "shop.meat" = Some "shop"
  /\ requested_collection DefaultCollectionIdentifier "shop.meat"
     = Some "meat"
  /\ requested_scope DefaultScopeIdentifier "shop" = Some "shop"
  /\ requested_collection DefaultCollectionIdentifier "shop" = Some "shop".
Proof.
  apply (path_split DefaultScopeIdentifier DefaultCollectionIdentifier
           "shop" "meat").
  - vm_compute. intuition discriminate.
  - vm_compute. reflexivity.
Defined.

Lemma getScopeID_finds_witness :
  exists found,
    getScopeID MaxCollectionNameSize DefaultScopeIdentifier
      [(0%N, default_scope); (8%N, shop_scope)] "shop.meat"
    = Returns found
    /\ forall sid,
        found = Some sid
        <-> exists s, scopes manifest !! sid = Some s
                      /\ scope_name s = "shop".
Proof.
  apply (getScopeID_finds MaxCollectionNameSize DefaultScopeIdentifier
           document 10 10).
  - vm_compute. reflexivity.
  - vm_compute. apply perm_swap.
  - vm_compute. reflexivity.
  - vm_compute. reflexivity.
Defined.

Lemma getCollectionID_finds_witness :
  exists found,
    getCollectionID MaxCollectionNameSize DefaultCollectionIdentifier
      manifest 0 "shop.meat"
    = Returns found
    /\ forall cid,
        found = Some cid
        <-> cid ∈ ce_id <$> scope_collections default_scope
            /\ collections manifest !! cid = Some "meat".
Proof.
  apply (getCollectionID_finds MaxCollectionNameSize
           DefaultCollectionIdentifier document 10 10 manifest 0
           "shop.meat" "meat").
  - vm_compute. reflexivity.
  - vm_compute. reflexivity.
  - vm_compute. reflexivity.
Defined.

Lemma lookup_by_path_witness :
  getScopeID MaxCollectionNameSize DefaultScopeIdentifier
    [(0%N, default_scope); (8%N, shop_scope)] "shop.meat"
  = Returns (Some 8%N)
  /\ getCollectionID MaxCollectionNameSize DefaultCollectionIdentifier
       manifest 8 "shop.meat"
     = Returns (Some 160%N).
Proof.
  apply (lookup_by_path MaxCollectionNameSize DefaultScopeIdentifier
           DefaultCollectionIdentifier document 10 10 manifest
           [(0%N, default_scope); (8%N, shop_scope)] 8 shop_scope
           {| ce_id := 160; ce_maxTtl := None |} "meat").
  - vm_compute. reflexivity.
  - vm_compute. apply perm_swap.
  - vm_compute. reflexivity.
  - vm_compute. reflexivity.
  - apply list_elem_of_here.
  - vm_compute. reflexivity.
Defined.

End Sample.

End Collections.

(** ** The vBucket coordinator: data model *)

Module VB.

(** Unsigned 64-bit arithmetic of the C++ code, wrap-around written out. *)
Definition u64 (n : N) : N := (n mod 2 ^ 64)%N.

Inductive vbucket_state_t :=
  | vbucket_state_active
  | vbucket_state_replica
  | vbucket_state_pending
  | vbucket_state_dead.

#[global] Instance vbucket_state_eq_dec : EqDecision vbucket_state_t.
Proof. solve_decision. Defined.

Inductive ENGINE_ERROR_CODE :=
  | ENGINE_SUCCESS
  | ENGINE_KEY_ENOENT
  | ENGINE_KEY_EEXISTS
  | ENGINE_ENOMEM
  | ENGINE_NOT_STORED
  | ENGINE_EINVAL
  | ENGINE_EWOULDBLOCK
  | ENGINE_LOCKED
  | ENGINE_LOCKED_TMPFAIL
  | ENGINE_PREDICATE_FAILED
  | ENGINE_SYNC_WRITE_IN_PROGRESS
  | ENGINE_SYNC_WRITE_AMBIGUOUS
  | ENGINE_DURABILITY_IMPOSSIBLE.

#[global] Instance ENGINE_ERROR_CODE_eq_dec : EqDecision ENGINE_ERROR_CODE.
Proof. solve_decision. Defined.

Module MutationStatus.
Inductive t :=
  | NotFound
  | InvalidCas
  | WasClean
  | WasDirty
  | IsLocked
  | NoMem
  | NeedBgFetch
  | IsPendingSyncWrite.
End MutationStatus.

Module AddStatus.
Inductive t :=
  | Success
  | NoMem
  | Exists
  | UnDel
  | AddTmpAndBgFetch
  | BgFetch.
End AddStatus.

Module TempAddStatus.
Inductive t :=
  | NoMem
  | BgFetch.
End TempAddStatus.

Module DeletionStatus.
Inductive t :=
  | Success
  | IsPendingSyncWrite.
End DeletionStatus.

Module StoreIfStatus.
Inductive t :=
  | Continue
  | Fail
  | GetItemInfo.
End StoreIfStatus.

Inductive EvictionPolicy :=
  | Value
  | Full.

Inductive CommittedState :=
  | Pending
  | CommittedViaMutation
  | CommittedViaPrepare.

Inductive DeleteSource :=
  | Explicit
  | TTL.

Inductive GenerateBySeqno := GenerateBySeqno_No | GenerateBySeqno_Yes.
Inductive GenerateCas := GenerateCas_No | GenerateCas_Yes.
Inductive GenerateRevSeqno := GenerateRevSeqno_No | GenerateRevSeqno_Yes.
Inductive TrackCasDrift := TrackCasDrift_No | TrackCasDrift_Yes.

(** *** Durability requirements (memcached/durability_spec.h).

    Modelled from the spec: a requirement is a level and a timeout; a
    timeout is either a number of milliseconds, the bucket default, or
    [Timeout::Infinity]; a requirement is valid when its level is set. *)

Inductive Level :=
  | Level_None
  | Majority
  | MajorityAndPersistOnMaster
  | PersistToMajority.

Inductive Timeout :=
  | Timeout_BucketDefault
  | Timeout_Millis (ms : N)
  | Timeout_Infinity.

Record Requirements := {
  req_level : Level;
  req_timeout : Timeout;
}.

Definition Requirements_isValid (r : Requirements) : bool :=
  match req_level r with Level_None => false | _ => true end.

Definition no_requirements : Requirements :=
  {| req_level := Level_None; req_timeout := Timeout_BucketDefault |}.

(** *** Keys, cookies, items and stored values *)

Abbreviation DocKey := string.

(** A [const void*] cookie; [None] is [nullptr]. *)
Definition Cookie := option nat.

Inductive queue_op :=
  | op_mutation
  | op_pending_sync_write
  | op_commit_sync_write
  | op_abort_sync_write.

(** Modelled from the spec: Item, the serialisable form of a stored value
    used for queueing (item.h is not part of the tree). *)
Record Item := {
  it_key : DocKey;
  it_value : option string;
  it_datatype : N;
  it_flags : N;
  it_exptime : N;
  it_cas : N;
  it_bySeqno : Z;
  it_revSeqno : N;
  it_deleted : bool;
  it_deleteSource : DeleteSource;
  it_op : queue_op;
  it_durabilityReqs : Requirements;
  it_prepareSeqno : Z;
}.

Definition with_it_bySeqno (x : Z) (r : Item) : Item :=
  {| it_key := it_key r;
     it_value := it_value r;
     it_datatype := it_datatype r;
     it_flags := it_flags r;
     it_exptime := it_exptime r;
     it_cas := it_cas r;
     it_bySeqno := x;
     it_revSeqno := it_revSeqno r;
     it_deleted := it_deleted r;
     it_deleteSource := it_deleteSource r;
     it_op := it_op r;
     it_durabilityReqs := it_durabilityReqs r;
     it_prepareSeqno := it_prepareSeqno r |}.

Definition with_it_cas (x : N) (r : Item) : Item :=
  {| it_key := it_key r;
     it_value := it_value r;
     it_datatype := it_datatype r;
     it_flags := it_flags r;
     it_exptime := it_exptime r;
     it_cas := x;
     it_bySeqno := it_bySeqno r;
     it_revSeqno := it_revSeqno r;
     it_deleted := it_deleted r;
     it_deleteSource := it_deleteSource r;
     it_op := it_op r;
     it_durabilityReqs := it_durabilityReqs r;
     it_prepareSeqno := it_prepareSeqno r |}.

Definition with_it_revSeqno (x : N) (r : Item) : Item :=
  {| it_key := it_key r;
     it_value := it_value r;
     it_datatype := it_datatype r;
     it_flags := it_flags r;
     it_exptime := it_exptime r;
     it_cas := it_cas r;
     it_bySeqno := it_bySeqno r;
     it_revSeqno := x;
     it_deleted := it_deleted r;
     it_deleteSource := it_deleteSource r;
     it_op := it_op r;
     it_durabilityReqs := it_durabilityReqs r;
     it_prepareSeqno := it_prepareSeqno r |}.

Definition with_it_exptime (x : N) (r : Item) : Item :=
  {| it_key := it_key r;
     it_value := it_value r;
     it_datatype := it_datatype r;
     it_flags := it_flags r;
     it_exptime := x;
     it_cas := it_cas r;
     it_bySeqno := it_bySeqno r;
     it_revSeqno := it_revSeqno r;
     it_deleted := it_deleted r;
     it_deleteSource := it_deleteSource r;
     it_op := it_op r;
     it_durabilityReqs := it_durabilityReqs r;
     it_prepareSeqno := it_prepareSeqno r |}.

Definition with_it_prepareSeqno (x : Z) (r : Item) : Item :=
  {| it_key := it_key r;
     it_value := it_value r;
     it_datatype := it_datatype r;
     it_flags := it_flags r;
     it_exptime := it_exptime r;
     it_cas := it_cas r;
     it_bySeqno := it_bySeqno r;
     it_revSeqno := it_revSeqno r;
     it_deleted := it_deleted r;
     it_deleteSource := it_deleteSource r;
     it_op := it_op r;
     it_durabilityReqs := it_durabilityReqs r;
     it_prepareSeqno := x |}.

Definition Item_isPending (i : Item) : bool :=
  match it_op i with op_pending_sync_write => true | _ => false end.

Definition Item_isAbort (i : Item) : bool :=
  match it_op i with op_abort_sync_write => true | _ => false end.

Definition Item_isCommitSyncWrite (i : Item) : bool :=
  match it_op i with op_commit_sync_write => true | _ => false end.

(** The reserved seqnos that stored-value.h uses as temp markers. *)
Definition state_deleted_key : Z := -3.
Definition state_non_existent_key : Z := -4.
Definition state_temp_init : Z := -5.

(** Modelled from the spec (section 3, StoredValue): key, optional value,
    datatype, flags, expiry, CAS, bySeqno, revSeqno, committed state,
    lock-until time, residency, deleted flag and deletion source; the temp
    marker kind is carried by the reserved bySeqno values, as processAdd
    reads it. *)
Record StoredValue := {
  sv_key : DocKey;
  sv_value : option string;
  sv_datatype : N;
  sv_flags : N;
  sv_exptime : N;
  sv_cas : N;
  sv_bySeqno : Z;
  sv_revSeqno : N;
  sv_committed : CommittedState;
  sv_lock_expiry : N;
  sv_resident : bool;
  sv_deleted : bool;
  sv_deleteSource : DeleteSource;
  sv_dirty : bool;
  sv_nru : N;
}.

Definition with_sv_value (x : option string) (r : StoredValue) : StoredValue :=
  {| sv_key := sv_key r;
     sv_value := x;
     sv_datatype := sv_datatype r;
     sv_flags := sv_flags r;
     sv_exptime := sv_exptime r;
     sv_cas := sv_cas r;
     sv_bySeqno := sv_bySeqno r;
     sv_revSeqno := sv_revSeqno r;
     sv_committed := sv_committed r;
     sv_lock_expiry := sv_lock_expiry r;
     sv_resident := sv_resident r;
     sv_deleted := sv_deleted r;
     sv_deleteSource := sv_deleteSource r;
     sv_dirty := sv_dirty r;
     sv_nru := sv_nru r |}.

Definition with_sv_flags (x : N) (r : StoredValue) : StoredValue :=
  {| sv_key := sv_key r;
     sv_value := sv_value r;
     sv_datatype := sv_datatype r;
     sv_flags := x;
     sv_exptime := sv_exptime r;
     sv_cas := sv_cas r;
     sv_bySeqno := sv_bySeqno r;
     sv_revSeqno := sv_revSeqno r;
     sv_committed := sv_committed r;
     sv_lock_expiry := sv_lock_expiry r;
     sv_resident := sv_resident r;
     sv_deleted := sv_deleted r;
     sv_deleteSource := sv_deleteSource r;
     sv_dirty := sv_dirty r;
     sv_nru := sv_nru r |}.

Definition with_sv_exptime (x : N) (r : StoredValue) : StoredValue :=
  {| sv_key := sv_key r;
     sv_value := sv_value r;
     sv_datatype := sv_datatype r;
     sv_flags := sv_flags r;
     sv_exptime := x;
     sv_cas := sv_cas r;
     sv_bySeqno := sv_bySeqno r;
     sv_revSeqno := sv_revSeqno r;
     sv_committed := sv_committed r;
     sv_lock_expiry := sv_lock_expiry r;
     sv_resident := sv_resident r;
     sv_deleted := sv_deleted r;
     sv_deleteSource := sv_deleteSource r;
     sv_dirty := sv_dirty r;
     sv_nru := sv_nru r |}.

Definition with_sv_cas (x : N) (r : StoredValue) : StoredValue :=
  {| sv_key := sv_key r;
     sv_value := sv_value r;
     sv_datatype := sv_datatype r;
     sv_flags := sv_flags r;
     sv_exptime := sv_exptime r;
     sv_cas := x;
     sv_bySeqno := sv_bySeqno r;
     sv_revSeqno := sv_revSeqno r;
     sv_committed := sv_committed r;
     sv_lock_expiry := sv_lock_expiry r;
     sv_resident := sv_resident r;
     sv_deleted := sv_deleted r;
     sv_deleteSource := sv_deleteSource r;
     sv_dirty := sv_dirty r;
     sv_nru := sv_nru r |}.

Definition with_sv_bySeqno (x : Z) (r : StoredValue) : StoredValue :=
  {| sv_key := sv_key r;
     sv_value := sv_value r;
     sv_datatype := sv_datatype r;
     sv_flags := sv_flags r;
     sv_exptime := sv_exptime r;
     sv_cas := sv_cas r;
     sv_bySeqno := x;
     sv_revSeqno := sv_revSeqno r;
     sv_committed := sv_committed r;
     sv_lock_expiry := sv_lock_expiry r;
     sv_resident := sv_resident r;
     sv_deleted := sv_deleted r;
     sv_deleteSource := sv_deleteSource r;
     sv_dirty := sv_dirty r;
     sv_nru := sv_nru r |}.

Definition with_sv_revSeqno (x : N) (r : StoredValue) : StoredValue :=
  {| sv_key := sv_key r;
     sv_value := sv_value r;
     sv_datatype := sv_datatype r;
     sv_flags := sv_flags r;
     sv_exptime := sv_exptime r;
     sv_cas := sv_cas r;
     sv_bySeqno := sv_bySeqno r;
     sv_revSeqno := x;
     sv_committed := sv_committed r;
     sv_lock_expiry := sv_lock_expiry r;
     sv_resident := sv_resident r;
     sv_deleted := sv_deleted r;
     sv_deleteSource := sv_deleteSource r;
     sv_dirty := sv_dirty r;
     sv_nru := sv_nru r |}.

Definition with_sv_committed (x : CommittedState) (r : StoredValue) : StoredValue :=
  {| sv_key := sv_key r;
     sv_value := sv_value r;
     sv_datatype := sv_datatype r;
     sv_flags := sv_flags r;
     sv_exptime := sv_exptime r;
     sv_cas := sv_cas r;
     sv_bySeqno := sv_bySeqno r;
     sv_revSeqno := sv_revSeqno r;
     sv_committed := x;
     sv_lock_expiry := sv_lock_expiry r;
     sv_resident := sv_resident r;
     sv_deleted := sv_deleted r;
     sv_deleteSource := sv_deleteSource r;
     sv_dirty := sv_dirty r;
     sv_nru := sv_nru r |}.

Definition with_sv_lock_expiry (x : N) (r : StoredValue) : StoredValue :=
  {| sv_key := sv_key r;
     sv_value := sv_value r;
     sv_datatype := sv_datatype r;
     sv_flags := sv_flags r;
     sv_exptime := sv_exptime r;
     sv_cas := sv_cas r;
     sv_bySeqno := sv_bySeqno r;
     sv_revSeqno := sv_revSeqno r;
     sv_committed := sv_committed r;
     sv_lock_expiry := x;
     sv_resident := sv_resident r;
     sv_deleted := sv_deleted r;
     sv_deleteSource := sv_deleteSource r;
     sv_dirty := sv_dirty r;
     sv_nru := sv_nru r |}.

Definition with_sv_deleted (x : bool) (r : StoredValue) : StoredValue :=
  {| sv_key := sv_key r;
     sv_value := sv_value r;
     sv_datatype := sv_datatype r;
     sv_flags := sv_flags r;
     sv_exptime := sv_exptime r;
     sv_cas := sv_cas r;
     sv_bySeqno := sv_bySeqno r;
     sv_revSeqno := sv_revSeqno r;
     sv_committed := sv_committed r;
     sv_lock_expiry := sv_lock_expiry r;
     sv_resident := sv_resident r;
     sv_deleted := x;
     sv_deleteSource := sv_deleteSource r;
     sv_dirty := sv_dirty r;
     sv_nru := sv_nru r |}.

Definition with_sv_deleteSource (x : DeleteSource) (r : StoredValue) : StoredValue :=
  {| sv_key := sv_key r;
     sv_value := sv_value r;
     sv_datatype := sv_datatype r;
     sv_flags := sv_flags r;
     sv_exptime := sv_exptime r;
     sv_cas := sv_cas r;
     sv_bySeqno := sv_bySeqno r;
     sv_revSeqno := sv_revSeqno r;
     sv_committed := sv_committed r;
     sv_lock_expiry := sv_lock_expiry r;
     sv_resident := sv_resident r;
     sv_deleted := sv_deleted r;
     sv_deleteSource := x;
     sv_dirty := sv_dirty r;
     sv_nru := sv_nru r |}.

Definition with_sv_dirty (x : bool) (r : StoredValue) : StoredValue :=
  {| sv_key := sv_key r;
     sv_value := sv_value r;
     sv_datatype := sv_datatype r;
     sv_flags := sv_flags r;
     sv_exptime := sv_exptime r;
     sv_cas := sv_cas r;
     sv_bySeqno := sv_bySeqno r;
     sv_revSeqno := sv_revSeqno r;
     sv_committed := sv_committed r;
     sv_lock_expiry := sv_lock_expiry r;
     sv_resident := sv_resident r;
     sv_deleted := sv_deleted r;
     sv_deleteSource := sv_deleteSource r;
     sv_dirty := x;
     sv_nru := sv_nru r |}.

Definition with_sv_nru (x : N) (r : StoredValue) : StoredValue :=
  {| sv_key := sv_key r;
     sv_value := sv_value r;
     sv_datatype := sv_datatype r;
     sv_flags := sv_flags r;
     sv_exptime := sv_exptime r;
     sv_cas := sv_cas r;
     sv_bySeqno := sv_bySeqno r;
     sv_revSeqno := sv_revSeqno r;
     sv_committed := sv_committed r;
     sv_lock_expiry := sv_lock_expiry r;
     sv_resident := sv_resident r;
     sv_deleted := sv_deleted r;
     sv_deleteSource := sv_deleteSource r;
     sv_dirty := sv_dirty r;
     sv_nru := x |}.

Definition isPending (v : StoredValue) : bool :=
  match sv_committed v with Pending => true | _ => false end.

Definition isDeleted (v : StoredValue) : bool := sv_deleted v.
Definition isResident (v : StoredValue) : bool := sv_resident v.
Definition isDirty (v : StoredValue) : bool := sv_dirty v.

Definition isTempInitialItem (v : StoredValue) : bool :=
  (sv_bySeqno v =? state_temp_init)%Z.
Definition isTempDeletedItem (v : StoredValue) : bool :=
  (sv_bySeqno v =? state_deleted_key)%Z.
Definition isTempNonExistentItem (v : StoredValue) : bool :=
  (sv_bySeqno v =? state_non_existent_key)%Z.
Definition isTempItem (v : StoredValue) : bool :=
  isTempNonExistentItem v || isTempDeletedItem v || isTempInitialItem v.

(** Expiry is ignored when no expiry time is set. *)
Definition isExpired (v : StoredValue) (asOf : N) : bool :=
  negb (sv_exptime v =? 0)%N && (sv_exptime v <? asOf)%N.

(** Modelled from the spec: the lock-until time. A deleted value is never
    locked; a value is locked until its lock-until time has passed. *)
Definition isLocked (v : StoredValue) (curtime : N) : bool :=
  if isDeleted v then false
  else negb ((sv_lock_expiry v =? 0)%N || (sv_lock_expiry v <? curtime)%N).

Definition unlock (v : StoredValue) : StoredValue :=
  if isDeleted v then v else with_sv_lock_expiry 0 v.

(** Item <-> StoredValue conversions.

    Modelled from the spec: an Item is the serialisable form of a
    StoredValue; the queue operation of the item follows the committed
    state of the value (a Pending value gives a prepare, a value committed
    via prepare gives a commit). *)

Definition op_of_committed (c : CommittedState) : queue_op :=
  match c with
  | Pending => op_pending_sync_write
  | CommittedViaMutation => op_mutation
  | CommittedViaPrepare => op_commit_sync_write
  end.

Definition toItem (v : StoredValue) (durabilityReqs : option Requirements)
  : Item :=
  {| it_key := sv_key v; it_value := sv_value v; it_datatype := sv_datatype v;
     it_flags := sv_flags v; it_exptime := sv_exptime v; it_cas := sv_cas v;
     it_bySeqno := sv_bySeqno v; it_revSeqno := sv_revSeqno v;
     it_deleted := sv_deleted v; it_deleteSource := sv_deleteSource v;
     it_op := match durabilityReqs with
              | Some _ => op_pending_sync_write
              | None => op_of_committed (sv_committed v)
              end;
     it_durabilityReqs := default no_requirements durabilityReqs;
     it_prepareSeqno := 0 |}.

(** [toItemAbort]: a deleted item without a value, marked as an abort. *)
Definition toItemAbort (v : StoredValue) : Item :=
  {| it_key := sv_key v; it_value := None; it_datatype := sv_datatype v;
     it_flags := sv_flags v; it_exptime := sv_exptime v; it_cas := sv_cas v;
     it_bySeqno := sv_bySeqno v; it_revSeqno := sv_revSeqno v;
     it_deleted := true; it_deleteSource := Explicit;
     it_op := op_abort_sync_write;
     it_durabilityReqs := no_requirements;
     it_prepareSeqno := 0 |}.

(** The stored value that the hash table builds from an item. *)
Definition StoredValue_of_Item (itm : Item) : StoredValue :=
  {| sv_key := it_key itm; sv_value := it_value itm;
     sv_datatype := it_datatype itm; sv_flags := it_flags itm;
     sv_exptime := it_exptime itm; sv_cas := it_cas itm;
     sv_bySeqno := it_bySeqno itm; sv_revSeqno := it_revSeqno itm;
     sv_committed := if Item_isPending itm then Pending
                     else CommittedViaMutation;
     sv_lock_expiry := 0; sv_resident := true;
     sv_deleted := it_deleted itm; sv_deleteSource := it_deleteSource itm;
     sv_dirty := true; sv_nru := 0 |}.

(** *** Hash table

    Modelled from the spec (sections 3 and 4.2): a mapping from key to
    stored value in which a Pending and a committed value may coexist at
    one key; [findForWrite] yields the value visible to writers, which is
    the Pending one when there is one. *)

Record HashTable := {
  ht_pending : gmap string StoredValue;
  ht_committed : gmap string StoredValue;
  maxDeletedRevSeqno : N;
}.

Definition with_ht_pending (x : gmap string StoredValue) (r : HashTable) : HashTable :=
  {| ht_pending := x;
     ht_committed := ht_committed r;
     maxDeletedRevSeqno := maxDeletedRevSeqno r |}.

Definition with_ht_committed (x : gmap string StoredValue) (r : HashTable) : HashTable :=
  {| ht_pending := ht_pending r;
     ht_committed := x;
     maxDeletedRevSeqno := maxDeletedRevSeqno r |}.

Definition with_maxDeletedRevSeqno (x : N) (r : HashTable) : HashTable :=
  {| ht_pending := ht_pending r;
     ht_committed := ht_committed r;
     maxDeletedRevSeqno := x |}.

Definition findForWrite (ht : HashTable) (key : DocKey) : option StoredValue :=
  match ht_pending ht !! key with
  | Some v => Some v
  | None => ht_committed ht !! key
  end.

(** Writing through a [StoredValue*]: the value is stored back at the place
    it lives at, which its key and committed state determine. *)
Definition ht_store (v : StoredValue) (ht : HashTable) : HashTable :=
  if isPending v
  then with_ht_pending (<[sv_key v := v]> (ht_pending ht)) ht
  else with_ht_committed (<[sv_key v := v]> (ht_committed ht)) ht.

Definition unlocked_addNewStoredValue (itm : Item) (ht : HashTable)
  : StoredValue * HashTable :=
  let v := StoredValue_of_Item itm in (v, ht_store v ht).

(** [unlocked_del]: physical removal of the value that writers see. *)
Definition unlocked_del (key : DocKey) (ht : HashTable) : HashTable :=
  match ht_pending ht !! key with
  | Some _ => with_ht_pending (delete key (ht_pending ht)) ht
  | None => with_ht_committed (delete key (ht_committed ht)) ht
  end.

Definition updateMaxDeletedRevSeqno (seqno : N) (ht : HashTable) : HashTable :=
  if (maxDeletedRevSeqno ht <? seqno)%N then with_maxDeletedRevSeqno seqno ht
  else ht.

(** *** Checkpoint manager

    Modelled from the spec (section 4.3): the ordered log of queued items
    and the last assigned seqno. *)

Record CheckpointManager := {
  cm_items : list Item;
  cm_lastBySeqno : Z;
  cm_openCheckpointId : N;
}.

Definition with_cm_items (x : list Item) (r : CheckpointManager) : CheckpointManager :=
  {| cm_items := x;
     cm_lastBySeqno := cm_lastBySeqno r;
     cm_openCheckpointId := cm_openCheckpointId r |}.

Definition with_cm_lastBySeqno (x : Z) (r : CheckpointManager) : CheckpointManager :=
  {| cm_items := cm_items r;
     cm_lastBySeqno := x;
     cm_openCheckpointId := cm_openCheckpointId r |}.

Definition with_cm_openCheckpointId (x : N) (r : CheckpointManager) : CheckpointManager :=
  {| cm_items := cm_items r;
     cm_lastBySeqno := cm_lastBySeqno r;
     cm_openCheckpointId := x |}.

(** *** Durability monitors

    Modelled from the spec (sections 4.4 and 4.5): the replication chains
    (an undefined node is [None]) and the tracked prepares; each prepare
    carries its seqno, its requirements, the client cookie and the time it
    was enqueued. *)

Record SyncWrite := {
  sw_key : DocKey;
  sw_seqno : Z;
  sw_reqs : Requirements;
  sw_cookie : Cookie;
  sw_start : N;
}.

Abbreviation ReplicationChain := (list (option string)).

Record ActiveDurabilityMonitor := {
  adm_chains : list (list (option string));
  adm_trackedWrites : list SyncWrite;
}.

Definition with_adm_chains (x : list (list (option string))) (r : ActiveDurabilityMonitor) : ActiveDurabilityMonitor :=
  {| adm_chains := x;
     adm_trackedWrites := adm_trackedWrites r |}.

Definition with_adm_trackedWrites (x : list SyncWrite) (r : ActiveDurabilityMonitor) : ActiveDurabilityMonitor :=
  {| adm_chains := adm_chains r;
     adm_trackedWrites := x |}.

Record PassiveDurabilityMonitor := {
  pdm_trackedWrites : list SyncWrite;
}.

Definition with_pdm_trackedWrites (x : list SyncWrite) (r : PassiveDurabilityMonitor) : PassiveDurabilityMonitor :=
  {| pdm_trackedWrites := x |}.

Inductive DurabilityMonitor :=
  | ActiveDM (adm : ActiveDurabilityMonitor)
  | PassiveDM (pdm : PassiveDurabilityMonitor).

Definition numDefined (chain : ReplicationChain) : nat :=
  length (filter (fun n => is_Some n) chain).

Definition majority (chain : ReplicationChain) : nat :=
  length chain / 2 + 1.

(** Modelled from the spec: the durability-possible predicate. For each
    chain, the number of defined nodes must be at least
    majority = floor(chainSize/2)+1. *)
Definition isDurabilityPossible (adm : ActiveDurabilityMonitor) : bool :=
  forallb (fun chain => (majority chain <=? numDefined chain)%nat)
          (adm_chains adm).

Definition SyncWrite_of_Item (cookie : Cookie) (start : N) (item : Item)
  : SyncWrite :=
  {| sw_key := it_key item; sw_seqno := it_bySeqno item;
     sw_reqs := it_durabilityReqs item; sw_cookie := cookie;
     sw_start := start |}.

(** Modelled from the spec: [addSyncWrite] fails when durability is
    impossible (a std::logic_error, as durability_monitor_test.cc expects),
    otherwise the prepare is appended to the tracked writes. *)
Definition ADM_addSyncWrite (now : N) (cookie : Cookie) (item : Item)
    (adm : ActiveDurabilityMonitor) : result ActiveDurabilityMonitor :=
  if negb (Requirements_isValid (it_durabilityReqs item))
  then Throw invalid_argument
  else if negb (isDurabilityPossible adm) then Throw logic_error
  else Ok (with_adm_trackedWrites
             (adm_trackedWrites adm ++ [SyncWrite_of_Item cookie now item]) adm).

(** Modelled from the spec: the passive monitor adds incoming prepares with
    their explicit timeouts only; a default timeout is rejected. *)
Definition PDM_addSyncWrite (now : N) (item : Item)
    (pdm : PassiveDurabilityMonitor) : result PassiveDurabilityMonitor :=
  match req_timeout (it_durabilityReqs item) with
  | Timeout_BucketDefault => Throw invalid_argument
  | _ =>
    if negb (Requirements_isValid (it_durabilityReqs item))
    then Throw invalid_argument
    else Ok (with_pdm_trackedWrites
               (pdm_trackedWrites pdm ++ [SyncWrite_of_Item None now item]) pdm)
  end.

(** ** The vBucket coordinator: operations *)

Section WithEnvironment.

(** The arithmetic of C++ [double], taken as it is: conversion from a size,
    product and comparison. *)
Variable double : Type.
Variable double_of_size : N -> double.
Variable double_mul : double -> double -> double.
Variable double_le : double -> double -> bool.

(** [VBucket::mutationMemThreshold], a static of the class. *)
Variable mutationMemThreshold : double.

(** The clocks the coordinator reads: [ep_current_time()], [ep_real_time()]
    and the steady clock of the durability monitor. One operation runs
    under the hash-bucket lock and sees one reading of each. *)
Variable ep_current_time : N.
Variable ep_real_time : N.
Variable steady_clock_now : N.

Record EPStats := {
  maxDataSize : N;
  estimatedTotalMemoryUsed : N;
  replicationThrottleThreshold : double;
}.

(** [estimateNewMemoryUsage] is declared in vbucket.h: the memory usage
    projected after the item is added. *)
Variable estimateNewMemoryUsage : EPStats -> Item -> N.

Record VBNotifyCtx := {
  notify_bySeqno : Z;
  notifyReplication : bool;
  notifyFlusher : bool;
}.

Definition VBNotifyCtx_default : VBNotifyCtx :=
  {| notify_bySeqno := 0; notifyReplication := false; notifyFlusher := false |}.

Record DurabilityItemCtx := {
  dic_requirements : Requirements;
  dic_cookie : Cookie;
}.

Record VBQueueItemCtx := {
  genBySeqno : GenerateBySeqno;
  genCas : GenerateCas;
  trackCasDrift : TrackCasDrift;
  isBackfillItem : bool;
  durability : option DurabilityItemCtx;
}.

(** A default-constructed [VBQueueItemCtx]. *)
Definition VBQueueItemCtx_default : VBQueueItemCtx :=
  {| genBySeqno := GenerateBySeqno_Yes; genCas := GenerateCas_Yes;
     trackCasDrift := TrackCasDrift_No; isBackfillItem := false;
     durability := None |}.

Definition with_durability (d : option DurabilityItemCtx) (c : VBQueueItemCtx)
  : VBQueueItemCtx :=
  {| genBySeqno := genBySeqno c; genCas := genCas c;
     trackCasDrift := trackCasDrift c; isBackfillItem := isBackfillItem c;
     durability := d |}.

Definition with_genBySeqno (g : GenerateBySeqno) (c : VBQueueItemCtx)
  : VBQueueItemCtx :=
  {| genBySeqno := g; genCas := genCas c;
     trackCasDrift := trackCasDrift c; isBackfillItem := isBackfillItem c;
     durability := durability c |}.

(** The collection handle that pins the membership decision of one
    operation (Collections::VB::Manifest::CachingReadHandle). *)
Record CachingReadHandle := {
  ch_key : DocKey;
  ch_valid : bool;
  ch_isLogicallyDeleted : Z -> bool;
}.

(** The state of one vBucket. The host callbacks (sync-write completion,
    new seqno) and the background fetcher are recorded as logs of the calls
    made. *)

Record VBucket := {
  state : vbucket_state_t;
  eviction : EvictionPolicy;
  areDeletedItemsAlwaysResident : bool;
  ht : HashTable;
  checkpointManager : CheckpointManager;
  backfillItems : list Item;
  durabilityMonitor : DurabilityMonitor;
  replicationTopology : Json.json;
  stats : EPStats;
  hlc_maxCas : N;
  bFilter : option (gset string);
  mightContainXattrs : bool;
  bgFetches : list (string * Cookie * bool);
  syncWriteCompleteCb : list (Cookie * ENGINE_ERROR_CODE);
  newSeqnoCb : list VBNotifyCtx;
}.

Definition with_state (x : vbucket_state_t) (r : VBucket) : VBucket :=
  {| state := x;
     eviction := eviction r;
     areDeletedItemsAlwaysResident := areDeletedItemsAlwaysResident r;
     ht := ht r;
     checkpointManager := checkpointManager r;
     backfillItems := backfillItems r;
     durabilityMonitor := durabilityMonitor r;
     replicationTopology := replicationTopology r;
     stats := stats r;
     hlc_maxCas := hlc_maxCas r;
     bFilter := bFilter r;
     mightContainXattrs := mightContainXattrs r;
     bgFetches := bgFetches r;
     syncWriteCompleteCb := syncWriteCompleteCb r;
     newSeqnoCb := newSeqnoCb r |}.

Definition with_ht (x : HashTable) (r : VBucket) : VBucket :=
  {| state := state r;
     eviction := eviction r;
     areDeletedItemsAlwaysResident := areDeletedItemsAlwaysResident r;
     ht := x;
     checkpointManager := checkpointManager r;
     backfillItems := backfillItems r;
     durabilityMonitor := durabilityMonitor r;
     replicationTopology := replicationTopology r;
     stats := stats r;
     hlc_maxCas := hlc_maxCas r;
     bFilter := bFilter r;
     mightContainXattrs := mightContainXattrs r;
     bgFetches := bgFetches r;
     syncWriteCompleteCb := syncWriteCompleteCb r;
     newSeqnoCb := newSeqnoCb r |}.

Definition with_checkpointManager (x : CheckpointManager) (r : VBucket) : VBucket :=
  {| state := state r;
     eviction := eviction r;
     areDeletedItemsAlwaysResident := areDeletedItemsAlwaysResident r;
     ht := ht r;
     checkpointManager := x;
     backfillItems := backfillItems r;
     durabilityMonitor := durabilityMonitor r;
     replicationTopology := replicationTopology r;
     stats := stats r;
     hlc_maxCas := hlc_maxCas r;
     bFilter := bFilter r;
     mightContainXattrs := mightContainXattrs r;
     bgFetches := bgFetches r;
     syncWriteCompleteCb := syncWriteCompleteCb r;
     newSeqnoCb := newSeqnoCb r |}.

Definition with_backfillItems (x : list Item) (r : VBucket) : VBucket :=
  {| state := state r;
     eviction := eviction r;
     areDeletedItemsAlwaysResident := areDeletedItemsAlwaysResident r;
     ht := ht r;
     checkpointManager := checkpointManager r;
     backfillItems := x;
     durabilityMonitor := durabilityMonitor r;
     replicationTopology := replicationTopology r;
     stats := stats r;
     hlc_maxCas := hlc_maxCas r;
     bFilter := bFilter r;
     mightContainXattrs := mightContainXattrs r;
     bgFetches := bgFetches r;
     syncWriteCompleteCb := syncWriteCompleteCb r;
     newSeqnoCb := newSeqnoCb r |}.

Definition with_durabilityMonitor (x : DurabilityMonitor) (r : VBucket) : VBucket :=
  {| state := state r;
     eviction := eviction r;
     areDeletedItemsAlwaysResident := areDeletedItemsAlwaysResident r;
     ht := ht r;
     checkpointManager := checkpointManager r;
     backfillItems := backfillItems r;
     durabilityMonitor := x;
     replicationTopology := replicationTopology r;
     stats := stats r;
     hlc_maxCas := hlc_maxCas r;
     bFilter := bFilter r;
     mightContainXattrs := mightContainXattrs r;
     bgFetches := bgFetches r;
     syncWriteCompleteCb := syncWriteCompleteCb r;
     newSeqnoCb := newSeqnoCb r |}.

Definition with_replicationTopology (x : Json.json) (r : VBucket) : VBucket :=
  {| state := state r;
     eviction := eviction r;
     areDeletedItemsAlwaysResident := areDeletedItemsAlwaysResident r;
     ht := ht r;
     checkpointManager := checkpointManager r;
     backfillItems := backfillItems r;
     durabilityMonitor := durabilityMonitor r;
     replicationTopology := x;
     stats := stats r;
     hlc_maxCas := hlc_maxCas r;
     bFilter := bFilter r;
     mightContainXattrs := mightContainXattrs r;
     bgFetches := bgFetches r;
     syncWriteCompleteCb := syncWriteCompleteCb r;
     newSeqnoCb := newSeqnoCb r |}.

Definition with_hlc_maxCas (x : N) (r : VBucket) : VBucket :=
  {| state := state r;
     eviction := eviction r;
     areDeletedItemsAlwaysResident := areDeletedItemsAlwaysResident r;
     ht := ht r;
     checkpointManager := checkpointManager r;
     backfillItems := backfillItems r;
     durabilityMonitor := durabilityMonitor r;
     replicationTopology := replicationTopology r;
     stats := stats r;
     hlc_maxCas := x;
     bFilter := bFilter r;
     mightContainXattrs := mightContainXattrs r;
     bgFetches := bgFetches r;
     syncWriteCompleteCb := syncWriteCompleteCb r;
     newSeqnoCb := newSeqnoCb r |}.

Definition with_mightContainXattrs (x : bool) (r : VBucket) : VBucket :=
  {| state := state r;
     eviction := eviction r;
     areDeletedItemsAlwaysResident := areDeletedItemsAlwaysResident r;
     ht := ht r;
     checkpointManager := checkpointManager r;
     backfillItems := backfillItems r;
     durabilityMonitor := durabilityMonitor r;
     replicationTopology := replicationTopology r;
     stats := stats r;
     hlc_maxCas := hlc_maxCas r;
     bFilter := bFilter r;
     mightContainXattrs := x;
     bgFetches := bgFetches r;
     syncWriteCompleteCb := syncWriteCompleteCb r;
     newSeqnoCb := newSeqnoCb r |}.

Definition with_bgFetches (x : list (string * Cookie * bool)) (r : VBucket) : VBucket :=
  {| state := state r;
     eviction := eviction r;
     areDeletedItemsAlwaysResident := areDeletedItemsAlwaysResident r;
     ht := ht r;
     checkpointManager := checkpointManager r;
     backfillItems := backfillItems r;
     durabilityMonitor := durabilityMonitor r;
     replicationTopology := replicationTopology r;
     stats := stats r;
     hlc_maxCas := hlc_maxCas r;
     bFilter := bFilter r;
     mightContainXattrs := mightContainXattrs r;
     bgFetches := x;
     syncWriteCompleteCb := syncWriteCompleteCb r;
     newSeqnoCb := newSeqnoCb r |}.

Definition with_syncWriteCompleteCb (x : list (Cookie * ENGINE_ERROR_CODE)) (r : VBucket) : VBucket :=
  {| state := state r;
     eviction := eviction r;
     areDeletedItemsAlwaysResident := areDeletedItemsAlwaysResident r;
     ht := ht r;
     checkpointManager := checkpointManager r;
     backfillItems := backfillItems r;
     durabilityMonitor := durabilityMonitor r;
     replicationTopology := replicationTopology r;
     stats := stats r;
     hlc_maxCas := hlc_maxCas r;
     bFilter := bFilter r;
     mightContainXattrs := mightContainXattrs r;
     bgFetches := bgFetches r;
     syncWriteCompleteCb := x;
     newSeqnoCb := newSeqnoCb r |}.

Definition with_newSeqnoCb (x : list VBNotifyCtx) (r : VBucket) : VBucket :=
  {| state := state r;
     eviction := eviction r;
     areDeletedItemsAlwaysResident := areDeletedItemsAlwaysResident r;
     ht := ht r;
     checkpointManager := checkpointManager r;
     backfillItems := backfillItems r;
     durabilityMonitor := durabilityMonitor r;
     replicationTopology := replicationTopology r;
     stats := stats r;
     hlc_maxCas := hlc_maxCas r;
     bFilter := bFilter r;
     mightContainXattrs := mightContainXattrs r;
     bgFetches := bgFetches r;
     syncWriteCompleteCb := syncWriteCompleteCb r;
     newSeqnoCb := x |}.

Definition getState (vb : VBucket) : vbucket_state_t := state vb.

Definition is_replica_or_pending (vb : VBucket) : bool :=
  bool_decide (getState vb = vbucket_state_replica) ||
  bool_decide (getState vb = vbucket_state_pending).

(** [Expects(state == vbucket_state_active)] followed by the dynamic cast. *)
Definition getActiveDM (vb : VBucket) : result ActiveDurabilityMonitor :=
  if bool_decide (state vb = vbucket_state_active) then
    match durabilityMonitor vb with
    | ActiveDM adm => Ok adm
    | PassiveDM _ => Throw bad_cast
    end
  else Throw fail_fast.

Definition getPassiveDM (vb : VBucket) : result PassiveDurabilityMonitor :=
  if is_replica_or_pending vb then
    match durabilityMonitor vb with
    | PassiveDM pdm => Ok pdm
    | ActiveDM _ => Throw bad_cast
    end
  else Throw fail_fast.

(** Writing through a [StoredValue*] that points into the hash table. *)
Definition vb_store (v : StoredValue) (vb : VBucket) : VBucket :=
  with_ht (ht_store v (ht vb)) vb.

Definition hasMemoryForStoredValue (vb : VBucket) (st : EPStats) (item : Item)
    (useActiveVBMemThreshold : bool) : bool :=
  let newSize := double_of_size (estimateNewMemoryUsage st item) in
  let maxSize := double_of_size (maxDataSize st) in
  if useActiveVBMemThreshold
     || bool_decide (getState vb = vbucket_state_active)
  then double_le newSize (double_mul maxSize mutationMemThreshold)
  else double_le newSize (double_mul maxSize (replicationThrottleThreshold st)).

Definition maybeKeyExistsInFilter (vb : VBucket) (key : DocKey) : bool :=
  match bFilter vb with
  | Some keys => bool_decide (key ∈ keys)
  | None => true
  end.

Definition is_xattr (datatype : N) : bool := N.testbit datatype 2.

(** Modelled from the spec: the hybrid logical clock keeps the maximum CAS
    and hands out CAS values that increase. *)
Definition setMaxCasAndTrackDrift (cas : N) (vb : VBucket) : VBucket :=
  with_hlc_maxCas (N.max (hlc_maxCas vb) cas) vb.

Definition nextHLCCas (vb : VBucket) : N * VBucket :=
  let cas := u64 (hlc_maxCas vb + 1) in (cas, with_hlc_maxCas cas vb).

(** Modelled from the spec: [CheckpointManager::queueDirty]. With
    genSeqno=Yes the next seqno is assigned and written into the item;
    assigned seqnos are strictly monotonic (a violation is a logic error);
    with genCas=Yes the item takes its CAS from the clock. *)
Definition CM_queueDirty (vb : VBucket) (item : Item)
    (generateBySeqno : GenerateBySeqno) (generateCas : GenerateCas)
  : result (bool * Item * VBucket) :=
  let cm := checkpointManager vb in
  let item1 := match generateBySeqno with
               | GenerateBySeqno_Yes =>
                   with_it_bySeqno (cm_lastBySeqno cm + 1)%Z item
               | GenerateBySeqno_No => item
               end in
  if (it_bySeqno item1 <=? cm_lastBySeqno cm)%Z then Throw logic_error
  else
    let '(item2, vb1) :=
      match generateCas with
      | GenerateCas_Yes =>
          let '(cas, vb') := nextHLCCas vb in (with_it_cas cas item1, vb')
      | GenerateCas_No => (item1, vb)
      end in
    Ok (true, item2,
        with_checkpointManager
          (with_cm_lastBySeqno (it_bySeqno item2)
             (with_cm_items (cm_items cm ++ [item2]) cm)) vb1).

(** Modelled from the spec: backfill items enter a queue of their own. *)
Definition queueBackfillItem (vb : VBucket) (item : Item)
    (generateBySeqno : GenerateBySeqno) : Item * VBucket :=
  let cm := checkpointManager vb in
  let item1 := match generateBySeqno with
               | GenerateBySeqno_Yes =>
                   with_it_bySeqno (cm_lastBySeqno cm + 1)%Z item
               | GenerateBySeqno_No => item
               end in
  (item1,
   with_backfillItems (backfillItems vb ++ [item1])
     (with_checkpointManager (with_cm_lastBySeqno (it_bySeqno item1) cm) vb)).

Definition queueItem (vb : VBucket) (item : Item) (ctx : VBQueueItemCtx)
  : result (VBNotifyCtx * Item * VBucket) :=
  '(notifyCtx, item, vb) ←
    (if isBackfillItem ctx then
       let '(item', vb') := queueBackfillItem vb item (genBySeqno ctx) in
       Ok ({| notify_bySeqno := 0; notifyReplication := false;
              notifyFlusher := true |}, item', vb')
     else
       '(flusher, item', vb') ← CM_queueDirty vb item (genBySeqno ctx) (genCas ctx);
       Ok ({| notify_bySeqno := 0; notifyReplication := true;
              notifyFlusher := flusher |}, item', vb'));
  let notifyCtx := {| notify_bySeqno := it_bySeqno item;
                      notifyReplication := notifyReplication notifyCtx;
                      notifyFlusher := notifyFlusher notifyCtx |} in
  if Item_isPending item then
    match durability ctx with
    | None => Throw fail_fast
    | Some d =>
      if bool_decide (state vb = vbucket_state_active) then
        adm ← getActiveDM vb;
        adm' ← ADM_addSyncWrite steady_clock_now (dic_cookie d) item adm;
        Ok (notifyCtx, item, with_durabilityMonitor (ActiveDM adm') vb)
      else if is_replica_or_pending vb then
        pdm ← getPassiveDM vb;
        pdm' ← PDM_addSyncWrite steady_clock_now item pdm;
        Ok (notifyCtx, item, with_durabilityMonitor (PassiveDM pdm') vb)
      else Ok (notifyCtx, item, vb)
    end
  else Ok (notifyCtx, item, vb).

(** [queueDirty(hbl, v, ctx)]; the result carries the stored value as the
    queueing left it. *)
Definition queueDirty (vb : VBucket) (v : StoredValue) (ctx : VBQueueItemCtx)
  : result (VBNotifyCtx * StoredValue * VBucket) :=
  let vb := match trackCasDrift ctx with
            | TrackCasDrift_Yes => setMaxCasAndTrackDrift (sv_cas v) vb
            | TrackCasDrift_No => vb
            end in
  let durabilityReqs := dic_requirements <$> durability ctx in
  let qi := toItem v durabilityReqs in
  let qi := if it_deleted qi && (it_exptime qi =? 0)%N
            then with_it_exptime ep_real_time qi else qi in
  let vb := if negb (mightContainXattrs vb) && is_xattr (sv_datatype v)
            then with_mightContainXattrs true vb else vb in
  '(notifyCtx, qi, vb) ← queueItem vb qi ctx;
  let v := if negb (isBackfillItem ctx) then
             match genCas ctx with
             | GenerateCas_Yes => with_sv_cas (it_cas qi) v
             | GenerateCas_No => v
             end
           else v in
  let v := match genBySeqno ctx with
           | GenerateBySeqno_Yes => with_sv_bySeqno (it_bySeqno qi) v
           | GenerateBySeqno_No => v
           end in
  Ok (notifyCtx, v, vb_store v vb).

Definition queueAbort (vb : VBucket) (v : StoredValue) (prepareSeqno : Z)
    (ctx : VBQueueItemCtx) : result (VBNotifyCtx * VBucket) :=
  let vb := match trackCasDrift ctx with
            | TrackCasDrift_Yes => setMaxCasAndTrackDrift (sv_cas v) vb
            | TrackCasDrift_No => vb
            end in
  let item := with_it_prepareSeqno prepareSeqno (toItemAbort v) in
  if negb (Item_isAbort item) then Throw fail_fast
  else if negb (it_deleted item) then Throw fail_fast
  else
    '(notifyCtx, _, vb) ← queueItem vb item ctx;
    Ok (notifyCtx, vb).

Definition notifyNewSeqno (notifyCtx : VBNotifyCtx) (vb : VBucket) : VBucket :=
  with_newSeqnoCb (newSeqnoCb vb ++ [notifyCtx]) vb.

Definition notifyClientOfSyncWriteComplete (cookie : Cookie)
    (res : ENGINE_ERROR_CODE) (vb : VBucket) : result VBucket :=
  match cookie with
  | None => Throw fail_fast
  | Some _ => Ok (with_syncWriteCompleteCb
                    (syncWriteCompleteCb vb ++ [(cookie, res)]) vb)
  end.

Definition updateRevSeqNoOfNewStoredValue (vb : VBucket) (v : StoredValue)
  : StoredValue :=
  let seqno := maxDeletedRevSeqno (ht vb) in
  let seqno := if negb (isTempItem v) then u64 (seqno + 1) else seqno in
  with_sv_revSeqno seqno v.

(** *** The storage-specific halves of the coordinator

    [updateStoredValue], [addNewStoredValue], [softDeleteStoredValue],
    [commitStoredValue], [abortStoredValue], [bgFetch] and
    [addTempItemAndBGFetch] are pure virtual in VBucket; their bodies live
    in ep_vb.cc, which is not part of the tree. *)

(** Modelled from the spec: [updateStoredValue] replaces the value in place
    and queues it; a Pending value at the key fails the write with
    SyncWriteInProgress; a durable write over a committed value adds its
    Pending value beside the committed one. *)
Definition updateStoredValue (vb : VBucket) (v : StoredValue) (itm : Item)
    (ctx : VBQueueItemCtx)
  : result (StoredValue * MutationStatus.t * VBNotifyCtx * VBucket) :=
  if isPending v
  then Ok (v, MutationStatus.IsPendingSyncWrite, VBNotifyCtx_default, vb)
  else
    let status := if isDirty v then MutationStatus.WasDirty
                  else MutationStatus.WasClean in
    let '(nv, ht') := unlocked_addNewStoredValue itm (ht vb) in
    '(notifyCtx, nv, vb) ← queueDirty (with_ht ht' vb) nv ctx;
    Ok (nv, status, notifyCtx, vb).

(** Modelled from the spec: [addNewStoredValue] inserts the value and
    queues it. *)
Definition addNewStoredValue (vb : VBucket) (itm : Item) (ctx : VBQueueItemCtx)
    (genRevSeqno : GenerateRevSeqno)
  : result (StoredValue * VBNotifyCtx * VBucket) :=
  let '(v, ht') := unlocked_addNewStoredValue itm (ht vb) in
  let vb := with_ht ht' vb in
  let v := match genRevSeqno with
           | GenerateRevSeqno_Yes => updateRevSeqNoOfNewStoredValue vb v
           | GenerateRevSeqno_No => v
           end in
  '(notifyCtx, v, vb) ← queueDirty (vb_store v vb) v ctx;
  Ok (v, notifyCtx, vb).

Definition mark_deleted (onlyMarkDeleted : bool) (source : DeleteSource)
    (v : StoredValue) : StoredValue :=
  let v := if onlyMarkDeleted then v else with_sv_value None v in
  with_sv_dirty true (with_sv_deleteSource source (with_sv_deleted true v)).

(** Modelled from the spec: [softDeleteStoredValue] turns the value into a
    tombstone and queues it; a Pending value at the key fails the delete
    with SyncWriteInProgress; a sync delete leaves a Pending tombstone. *)
Definition softDeleteStoredValue (vb : VBucket) (v : StoredValue)
    (onlyMarkDeleted : bool) (ctx : VBQueueItemCtx) (bySeqno : Z)
    (deleteSource : DeleteSource)
  : result (StoredValue * DeletionStatus.t * VBNotifyCtx * VBucket) :=
  if isPending v
  then Ok (v, DeletionStatus.IsPendingSyncWrite, VBNotifyCtx_default, vb)
  else
    let v := mark_deleted onlyMarkDeleted deleteSource v in
    let v := match durability ctx with
             | Some _ => with_sv_committed Pending v
             | None => v
             end in
    let v := match genBySeqno ctx with
             | GenerateBySeqno_No => with_sv_bySeqno bySeqno v
             | GenerateBySeqno_Yes => v
             end in
    '(notifyCtx, v, vb) ← queueDirty (vb_store v vb) v ctx;
    Ok (v, DeletionStatus.Success, notifyCtx, vb).

(** Modelled from the spec: [commitStoredValue] replaces the Pending value
    at the key with its committed form and enqueues the commit item. *)
Definition commitStoredValue (vb : VBucket) (v : StoredValue)
    (ctx : VBQueueItemCtx) (commitSeqno : option Z)
  : result (VBNotifyCtx * VBucket) :=
  let ht1 := with_ht_pending (delete (sv_key v) (ht_pending (ht vb))) (ht vb) in
  let v := with_sv_committed CommittedViaPrepare v in
  let v := match commitSeqno with
           | Some s => with_sv_bySeqno s v
           | None => v
           end in
  '(notifyCtx, _, vb) ← queueDirty (with_ht (ht_store v ht1) vb) v ctx;
  Ok (notifyCtx, vb).

(** Modelled from the spec: [abortStoredValue] enqueues an abort tombstone
    carrying the prepare's seqno and removes the Pending value. *)
Definition abortStoredValue (vb : VBucket) (v : StoredValue) (prepareSeqno : Z)
    (abortSeqno : option Z) : result (VBNotifyCtx * VBucket) :=
  let ctx := match abortSeqno with
             | Some _ => with_genBySeqno GenerateBySeqno_No VBQueueItemCtx_default
             | None => VBQueueItemCtx_default
             end in
  let v := match abortSeqno with
           | Some s => with_sv_bySeqno s v
           | None => v
           end in
  '(notifyCtx, vb) ← queueAbort vb v prepareSeqno ctx;
  Ok (notifyCtx, with_ht (unlocked_del (sv_key v) (ht vb)) vb).

Definition bgFetch (key : DocKey) (cookie : Cookie) (isMeta : bool)
    (vb : VBucket) : VBucket :=
  with_bgFetches (bgFetches vb ++ [(key, cookie, isMeta)]) vb.

Definition MAX_NRU_VALUE : N := 3.

Definition temp_initial_item (key : DocKey) : Item :=
  {| it_key := key; it_value := None; it_datatype := 0; it_flags := 0;
     it_exptime := 0; it_cas := 0; it_bySeqno := state_temp_init;
     it_revSeqno := 1; it_deleted := false; it_deleteSource := Explicit;
     it_op := op_mutation; it_durabilityReqs := no_requirements;
     it_prepareSeqno := 0 |}.

Definition addTempStoredValue (vb : VBucket) (key : DocKey)
  : TempAddStatus.t * VBucket :=
  let itm := temp_initial_item key in
  if negb (hasMemoryForStoredValue vb (stats vb) itm false)
  then (TempAddStatus.NoMem, vb)
  else
    let '(v, ht') := unlocked_addNewStoredValue itm (ht vb) in
    let vb := with_ht ht' vb in
    let v := updateRevSeqNoOfNewStoredValue vb v in
    let v := with_sv_nru MAX_NRU_VALUE v in
    (TempAddStatus.BgFetch, vb_store v vb).

(** Modelled from the spec: a temp marker is added and a background fetch
    is scheduled (Ewouldblock), unless memory is exhausted (Enomem). *)
Definition addTempItemAndBGFetch (vb : VBucket) (key : DocKey)
    (cookie : Cookie) (metadataOnly : bool) : ENGINE_ERROR_CODE * VBucket :=
  match addTempStoredValue vb key with
  | (TempAddStatus.NoMem, vb) => (ENGINE_ENOMEM, vb)
  | (TempAddStatus.BgFetch, vb) =>
      (ENGINE_EWOULDBLOCK, bgFetch key cookie metadataOnly vb)
  end.

Definition deleteStoredValue (vb : VBucket) (v : StoredValue)
  : bool * VBucket :=
  if negb (isDeleted v) && isLocked v ep_current_time then (false, vb)
  else (true, with_ht (unlocked_del (sv_key v) (ht vb)) vb).

Definition isLogicallyNonExistent (v : StoredValue)
    (cHandle : CachingReadHandle) : bool :=
  isDeleted v || isTempDeletedItem v || isTempNonExistentItem v
  || ch_isLogicallyDeleted cHandle (sv_bySeqno v).

(** Modelled from the spec: the item info a store-if predicate is shown is
    that of a resident, non-temporary value. *)
Definition getItemInfo (v : StoredValue) : option StoredValue :=
  if isTempItem v || negb (isResident v) then None else Some v.

Definition StoreIfPredicate : Type := option StoredValue -> StoreIfStatus.t.

Definition callPredicate (vb : VBucket) (predicate : StoreIfPredicate)
    (v : option StoredValue) : result StoreIfStatus.t :=
  storeIfStatus ←
    match v with
    | Some sv =>
        let info := getItemInfo sv in
        let st := predicate info in
        match st, info with
        | StoreIfStatus.GetItemInfo, Some _ => Throw logic_error
        | _, _ => Ok st
        end
    | None => Ok (predicate None)
    end;
  match storeIfStatus, eviction vb with
  | StoreIfStatus.GetItemInfo, Value => Ok StoreIfStatus.Continue
  | _, _ => Ok storeIfStatus
  end.

Definition is_Full (e : EvictionPolicy) : bool :=
  match e with Full => true | Value => false end.

Definition wants_item_info (s : StoreIfStatus.t) : bool :=
  match s with StoreIfStatus.GetItemInfo => true | _ => false end.

Definition is_Fail (s : StoreIfStatus.t) : bool :=
  match s with StoreIfStatus.Fail => true | _ => false end.

Definition is_null_or_temp_initial (v : option StoredValue) : bool :=
  match v with
  | None => true
  | Some sv => isTempInitialItem sv
  end.

Definition ProcessSetResult : Type :=
  MutationStatus.t * option VBNotifyCtx * option StoredValue * Item * VBucket.

(** The tail of [processSet] for an existing value that passed the lock and
    CAS checks: the revision seqno, the deleted-body rule of MB-23530 and
    the update itself. *)
Definition processSet_update (vb : VBucket) (sv : StoredValue) (itm : Item)
    (cas : N) (hasMetaData : bool) (queueItmCtx : VBQueueItemCtx)
  : result ProcessSetResult :=
  let itm := if hasMetaData then itm
             else with_it_revSeqno (u64 (sv_revSeqno sv + 1)) itm in
  if negb hasMetaData && negb (cas =? 0)%N
     && (isDeleted sv || isTempDeletedItem sv) && negb (it_deleted itm)
  then Ok (MutationStatus.NotFound, None, Some sv, itm, vb)
  else
    '(nv, status, notifyCtx, vb) ← updateStoredValue vb sv itm queueItmCtx;
    Ok (status, Some notifyCtx, Some nv, itm, vb).

(** [processSet] from the point where a value exists at the key. *)
Definition processSet_existing (vb : VBucket) (sv : StoredValue) (itm : Item)
    (cas : N) (allowExisting hasMetaData : bool) (queueItmCtx : VBQueueItemCtx)
  : result ProcessSetResult :=
  if negb allowExisting && negb (isTempItem sv) && negb (isDeleted sv)
  then Ok (MutationStatus.InvalidCas, None, Some sv, itm, vb)
  else if isLocked sv ep_current_time then
    if negb (cas =? sv_cas sv)%N
    then Ok (MutationStatus.IsLocked, None, Some sv, itm, vb)
    else
      let sv := unlock sv in
      processSet_update (vb_store sv vb) sv itm cas hasMetaData queueItmCtx
  else if negb (cas =? 0)%N && negb (cas =? sv_cas sv)%N then
    if isTempNonExistentItem sv
    then Ok (MutationStatus.NotFound, None, Some sv, itm, vb)
    else if (isTempDeletedItem sv || isDeleted sv) && negb (it_deleted itm)
    then Ok (MutationStatus.NotFound, None, Some sv, itm, vb)
    else Ok (MutationStatus.InvalidCas, None, Some sv, itm, vb)
  else processSet_update vb sv itm cas hasMetaData queueItmCtx.

Definition processSet (vb : VBucket) (v : option StoredValue) (itm : Item)
    (cas : N) (allowExisting hasMetaData : bool) (queueItmCtx : VBQueueItemCtx)
    (storeIfStatus : StoreIfStatus.t) (maybeKeyExists : bool)
  : result ProcessSetResult :=
  if negb (hasMemoryForStoredValue vb (stats vb) itm false)
  then Ok (MutationStatus.NoMem, None, v, itm, vb)
  else if bool_decide (v = None) && it_deleted itm && negb (cas =? 0)%N
          && negb (areDeletedItemsAlwaysResident vb)
  then Ok (MutationStatus.NeedBgFetch, Some VBNotifyCtx_default, v, itm, vb)
  else if is_Full (eviction vb) && maybeKeyExists
          && (negb (cas =? 0)%N || wants_item_info storeIfStatus)
          && is_null_or_temp_initial v
  then Ok (MutationStatus.NeedBgFetch, None, v, itm, vb)
  else
    match v with
    | Some sv =>
      if isExpired sv ep_real_time && negb hasMetaData && negb (it_deleted itm)
      then
        let '(sv, vb) := if isLocked sv ep_current_time
                         then (unlock sv, vb_store (unlock sv) vb)
                         else (sv, vb) in
        if negb (cas =? 0)%N
        then Ok (MutationStatus.NotFound, None, Some sv, itm, vb)
        else processSet_existing vb sv itm cas allowExisting hasMetaData
               queueItmCtx
      else processSet_existing vb sv itm cas allowExisting hasMetaData
             queueItmCtx
    | None =>
      if negb (cas =? 0)%N
      then Ok (MutationStatus.NotFound, None, None, itm, vb)
      else
        let genRevSeqno := if hasMetaData then GenerateRevSeqno_No
                           else GenerateRevSeqno_Yes in
        '(nv, notifyCtx, vb) ← addNewStoredValue vb itm queueItmCtx genRevSeqno;
        let itm := with_it_revSeqno (sv_revSeqno nv) itm in
        Ok (MutationStatus.WasClean, Some notifyCtx, Some nv, itm, vb)
    end.

Definition ProcessAddResult : Type :=
  AddStatus.t * option VBNotifyCtx * option StoredValue * Item * VBucket.

(** The end of [processAdd]: a temp value gets the maximum NRU. *)
Definition processAdd_finish (status : AddStatus.t) (notifyCtx : VBNotifyCtx)
    (v : StoredValue) (itm : Item) (vb : VBucket) : ProcessAddResult :=
  if isTempItem v
  then let v := with_sv_nru MAX_NRU_VALUE v in
       (status, Some notifyCtx, Some v, itm, vb_store v vb)
  else (status, Some notifyCtx, Some v, itm, vb).

Definition live_for_add (v : option StoredValue) (cHandle : CachingReadHandle)
  : bool :=
  match v with
  | Some sv =>
      negb (isDeleted sv) && negb (isExpired sv ep_real_time)
      && negb (isTempItem sv)
      && negb (ch_isLogicallyDeleted cHandle (sv_bySeqno sv))
  | None => false
  end.

Definition processAdd (vb : VBucket) (v : option StoredValue) (itm : Item)
    (maybeKeyExists : bool) (queueItmCtx : VBQueueItemCtx)
    (cHandle : CachingReadHandle) : result ProcessAddResult :=
  if live_for_add v cHandle
  then Ok (AddStatus.Exists, None, v, itm, vb)
  else if negb (hasMemoryForStoredValue vb (stats vb) itm false)
  then Ok (AddStatus.NoMem, None, v, itm, vb)
  else
    match v with
    | Some sv =>
      if isTempInitialItem sv && is_Full (eviction vb) && maybeKeyExists
      then Ok (AddStatus.BgFetch, None, v, itm, vb)
      else
        let status := if isDeleted sv || isExpired sv ep_real_time
                      then AddStatus.UnDel else AddStatus.Success in
        let itm := if isTempDeletedItem sv
                   then with_it_revSeqno (u64 (sv_revSeqno sv + 1)) itm
                   else with_it_revSeqno
                          (u64 (maxDeletedRevSeqno (ht vb) + 1)) itm in
        let itm := if negb (isTempItem sv)
                   then with_it_revSeqno (u64 (sv_revSeqno sv + 1)) itm
                   else itm in
        '(nv, _, notifyCtx, vb) ← updateStoredValue vb sv itm queueItmCtx;
        Ok (processAdd_finish status notifyCtx nv itm vb)
    | None =>
      if negb (it_bySeqno itm =? state_temp_init)%Z
         && is_Full (eviction vb) && maybeKeyExists
      then Ok (AddStatus.AddTmpAndBgFetch, Some VBNotifyCtx_default, v, itm, vb)
      else
        '(nv, notifyCtx, vb) ←
          (if (it_bySeqno itm =? state_temp_init)%Z then
             let '(nv, ht') := unlocked_addNewStoredValue itm (ht vb) in
             let vb := with_ht ht' vb in
             let nv := updateRevSeqNoOfNewStoredValue vb nv in
             Ok (nv, VBNotifyCtx_default, vb_store nv vb)
           else addNewStoredValue vb itm queueItmCtx GenerateRevSeqno_Yes);
        let itm := with_it_revSeqno (sv_revSeqno nv) itm in
        let status := if isTempItem nv then AddStatus.BgFetch
                      else AddStatus.Success in
        Ok (processAdd_finish status notifyCtx nv itm vb)
    end.

Record ItemMetaData := {
  meta_cas : N;
  meta_revSeqno : N;
  meta_flags : N;
  meta_exptime : N;
}.

Definition ProcessDeleteResult : Type :=
  MutationStatus.t * StoredValue * option VBNotifyCtx * VBucket.

Definition processSoftDelete (vb : VBucket) (v : StoredValue) (cas : N)
    (metadata : ItemMetaData) (queueItmCtx : VBQueueItemCtx) (use_meta : bool)
    (bySeqno : Z) (deleteSource : DeleteSource) : result ProcessDeleteResult :=
  if isTempInitialItem v && is_Full (eviction vb)
  then Ok (MutationStatus.NeedBgFetch, v, None, vb)
  else if isLocked v ep_current_time && negb (cas =? sv_cas v)%N
  then Ok (MutationStatus.IsLocked, v, None, vb)
  else
    let '(v, vb) := if isLocked v ep_current_time
                    then (unlock v, vb_store (unlock v) vb) else (v, vb) in
    if negb (cas =? 0)%N && negb (cas =? sv_cas v)%N
    then Ok (MutationStatus.InvalidCas, v, None, vb)
    else
      let v := unlock v in
      let rv := if isDirty v then MutationStatus.WasDirty
                else MutationStatus.WasClean in
      let v := if use_meta
               then with_sv_exptime (meta_exptime metadata)
                      (with_sv_flags (meta_flags metadata)
                         (with_sv_cas (meta_cas metadata) v))
               else v in
      let v := with_sv_revSeqno (meta_revSeqno metadata) v in
      '(newSv, delStatus, notifyCtx, vb') ←
        softDeleteStoredValue (vb_store v vb) v false queueItmCtx bySeqno
          deleteSource;
      match delStatus with
      | DeletionStatus.Success =>
          Ok (rv, newSv, Some notifyCtx,
              with_ht (updateMaxDeletedRevSeqno (meta_revSeqno metadata)
                         (ht vb')) vb')
      | DeletionStatus.IsPendingSyncWrite =>
          Ok (MutationStatus.IsPendingSyncWrite, v, None, vb')
      end.

Definition processExpiredItem (vb : VBucket) (v : StoredValue)
    (cHandle : CachingReadHandle) : result ProcessDeleteResult :=
  if isTempInitialItem v && is_Full (eviction vb) then
    '(notifyCtx, v, vb) ← queueDirty vb v VBQueueItemCtx_default;
    Ok (MutationStatus.NeedBgFetch, v, Some notifyCtx, vb)
  else
    let onlyMarkDeleted :=
      bool_decide (is_Some (sv_value v)) && is_xattr (sv_datatype v) in
    let v := with_sv_revSeqno (u64 (sv_revSeqno v + 1)) v in
    '(newSv, delStatus, notifyCtx, vb') ←
      softDeleteStoredValue (vb_store v vb) v onlyMarkDeleted
        VBQueueItemCtx_default (sv_bySeqno v) TTL;
    match delStatus with
    | DeletionStatus.Success =>
        Ok (MutationStatus.NotFound, newSv, Some notifyCtx,
            with_ht (updateMaxDeletedRevSeqno (u64 (sv_revSeqno newSv + 1))
                       (ht vb')) vb')
    | DeletionStatus.IsPendingSyncWrite =>
        Ok (MutationStatus.IsPendingSyncWrite, newSv,
            Some VBNotifyCtx_default, vb')
    end.

(** [itm.isPending() && !getActiveDM().isDurabilityPossible()]: the
    monitor is only looked at for a durable write. *)
Definition durabilityImpossible (vb : VBucket) (durable : bool) : result bool :=
  if durable then
    adm ← getActiveDM vb;
    Ok (negb (isDurabilityPossible adm))
  else Ok false.

(** On a replica or pending vBucket a locked value is unlocked before the
    operation is applied. *)
Definition unlock_if_not_active (vb : VBucket) (sv : StoredValue)
  : StoredValue * VBucket :=
  if isLocked sv ep_current_time && is_replica_or_pending vb
  then (unlock sv, vb_store (unlock sv) vb)
  else (sv, vb).

Definition durable_ctx (itm : Item) (cookie : Cookie) : VBQueueItemCtx :=
  if Item_isPending itm
  then with_durability
         (Some {| dic_requirements := it_durabilityReqs itm;
                  dic_cookie := cookie |}) VBQueueItemCtx_default
  else VBQueueItemCtx_default.

(** The success arm shared by the front-end operations: the new seqno is
    announced and the item takes the seqno and CAS of the stored value. *)
Definition stored (ret : ENGINE_ERROR_CODE) (notifyCtx : option VBNotifyCtx)
    (v : option StoredValue) (itm : Item) (vb : VBucket)
  : result (ENGINE_ERROR_CODE * Item * VBucket) :=
  match notifyCtx, v with
  | Some ctx, Some sv =>
      Ok (ret, with_it_cas (sv_cas sv) (with_it_bySeqno (sv_bySeqno sv) itm),
          notifyNewSeqno ctx vb)
  | _, _ => Throw fail_fast
  end.

Definition set (vb : VBucket) (itm : Item) (cookie : Cookie)
    (predicate : option StoreIfPredicate) (cHandle : CachingReadHandle)
  : result (ENGINE_ERROR_CODE * Item * VBucket) :=
  impossible ← durabilityImpossible vb (Item_isPending itm);
  if impossible : bool then Ok (ENGINE_DURABILITY_IMPOSSIBLE, itm, vb)
  else
    let cas_op := negb (it_cas itm =? 0)%N in
    let v := findForWrite (ht vb) (it_key itm) in
    storeIfStatus ← match predicate with
                    | Some p => callPredicate vb p v
                    | None => Ok StoreIfStatus.Continue
                    end;
    if bool_decide (is_Some predicate) && is_Fail storeIfStatus
    then Ok (ENGINE_PREDICATE_FAILED, itm, vb)
    else
      let '(v, vb) := match v with
                      | Some sv => let '(sv, vb) := unlock_if_not_active vb sv in
                                   (Some sv, vb)
                      | None => (None, vb)
                      end in
      let maybeKeyExists :=
        if is_null_or_temp_initial v && is_Full (eviction vb)
           && (negb (it_cas itm =? 0)%N || wants_item_info storeIfStatus)
        then maybeKeyExistsInFilter vb (it_key itm)
        else true in
      let queueItmCtx := durable_ctx itm cookie in
      '(status, notifyCtx, v, itm, vb) ←
        processSet vb v itm (it_cas itm) true false queueItmCtx storeIfStatus
          maybeKeyExists;
      let ret := if Item_isPending itm then ENGINE_EWOULDBLOCK
                 else ENGINE_SUCCESS in
      match status with
      | MutationStatus.NoMem => Ok (ENGINE_ENOMEM, itm, vb)
      | MutationStatus.InvalidCas => Ok (ENGINE_KEY_EEXISTS, itm, vb)
      | MutationStatus.IsLocked => Ok (ENGINE_LOCKED, itm, vb)
      | MutationStatus.NotFound =>
          if cas_op then Ok (ENGINE_KEY_ENOENT, itm, vb)
          else stored ret notifyCtx v itm vb
      | MutationStatus.WasDirty
      | MutationStatus.WasClean => stored ret notifyCtx v itm vb
      | MutationStatus.NeedBgFetch =>
          match v with
          | Some _ =>
              Ok (ENGINE_EWOULDBLOCK, itm, bgFetch (it_key itm) cookie true vb)
          | None =>
              let '(rc, vb) := addTempItemAndBGFetch vb (it_key itm) cookie true in
              Ok (rc, itm, vb)
          end
      | MutationStatus.IsPendingSyncWrite =>
          Ok (ENGINE_SYNC_WRITE_IN_PROGRESS, itm, vb)
      end.

(** [ht.cleanupIfTemporaryItem]: a temp marker that is no longer useful is
    discarded. *)
Definition cleanupIfTemporaryItem (v : StoredValue) (vb : VBucket) : VBucket :=
  if isTempDeletedItem v || isTempNonExistentItem v
  then with_ht (unlocked_del (sv_key v) (ht vb)) vb
  else vb.

Definition replace (vb : VBucket) (itm : Item) (cookie : Cookie)
    (predicate : option StoreIfPredicate) (cHandle : CachingReadHandle)
  : result (ENGINE_ERROR_CODE * Item * VBucket) :=
  impossible ← durabilityImpossible vb (Item_isPending itm);
  if impossible : bool then Ok (ENGINE_DURABILITY_IMPOSSIBLE, itm, vb)
  else
    let v := findForWrite (ht vb) (it_key itm) in
    storeIfStatus ← match predicate with
                    | Some p => callPredicate vb p v
                    | None => Ok StoreIfStatus.Continue
                    end;
    if bool_decide (is_Some predicate) && is_Fail storeIfStatus
    then Ok (ENGINE_PREDICATE_FAILED, itm, vb)
    else
      match v with
      | Some sv =>
        if isLogicallyNonExistent sv cHandle
        then Ok (ENGINE_KEY_ENOENT, itm, cleanupIfTemporaryItem sv vb)
        else
          '(mtype, notifyCtx, v, itm, vb) ←
            (if is_Full (eviction vb) && isTempInitialItem sv
             then Ok (MutationStatus.NeedBgFetch, None, Some sv, itm, vb)
             else processSet vb (Some sv) itm 0 true false
                    (durable_ctx itm cookie) storeIfStatus true);
          let ret := if Item_isPending itm then ENGINE_EWOULDBLOCK
                     else ENGINE_SUCCESS in
          match mtype with
          | MutationStatus.NoMem => Ok (ENGINE_ENOMEM, itm, vb)
          | MutationStatus.IsLocked => Ok (ENGINE_LOCKED, itm, vb)
          | MutationStatus.InvalidCas
          | MutationStatus.NotFound => Ok (ENGINE_NOT_STORED, itm, vb)
          | MutationStatus.WasDirty
          | MutationStatus.WasClean => stored ret notifyCtx v itm vb
          | MutationStatus.NeedBgFetch =>
              Ok (ENGINE_EWOULDBLOCK, itm, bgFetch (it_key itm) cookie true vb)
          | MutationStatus.IsPendingSyncWrite =>
              Ok (ENGINE_SYNC_WRITE_IN_PROGRESS, itm, vb)
          end
      | None =>
        if negb (is_Full (eviction vb)) then Ok (ENGINE_KEY_ENOENT, itm, vb)
        else if maybeKeyExistsInFilter vb (it_key itm) then
          let '(rc, vb) := addTempItemAndBGFetch vb (it_key itm) cookie false in
          Ok (rc, itm, vb)
        else Ok (ENGINE_KEY_ENOENT, itm, vb)
      end.

Definition add (vb : VBucket) (itm : Item) (cookie : Cookie)
    (cHandle : CachingReadHandle)
  : result (ENGINE_ERROR_CODE * Item * VBucket) :=
  impossible ← durabilityImpossible vb (Item_isPending itm);
  if impossible : bool then Ok (ENGINE_DURABILITY_IMPOSSIBLE, itm, vb)
  else
    let v := findForWrite (ht vb) (it_key itm) in
    let maybeKeyExists :=
      if is_null_or_temp_initial v && is_Full (eviction vb)
      then maybeKeyExistsInFilter vb (it_key itm)
      else true in
    '(status, notifyCtx, v, itm, vb) ←
      processAdd vb v itm maybeKeyExists (durable_ctx itm cookie) cHandle;
    match status with
    | AddStatus.NoMem => Ok (ENGINE_ENOMEM, itm, vb)
    | AddStatus.Exists => Ok (ENGINE_NOT_STORED, itm, vb)
    | AddStatus.AddTmpAndBgFetch =>
        let '(rc, vb) := addTempItemAndBGFetch vb (it_key itm) cookie true in
        Ok (rc, itm, vb)
    | AddStatus.BgFetch =>
        Ok (ENGINE_EWOULDBLOCK, itm, bgFetch (it_key itm) cookie true vb)
    | AddStatus.Success
    | AddStatus.UnDel =>
        stored (if Item_isPending itm then ENGINE_EWOULDBLOCK
                else ENGINE_SUCCESS) notifyCtx v itm vb
    end.

Definition ItemMetaData_default : ItemMetaData :=
  {| meta_cas := 0; meta_revSeqno := 1; meta_flags := 0; meta_exptime := 0 |}.

Definition with_meta_revSeqno (r : N) (m : ItemMetaData) : ItemMetaData :=
  {| meta_cas := meta_cas m; meta_revSeqno := r; meta_flags := meta_flags m;
     meta_exptime := meta_exptime m |}.

Definition absent_for_delete (v : option StoredValue)
    (cHandle : CachingReadHandle) : bool :=
  match v with
  | None => true
  | Some sv => isDeleted sv || isTempItem sv
               || ch_isLogicallyDeleted cHandle (sv_bySeqno sv)
  end.

(** [deleteItem]; the result carries the CAS written back through the
    [cas] reference. The [itemMeta] and [mutInfo] out-parameters take no
    part in the control flow and are left out. *)
Definition deleteItem (vb : VBucket) (cas : N) (cookie : Cookie)
    (durability : option Requirements) (cHandle : CachingReadHandle)
  : result (ENGINE_ERROR_CODE * N * VBucket) :=
  impossible ← durabilityImpossible vb
                 (match durability with
                  | Some d => Requirements_isValid d
                  | None => false
                  end);
  if impossible : bool then Ok (ENGINE_DURABILITY_IMPOSSIBLE, cas, vb)
  else
    let v := findForWrite (ht vb) (ch_key cHandle) in
    if absent_for_delete v cHandle then
      if negb (is_Full (eviction vb)) then Ok (ENGINE_KEY_ENOENT, cas, vb)
      else
        match v with
        | None =>
            if maybeKeyExistsInFilter vb (ch_key cHandle) then
              let '(rc, vb) :=
                addTempItemAndBGFetch vb (ch_key cHandle) cookie true in
              Ok (rc, cas, vb)
            else Ok (ENGINE_KEY_ENOENT, cas, vb)
        | Some sv =>
            if isTempInitialItem sv
            then Ok (ENGINE_EWOULDBLOCK, cas,
                     bgFetch (ch_key cHandle) cookie true vb)
            else if isTempNonExistentItem sv || isTempDeletedItem sv
            then Ok (ENGINE_KEY_ENOENT, cas, snd (deleteStoredValue vb sv))
            else Ok (ENGINE_KEY_ENOENT, cas, vb)
        end
    else
      match v with
      | None => Throw fail_fast
      | Some sv =>
        let '(sv, vb) := unlock_if_not_active vb sv in
        '(delrv, v, notifyCtx, vb) ←
          (if isExpired sv ep_real_time
           then processExpiredItem vb sv cHandle
           else
             let metadata :=
               with_meta_revSeqno (u64 (sv_revSeqno sv + 1))
                 ItemMetaData_default in
             let queueItmCtx :=
               match durability with
               | Some d =>
                   with_durability
                     (Some {| dic_requirements := d; dic_cookie := cookie |})
                     VBQueueItemCtx_default
               | None => VBQueueItemCtx_default
               end in
             processSoftDelete vb sv cas metadata queueItmCtx false
               (sv_bySeqno sv) Explicit);
        let ret := if bool_decide (is_Some durability) then ENGINE_EWOULDBLOCK
                   else ENGINE_SUCCESS in
        let deleted ret :=
          match notifyCtx with
          | Some ctx => Ok (ret, sv_cas v, notifyNewSeqno ctx vb)
          | None => Throw fail_fast
          end in
        match delrv with
        | MutationStatus.NoMem => Ok (ENGINE_ENOMEM, cas, vb)
        | MutationStatus.InvalidCas => Ok (ENGINE_KEY_EEXISTS, cas, vb)
        | MutationStatus.IsLocked => Ok (ENGINE_LOCKED_TMPFAIL, cas, vb)
        | MutationStatus.NotFound => deleted ENGINE_KEY_ENOENT
        | MutationStatus.WasClean
        | MutationStatus.WasDirty => deleted ret
        | MutationStatus.NeedBgFetch => Throw logic_error
        | MutationStatus.IsPendingSyncWrite =>
            Ok (ENGINE_SYNC_WRITE_IN_PROGRESS, cas, vb)
        end
      end.

Definition commit (vb : VBucket) (key : DocKey) (pendingSeqno : N)
    (commitSeqno : option Z) (cHandle : CachingReadHandle) (cookie : Cookie)
  : result (ENGINE_ERROR_CODE * VBucket) :=
  match findForWrite (ht vb) key with
  | None => Ok (ENGINE_KEY_ENOENT, vb)
  | Some sv =>
    if negb (isPending sv) then Ok (ENGINE_EINVAL, vb)
    else if negb (isResident sv) then Throw fail_fast
    else
      let queueItmCtx :=
        match commitSeqno with
        | Some _ => with_genBySeqno GenerateBySeqno_No VBQueueItemCtx_default
        | None => VBQueueItemCtx_default
        end in
      '(notify, vb) ← commitStoredValue vb sv queueItmCtx commitSeqno;
      let vb := notifyNewSeqno notify vb in
      match cookie with
      | Some _ =>
          vb ← notifyClientOfSyncWriteComplete cookie ENGINE_SUCCESS vb;
          Ok (ENGINE_SUCCESS, vb)
      | None => Ok (ENGINE_SUCCESS, vb)
      end
  end.

Definition abort (vb : VBucket) (key : DocKey) (prepareSeqno : Z)
    (abortSeqno : option Z) (cHandle : CachingReadHandle) (cookie : Cookie)
  : result (ENGINE_ERROR_CODE * VBucket) :=
  match findForWrite (ht vb) key with
  | None => Ok (ENGINE_KEY_ENOENT, vb)
  | Some sv =>
    if negb (isPending sv) then Ok (ENGINE_EINVAL, vb)
    else
      '(notify, vb) ← abortStoredValue vb sv prepareSeqno abortSeqno;
      let vb := notifyNewSeqno notify vb in
      match cookie with
      | Some _ =>
          vb ← notifyClientOfSyncWriteComplete cookie
                 ENGINE_SYNC_WRITE_AMBIGUOUS vb;
          Ok (ENGINE_SUCCESS, vb)
      | None => Ok (ENGINE_SUCCESS, vb)
      end
  end.

(** *** Durability timeouts *)

(** Modelled from the spec: the deadline of a tracked prepare is its
    enqueue time plus its timeout; a prepare with [Timeout::Infinity] has
    none. (A default timeout is resolved before the prepare is tracked; an
    unresolved one carries no deadline.) *)
Definition SyncWrite_deadline (sw : SyncWrite) : option N :=
  match req_timeout (sw_reqs sw) with
  | Timeout_Millis ms => Some (sw_start sw + ms)%N
  | Timeout_Infinity => None
  | Timeout_BucketDefault => None
  end.

Definition SyncWrite_isExpired (asOf : N) (sw : SyncWrite) : bool :=
  match SyncWrite_deadline sw with
  | Some deadline => (deadline <=? asOf)%N
  | None => false
  end.

Definition lockCollections (key : DocKey) : CachingReadHandle :=
  {| ch_key := key; ch_valid := true; ch_isLogicallyDeleted := fun _ => false |}.

(** The monitor aborts one prepare through [VBucket::abort]; a result other
    than success is a logic error. *)
Definition ADM_abort (vb : VBucket) (sw : SyncWrite) : result VBucket :=
  '(rc, vb) ← abort vb (sw_key sw) (sw_seqno sw) None
                (lockCollections (sw_key sw)) (sw_cookie sw);
  match rc with
  | ENGINE_SUCCESS => Ok vb
  | _ => Throw logic_error
  end.

Fixpoint ADM_abortAll (vb : VBucket) (toAbort : list SyncWrite)
  : result VBucket :=
  match toAbort with
  | [] => Ok vb
  | sw :: rest => vb ← ADM_abort vb sw; ADM_abortAll vb rest
  end.

(** Modelled from the spec: [processTimeout(asOf)] walks the tracked
    prepares, removes those whose deadline is at most [asOf], and aborts
    each of them. *)
Definition ADM_processTimeout (vb : VBucket) (adm : ActiveDurabilityMonitor)
    (asOf : N) : result VBucket :=
  let expired := List.filter (SyncWrite_isExpired asOf) (adm_trackedWrites adm) in
  let remaining :=
    List.filter (fun sw => negb (SyncWrite_isExpired asOf sw))
      (adm_trackedWrites adm) in
  ADM_abortAll
    (with_durabilityMonitor (ActiveDM (with_adm_trackedWrites remaining adm)) vb)
    expired.

Definition processDurabilityTimeout (vb : VBucket) (asOf : N) : result VBucket :=
  if negb (bool_decide (getState vb = vbucket_state_active)) then Ok vb
  else
    adm ← getActiveDM vb;
    ADM_processTimeout vb adm asOf.

(** *** Replication topology *)

(** What [validateReplicationTopology] reports; no error is the empty
    string of the C++ code. *)
Inductive TopologyError :=
  | TopologyNotArray
  | TopologyChainCount
  | ChainNotArray (chainId : nat)
  | ChainNodeCount (chainId : nat)
  | ActiveNodeNull (chainId : nat)
  | NodeNotString (chainId node : nat)
  | MetaNotObject
  | MetaUnsupportedKey (key : string).

Fixpoint validateNodes (chainId idx : nat) (nodes : list Json.json)
  : option TopologyError :=
  match nodes with
  | [] => None
  | node :: rest =>
    match Json.type node with
    | Json.t_string => validateNodes chainId (S idx) rest
    | Json.t_null =>
        if (idx =? 0)%nat then Some (ActiveNodeNull chainId)
        else validateNodes chainId (S idx) rest
    | _ => Some (NodeNotString chainId idx)
    end
  end.

Fixpoint validateChains (chainId : nat) (chains : list Json.json)
  : option TopologyError :=
  match chains with
  | [] => None
  | nodes :: rest =>
    if negb (Json.is_array nodes) then Some (ChainNotArray chainId)
    else if (Json.size nodes <? 1)%nat || (4 <? Json.size nodes)%nat
    then Some (ChainNodeCount chainId)
    else
      match validateNodes chainId 0 (Json.elements nodes) with
      | Some e => Some e
      | None => validateChains (S chainId) rest
      end
  end.

Definition validateReplicationTopology (topology : Json.json)
  : option TopologyError :=
  if negb (Json.is_array topology) then Some TopologyNotArray
  else if (Json.size topology <? 1)%nat || (2 <? Json.size topology)%nat
  then Some TopologyChainCount
  else validateChains 0 (Json.elements topology).

(** The loop returns at its first member. *)
Definition validateSetStateMeta (meta : Json.json) : option TopologyError :=
  match meta with
  | Json.Object members =>
    match members with
    | [] => None
    | (key, value) :: _ =>
        if String.eqb key "topology" then validateReplicationTopology value
        else Some (MetaUnsupportedKey key)
    end
  | _ => Some MetaNotObject
  end.

Definition node_name (node : Json.json) : option string :=
  match node with
  | Json.Str s => Some s
  | _ => None
  end.

Definition defined_nodes (chain : list (option string)) : list string :=
  omap id chain.

(** Modelled from the spec and from the SetTopology tests of
    durability_monitor_test.cc: a chain is rejected with
    std::invalid_argument when it is empty, when its first node is
    undefined, when it has more than four nodes or when a node appears
    twice in it. *)
Definition ADM_chain (nodes : Json.json) : result (list (option string)) :=
  match nodes with
  | Json.Array l =>
    let chain := map node_name l in
    match chain with
    | [] => Throw invalid_argument
    | None :: _ => Throw invalid_argument
    | Some _ :: _ =>
      if (4 <? length chain)%nat then Throw invalid_argument
      else if negb (bool_decide (NoDup (defined_nodes chain)))
      then Throw invalid_argument
      else Ok chain
    end
  | _ => Throw invalid_argument
  end.

Fixpoint ADM_chains (chains : list Json.json)
  : result (list (list (option string))) :=
  match chains with
  | [] => Ok []
  | c :: rest =>
      chain ← ADM_chain c;
      others ← ADM_chains rest;
      Ok (chain :: others)
  end.

(** Modelled from the spec and the same tests: the topology must be an
    array of one or two chains; a new topology replaces the chains. *)
Definition ADM_setReplicationTopology (topology : Json.json)
    (adm : ActiveDurabilityMonitor) : result ActiveDurabilityMonitor :=
  match topology with
  | Json.Array chains =>
    if (length chains =? 0)%nat then Throw invalid_argument
    else if (2 <? length chains)%nat then Throw invalid_argument
    else
      cs ← ADM_chains chains;
      Ok (with_adm_chains cs adm)
  | _ => Throw invalid_argument
  end.

(** A monitor made for this vBucket: nothing tracked, no topology. *)
Definition ActiveDurabilityMonitor_new : ActiveDurabilityMonitor :=
  {| adm_chains := []; adm_trackedWrites := [] |}.

Definition PassiveDurabilityMonitor_new : PassiveDurabilityMonitor :=
  {| pdm_trackedWrites := [] |}.

(** Modelled from the spec: the active monitor built from a passive one
    contains the tracked prepares of the passive one. *)
Definition ActiveDurabilityMonitor_from (pdm : PassiveDurabilityMonitor)
  : ActiveDurabilityMonitor :=
  {| adm_chains := []; adm_trackedWrites := pdm_trackedWrites pdm |}.

(** A function that throws part-way leaves the vBucket as it was at the
    throw: the result is the vBucket together with the exception, if any. *)
Definition Outcome : Type := VBucket * option exception.

Definition setupSyncReplication (vb : VBucket) (topology : Json.json)
    (prevVBState : option vbucket_state_t) : Outcome :=
  let installed : result VBucket :=
    if negb (Json.is_null topology) then
      if negb (bool_decide (state vb = vbucket_state_active))
      then Throw invalid_argument
      else
        match validateReplicationTopology topology with
        | Some _ => Throw invalid_argument
        | None => Ok (with_replicationTopology topology vb)
        end
    else Ok (with_replicationTopology Json.Null vb) in
  match installed with
  | Throw e => (vb, Some e)
  | Ok vb =>
    if bool_decide (state vb = vbucket_state_active) then
      let created : result VBucket :=
        match prevVBState with
        | Some vbucket_state_replica
        | Some vbucket_state_pending =>
            match durabilityMonitor vb with
            | PassiveDM pdm =>
                Ok (with_durabilityMonitor
                      (ActiveDM (ActiveDurabilityMonitor_from pdm)) vb)
            | ActiveDM _ => Throw bad_cast
            end
        | _ => Ok (with_durabilityMonitor
                     (ActiveDM ActiveDurabilityMonitor_new) vb)
        end in
      match created with
      | Throw e => (vb, Some e)
      | Ok vb =>
        if negb (Json.is_null topology) then
          match adm ← getActiveDM vb;
                ADM_setReplicationTopology (replicationTopology vb) adm with
          | Ok adm => (with_durabilityMonitor (ActiveDM adm) vb, None)
          | Throw e => (vb, Some e)
          end
        else (vb, None)
      end
    else if is_replica_or_pending vb then
      (with_durabilityMonitor (PassiveDM PassiveDurabilityMonitor_new) vb, None)
    else (vb, None)
  end.

Definition setOpenCheckpointId (id : N) (vb : VBucket) : VBucket :=
  with_checkpointManager
    (with_cm_openCheckpointId id (checkpointManager vb)) vb.

(** [meta.at("topology")]: nlohmann throws when the key is missing. *)
Definition meta_at_topology (meta : Json.json) : result Json.json :=
  match Json.find meta "topology" with
  | Some t => Ok t
  | None => Throw json_out_of_range
  end.

Definition setState (vb : VBucket) (to : vbucket_state_t) (meta : Json.json)
  : Outcome :=
  let oldstate := state vb in
  let checked : result unit :=
    if negb (Json.is_null meta) then
      if negb (bool_decide (to = vbucket_state_active))
      then Throw invalid_argument
      else match validateSetStateMeta meta with
           | Some _ => Throw invalid_argument
           | None => Ok tt
           end
    else Ok tt in
  match checked with
  | Throw e => (vb, Some e)
  | Ok _ =>
    let vb := if bool_decide (to = vbucket_state_active)
                 && (cm_openCheckpointId (checkpointManager vb) <? 2)%N
              then setOpenCheckpointId 2 vb else vb in
    let vb := with_state to vb in
    match (if Json.is_null meta then Ok Json.Null else meta_at_topology meta) with
    | Throw e => (vb, Some e)
    | Ok topology => setupSyncReplication vb topology (Some oldstate)
    end
  end.

(** ** Properties of the coordinator *)

Ltac simpl_result :=
  cbn [mbind mret result_bind result_ret rbind] in *.

(** *** Memory admission *)

(** The threshold that applies: the mutation threshold on an active
    vBucket or on request, the replication throttle threshold elsewhere. *)
Definition admission_threshold (vb : VBucket) (useActiveVBMemThreshold : bool)
  : double :=
  if useActiveVBMemThreshold then mutationMemThreshold
  else match state vb with
       | vbucket_state_active => mutationMemThreshold
       | _ => replicationThrottleThreshold (stats vb)
       end.

Definition admitted (vb : VBucket) (itm : Item) (useActiveVBMemThreshold : bool)
  : Prop :=
  double_le (double_of_size (estimateNewMemoryUsage (stats vb) itm))
            (double_mul (double_of_size (maxDataSize (stats vb)))
                        (admission_threshold vb useActiveVBMemThreshold))
  = true.

Lemma hasMemoryForStoredValue_admitted vb itm useActive :
  hasMemoryForStoredValue vb (stats vb) itm useActive = true
  <-> admitted vb itm useActive.
Proof.
  unfold hasMemoryForStoredValue, admitted, admission_threshold, getState.
  destruct useActive; simpl; [done|].
  destruct (state vb); simpl; done.
Qed.

Lemma processSet_NoMem vb v itm cas allowExisting hasMetaData ctx sis mke :
  hasMemoryForStoredValue vb (stats vb) itm false = false ->
  processSet vb v itm cas allowExisting hasMetaData ctx sis mke
  = Ok (MutationStatus.NoMem, None, v, itm, vb).
Proof. intros H. unfold processSet. by rewrite H. Qed.

Lemma unlock_if_not_active_active vb sv :
  state vb = vbucket_state_active ->
  unlock_if_not_active vb sv = (sv, vb).
Proof.
  intros Hs. unfold unlock_if_not_active, is_replica_or_pending, getState.
  rewrite Hs, !bool_decide_eq_false_2 by discriminate.
  simpl. by rewrite andb_false_r.
Qed.

(** A store-if predicate that lets the operation through. *)
Definition predicate_passes (vb : VBucket) (predicate : option StoreIfPredicate)
    (key : DocKey) : Prop :=
  match predicate with
  | None => True
  | Some p => exists s, callPredicate vb p (findForWrite (ht vb) key) = Ok s
                        /\ is_Fail s = false
  end.

(** The durability check of the front-end operations lets a write through
    when it is not durable or durability is possible. *)
Definition durability_passes (vb : VBucket) (durable : bool) : Prop :=
  durabilityImpossible vb durable = Ok false.

(** C6. Memory admission passes exactly when the projected memory usage is
    at most mutationMemThreshold x maxDataSize on an active vBucket (or when
    the active threshold is requested) and at most
    replicationThrottleThreshold x maxDataSize otherwise; when admission
    fails, processSet returns NoMem, set surfaces it as ENGINE_ENOMEM, and
    the vBucket (hash table and checkpoint queue included) is as before. *)
Theorem memory_admission (vb : VBucket) (itm : Item) :
  (forall useActive,
     hasMemoryForStoredValue vb (stats vb) itm useActive = true
     <-> admitted vb itm useActive) /\
  (~ admitted vb itm false ->
   (forall v cas allowExisting hasMetaData ctx sis mke,
      processSet vb v itm cas allowExisting hasMetaData ctx sis mke
      = Ok (MutationStatus.NoMem, None, v, itm, vb)) /\
   (forall cookie predicate cHandle,
      state vb = vbucket_state_active ->
      durability_passes vb (Item_isPending itm) ->
      predicate_passes vb predicate (it_key itm) ->
      set vb itm cookie predicate cHandle = Ok (ENGINE_ENOMEM, itm, vb))).
Proof.
  split; [intros; apply hasMemoryForStoredValue_admitted|].
  intros Hno.
  assert (Hmem : hasMemoryForStoredValue vb (stats vb) itm false = false).
  { destruct (hasMemoryForStoredValue vb (stats vb) itm false) eqn:E; [|done].
    apply hasMemoryForStoredValue_admitted in E. contradiction. }
  split; [intros; by apply processSet_NoMem|].
  intros cookie predicate cHandle Hact Hdur Hpred.
  unfold set. unfold durability_passes in Hdur. rewrite Hdur. simpl_result.
  assert (Hs : exists s,
    match predicate with
    | Some p => callPredicate vb p (findForWrite (ht vb) (it_key itm))
    | None => Ok StoreIfStatus.Continue
    end = Ok s /\ (bool_decide (is_Some predicate) && is_Fail s) = false).
  { destruct predicate as [p|].
    - destruct Hpred as (s & Hc & Hs). exists s. split; [done|].
      rewrite Hs. apply andb_false_r.
    - by exists StoreIfStatus.Continue. }
  destruct Hs as (s & Hc & Hf). rewrite Hc. simpl_result. rewrite Hf.
  destruct (findForWrite (ht vb) (it_key itm)) as [sv|].
  - rewrite unlock_if_not_active_active by done.
    rewrite processSet_NoMem by done. done.
  - rewrite processSet_NoMem by done. done.
Qed.

(** *** Commit *)

(** A stored value lives under its own key, in the map that its committed
    state selects. *)
Definition HashTable_wf (h : HashTable) : Prop :=
  map_Forall (fun k v => sv_key v = k /\ isPending v = true) (ht_pending h) /\
  map_Forall (fun k v => sv_key v = k /\ isPending v = false) (ht_committed h).

#[global] Instance HashTable_wf_dec h : Decision (HashTable_wf h).
Proof. unfold HashTable_wf. apply _. Defined.

Lemma findForWrite_key h key sv :
  HashTable_wf h -> findForWrite h key = Some sv -> sv_key sv = key.
Proof.
  intros [Hp Hc]. unfold findForWrite.
  destruct (ht_pending h !! key) as [v|] eqn:E.
  - intros [= <-]. by apply Hp.
  - intros H. by apply Hc.
Qed.

Lemma findForWrite_pending h key sv :
  HashTable_wf h -> findForWrite h key = Some sv -> isPending sv = true ->
  ht_pending h !! key = Some sv.
Proof.
  intros [Hp Hc]. unfold findForWrite.
  destruct (ht_pending h !! key) as [v|] eqn:E; [by intros [= <-]|].
  intros H Hpend. apply Hc in H as [_ H]. congruence.
Qed.

(** What [commit] leaves behind on success, for the Pending value [sv]
    found at [key]. *)
Definition committed_effects (vb vb' : VBucket) (key : DocKey)
    (sv : StoredValue) (cookie : Cookie) : Prop :=
  ht_pending (ht vb') !! key = None /\
  (exists csv, ht_committed (ht vb') !! key = Some csv /\
               sv_committed csv = CommittedViaPrepare /\
               sv_key csv = key /\ sv_value csv = sv_value sv) /\
  (exists item, cm_items (checkpointManager vb')
                = (cm_items (checkpointManager vb) ++ [item])%list /\
                it_op item = op_commit_sync_write /\
                it_key item = key /\ it_value item = sv_value sv) /\
  syncWriteCompleteCb vb'
  = (syncWriteCompleteCb vb ++
     match cookie with
     | Some _ => [(cookie, ENGINE_SUCCESS)]
     | None => []
     end)%list.

Lemma commit_found_pending vb key pendingSeqno commitSeqno cHandle cookie sv vb' :
  HashTable_wf (ht vb) ->
  findForWrite (ht vb) key = Some sv ->
  isPending sv = true ->
  commit vb key pendingSeqno commitSeqno cHandle cookie
  = Ok (ENGINE_SUCCESS, vb') ->
  committed_effects vb vb' key sv cookie.
Proof.
  intros Hwf Hfind Hpend.
  pose proof (findForWrite_key _ _ _ Hwf Hfind) as Hkey.
  unfold commit. rewrite Hfind, Hpend. simpl.
  destruct (isResident sv); simpl; [|done].
  unfold commitStoredValue, queueDirty, queueItem, CM_queueDirty, nextHLCCas.
  unfold isPending in Hpend.
  destruct commitSeqno as [s|], cookie as [c|]; simpl;
    repeat (case_match; simpl_result; simpl in *; try done).
  all: intros [= <-]; unfold committed_effects, vb_store, ht_store, isPending;
    simpl; subst key.
  all: split; [apply lookup_delete_eq|].
  all: split; [eexists; split; [apply lookup_insert_eq|done]|].
  all: split; [eexists; split; [reflexivity|by repeat split]|by rewrite ?app_nil_r].
Qed.

Lemma commit_succeeds vb key pendingSeqno commitSeqno cHandle cookie sv :
  findForWrite (ht vb) key = Some sv ->
  isPending sv = true ->
  isResident sv = true ->
  match commitSeqno with
  | Some s => (cm_lastBySeqno (checkpointManager vb) < s)%Z
  | None => True
  end ->
  exists vb', commit vb key pendingSeqno commitSeqno cHandle cookie
              = Ok (ENGINE_SUCCESS, vb').
Proof.
  intros Hfind Hpend Hres Hseq.
  unfold commit. rewrite Hfind, Hpend, Hres. simpl.
  unfold commitStoredValue, queueDirty, queueItem, CM_queueDirty, nextHLCCas.
  unfold isPending in Hpend.
  destruct commitSeqno as [s|], cookie as [c|]; simpl;
    repeat (case_match; simpl_result; simpl in *; try done);
    try lia; by eexists.
Qed.

(** C3. [commit] returns KeyEnoent when no stored value exists at the key
    and Einval when the value found is not Pending, and in both cases
    leaves the vBucket as it was (nothing queued, hash table unchanged); on
    success it replaces the Pending value with its committed form, queues a
    commit item and notifies the client cookie, when one is supplied, with
    Success. *)
Theorem commit_contract (vb : VBucket) (key : DocKey) (pendingSeqno : N)
    (commitSeqno : option Z) (cHandle : CachingReadHandle) (cookie : Cookie) :
  HashTable_wf (ht vb) ->
  match findForWrite (ht vb) key with
  | None =>
      commit vb key pendingSeqno commitSeqno cHandle cookie
      = Ok (ENGINE_KEY_ENOENT, vb)
  | Some sv =>
      if isPending sv then
        (forall vb',
           commit vb key pendingSeqno commitSeqno cHandle cookie
           = Ok (ENGINE_SUCCESS, vb') ->
           committed_effects vb vb' key sv cookie) /\
        (isResident sv = true ->
         match commitSeqno with
         | Some s => (cm_lastBySeqno (checkpointManager vb) < s)%Z
         | None => True
         end ->
         exists vb', commit vb key pendingSeqno commitSeqno cHandle cookie
                     = Ok (ENGINE_SUCCESS, vb'))
      else
        commit vb key pendingSeqno commitSeqno cHandle cookie
        = Ok (ENGINE_EINVAL, vb)
  end.
Proof.
  intros Hwf.
  destruct (findForWrite (ht vb) key) as [sv|] eqn:Hfind.
  - destruct (isPending sv) eqn:Hpend.
    + split.
      * intros vb' Hc. by eapply commit_found_pending.
      * intros Hres Hseq. by eapply commit_succeeds.
    + unfold commit. by rewrite Hfind, Hpend.
  - unfold commit. by rewrite Hfind.
Qed.

(** *** The CAS policy of [set] *)

Lemma unlock_if_not_active_unlocked vb sv :
  isLocked sv ep_current_time = false ->
  unlock_if_not_active vb sv = (sv, vb).
Proof. intros H. unfold unlock_if_not_active. by rewrite H. Qed.

(** [set] reaches the CAS checks of [processSet] for the value [sv] at the
    key: durability and predicate let it through, memory is admitted and no
    background fetch is called for. *)
Record reaches_cas_policy (vb : VBucket) (itm : Item)
    (predicate : option StoreIfPredicate) (sv : StoredValue) : Prop := {
  rcp_durability : durability_passes vb (Item_isPending itm);
  rcp_predicate : predicate_passes vb predicate (it_key itm);
  rcp_found : findForWrite (ht vb) (it_key itm) = Some sv;
  rcp_memory : admitted vb itm false;
  rcp_no_bgfetch :
    is_Full (eviction vb) && isTempInitialItem sv
    && maybeKeyExistsInFilter vb (it_key itm) = false;
}.

(** The result of a CAS mismatch on an unlocked value. *)
Definition cas_mismatch_code (sv : StoredValue) (itm : Item)
  : ENGINE_ERROR_CODE :=
  if isTempNonExistentItem sv then ENGINE_KEY_ENOENT
  else if (isTempDeletedItem sv || isDeleted sv) && negb (it_deleted itm)
  then ENGINE_KEY_ENOENT
  else if isExpired sv ep_real_time && negb (it_deleted itm)
  then ENGINE_KEY_ENOENT
  else ENGINE_KEY_EEXISTS.

Lemma set_cas_mismatch vb itm cookie predicate cHandle sv :
  reaches_cas_policy vb itm predicate sv ->
  isLocked sv ep_current_time = false ->
  it_cas itm <> 0%N ->
  it_cas itm <> sv_cas sv ->
  set vb itm cookie predicate cHandle = Ok (cas_mismatch_code sv itm, itm, vb).
Proof.
  intros [Hdur Hpred Hfind Hmem Hbg] Hlock Hcas0 Hcas.
  apply hasMemoryForStoredValue_admitted in Hmem.
  apply N.eqb_neq in Hcas0, Hcas.
  unfold set. unfold durability_passes in Hdur. rewrite Hdur. simpl_result.
  assert (Hs : exists s,
    match predicate with
    | Some p => callPredicate vb p (findForWrite (ht vb) (it_key itm))
    | None => Ok StoreIfStatus.Continue
    end = Ok s /\ (bool_decide (is_Some predicate) && is_Fail s) = false).
  { destruct predicate as [p|].
    - destruct Hpred as (s & Hc & Hs). exists s. split; [done|].
      rewrite Hs. apply andb_false_r.
    - by exists StoreIfStatus.Continue. }
  destruct Hs as (s & Hc & Hf). rewrite Hc. simpl_result. rewrite Hf.
  rewrite Hfind, unlock_if_not_active_unlocked by done.
  unfold processSet, processSet_existing, cas_mismatch_code.
  rewrite Hmem, Hcas0. simpl.
  destruct (is_Full (eviction vb)) eqn:Hfull, (isTempInitialItem sv) eqn:Hti;
    simpl in Hbg; rewrite ?Hbg; simpl; rewrite ?andb_false_r; simpl;
    rewrite Hlock, Hcas; simpl;
    destruct (isExpired sv ep_real_time), (it_deleted itm),
      (isTempNonExistentItem sv), (isTempDeletedItem sv), (isDeleted sv);
    simpl; try done.
Qed.

(** C4 as amended. For [set] that reaches the CAS policy, on an existing
    unlocked stored value with a non-zero CAS that does not match the value's
    CAS: a temp-non-existent marker gives KeyEnoent; a temp-deleted or
    deleted value with a non-delete write gives KeyEnoent; an expired value
    with a non-delete write gives KeyEnoent; every other mismatch gives
    KeyEexists; and in all these cases the vBucket, the stored value
    included, is unchanged. *)
Theorem set_cas_mismatch_policy (vb : VBucket) (itm : Item) (cookie : Cookie)
    (predicate : option StoreIfPredicate) (cHandle : CachingReadHandle)
    (sv : StoredValue) :
  reaches_cas_policy vb itm predicate sv ->
  isLocked sv ep_current_time = false ->
  it_cas itm <> 0%N ->
  it_cas itm <> sv_cas sv ->
  exists rc,
    set vb itm cookie predicate cHandle = Ok (rc, itm, vb) /\
    (isTempNonExistentItem sv = true -> rc = ENGINE_KEY_ENOENT) /\
    ((isTempDeletedItem sv = true \/ isDeleted sv = true) ->
     it_deleted itm = false -> rc = ENGINE_KEY_ENOENT) /\
    (isExpired sv ep_real_time = true -> it_deleted itm = false ->
     rc = ENGINE_KEY_ENOENT) /\
    (isTempNonExistentItem sv = false ->
     ((isTempDeletedItem sv = false /\ isDeleted sv = false)
      \/ it_deleted itm = true) ->
     (isExpired sv ep_real_time = false \/ it_deleted itm = true) ->
     rc = ENGINE_KEY_EEXISTS).
Proof.
  intros Hreach Hlock Hcas0 Hcas.
  exists (cas_mismatch_code sv itm).
  split; [by apply set_cas_mismatch|].
  unfold cas_mismatch_code.
  repeat split.
  - by intros ->.
  - intros [-> | ->] ->; simpl; rewrite ?orb_true_r; simpl;
      by destruct (isTempNonExistentItem sv).
  - intros -> ->. simpl.
    by destruct (isTempNonExistentItem sv),
         ((isTempDeletedItem sv || isDeleted sv) && true).
  - intros -> [[-> ->] | ->] [-> | H]; simpl; rewrite ?andb_false_r; try done.
    + by rewrite H, andb_false_r.
Qed.

(** *** Storing and queueing a committed value *)

(** Queueing a value that is not a prepare, with the default context: the
    value takes the next seqno and a CAS fresh from the clock, and one item
    enters the checkpoint. *)
Lemma queueDirty_plain vb v :
  isPending v = false ->
  let seqno := (cm_lastBySeqno (checkpointManager vb) + 1)%Z in
  let cas := u64 (hlc_maxCas vb + 1) in
  let nv := with_sv_bySeqno seqno (with_sv_cas cas v) in
  exists ctx vb1,
    queueDirty vb v VBQueueItemCtx_default = Ok (ctx, nv, vb_store nv vb1)
    /\ notify_bySeqno ctx = seqno
    /\ ht vb1 = ht vb
    /\ hlc_maxCas vb1 = cas
    /\ cm_lastBySeqno (checkpointManager vb1) = seqno
    /\ (exists qi,
          cm_items (checkpointManager vb1)
          = (cm_items (checkpointManager vb) ++ [qi])%list
          /\ it_key qi = sv_key v /\ it_value qi = sv_value v
          /\ it_deleted qi = sv_deleted v
          /\ it_bySeqno qi = seqno /\ it_cas qi = cas
          /\ it_op qi = op_of_committed (sv_committed v))
    /\ newSeqnoCb vb1 = newSeqnoCb vb
    /\ durabilityMonitor vb1 = durabilityMonitor vb.
Proof.
  intros Hv seqno cas nv.
  assert ((cm_lastBySeqno (checkpointManager vb) + 1
           <=? cm_lastBySeqno (checkpointManager vb))%Z = false) as Hnew
    by (apply Z.leb_gt; lia).
  unfold isPending in Hv.
  unfold queueDirty, queueItem, CM_queueDirty, nextHLCCas. simpl.
  destruct (negb (mightContainXattrs vb) && is_xattr (sv_datatype v));
    destruct (sv_deleted v && (sv_exptime v =? 0)%N);
    simpl; rewrite Hnew; simpl; simpl_result;
    unfold Item_isPending; simpl;
    destruct (sv_committed v) eqn:Hcommitted; try done; simpl;
    (eexists _, _; split; [reflexivity|]); simpl;
    repeat split; try done;
    (eexists; split; [reflexivity|]); simpl; by rewrite ?Hcommitted.
Qed.


Lemma StoredValue_of_Item_plain itm :
  Item_isPending itm = false -> isPending (StoredValue_of_Item itm) = false.
Proof. intros H. unfold isPending, StoredValue_of_Item. simpl. by rewrite H. Qed.

(** The vBucket [vb2] is [vb] after the committed value [nv] was stored at
    [key] and queued. *)
Record stored_and_queued (vb vb2 : VBucket) (key : DocKey) (nv : StoredValue)
    (ctx : VBNotifyCtx) : Prop := {
  sq_pending : ht_pending (ht vb2) = ht_pending (ht vb);
  sq_committed : ht_committed (ht vb2) = <[key := nv]> (ht_committed (ht vb));
  sq_seqno : sv_bySeqno nv = (cm_lastBySeqno (checkpointManager vb) + 1)%Z;
  sq_cas : sv_cas nv = u64 (hlc_maxCas vb + 1);
  sq_ctx : notify_bySeqno ctx = sv_bySeqno nv;
  sq_clock : hlc_maxCas vb2 = sv_cas nv;
  sq_last : cm_lastBySeqno (checkpointManager vb2) = sv_bySeqno nv;
  sq_queued : exists qi,
      cm_items (checkpointManager vb2)
      = (cm_items (checkpointManager vb) ++ [qi])%list
      /\ it_key qi = key /\ it_value qi = sv_value nv
      /\ it_deleted qi = sv_deleted nv
      /\ it_bySeqno qi = sv_bySeqno nv /\ it_cas qi = sv_cas nv
      /\ it_op qi = op_of_committed (sv_committed nv);
  sq_callbacks : newSeqnoCb vb2 = newSeqnoCb vb;
  sq_monitor : durabilityMonitor vb2 = durabilityMonitor vb;
}.

(** [vbA] is [vb] apart from the committed value at [key]. *)
Definition same_but_at (vb vbA : VBucket) (key : DocKey) : Prop :=
  ht_pending (ht vbA) = ht_pending (ht vb)
  /\ (exists w, ht_committed (ht vbA) = <[key := w]> (ht_committed (ht vb)))
  /\ checkpointManager vbA = checkpointManager vb
  /\ hlc_maxCas vbA = hlc_maxCas vb
  /\ newSeqnoCb vbA = newSeqnoCb vb
  /\ durabilityMonitor vbA = durabilityMonitor vb.

Lemma queueDirty_stored vb vbA v :
  isPending v = false ->
  same_but_at vb vbA (sv_key v) ->
  exists ctx nv vb2,
    queueDirty vbA v VBQueueItemCtx_default = Ok (ctx, nv, vb2)
    /\ stored_and_queued vb vb2 (sv_key v) nv ctx
    /\ sv_key nv = sv_key v /\ sv_value nv = sv_value v
    /\ sv_deleted nv = sv_deleted v /\ sv_flags nv = sv_flags v
    /\ sv_committed nv = sv_committed v
    /\ sv_revSeqno nv = sv_revSeqno v
    /\ sv_deleteSource nv = sv_deleteSource v.
Proof.
  intros Hv (Hp & [w Hc] & Hcm & Hclock & Hcb & Hdm).
  destruct (queueDirty_plain vbA v Hv)
    as (ctx & vb1 & Hq & Hctx & Hht & Hcas & Hlast & Hitems & Hcb1 & Hdm1).
  cbv zeta in Hq.
  rewrite Hcm, Hclock in Hq. rewrite Hcm in Hctx. rewrite Hclock in Hcas.
  rewrite Hcm in Hlast. rewrite Hcm, Hclock in Hitems.
  eexists _, _, _. split; [exact Hq|].
  split; [|done].
  split; unfold vb_store, ht_store, isPending; simpl;
    unfold isPending in Hv; rewrite ?Hv; simpl; try congruence.
  rewrite Hht, Hc. by rewrite insert_insert_eq.
Qed.

(** *** The deleted-body rule (MB-23530) *)

(** [processSet] hands a write over to [processSet_update] when memory
    admits the item, no background fetch is needed, the value is unlocked
    and the write carries no CAS or is a delete with the CAS of the
    value. *)
Lemma processSet_passes_cas vb sv itm cas allowExisting ctx sis mke :
  admitted vb itm false ->
  is_Full (eviction vb) && mke && isTempInitialItem sv = false ->
  isLocked sv ep_current_time = false ->
  (allowExisting = true \/ isTempItem sv = true \/ isDeleted sv = true) ->
  (cas = 0%N \/ (cas = sv_cas sv /\ it_deleted itm = true)) ->
  processSet vb (Some sv) itm cas allowExisting false ctx sis mke
  = processSet_update vb sv itm cas false ctx.
Proof.
  intros Hmem Hbg Hlock Hallow Hcas.
  apply hasMemoryForStoredValue_admitted in Hmem.
  assert (Hex : negb allowExisting && negb (isTempItem sv)
                && negb (isDeleted sv) = false).
  { destruct Hallow as [-> | [-> | ->]]; cbn [negb andb];
      by rewrite ?andb_false_r. }
  assert (negb (cas =? 0)%N && negb (cas =? sv_cas sv)%N = false) as Hpass.
  { destruct Hcas as [-> | [-> _]]; [done|].
    rewrite N.eqb_refl. apply andb_false_r. }
  assert (is_Full (eviction vb) && mke
          && (negb (cas =? 0)%N || wants_item_info sis)
          && is_null_or_temp_initial (Some sv) = false) as Hfetch.
  { cbn [is_null_or_temp_initial].
    destruct (is_Full (eviction vb)), mke, (isTempInitialItem sv);
      cbn [andb] in *; try done; apply andb_false_r. }
  unfold processSet. rewrite Hmem, bool_decide_eq_false_2 by done.
  cbn [negb andb]. rewrite Hfetch, Hlock.
  assert (processSet_existing vb sv itm cas allowExisting false ctx
          = processSet_update vb sv itm cas false ctx) as Hexisting.
  { unfold processSet_existing. by rewrite Hex, Hlock, Hpass. }
  rewrite Hexisting.
  destruct (isExpired sv ep_real_time && true && negb (it_deleted itm))
    eqn:Hexpired; [|done].
  destruct Hcas as [-> | [_ Hdelete]]; [done|].
  by rewrite Hdelete, andb_false_r in Hexpired.
Qed.

(** Past the deleted-body check, [processSet_update] applies the write of an
    item that is not a prepare over a value that is not one either: the
    value at the key becomes that of the item and is queued. *)
Lemma processSet_update_applies vb sv itm cas :
  Item_isPending itm = false ->
  isPending sv = false ->
  cas = 0%N \/ it_deleted itm = true ->
  exists status notify nv itm1 vb2,
    processSet_update vb sv itm cas false VBQueueItemCtx_default
    = Ok (status, Some notify, Some nv, itm1, vb2)
    /\ (status = MutationStatus.WasClean \/ status = MutationStatus.WasDirty)
    /\ stored_and_queued vb vb2 (it_key itm) nv notify
    /\ sv_value nv = it_value itm /\ sv_deleted nv = it_deleted itm
    /\ sv_committed nv = CommittedViaMutation.
Proof.
  intros Hplain Hpend Hcas.
  unfold processSet_update.
  set (itm1 := with_it_revSeqno (u64 (sv_revSeqno sv + 1)) itm).
  assert (negb false && negb (cas =? 0)%N
          && (isDeleted sv || isTempDeletedItem sv)
          && negb (it_deleted itm1) = false) as ->.
  { destruct Hcas as [-> | Hdelete]; [done|].
    change (it_deleted itm1) with (it_deleted itm).
    rewrite Hdelete. apply andb_false_r. }
  unfold updateStoredValue. rewrite Hpend.
  unfold unlocked_addNewStoredValue.
  assert (isPending (StoredValue_of_Item itm1) = false) as Hnv
    by (by apply StoredValue_of_Item_plain).
  destruct (queueDirty_stored vb
              (with_ht (ht_store (StoredValue_of_Item itm1) (ht vb)) vb)
              (StoredValue_of_Item itm1) Hnv)
    as (notify & nv & vb2 & Hq & Hsq & Hk & Hval & Hdel & Hfl & Hcom & _).
  { unfold same_but_at, ht_store. rewrite Hnv. simpl.
    repeat split; try done. by eexists. }
  rewrite Hq. simpl_result.
  eexists _, _, _, _, _. split; [reflexivity|].
  split; [destruct (isDirty sv); tauto|].
  split; [exact Hsq|]. repeat split; try done.
  rewrite Hcom. simpl.
  change (Item_isPending itm1) with (Item_isPending itm).
  by rewrite Hplain.
Qed.


(** What a refused write leaves: the vBucket as it was, or as it was but
    for the lock of the value, which a matching CAS or the expiry of the
    value has released. *)
Definition left_alone (vb vb' : VBucket) (sv : StoredValue)
    (v' : option StoredValue) : Prop :=
  (vb' = vb /\ v' = Some sv)
  \/ (isLocked sv ep_current_time = true
      /\ vb' = vb_store (unlock sv) vb /\ v' = Some (unlock sv)).

(** C5 as amended. The deleted-body rule applies to writes with a non-zero
    CAS. Over an existing value whose body is deleted (or which is a
    temp-deleted marker), a non-delete write with a non-zero CAS, matching
    or not, never succeeds: it is answered NoMem when memory does not admit
    the item, NeedBgFetch when a temp-initial value of a full-eviction
    vBucket must be fetched first, IsLocked when the value is locked and the
    CAS does not match, and NotFound in every other case; nothing is queued
    and the vBucket stays as it was, but for a lock that a matching CAS or
    expiry releases. When memory admits the item, no fetch is needed and the
    value is unlocked, the answer is NotFound and nothing changes. A write
    that the rule lets through is applied: under the same three conditions, a
    delete with the CAS of the value (the deleted-to-deleted transition) and
    any write with CAS=0, of an item that is not a prepare over a value that
    is not one, with the default queueing context, replace the value at the
    key with that of the item and queue it; so a non-delete write with CAS=0
    brings the document back. *)
Theorem deleted_body_rule (vb : VBucket) (sv : StoredValue) (itm : Item)
    (allowExisting : bool) (ctx : VBQueueItemCtx) (sis : StoreIfStatus.t)
    (mke : bool) :
  (isDeleted sv = true \/ isTempDeletedItem sv = true) ->
  (forall cas,
      cas <> 0%N ->
      it_deleted itm = false ->
      exists status v' itm' vb',
        processSet vb (Some sv) itm cas allowExisting false ctx sis mke
        = Ok (status, None, v', itm', vb')
        /\ (status = MutationStatus.NoMem /\ ~ admitted vb itm false
            \/ status = MutationStatus.NeedBgFetch
               /\ is_Full (eviction vb) && mke && isTempInitialItem sv = true
            \/ status = MutationStatus.IsLocked
               /\ isLocked sv ep_current_time = true /\ cas <> sv_cas sv
            \/ status = MutationStatus.NotFound)
        /\ left_alone vb vb' sv v'
        /\ (admitted vb itm false ->
            is_Full (eviction vb) && mke && isTempInitialItem sv = false ->
            isLocked sv ep_current_time = false ->
            status = MutationStatus.NotFound /\ vb' = vb /\ v' = Some sv))
  /\ (admitted vb itm false ->
      is_Full (eviction vb) && mke && isTempInitialItem sv = false ->
      isLocked sv ep_current_time = false ->
      isPending sv = false ->
      Item_isPending itm = false ->
      forall cas,
        cas = 0%N \/ (cas = sv_cas sv /\ it_deleted itm = true) ->
        exists status notify nv itm1 vb2,
          processSet vb (Some sv) itm cas allowExisting false
            VBQueueItemCtx_default sis mke
          = Ok (status, Some notify, Some nv, itm1, vb2)
          /\ (status = MutationStatus.WasClean
              \/ status = MutationStatus.WasDirty)
          /\ stored_and_queued vb vb2 (it_key itm) nv notify
          /\ sv_value nv = it_value itm
          /\ sv_deleted nv = it_deleted itm
          /\ sv_committed nv = CommittedViaMutation).
Proof.
  intros Hdel.
  assert (Hex : negb allowExisting && negb (isTempItem sv)
                && negb (isDeleted sv) = false).
  { unfold isTempItem.
    destruct Hdel as [-> | ->]; cbn [negb andb orb];
      by rewrite ?orb_true_r, ?andb_false_r. }
  assert (Hd : isDeleted sv || isTempDeletedItem sv = true).
  { destruct Hdel as [-> | ->]; by rewrite ?orb_true_r. }
  assert (Hd' : isTempDeletedItem sv || isDeleted sv = true)
    by (by rewrite orb_comm).
  split.
  - intros cas Hcas Hitm. apply N.eqb_neq in Hcas.
    unfold processSet. rewrite bool_decide_eq_false_2 by done.
    rewrite Hcas, Hitm. cbn [negb andb orb is_null_or_temp_initial].
    rewrite !andb_true_r.
    destruct (hasMemoryForStoredValue vb (stats vb) itm false) eqn:Hmem;
      cbn [negb].
    2: { eexists _, _, _, _. split; [reflexivity|].
         split; [left; split; [done|]|split; [by left|]].
         - intros Ha%hasMemoryForStoredValue_admitted. congruence.
         - intros Ha%hasMemoryForStoredValue_admitted. congruence. }
    destruct (is_Full (eviction vb) && mke && isTempInitialItem sv) eqn:Hbg.
    { eexists _, _, _, _. split; [reflexivity|].
      split; [right; left; by split|]. split; [by left|]. congruence. }
    assert (forall vb0 sv0,
               isDeleted sv0 || isTempDeletedItem sv0 = true ->
               exists itm',
                 processSet_update vb0 sv0 itm cas false ctx
                 = Ok (MutationStatus.NotFound, None, Some sv0, itm', vb0))
      as Hupdate.
    { intros vb0 sv0 H0. unfold processSet_update.
      cbn [negb andb it_deleted with_it_revSeqno].
      rewrite Hcas, H0, Hitm. cbn [negb andb]. by eexists. }
    assert (isDeleted (unlock sv) || isTempDeletedItem (unlock sv) = true)
      as Hdu.
    { unfold unlock. destruct (isDeleted sv) eqn:E; [by rewrite E|].
      unfold isDeleted in *. cbn [sv_deleted with_sv_lock_expiry].
      rewrite E. exact Hd. }
    assert (exists status v' itm' vb',
               processSet_existing vb sv itm cas allowExisting false ctx
               = Ok (status, None, v', itm', vb')
               /\ (status = MutationStatus.IsLocked
                   /\ isLocked sv ep_current_time = true /\ cas <> sv_cas sv
                   \/ status = MutationStatus.NotFound)
               /\ left_alone vb vb' sv v'
               /\ (isLocked sv ep_current_time = false ->
                   status = MutationStatus.NotFound
                   /\ vb' = vb /\ v' = Some sv)) as Hexisting.
    { unfold processSet_existing. rewrite Hex, Hcas. cbn [negb andb].
      destruct (isLocked sv ep_current_time) eqn:Hlock.
      - destruct (N.eqb_spec cas (sv_cas sv)) as [Heq|Hne]; cbn [negb].
        + destruct (Hupdate (vb_store (unlock sv) vb) (unlock sv) Hdu)
            as [itm' ->].
          eexists _, _, _, _. split; [reflexivity|].
          split; [by right|]. split; [right; by repeat split|done].
        + eexists _, _, _, _. split; [reflexivity|].
          split; [left; by repeat split|]. split; [by left|done].
      - destruct (N.eqb_spec cas (sv_cas sv)) as [Heq|Hne]; cbn [negb].
        + destruct (Hupdate vb sv Hd) as [itm' ->].
          eexists _, _, _, _. split; [reflexivity|].
          split; [by right|]. split; [by left|done].
        + rewrite Hd', Hitm. cbn [negb andb].
          destruct (isTempNonExistentItem sv);
            (eexists _, _, _, _; split; [reflexivity|]);
            (split; [by right|]); (split; [by left|done]). }
    destruct (isExpired sv ep_real_time).
    + destruct (isLocked sv ep_current_time) eqn:Hlock.
      * eexists _, _, _, _. split; [reflexivity|].
        split; [by repeat right|]. split; [right; by repeat split|done].
      * eexists _, _, _, _. split; [reflexivity|].
        split; [by repeat right|]. split; [by left|done].
    + destruct Hexisting as (status & v' & itm' & vb' & -> & Hs & Hleft
                             & Hunlocked).
      eexists _, _, _, _. split; [reflexivity|].
      split; [destruct Hs as [Hs|Hs]; [right; right; by left|by repeat right]|].
      split; [done|]. intros _ _. exact Hunlocked.
  - intros Hmem Hbg Hlock Hpend Hplain cas Hcas.
    rewrite processSet_passes_cas; try done.
    + apply processSet_update_applies; try done.
      destruct Hcas as [-> | [_ ->]]; tauto.
    + destruct Hdel as [-> | H]; [tauto|].
      right; left. unfold isTempItem. by rewrite H, orb_true_r.
Qed.

(** *** Locks on a replica or pending vBucket *)







Lemma addTempItemAndBGFetch_code vb key cookie metadataOnly :
  (addTempItemAndBGFetch vb key cookie metadataOnly).1 = ENGINE_ENOMEM \/
  (addTempItemAndBGFetch vb key cookie metadataOnly).1 = ENGINE_EWOULDBLOCK.
Proof.
  unfold addTempItemAndBGFetch.
  destruct (addTempStoredValue vb key) as [[] vb']; simpl; tauto.
Qed.

Lemma stored_code ret notifyCtx v itm vb rc itm' vb' :
  stored ret notifyCtx v itm vb = Ok (rc, itm', vb') -> rc = ret.
Proof. unfold stored. repeat case_match; naive_solver. Qed.





Lemma isPending_unlock sv : isPending (unlock sv) = isPending sv.
Proof. unfold unlock. by destruct (isDeleted sv). Qed.

Lemma sv_key_unlock sv : sv_key (unlock sv) = sv_key sv.
Proof. unfold unlock. by destruct (isDeleted sv). Qed.








(** *** Durability impossible *)

(** The wording of the specification: every chain has at least
    majority = floor(chainSize/2)+1 defined nodes. *)
Definition chain_has_majority (chain : list (option string)) : Prop :=
  (length chain / 2 + 1 <= length (filter (fun n => is_Some n) chain))%nat.

Definition durability_possible (adm : ActiveDurabilityMonitor) : Prop :=
  Forall chain_has_majority (adm_chains adm).

Lemma isDurabilityPossible_spec adm :
  isDurabilityPossible adm = true <-> durability_possible adm.
Proof.
  unfold isDurabilityPossible, durability_possible.
  rewrite forallb_forall, Forall_forall.
  unfold chain_has_majority, majority, numDefined.
  split; intros H chain Hin.
  - apply Nat.leb_le, H. by apply list_elem_of_In.
  - apply Nat.leb_le, H. by apply list_elem_of_In.
Qed.

Lemma durabilityImpossible_active vb adm durable :
  state vb = vbucket_state_active ->
  durabilityMonitor vb = ActiveDM adm ->
  durabilityImpossible vb durable
  = Ok (durable && negb (isDurabilityPossible adm)).
Proof.
  intros Hs Hdm. unfold durabilityImpossible, getActiveDM.
  rewrite Hs, Hdm. by destruct durable.
Qed.

Ltac code_is_not_impossible :=
  repeat match goal with
  | |- Ok _ = Ok _ -> _ => intros [= <- <- <-]; discriminate
  | |- Throw _ = Ok _ -> _ => discriminate
  | |- stored _ _ _ _ _ = Ok _ -> _ =>
      let H := fresh in
      intros H%stored_code; subst; by repeat case_match
  | |- (let '(_, _) := addTempItemAndBGFetch ?a ?b ?c ?d in _) = Ok _ -> _ =>
      let Hc := fresh in
      pose proof (addTempItemAndBGFetch_code a b c d) as Hc;
      destruct (addTempItemAndBGFetch a b c d);
      simpl in Hc; intros [= <- <- <-]; by destruct Hc as [-> | ->]
  | |- _ => case_match
  end.

Lemma set_code vb itm cookie predicate cHandle rc itm' vb' :
  durabilityImpossible vb (Item_isPending itm) = Ok false ->
  set vb itm cookie predicate cHandle = Ok (rc, itm', vb') ->
  rc <> ENGINE_DURABILITY_IMPOSSIBLE.
Proof.
  intros Hd. unfold set. rewrite Hd. simpl_result.
  destruct (match predicate with Some _ => _ | None => _ end) as [s|e];
    simpl_result; [|done].
  destruct (bool_decide (is_Some predicate) && is_Fail s);
    [code_is_not_impossible|].
  destruct (match findForWrite _ _ with Some _ => _ | None => _ end)
    as [v1 vb1].
  destruct (processSet _ _ _ _ _ _ _ _ _) as [[[[[st n] v2] itm2] vb2]|e];
    simpl_result; [|done].
  destruct st; code_is_not_impossible.
Qed.

Lemma replace_code vb itm cookie predicate cHandle rc itm' vb' :
  durabilityImpossible vb (Item_isPending itm) = Ok false ->
  replace vb itm cookie predicate cHandle = Ok (rc, itm', vb') ->
  rc <> ENGINE_DURABILITY_IMPOSSIBLE.
Proof.
  intros Hd. unfold replace. rewrite Hd. simpl_result.
  destruct (match predicate with Some _ => _ | None => _ end) as [s|e];
    simpl_result; [|done].
  destruct (bool_decide (is_Some predicate) && is_Fail s);
    [code_is_not_impossible|].
  destruct (findForWrite _ _) as [sv|]; [|code_is_not_impossible].
  destruct (isLogicallyNonExistent sv cHandle); [code_is_not_impossible|].
  destruct (if is_Full (eviction vb) && isTempInitialItem sv then _ else _)
    as [[[[[st n] v2] itm2] vb2]|e]; simpl_result; [|done].
  destruct st; code_is_not_impossible.
Qed.

Lemma add_code vb itm cookie cHandle rc itm' vb' :
  durabilityImpossible vb (Item_isPending itm) = Ok false ->
  add vb itm cookie cHandle = Ok (rc, itm', vb') ->
  rc <> ENGINE_DURABILITY_IMPOSSIBLE.
Proof.
  intros Hd. unfold add. rewrite Hd. simpl_result.
  destruct (processAdd _ _ _ _ _ _) as [[[[[st n] v2] itm2] vb2]|e];
    simpl_result; [|done].
  destruct st; code_is_not_impossible.
Qed.

Lemma deleteItem_code vb cas cookie durability cHandle rc cas' vb' :
  durabilityImpossible vb (match durability with
                           | Some d => Requirements_isValid d
                           | None => false
                           end) = Ok false ->
  deleteItem vb cas cookie durability cHandle = Ok (rc, cas', vb') ->
  rc <> ENGINE_DURABILITY_IMPOSSIBLE.
Proof.
  intros Hd. unfold deleteItem. rewrite Hd. simpl_result.
  destruct (absent_for_delete _ _); [code_is_not_impossible|].
  destruct (findForWrite _ _) as [sv|]; [|done].
  destruct (unlock_if_not_active vb sv) as [sv1 vb1].
  destruct (if isExpired sv1 ep_real_time then _ else _)
    as [[[[st v2] n] vb2]|e]; simpl_result; [|done].
  destruct st; code_is_not_impossible.
Qed.

(** C1. On an active vBucket, every front-end write (set, add, replace,
    deleteItem with valid durability requirements) of a durable prepare
    returns DurabilityImpossible if and only if the durability-possible
    predicate fails, where the predicate holds exactly when every
    replication chain has at least majority = floor(chainSize/2)+1 defined
    nodes; when the predicate fails the operation returns with the vBucket
    as it was: the prepare is neither queued nor tracked. *)
Theorem durability_impossible_iff (vb : VBucket)
    (adm : ActiveDurabilityMonitor) :
  state vb = vbucket_state_active ->
  durabilityMonitor vb = ActiveDM adm ->
  (isDurabilityPossible adm = true <-> durability_possible adm) /\
  (forall itm cookie cHandle,
     Item_isPending itm = true ->
     (forall predicate,
        (~ durability_possible adm ->
         set vb itm cookie predicate cHandle
         = Ok (ENGINE_DURABILITY_IMPOSSIBLE, itm, vb)) /\
        (forall rc itm' vb',
           set vb itm cookie predicate cHandle = Ok (rc, itm', vb') ->
           rc = ENGINE_DURABILITY_IMPOSSIBLE -> ~ durability_possible adm)) /\
     (forall predicate,
        (~ durability_possible adm ->
         replace vb itm cookie predicate cHandle
         = Ok (ENGINE_DURABILITY_IMPOSSIBLE, itm, vb)) /\
        (forall rc itm' vb',
           replace vb itm cookie predicate cHandle = Ok (rc, itm', vb') ->
           rc = ENGINE_DURABILITY_IMPOSSIBLE -> ~ durability_possible adm)) /\
     (~ durability_possible adm ->
      add vb itm cookie cHandle
      = Ok (ENGINE_DURABILITY_IMPOSSIBLE, itm, vb)) /\
     (forall rc itm' vb',
        add vb itm cookie cHandle = Ok (rc, itm', vb') ->
        rc = ENGINE_DURABILITY_IMPOSSIBLE -> ~ durability_possible adm)) /\
  (forall cas cookie reqs cHandle,
     Requirements_isValid reqs = true ->
     (~ durability_possible adm ->
      deleteItem vb cas cookie (Some reqs) cHandle
      = Ok (ENGINE_DURABILITY_IMPOSSIBLE, cas, vb)) /\
     (forall rc cas' vb',
        deleteItem vb cas cookie (Some reqs) cHandle = Ok (rc, cas', vb') ->
        rc = ENGINE_DURABILITY_IMPOSSIBLE -> ~ durability_possible adm)).
Proof.
  intros Hact Hdm.
  pose proof (isDurabilityPossible_spec adm) as Hspec.
  assert (Hfail : ~ durability_possible adm ->
                  durabilityImpossible vb true = Ok true).
  { intros Hno. rewrite (durabilityImpossible_active _ adm) by done.
    destruct (isDurabilityPossible adm); [|done]. tauto. }
  assert (Hpass : durability_possible adm ->
                  durabilityImpossible vb true = Ok false).
  { intros Hyes. rewrite (durabilityImpossible_active _ adm) by done.
    apply Hspec in Hyes. by rewrite Hyes. }
  split; [done|]. split.
  - intros itm cookie cHandle Hpend. repeat split.
    + intros Hno. unfold set. by rewrite Hpend, Hfail.
    + intros rc itm' vb' Hset -> Hyes.
      eapply set_code; [|exact Hset|done]. rewrite Hpend. auto.
    + intros Hno. unfold replace. by rewrite Hpend, Hfail.
    + intros rc itm' vb' Hrep -> Hyes.
      eapply replace_code; [|exact Hrep|done]. rewrite Hpend. auto.
    + intros Hno. unfold add. by rewrite Hpend, Hfail.
    + intros rc itm' vb' Hadd -> Hyes.
      eapply add_code; [|exact Hadd|done]. rewrite Hpend. auto.
  - intros cas cookie reqs cHandle Hvalid. split.
    + intros Hno. unfold deleteItem. cbv beta iota.
      by rewrite Hvalid, Hfail.
    + intros rc cas' vb' Hdel -> Hyes.
      eapply deleteItem_code; [|exact Hdel|done].
      cbv beta iota. rewrite Hvalid. auto.
Qed.

(** *** Durability timeouts *)

Definition trackedWrites (vb : VBucket) : list SyncWrite :=
  match durabilityMonitor vb with
  | ActiveDM adm => adm_trackedWrites adm
  | PassiveDM pdm => pdm_trackedWrites pdm
  end.

(** A Pending stored value is resident while tracked: every tracked prepare
    has its Pending value in the hash table, and no key has two prepares
    in flight. *)
Definition has_pending_value (h : HashTable) (sw : SyncWrite) : Prop :=
  match ht_pending h !! sw_key sw with
  | Some sv => isPending sv = true /\ sv_key sv = sw_key sw
  | None => False
  end.

Definition prepares_resident (h : HashTable) (sws : list SyncWrite) : Prop :=
  NoDup (map sw_key sws) /\ Forall (has_pending_value h) sws.

#[global] Instance has_pending_value_dec h sw : Decision (has_pending_value h sw).
Proof. unfold has_pending_value. destruct (ht_pending h !! sw_key sw); apply _. Defined.

#[global] Instance prepares_resident_dec h sws : Decision (prepares_resident h sws).
Proof. unfold prepares_resident. apply _. Defined.

Lemma prepares_resident_elem h sws sw :
  prepares_resident h sws -> sw ∈ sws ->
  exists sv, ht_pending h !! sw_key sw = Some sv /\ isPending sv = true /\
             sv_key sv = sw_key sw.
Proof.
  intros [_ Hall] Hin. rewrite Forall_forall in Hall.
  specialize (Hall sw Hin). unfold has_pending_value in Hall.
  destruct (ht_pending h !! sw_key sw) as [sv|]; [|done].
  exists sv. tauto.
Qed.

(** The abort item of a prepare: a deleted abort item at the prepare's key
    that carries the prepare's seqno. *)
Definition is_abort_of (sw : SyncWrite) (item : Item) : Prop :=
  Item_isAbort item = true /\ it_deleted item = true /\
  it_key item = sw_key sw /\ it_prepareSeqno item = sw_seqno sw.

(** The notifications that the aborts of [sws] send: SyncWriteAmbiguous to
    every cookie. *)
Definition abort_notifications (sws : list SyncWrite)
  : list (Cookie * ENGINE_ERROR_CODE) :=
  omap (fun sw => match sw_cookie sw with
                  | Some c => Some (Some c, ENGINE_SYNC_WRITE_AMBIGUOUS)
                  | None => None
                  end) sws.

Record aborted (vb vb' : VBucket) (sws : list SyncWrite) (items : list Item)
  : Prop := {
  ab_monitor : durabilityMonitor vb' = durabilityMonitor vb;
  ab_state : state vb' = state vb;
  ab_items : cm_items (checkpointManager vb')
             = (cm_items (checkpointManager vb) ++ items)%list;
  ab_aborts : Forall2 is_abort_of sws items;
  ab_pending : ht_pending (ht vb')
               = foldr delete (ht_pending (ht vb)) (map sw_key sws);
  ab_committed : ht_committed (ht vb') = ht_committed (ht vb);
  ab_notified : syncWriteCompleteCb vb'
                = (syncWriteCompleteCb vb ++ abort_notifications sws)%list;
}.

Lemma ADM_abort_ok vb sw sv :
  ht_pending (ht vb) !! sw_key sw = Some sv ->
  isPending sv = true ->
  sv_key sv = sw_key sw ->
  exists vb' item, ADM_abort vb sw = Ok vb' /\ aborted vb vb' [sw] [item].
Proof.
  intros Hfind Hpend Hkey.
  unfold ADM_abort, abort, findForWrite. rewrite Hfind, Hpend. simpl.
  unfold abortStoredValue, queueAbort, queueItem, CM_queueDirty, nextHLCCas.
  simpl. simpl_result.
  assert (Hlt : (cm_lastBySeqno (checkpointManager vb) + 1
                 <=? cm_lastBySeqno (checkpointManager vb))%Z = false)
    by (apply Z.leb_gt; lia).
  rewrite Hlt. simpl. simpl_result.
  unfold unlocked_del. simpl. rewrite Hkey, Hfind.
  destruct (sw_cookie sw) as [c|] eqn:Hc; simpl; simpl_result;
    eexists _, _; (split; [reflexivity|]);
    split; simpl; try done.
  - repeat constructor; done.
  - unfold abort_notifications. simpl. by rewrite Hc.
  - repeat constructor; done.
  - unfold abort_notifications. simpl. by rewrite Hc, app_nil_r.
Qed.

Lemma foldr_delete_delete (m : gmap string StoredValue) k l :
  foldr delete (delete k m) l = delete k (foldr delete m l).
Proof.
  induction l as [|k' l IH]; simpl; [done|].
  by rewrite IH, delete_delete.
Qed.

Lemma ADM_abortAll_ok sws :
  forall vb,
    prepares_resident (ht vb) sws ->
    exists vb' items, ADM_abortAll vb sws = Ok vb' /\ aborted vb vb' sws items.
Proof.
  induction sws as [|sw rest IH]; intros vb Hpr.
  - exists vb, []. split; [done|].
    split; simpl; rewrite ?app_nil_r; by try constructor.
  - destruct (prepares_resident_elem _ _ sw Hpr)
      as (sv & Hfind & Hpend & Hkey); [by left|].
    destruct Hpr as [Hnd Hres].
    destruct (ADM_abort_ok vb sw sv Hfind Hpend Hkey)
      as (vb1 & item & Hab & [Hm1 Hs1 Hi1 Ha1 Hp1 Hc1 Hn1]).
    simpl in Hnd. apply NoDup_cons in Hnd as [Hnotin Hnd].
    destruct (IH vb1) as (vb' & items & Hall & [Hm Hs Hi Ha Hp Hc Hn]).
    { split; [done|]. apply Forall_cons in Hres as [_ Hres].
      rewrite Forall_forall in Hres |- *. intros sw' Hin.
      specialize (Hres sw' Hin). unfold has_pending_value in *.
      rewrite Hp1. simpl. rewrite lookup_delete_ne; [done|].
      intros Heq. apply Hnotin. rewrite Heq. by apply list_elem_of_fmap_2. }
    exists vb', (item :: items). simpl. rewrite Hab. simpl_result.
    split; [done|]. split.
    + by rewrite Hm.
    + by rewrite Hs.
    + rewrite Hi, Hi1. by rewrite <- app_assoc.
    + constructor; [by inversion Ha1 | done].
    + rewrite Hp, Hp1. simpl. apply foldr_delete_delete.
    + by rewrite Hc.
    + rewrite Hn, Hn1. rewrite <- app_assoc. f_equal.
      unfold abort_notifications. simpl. by destruct (sw_cookie sw).
Qed.

Lemma filter_negb_elem (P : SyncWrite -> bool) l sw :
  sw ∈ List.filter (fun x => negb (P x)) l <-> sw ∈ l /\ P sw = false.
Proof.
  rewrite !list_elem_of_In, filter_In, negb_true_iff. done.
Qed.

Lemma filter_elem (P : SyncWrite -> bool) l sw :
  sw ∈ List.filter P l <-> sw ∈ l /\ P sw = true.
Proof. by rewrite !list_elem_of_In, filter_In. Qed.

Lemma prepares_resident_filter h (P : SyncWrite -> bool) l :
  prepares_resident h l -> prepares_resident h (List.filter P l).
Proof.
  intros [Hnd Hres]. split.
  - clear Hres. induction l as [|x l IH]; simpl; [constructor|].
    simpl in Hnd. apply NoDup_cons in Hnd as [Hx Hnd].
    destruct (P x); simpl; [|by apply IH].
    apply NoDup_cons. split; [|by apply IH].
    intros Hin. apply Hx.
    apply list_elem_of_fmap in Hin as (y & Hy & Hin).
    apply filter_elem in Hin as [Hin _].
    rewrite Hy. by apply list_elem_of_fmap_2.
  - rewrite Forall_forall in Hres |- *.
    intros sw Hin. apply filter_elem in Hin as [Hin _]. by apply Hres.
Qed.

(** The deadline of a prepare has passed at [asOf]. *)
Definition deadline_passed (asOf : N) (sw : SyncWrite) : Prop :=
  exists deadline, SyncWrite_deadline sw = Some deadline /\ (deadline <= asOf)%N.

Lemma SyncWrite_isExpired_spec asOf sw :
  SyncWrite_isExpired asOf sw = true <-> deadline_passed asOf sw.
Proof.
  unfold SyncWrite_isExpired, deadline_passed.
  destruct (SyncWrite_deadline sw) as [d|].
  - rewrite N.leb_le. split; [by exists d | by intros (? & [= <-] & ?)].
  - split; [done | by intros (? & ? & ?)].
Qed.

(** C2. [processTimeout(asOf)] aborts exactly the tracked prepares whose
    deadline (enqueue time plus a finite timeout) is at most [asOf]: each
    of them leaves the tracked set, an abort item carrying its seqno as
    prepareSeqno is queued for it, its Pending value leaves the hash table
    and its cookie is notified SyncWriteAmbiguous; every other prepare
    stays tracked, and a prepare with [Timeout::Infinity] stays tracked for
    every [asOf]. *)
Theorem processTimeout_aborts_expired (vb : VBucket)
    (adm : ActiveDurabilityMonitor) (asOf : N) :
  state vb = vbucket_state_active ->
  durabilityMonitor vb = ActiveDM adm ->
  prepares_resident (ht vb) (adm_trackedWrites adm) ->
  exists vb' aborts,
    let expired := List.filter (SyncWrite_isExpired asOf) (adm_trackedWrites adm) in
    processDurabilityTimeout vb asOf = Ok vb' /\
    (forall sw, sw ∈ expired <-> sw ∈ adm_trackedWrites adm /\ deadline_passed asOf sw) /\
    (forall sw ms, sw ∈ adm_trackedWrites adm ->
       req_timeout (sw_reqs sw) = Timeout_Millis ms ->
       (sw ∈ expired <-> (sw_start sw + ms <= asOf)%N)) /\
    (forall sw, sw ∈ trackedWrites vb' <->
                sw ∈ adm_trackedWrites adm /\ ~ deadline_passed asOf sw) /\
    cm_items (checkpointManager vb')
    = (cm_items (checkpointManager vb) ++ aborts)%list /\
    Forall2 is_abort_of expired aborts /\
    (forall sw, sw ∈ expired -> ht_pending (ht vb') !! sw_key sw = None) /\
    syncWriteCompleteCb vb'
    = (syncWriteCompleteCb vb ++ abort_notifications expired)%list /\
    (forall sw, sw ∈ adm_trackedWrites adm ->
       req_timeout (sw_reqs sw) = Timeout_Infinity -> sw ∈ trackedWrites vb').
Proof.
  intros Hact Hdm Hres.
  set (expired := List.filter (SyncWrite_isExpired asOf) (adm_trackedWrites adm)).
  set (remaining := List.filter (fun sw => negb (SyncWrite_isExpired asOf sw))
                      (adm_trackedWrites adm)).
  set (vb0 := with_durabilityMonitor
                (ActiveDM (with_adm_trackedWrites remaining adm)) vb).
  destruct (ADM_abortAll_ok expired vb0)
    as (vb' & aborts & Hall & [Hm Hs Hi Ha Hp Hc Hn]).
  { by apply prepares_resident_filter. }
  assert (Htracked : forall sw, sw ∈ trackedWrites vb' <->
            sw ∈ adm_trackedWrites adm /\ ~ deadline_passed asOf sw).
  { intros sw. unfold trackedWrites. rewrite Hm. simpl.
    unfold remaining. rewrite filter_negb_elem.
    rewrite <- SyncWrite_isExpired_spec.
    by destruct (SyncWrite_isExpired asOf sw); intuition. }
  exists vb', aborts. simpl. fold expired.
  split.
  { unfold processDurabilityTimeout, getActiveDM, getState.
    rewrite Hact, Hdm. simpl. unfold ADM_processTimeout.
    fold expired remaining vb0. done. }
  split.
  { intros sw. unfold expired.
    by rewrite filter_elem, SyncWrite_isExpired_spec. }
  split.
  { intros sw ms Hin Hms. unfold expired.
    rewrite filter_elem. unfold SyncWrite_isExpired, SyncWrite_deadline.
    rewrite Hms, N.leb_le. tauto. }
  split; [done|]. split; [done|]. split; [done|]. split.
  { intros sw Hin. rewrite Hp. simpl.
    assert (Hk : sw_key sw ∈ map sw_key expired)
      by by apply list_elem_of_fmap_2.
    clear -Hk. induction (map sw_key expired) as [|k l IH]; simpl.
    - by apply elem_of_nil in Hk.
    - destruct (decide (k = sw_key sw)) as [->|Hne].
      + apply lookup_delete_eq.
      + rewrite lookup_delete_ne by done. apply IH.
        apply elem_of_cons in Hk as [Hk|Hk]; [congruence | done]. }
  split; [done|].
  intros sw Hin Hinf. apply Htracked. split; [done|].
  intros (d & Hd & _). unfold SyncWrite_deadline in Hd. by rewrite Hinf in Hd.
Qed.

(** *** Replication topology *)

Definition replica_node (n : Json.json) : Prop :=
  n = Json.Null \/ exists s, n = Json.Str s.

(** A chain of 1..4 entries, the first a string, the others null or
    strings. *)
Definition chain_shape (c : Json.json) : Prop :=
  exists active rest,
    c = Json.Array (Json.Str active :: rest) /\
    (length rest <= 3)%nat /\ Forall replica_node rest.

(** An array of 1..2 chains. *)
Definition topology_shape (t : Json.json) : Prop :=
  exists chains,
    t = Json.Array chains /\ (1 <= length chains <= 2)%nat /\
    Forall chain_shape chains.

(** No node name appears twice within the chain. *)
Definition chain_no_duplicates (c : Json.json) : Prop :=
  NoDup (defined_nodes (map node_name (Json.elements c))).

#[global] Instance chain_no_duplicates_dec c : Decision (chain_no_duplicates c).
Proof. unfold chain_no_duplicates. apply _. Defined.

(** The topology of the specification: the shape above and no node
    duplicated within a single chain. *)
Definition topology_valid (t : Json.json) : Prop :=
  topology_shape t /\ Forall chain_no_duplicates (Json.elements t).

Lemma validateNodes_replicas chainId idx nodes :
  validateNodes chainId (S idx) nodes = None <-> Forall replica_node nodes.
Proof.
  revert idx. induction nodes as [|n nodes IH]; intros idx; simpl.
  - split; [constructor | done].
  - destruct n; simpl; try rewrite IH;
      try (split; [done | inversion 1 as [|? ? [? | [? ?]]]; done]).
    + split; [intros; constructor; [by left | done] | by inversion 1].
    + split; [intros; constructor; [right; by eexists | done] | by inversion 1].
Qed.

Lemma validateChains_shape chainId chains :
  validateChains chainId chains = None <-> Forall chain_shape chains.
Proof.
  revert chainId. induction chains as [|c chains IH]; intros chainId; simpl.
  - split; [constructor | done].
  - destruct c as [| | | | | |nodes|]; simpl;
      try (split; [done | inversion 1 as [|? ? (? & ? & ? & _)]; done]).
    destruct nodes as [|n rest]; simpl.
    { split; [done | inversion 1 as [|? ? (? & ? & ? & _)]; done]. }
    destruct (4 <? S (length rest))%nat eqn:Hlen; simpl.
    { apply Nat.ltb_lt in Hlen. split; [done|].
      inversion 1 as [|? ? (? & ? & Heq & ? & _)]. simplify_eq. lia. }
    apply Nat.ltb_ge in Hlen.
    destruct n; simpl;
      try (split; [done | inversion 1 as [|? ? (? & ? & ? & _)]; done]).
    destruct (validateNodes chainId 1 rest) as [e|] eqn:Hn.
    + split; [done|].
      inversion 1 as [|? ? (? & ? & Heq & ? & Hr)]. simplify_eq.
      apply (validateNodes_replicas chainId 0) in Hr. congruence.
    + apply validateNodes_replicas in Hn. rewrite IH. split.
      * intros. constructor; [|done]. eexists _, _. split; [done|].
        split; [lia | done].
      * by inversion 1.
Qed.

Lemma validateReplicationTopology_shape t :
  validateReplicationTopology t = None <-> topology_shape t.
Proof.
  unfold validateReplicationTopology, topology_shape.
  destruct t as [| | | | | |chains|]; simpl;
    try (split; [done | by intros (? & ? & _)]).
  destruct (length chains <? 1)%nat eqn:H1; simpl.
  { apply Nat.ltb_lt in H1. split; [done|].
    intros (? & [= <-] & ? & _). lia. }
  destruct (2 <? length chains)%nat eqn:H2; simpl.
  { apply Nat.ltb_lt in H2. split; [done|].
    intros (? & [= <-] & ? & _). lia. }
  apply Nat.ltb_ge in H1, H2. rewrite validateChains_shape. split.
  - intros. exists chains. split; [done|]. split; [lia | done].
  - by intros (? & [= <-] & _ & ?).
Qed.

(** The chains that the monitor keeps for a topology. *)
Definition chains_of (t : Json.json) : list (list (option string)) :=
  map (fun c => map node_name (Json.elements c)) (Json.elements t).

Lemma ADM_chain_shape c :
  chain_shape c ->
  ADM_chain c = if bool_decide (chain_no_duplicates c)
                then Ok (map node_name (Json.elements c))
                else Throw invalid_argument.
Proof.
  intros (active & rest & -> & Hlen & _).
  destruct (bool_decide (chain_no_duplicates _)) eqn:E;
    [apply bool_decide_eq_true in E | apply bool_decide_eq_false in E];
    unfold chain_no_duplicates in E; unfold ADM_chain; simpl in *;
    rewrite length_map;
    (destruct (4 <? S (length rest))%nat eqn:H4;
       [apply Nat.ltb_lt in H4; lia|]).
  - by rewrite bool_decide_eq_true_2.
  - by rewrite bool_decide_eq_false_2.
Qed.

Lemma ADM_chains_shape chains :
  Forall chain_shape chains ->
  ADM_chains chains
  = if bool_decide (Forall chain_no_duplicates chains)
    then Ok (map (fun c => map node_name (Json.elements c)) chains)
    else Throw invalid_argument.
Proof.
  induction 1 as [|c chains Hc Hcs IH]; simpl; [done|].
  rewrite ADM_chain_shape, IH by done. simpl_result.
  destruct (bool_decide (chain_no_duplicates c)) eqn:E1; simpl_result.
  - apply bool_decide_eq_true in E1.
    destruct (bool_decide (Forall chain_no_duplicates chains)) eqn:E2;
      simpl_result.
    + apply bool_decide_eq_true in E2.
      by rewrite bool_decide_eq_true_2 by by constructor.
    + apply bool_decide_eq_false in E2.
      rewrite bool_decide_eq_false_2; [done|]. by inversion 1.
  - apply bool_decide_eq_false in E1.
    rewrite bool_decide_eq_false_2; [done|]. by inversion 1.
Qed.

Lemma ADM_setReplicationTopology_shape t adm :
  topology_shape t ->
  ADM_setReplicationTopology t adm
  = if bool_decide (Forall chain_no_duplicates (Json.elements t))
    then Ok (with_adm_chains (chains_of t) adm)
    else Throw invalid_argument.
Proof.
  intros (chains & -> & [H1 H2] & Hshape).
  unfold ADM_setReplicationTopology, chains_of. simpl.
  destruct (length chains =? 0)%nat eqn:E0; [apply Nat.eqb_eq in E0; lia|].
  destruct (2 <? length chains)%nat eqn:E2; [apply Nat.ltb_lt in E2; lia|].
  rewrite ADM_chains_shape by done.
  by case_bool_decide.
Qed.

(** The monitor of a replica or pending vBucket is a passive one. *)
Definition monitor_matches_state (vb : VBucket) : Prop :=
  match state vb with
  | vbucket_state_replica
  | vbucket_state_pending => exists pdm, durabilityMonitor vb = PassiveDM pdm
  | _ => True
  end.

Definition topology_meta (t : Json.json) : Json.json :=
  Json.Object [("topology", t)].

Lemma topology_shape_not_null t : topology_shape t -> Json.is_null t = false.
Proof. by intros (? & -> & _). Qed.

Lemma setState_bad_shape vb t :
  ~ topology_shape t ->
  setState vb vbucket_state_active (topology_meta t)
  = (vb, Some invalid_argument).
Proof.
  intros Hbad. unfold setState, topology_meta. simpl.
  destruct (validateReplicationTopology t) eqn:E; [done|].
  by apply validateReplicationTopology_shape in E.
Qed.

Lemma setState_good_shape vb t :
  monitor_matches_state vb ->
  topology_shape t ->
  exists vb' adm,
    state vb' = vbucket_state_active /\
    replicationTopology vb' = t /\
    durabilityMonitor vb' = ActiveDM adm /\
    setState vb vbucket_state_active (topology_meta t)
    = if bool_decide (Forall chain_no_duplicates (Json.elements t))
      then (with_durabilityMonitor
              (ActiveDM (with_adm_chains (chains_of t) adm)) vb', None)
      else (vb', Some invalid_argument).
Proof.
  intros Hmon Hshape.
  pose proof (topology_shape_not_null _ Hshape) as Hnn.
  pose proof (proj2 (validateReplicationTopology_shape t) Hshape) as Hval.
  unfold setState, topology_meta, meta_at_topology. simpl. rewrite Hval.
  unfold setupSyncReplication.
  set (vb1 := with_state vbucket_state_active
                (if _ : bool then setOpenCheckpointId 2 vb else vb)).
  rewrite Hnn. simpl. rewrite Hval.
  set (vb2 := with_replicationTopology t vb1).
  assert (Hst : bool_decide (state vb2 = vbucket_state_active) = true) by done.
  rewrite Hst.
  assert (Hdm : durabilityMonitor vb2 = durabilityMonitor vb).
  { unfold vb2, vb1. simpl. by case_match. }
  unfold monitor_matches_state in Hmon.
  assert (Hfin : forall adm0,
    exists vb' adm,
      state vb' = vbucket_state_active /\
      replicationTopology vb' = t /\
      durabilityMonitor vb' = ActiveDM adm /\
      match getActiveDM (with_durabilityMonitor (ActiveDM adm0) vb2)
            ≫= ADM_setReplicationTopology
                 (replicationTopology
                    (with_durabilityMonitor (ActiveDM adm0) vb2)) with
      | Ok adm1 =>
          (with_durabilityMonitor (ActiveDM adm1)
             (with_durabilityMonitor (ActiveDM adm0) vb2), None)
      | Throw e => (with_durabilityMonitor (ActiveDM adm0) vb2, Some e)
      end
      = if bool_decide (Forall chain_no_duplicates (Json.elements t))
        then (with_durabilityMonitor
                (ActiveDM (with_adm_chains (chains_of t) adm)) vb', None)
        else (vb', Some invalid_argument)).
  { intros adm0.
    exists (with_durabilityMonitor (ActiveDM adm0) vb2), adm0.
    split; [done|]. split; [done|]. split; [done|].
    unfold getActiveDM.
    change (state (with_durabilityMonitor (ActiveDM adm0) vb2)) with (state vb2).
    rewrite Hst. cbn [durabilityMonitor with_durabilityMonitor]. simpl_result.
    change (replicationTopology (with_durabilityMonitor (ActiveDM adm0) vb2))
      with t.
    rewrite ADM_setReplicationTopology_shape by done.
    destruct (bool_decide (Forall chain_no_duplicates (Json.elements t)));
      reflexivity. }
  destruct (state vb) eqn:Hs; try apply Hfin;
    destruct Hmon as [pdm Hp]; rewrite Hdm, Hp; apply Hfin.
Qed.

(** C7. A topology supplied as meta on a transition to active: one whose
    shape is wrong (not an array of 1..2 chains of 1..4 entries, a string
    first and strings or nulls after it) is rejected as invalid-argument
    before the vBucket changes; one that is valid, duplicates included in
    the check, is accepted and installed; one of the right shape in which a
    node is duplicated within a chain is rejected as invalid-argument by the
    durability monitor only after the vBucket has switched to active and
    has recorded the topology: there the topology is installed although
    the transition is rejected. *)
Theorem setState_topology (vb : VBucket) (t : Json.json) :
  monitor_matches_state vb ->
  (~ topology_shape t ->
   setState vb vbucket_state_active (topology_meta t)
   = (vb, Some invalid_argument)) /\
  (topology_valid t ->
   exists vb' adm,
     setState vb vbucket_state_active (topology_meta t) = (vb', None) /\
     state vb' = vbucket_state_active /\
     replicationTopology vb' = t /\
     durabilityMonitor vb' = ActiveDM adm /\
     adm_chains adm = chains_of t) /\
  (topology_shape t ->
   ~ Forall chain_no_duplicates (Json.elements t) ->
   exists vb',
     setState vb vbucket_state_active (topology_meta t)
     = (vb', Some invalid_argument) /\
     state vb' = vbucket_state_active /\
     replicationTopology vb' = t).
Proof.
  intros Hmon. split; [by apply setState_bad_shape|]. split.
  - intros [Hshape Hnodup].
    destruct (setState_good_shape vb t Hmon Hshape)
      as (vb' & adm & Hs & Ht & Hd & Heq).
    rewrite bool_decide_eq_true_2 in Heq by done.
    eexists _, _. split; [exact Heq|]. by repeat split.
  - intros Hshape Hdup.
    destruct (setState_good_shape vb t Hmon Hshape)
      as (vb' & adm & Hs & Ht & Hd & Heq).
    rewrite bool_decide_eq_false_2 in Heq by done.
    exists vb'. by repeat split.
Qed.

(** *** Aborting a prepare *)

(** What [abort] leaves behind on success: the Pending value at [key] is
    gone, the committed values are as they were, one abort item is queued
    and the cookie, when one is supplied, is told that the write is
    ambiguous. *)
Definition aborted_effects (vb vb' : VBucket) (key : DocKey)
    (prepareSeqno : Z) (abortSeqno : option Z) (cookie : Cookie) : Prop :=
  ht_pending (ht vb') = delete key (ht_pending (ht vb)) /\
  ht_committed (ht vb') = ht_committed (ht vb) /\
  (exists item,
      cm_items (checkpointManager vb')
      = (cm_items (checkpointManager vb) ++ [item])%list /\
      Item_isAbort item = true /\ it_deleted item = true /\
      it_value item = None /\ it_key item = key /\
      it_prepareSeqno item = prepareSeqno /\
      it_bySeqno item
      = match abortSeqno with
        | Some s => s
        | None => (cm_lastBySeqno (checkpointManager vb) + 1)%Z
        end) /\
  syncWriteCompleteCb vb'
  = (syncWriteCompleteCb vb ++
     match cookie with
     | Some _ => [(cookie, ENGINE_SYNC_WRITE_AMBIGUOUS)]
     | None => []
     end)%list.

(** The seqno given for the abort, if any, is above the last one queued. *)
Definition seqno_is_new (vb : VBucket) (seqno : option Z) : Prop :=
  match seqno with
  | Some s => (cm_lastBySeqno (checkpointManager vb) < s)%Z
  | None => True
  end.

Lemma abort_found_pending vb key prepareSeqno abortSeqno cHandle cookie sv :
  HashTable_wf (ht vb) ->
  findForWrite (ht vb) key = Some sv ->
  isPending sv = true ->
  seqno_is_new vb abortSeqno ->
  exists vb',
    abort vb key prepareSeqno abortSeqno cHandle cookie
    = Ok (ENGINE_SUCCESS, vb')
    /\ aborted_effects vb vb' key prepareSeqno abortSeqno cookie.
Proof.
  intros Hwf Hfind Hpend Hseq.
  pose proof (findForWrite_key _ _ _ Hwf Hfind) as Hkey.
  pose proof (findForWrite_pending _ _ _ Hwf Hfind Hpend) as Hp.
  unfold abort. rewrite Hfind, Hpend. cbn [negb].
  unfold abortStoredValue, queueAbort, queueItem, CM_queueDirty, nextHLCCas.
  destruct abortSeqno as [s|]; simpl in Hseq |- *; simpl_result.
  - assert ((s <=? cm_lastBySeqno (checkpointManager vb))%Z = false) as ->
      by (apply Z.leb_gt; lia).
    simpl. simpl_result. unfold unlocked_del. simpl. rewrite Hkey, Hp.
    destruct cookie as [c|]; simpl; simpl_result;
      (eexists; split; [reflexivity|]); unfold aborted_effects; simpl;
      (split; [done|]); (split; [done|]);
      (split; [eexists; split; [reflexivity|by repeat split]|]);
      by rewrite ?app_nil_r.
  - assert ((cm_lastBySeqno (checkpointManager vb) + 1
             <=? cm_lastBySeqno (checkpointManager vb))%Z = false) as ->
      by (apply Z.leb_gt; lia).
    simpl. simpl_result. unfold unlocked_del. simpl. rewrite Hkey, Hp.
    destruct cookie as [c|]; simpl; simpl_result;
      (eexists; split; [reflexivity|]); unfold aborted_effects; simpl;
      (split; [done|]); (split; [done|]);
      (split; [eexists; split; [reflexivity|by repeat split]|]);
      by rewrite ?app_nil_r.
Qed.

(** X17. [abort] returns KeyEnoent when no stored value exists at the key
    and Einval when the value found is not Pending, and in both cases leaves
    the vBucket as it was; for a Pending value, with a new seqno when one is
    given, it returns Success, removes the Pending value and leaves the
    committed one, queues one abort item that is deleted, has no value and
    carries the seqno of the prepare, and tells the client cookie, when one
    is supplied, that the write is ambiguous. *)
Theorem abort_contract (vb : VBucket) (key : DocKey) (prepareSeqno : Z)
    (abortSeqno : option Z) (cHandle : CachingReadHandle) (cookie : Cookie) :
  HashTable_wf (ht vb) ->
  match findForWrite (ht vb) key with
  | None =>
      abort vb key prepareSeqno abortSeqno cHandle cookie
      = Ok (ENGINE_KEY_ENOENT, vb)
  | Some sv =>
      if isPending sv then
        seqno_is_new vb abortSeqno ->
        exists vb',
          abort vb key prepareSeqno abortSeqno cHandle cookie
          = Ok (ENGINE_SUCCESS, vb')
          /\ aborted_effects vb vb' key prepareSeqno abortSeqno cookie
      else
        abort vb key prepareSeqno abortSeqno cHandle cookie
        = Ok (ENGINE_EINVAL, vb)
  end.
Proof.
  intros Hwf.
  destruct (findForWrite (ht vb) key) as [sv|] eqn:Hfind.
  - destruct (isPending sv) eqn:Hpend.
    + intros Hseq. by eapply abort_found_pending.
    + unfold abort. by rewrite Hfind, Hpend.
  - unfold abort. by rewrite Hfind.
Qed.

(** *** Adding and replacing *)

Lemma processAdd_not_live vb v itm maybeKeyExists ctx cHandle st n v' itm' vb' :
  live_for_add v cHandle = false ->
  processAdd vb v itm maybeKeyExists ctx cHandle = Ok (st, n, v', itm', vb') ->
  st <> AddStatus.Exists.
Proof.
  intros Hlive. unfold processAdd. rewrite Hlive.
  destruct (negb (hasMemoryForStoredValue vb (stats vb) itm false));
    [by intros [= <- <- <- <- <-]|].
  destruct v as [sv|].
  - destruct (isTempInitialItem sv && is_Full (eviction vb) && maybeKeyExists);
      [by intros [= <- <- <- <- <-]|].
    destruct (updateStoredValue _ _ _ _) as [[[[nv s] notifyCtx] vb1]|e];
      simpl_result; [|done].
    unfold processAdd_finish.
    destruct (isTempItem nv); intros [= <- <- <- <- <-]; by repeat case_match.
  - destruct (negb (it_bySeqno itm =? state_temp_init)%Z
              && is_Full (eviction vb) && maybeKeyExists);
      [by intros [= <- <- <- <- <-]|].
    destruct (if (it_bySeqno itm =? state_temp_init)%Z then _ else _)
      as [[[nv notifyCtx] vb1]|e]; simpl_result; [|done].
    unfold processAdd_finish.
    destruct (isTempItem nv); intros [= <- <- <- <- <-]; by repeat case_match.
Qed.

(** X18. [add] never overwrites a live document: when the value that
    writers see at the key is neither deleted, expired, temporary nor in a
    deleted collection, an [add] that passes the durability check returns
    NotStored and changes neither the item nor the vBucket, whatever the
    memory situation and whether or not the document is locked; and it
    returns NotStored in no other case. *)
Theorem add_never_overwrites (vb : VBucket) (itm : Item) (cookie : Cookie)
    (cHandle : CachingReadHandle) :
  durability_passes vb (Item_isPending itm) ->
  if live_for_add (findForWrite (ht vb) (it_key itm)) cHandle
  then add vb itm cookie cHandle = Ok (ENGINE_NOT_STORED, itm, vb)
  else forall rc itm' vb',
         add vb itm cookie cHandle = Ok (rc, itm', vb') ->
         rc <> ENGINE_NOT_STORED.
Proof.
  intros Hd. unfold durability_passes in Hd.
  destruct (live_for_add _ _) eqn:Hlive.
  - unfold add. rewrite Hd. simpl_result.
    unfold processAdd. by rewrite Hlive.
  - intros rc itm' vb'. unfold add. rewrite Hd. simpl_result.
    destruct (processAdd _ _ _ _ _ _) as [[[[[st n] v2] itm2] vb2]|e] eqn:Hp;
      simpl_result; [|done].
    pose proof (processAdd_not_live _ _ _ _ _ _ _ _ _ _ _ Hlive Hp) as Hst.
    destruct st; try done; code_is_not_impossible.
Qed.

(** No document to replace: writers see no value at the key, or one that is
    deleted, a temporary marker of a deleted or unknown key, or in a deleted
    collection. *)
Definition nothing_to_replace (vb : VBucket) (itm : Item)
    (cHandle : CachingReadHandle) : Prop :=
  match findForWrite (ht vb) (it_key itm) with
  | Some sv => isLogicallyNonExistent sv cHandle = true
  | None => True
  end.

(** Every value of the hash table was there before, apart from a temporary
    initial marker at [key]; nothing was queued or tracked. *)
Definition no_new_document (vb vb' : VBucket) (key : DocKey) : Prop :=
  (forall k sv, ht_pending (ht vb') !! k = Some sv ->
                ht_pending (ht vb) !! k = Some sv) /\
  (forall k sv, ht_committed (ht vb') !! k = Some sv ->
                ht_committed (ht vb) !! k = Some sv
                \/ (k = key /\ isTempInitialItem sv = true)) /\
  checkpointManager vb' = checkpointManager vb /\
  backfillItems vb' = backfillItems vb /\
  durabilityMonitor vb' = durabilityMonitor vb.

Lemma no_new_document_refl vb key : no_new_document vb vb key.
Proof. repeat split; auto. Qed.

Lemma cleanupIfTemporaryItem_no_new vb sv key :
  no_new_document vb (cleanupIfTemporaryItem sv vb) key
  /\ bgFetches (cleanupIfTemporaryItem sv vb) = bgFetches vb.
Proof.
  unfold cleanupIfTemporaryItem.
  destruct (isTempDeletedItem sv || isTempNonExistentItem sv);
    [|split; [apply no_new_document_refl | done]].
  unfold unlocked_del.
  destruct (ht_pending (ht vb) !! sv_key sv) eqn:E; cbn.
  - repeat split; cbn; auto.
    intros k v Hk. by apply lookup_delete_Some in Hk as [_ Hk].
  - repeat split; cbn; auto.
    intros k v Hk. left. by apply lookup_delete_Some in Hk as [_ Hk].
Qed.

Lemma addTempItemAndBGFetch_no_new vb key cookie metadataOnly :
  findForWrite (ht vb) key = None ->
  let '(rc, vb') := addTempItemAndBGFetch vb key cookie metadataOnly in
  no_new_document vb vb' key
  /\ (rc = ENGINE_ENOMEM /\ vb' = vb
      \/ rc = ENGINE_EWOULDBLOCK
         /\ bgFetches vb'
            = (bgFetches vb ++ [(key, cookie, metadataOnly)])%list).
Proof.
  intros Hfind. unfold addTempItemAndBGFetch, addTempStoredValue.
  destruct (negb (hasMemoryForStoredValue vb (stats vb)
                    (temp_initial_item key) false)).
  - split; [apply no_new_document_refl | by left].
  - cbn. split; [|by right].
    unfold no_new_document, vb_store, ht_store. cbn.
    split; [done|]. split; [|done].
    intros k v. rewrite insert_insert_eq.
    intros [[<- <-]|[_ Hk]]%lookup_insert_Some; [by right | by left].
Qed.

(** X19. [replace] never creates a document: when writers see no value at
    the key, or only one that does not logically exist, a [replace] that
    passes the durability check and the predicate returns with the item as
    it was, queues and tracks nothing and adds no value to the hash table
    but a temporary initial marker at the key; it returns KeyEnoent, or, for
    an absent key that the filter of a full-eviction vBucket may hold,
    Enomem with the vBucket untouched or Ewouldblock with a background
    fetch of the document scheduled for the cookie. *)
Theorem replace_never_creates (vb : VBucket) (itm : Item) (cookie : Cookie)
    (predicate : option StoreIfPredicate) (cHandle : CachingReadHandle) :
  nothing_to_replace vb itm cHandle ->
  durability_passes vb (Item_isPending itm) ->
  predicate_passes vb predicate (it_key itm) ->
  exists rc vb',
    replace vb itm cookie predicate cHandle = Ok (rc, itm, vb')
    /\ no_new_document vb vb' (it_key itm)
    /\ (rc = ENGINE_KEY_ENOENT /\ bgFetches vb' = bgFetches vb
        \/ rc = ENGINE_ENOMEM /\ vb' = vb
        \/ rc = ENGINE_EWOULDBLOCK
           /\ findForWrite (ht vb) (it_key itm) = None
           /\ eviction vb = Full
           /\ maybeKeyExistsInFilter vb (it_key itm) = true
           /\ bgFetches vb'
              = (bgFetches vb ++ [(it_key itm, cookie, false)])%list).
Proof.
  intros Hnothing Hd Hp. unfold durability_passes in Hd.
  unfold nothing_to_replace in Hnothing.
  unfold replace. rewrite Hd. simpl_result.
  assert (exists s,
             match predicate with
             | Some p => callPredicate vb p (findForWrite (ht vb) (it_key itm))
             | None => Ok StoreIfStatus.Continue
             end = Ok s
             /\ bool_decide (is_Some predicate) && is_Fail s = false)
    as (s & Hs & Hfail).
  { destruct predicate as [p|].
    - destruct Hp as (s & Hs & Hfail). exists s. split; [done|].
      rewrite Hfail. apply andb_false_r.
    - by exists StoreIfStatus.Continue. }
  rewrite Hs. simpl_result. rewrite Hfail.
  destruct (findForWrite (ht vb) (it_key itm)) as [sv|] eqn:Hfind.
  - rewrite Hnothing.
    destruct (cleanupIfTemporaryItem_no_new vb sv (it_key itm)) as [Hnew Hbg].
    eexists _, _. split; [reflexivity|]. split; [done|]. by left.
  - destruct (eviction vb) eqn:Hev; cbn [is_Full negb].
    { eexists _, _. split; [reflexivity|].
      split; [apply no_new_document_refl | by left]. }
    destruct (maybeKeyExistsInFilter vb (it_key itm)) eqn:Hfilter.
    + pose proof (addTempItemAndBGFetch_no_new vb (it_key itm) cookie false
                    Hfind) as Htemp.
      destruct (addTempItemAndBGFetch vb (it_key itm) cookie false)
        as [rc vb'].
      destruct Htemp as [Hnew [[-> ->]|[-> Hbg]]];
        eexists _, _; (split; [reflexivity|]); (split; [done|]).
      * right. by left.
      * right. right. by repeat split.
    + eexists _, _. split; [reflexivity|].
      split; [apply no_new_document_refl | by left].
Qed.

(** *** State changes without a topology *)

(** The prepares that stay tracked over a change of state without meta:
    those of a replica or pending vBucket that becomes active, and those of
    a vBucket that becomes dead; every other change starts with an empty
    monitor. *)
Definition tracked_after (vb : VBucket) (to : vbucket_state_t)
  : list SyncWrite :=
  match to, state vb with
  | vbucket_state_active, (vbucket_state_replica | vbucket_state_pending)
  | vbucket_state_dead, _ => trackedWrites vb
  | _, _ => []
  end.

(** X20. A change of state without meta always goes through when the
    monitor fits the state: [setState] throws nothing, sets the state,
    empties the replication topology, leaves the hash table and the queued
    items alone and raises the id of the open checkpoint to 2 on the way to
    active; afterwards the monitor fits the new state, with no chains, and
    the active monitor is there exactly for the active state. Tracked
    prepares survive only from replica or pending to active and on the way
    to dead: a change from active to active, or between replica and
    pending, forgets them. With meta, a change to a state other than active
    is refused as invalid-argument before anything changes. *)
Theorem setState_without_meta (vb : VBucket) (to : vbucket_state_t) :
  monitor_matches_state vb ->
  (exists vb',
      setState vb to Json.Null = (vb', None)
      /\ state vb' = to
      /\ replicationTopology vb' = Json.Null
      /\ ht vb' = ht vb
      /\ cm_items (checkpointManager vb') = cm_items (checkpointManager vb)
      /\ cm_openCheckpointId (checkpointManager vb')
         = (if bool_decide (to = vbucket_state_active)
            then N.max 2 (cm_openCheckpointId (checkpointManager vb))
            else cm_openCheckpointId (checkpointManager vb))
      /\ monitor_matches_state vb'
      /\ trackedWrites vb' = tracked_after vb to
      /\ (to = vbucket_state_active ->
          getActiveDM vb'
          = Ok {| adm_chains := [];
                  adm_trackedWrites := tracked_after vb to |})
      /\ (to <> vbucket_state_active -> getActiveDM vb' = Throw fail_fast))
  /\ (forall meta,
         Json.is_null meta = false ->
         to <> vbucket_state_active ->
         setState vb to meta = (vb, Some invalid_argument)).
Proof.
  intros Hmon. split.
  - unfold setState. cbn [Json.is_null negb].
    unfold setupSyncReplication, monitor_matches_state, tracked_after,
      trackedWrites, getActiveDM in *.
    destruct to; simpl.
    + assert (forall old : N,
                 (if (old <? 2)%N then 2%N else old) = N.max 2 old) as Hid
        by (intros old; destruct (N.ltb_spec old 2); lia).
      destruct (state vb) eqn:Hs; simpl.
      * eexists. split; [reflexivity|].
        destruct (cm_openCheckpointId (checkpointManager vb) <? 2)%N eqn:E;
          simpl; repeat split; try done;
          rewrite <- Hid, E; done.
      * destruct Hmon as [pdm Hp].
        destruct (cm_openCheckpointId (checkpointManager vb) <? 2)%N eqn:E;
          simpl; rewrite Hp; simpl;
          (eexists; split; [reflexivity|]); simpl;
          repeat split; try done; rewrite <- Hid, E; done.
      * destruct Hmon as [pdm Hp].
        destruct (cm_openCheckpointId (checkpointManager vb) <? 2)%N eqn:E;
          simpl; rewrite Hp; simpl;
          (eexists; split; [reflexivity|]); simpl;
          repeat split; try done; rewrite <- Hid, E; done.
      * eexists. split; [reflexivity|].
        destruct (cm_openCheckpointId (checkpointManager vb) <? 2)%N eqn:E;
          simpl; repeat split; try done;
          rewrite <- Hid, E; done.
    + eexists. split; [reflexivity|]. simpl.
      repeat split; try done; try (by eexists); by destruct (state vb).
    + eexists. split; [reflexivity|]. simpl.
      repeat split; try done; try (by eexists); by destruct (state vb).
    + eexists. split; [reflexivity|]. simpl. repeat split; try done.
  - intros meta Hmeta Hto. unfold setState. rewrite Hmeta. cbn [negb].
    by rewrite bool_decide_eq_false_2.
Qed.

(** *** Reading the metadata of a document *)

(** [GET_META_ITEM_DELETED_FLAG] is defined outside vbucket.cc. *)
Variable GET_META_ITEM_DELETED_FLAG : N.

(** What [getMetaData] hands back: the code, the three references it
    writes through, and whether [stats.numOpsGetMeta] was counted up. *)
Record MetaDataRead := {
  gm_code : ENGINE_ERROR_CODE;
  gm_metadata : ItemMetaData;
  gm_deleted : N;
  gm_datatype : N;
  gm_counted : bool;
}.

Definition with_meta_cas (c : N) (m : ItemMetaData) : ItemMetaData :=
  {| meta_cas := c; meta_revSeqno := meta_revSeqno m;
     meta_flags := meta_flags m; meta_exptime := meta_exptime m |}.

(** [getMetaData]; [metadata] and [datatype] are the values the references
    hold at the call. *)
Definition getMetaData (vb : VBucket) (cookie : Cookie)
    (cHandle : CachingReadHandle) (metadata : ItemMetaData) (datatype : N)
  : MetaDataRead * VBucket :=
  let deleted := 0%N in
  match findForWrite (ht vb) (ch_key cHandle) with
  | Some v =>
    if isTempInitialItem v then
      ({| gm_code := ENGINE_EWOULDBLOCK; gm_metadata := metadata;
          gm_deleted := deleted; gm_datatype := datatype;
          gm_counted := true |},
       bgFetch (ch_key cHandle) cookie true vb)
    else if isTempNonExistentItem v then
      ({| gm_code := ENGINE_KEY_ENOENT;
          gm_metadata := with_meta_cas (sv_cas v) metadata;
          gm_deleted := deleted; gm_datatype := datatype;
          gm_counted := true |}, vb)
    else if ch_isLogicallyDeleted cHandle (sv_bySeqno v) then
      ({| gm_code := ENGINE_KEY_ENOENT; gm_metadata := metadata;
          gm_deleted := deleted; gm_datatype := datatype;
          gm_counted := true |}, vb)
    else
      let deleted :=
        if isTempDeletedItem v || isDeleted v || isExpired v ep_real_time
        then N.lor deleted GET_META_ITEM_DELETED_FLAG
        else deleted in
      ({| gm_code := ENGINE_SUCCESS;
          gm_metadata :=
            {| meta_cas := if isLocked v ep_current_time
                           then (2 ^ 64 - 1)%N else sv_cas v;
               meta_revSeqno := sv_revSeqno v;
               meta_flags := sv_flags v;
               meta_exptime := sv_exptime v |};
          gm_deleted := deleted; gm_datatype := sv_datatype v;
          gm_counted := true |}, vb)
  | None =>
    if maybeKeyExistsInFilter vb (ch_key cHandle) then
      let '(rc, vb) :=
        addTempItemAndBGFetch vb (ch_key cHandle) cookie true in
      ({| gm_code := rc; gm_metadata := metadata; gm_deleted := deleted;
          gm_datatype := datatype; gm_counted := false |}, vb)
    else
      ({| gm_code := ENGINE_KEY_ENOENT; gm_metadata := metadata;
          gm_deleted := deleted; gm_datatype := datatype;
          gm_counted := true |}, vb)
  end.

Lemma bgFetch_no_new vb key cookie isMeta k :
  no_new_document vb (bgFetch key cookie isMeta vb) k.
Proof. repeat split; auto. Qed.

(** X21. What [getMetaData] tells and what it leaves alone. It queues and
    tracks nothing and adds no value to the hash table but a temporary
    initial marker at the key, and unless it returns Ewouldblock or Enomem
    it leaves the whole vBucket as it was. It returns Success only for a
    value that writers see at the key, also when that value is deleted or
    expired, and then the deleted flag is raised exactly for a deleted, a
    temporary deleted or an expired value, the revision, flags and expiry
    are those of the value, and the CAS is that of the value unless the
    value is locked: the CAS of a locked value is never told, all bits set
    stand in for it. Ewouldblock always comes with a background fetch of the
    metadata scheduled for the cookie. *)
Theorem getMetaData_reads_only (vb : VBucket) (cookie : Cookie)
    (cHandle : CachingReadHandle) (metadata : ItemMetaData) (datatype : N) :
  let '(read, vb') := getMetaData vb cookie cHandle metadata datatype in
  let key := ch_key cHandle in
  no_new_document vb vb' key
  /\ (gm_code read = ENGINE_SUCCESS \/ gm_code read = ENGINE_KEY_ENOENT
      \/ gm_code read = ENGINE_EWOULDBLOCK \/ gm_code read = ENGINE_ENOMEM)
  /\ (gm_code read <> ENGINE_EWOULDBLOCK -> vb' = vb)
  /\ (gm_code read = ENGINE_EWOULDBLOCK ->
      bgFetches vb' = (bgFetches vb ++ [(key, cookie, true)])%list)
  /\ (gm_code read = ENGINE_SUCCESS ->
      exists v,
        findForWrite (ht vb) key = Some v
        /\ isTempInitialItem v = false /\ isTempNonExistentItem v = false
        /\ gm_deleted read
           = (if isTempDeletedItem v || isDeleted v
                 || isExpired v ep_real_time
              then GET_META_ITEM_DELETED_FLAG else 0%N)
        /\ meta_cas (gm_metadata read)
           = (if isLocked v ep_current_time then (2 ^ 64 - 1)%N
              else sv_cas v)
        /\ meta_revSeqno (gm_metadata read) = sv_revSeqno v
        /\ meta_flags (gm_metadata read) = sv_flags v
        /\ meta_exptime (gm_metadata read) = sv_exptime v
        /\ gm_datatype read = sv_datatype v)
  /\ (gm_code read <> ENGINE_SUCCESS ->
      gm_deleted read = 0%N /\ gm_datatype read = datatype).
Proof.
  unfold getMetaData.
  destruct (findForWrite (ht vb) (ch_key cHandle)) as [v|] eqn:Hfind.
  - destruct (isTempInitialItem v) eqn:Hinit.
    { cbn. split; [apply bgFetch_no_new|]. split; [tauto|].
      by repeat split. }
    destruct (isTempNonExistentItem v) eqn:Hnon.
    { cbn. split; [apply no_new_document_refl|]. split; [tauto|].
      by repeat split. }
    destruct (ch_isLogicallyDeleted cHandle (sv_bySeqno v)).
    { cbn. split; [apply no_new_document_refl|]. split; [tauto|].
      by repeat split. }
    cbn. split; [apply no_new_document_refl|]. split; [tauto|].
    split; [done|]. split; [done|]. split; [|done].
    intros _. exists v. by repeat split.
  - destruct (maybeKeyExistsInFilter vb (ch_key cHandle)).
    + pose proof (addTempItemAndBGFetch_no_new vb (ch_key cHandle) cookie
                    true Hfind) as Htemp.
      destruct (addTempItemAndBGFetch vb (ch_key cHandle) cookie true)
        as [rc vb'].
      destruct Htemp as [Hnew [[-> ->]|[-> Hbg]]]; cbn;
        (split; [done|]); (split; [tauto|]); by repeat split.
    + cbn. split; [apply no_new_document_refl|]. split; [tauto|].
      by repeat split.
Qed.

(** *** What a plain set stores *)


(** What a successful write of [itm] leaves behind: the value that readers
    and writers find at the key, the one item queued, and the seqno and CAS
    handed back in [itm']. *)
Record written (vb vb' : VBucket) (itm itm' : Item) : Prop := {
  w_seqno : it_bySeqno itm'
            = (cm_lastBySeqno (checkpointManager vb) + 1)%Z;
  w_cas : it_cas itm' = u64 (hlc_maxCas vb + 1);
  w_value : exists sv,
      findForWrite (ht vb') (it_key itm) = Some sv
      /\ sv_value sv = it_value itm
      /\ sv_deleted sv = it_deleted itm
      /\ sv_flags sv = it_flags itm
      /\ sv_bySeqno sv = it_bySeqno itm'
      /\ sv_cas sv = it_cas itm'
      /\ isPending sv = false;
  w_queued : exists qi,
      cm_items (checkpointManager vb')
      = (cm_items (checkpointManager vb) ++ [qi])%list
      /\ it_key qi = it_key itm
      /\ it_value qi = it_value itm
      /\ it_deleted qi = it_deleted itm
      /\ it_bySeqno qi = it_bySeqno itm'
      /\ it_cas qi = it_cas itm'
      /\ it_op qi = op_mutation;
  w_last : cm_lastBySeqno (checkpointManager vb') = it_bySeqno itm';
  w_clock : hlc_maxCas vb' = it_cas itm';
  w_notified : exists ctx,
      newSeqnoCb vb' = (newSeqnoCb vb ++ [ctx])%list
      /\ notify_bySeqno ctx = it_bySeqno itm';
  w_others : forall k, k <> it_key itm ->
      findForWrite (ht vb') k = findForWrite (ht vb) k;
  w_monitor : durabilityMonitor vb' = durabilityMonitor vb;
}.



(** *** What a plain delete leaves *)

(** A live document that a delete may take: committed, neither deleted nor
    temporary nor expired nor in a deleted collection, and not locked. *)
Record deletable (vb : VBucket) (cHandle : CachingReadHandle)
    (sv : StoredValue) : Prop := {
  d_no_prepare : ht_pending (ht vb) !! ch_key cHandle = None;
  d_found : ht_committed (ht vb) !! ch_key cHandle = Some sv;
  d_key : sv_key sv = ch_key cHandle;
  d_committed : isPending sv = false;
  d_live : isDeleted sv = false;
  d_real : isTempItem sv = false;
  d_collection : ch_isLogicallyDeleted cHandle (sv_bySeqno sv) = false;
  d_unlocked : isLocked sv ep_current_time = false;
  d_unexpired : isExpired sv ep_real_time = false;
}.

(** What a delete leaves behind: a tombstone at the key with the given
    source and body, one deletion queued, the new CAS handed back. *)
Record tombstoned (vb vb' : VBucket) (sv : StoredValue) (cas' : N)
    (source : DeleteSource) (body : option string) : Prop := {
  t_cas : cas' = u64 (hlc_maxCas vb + 1);
  t_value : exists nv,
      findForWrite (ht vb') (sv_key sv) = Some nv
      /\ sv_deleted nv = true /\ sv_value nv = body
      /\ sv_deleteSource nv = source
      /\ sv_revSeqno nv = u64 (sv_revSeqno sv + 1)
      /\ sv_bySeqno nv = (cm_lastBySeqno (checkpointManager vb) + 1)%Z
      /\ sv_cas nv = cas';
  t_queued : exists qi,
      cm_items (checkpointManager vb')
      = (cm_items (checkpointManager vb) ++ [qi])%list
      /\ it_key qi = sv_key sv /\ it_value qi = body
      /\ it_deleted qi = true
      /\ it_bySeqno qi = (cm_lastBySeqno (checkpointManager vb) + 1)%Z
      /\ it_cas qi = cas';
  t_notified : exists ctx,
      newSeqnoCb vb' = (newSeqnoCb vb ++ [ctx])%list
      /\ notify_bySeqno ctx
         = (cm_lastBySeqno (checkpointManager vb) + 1)%Z;
  t_others : forall k, k <> sv_key sv ->
      findForWrite (ht vb') k = findForWrite (ht vb) k;
}.

(** X23. A plain [deleteItem] leaves a tombstone: for a live, committed,
    unlocked document, without durability requirements and with no CAS or
    the CAS of the document, [deleteItem] returns Success and hands back a
    CAS fresh from the clock; afterwards the value at the key is deleted,
    has no body, carries the next revision, the next seqno and the new CAS,
    one deletion is queued and announced, no other key is touched, and the
    highest deleted revision of the hash table is above the old revision of
    the document. *)
Theorem deleteItem_deletes (vb : VBucket) (cas : N) (cookie : Cookie)
    (cHandle : CachingReadHandle) (sv : StoredValue) :
  deletable vb cHandle sv ->
  cas = 0%N \/ cas = sv_cas sv ->
  exists cas' vb',
    deleteItem vb cas cookie None cHandle = Ok (ENGINE_SUCCESS, cas', vb')
    /\ tombstoned vb vb' sv cas' Explicit None
    /\ ((sv_revSeqno sv + 1 < 2 ^ 64)%N ->
        (sv_revSeqno sv < maxDeletedRevSeqno (ht vb'))%N).
Proof.
  intros [Hp Hfound Hkey Hpend Hlive Hreal Hcoll Hlock Hexp] Hcas.
  unfold deleteItem, durabilityImpossible. simpl_result.
  assert (findForWrite (ht vb) (ch_key cHandle) = Some sv) as ->
    by (unfold findForWrite; by rewrite Hp).
  unfold absent_for_delete. rewrite Hlive, Hreal, Hcoll. cbn [orb].
  unfold unlock_if_not_active. rewrite Hlock. cbn [andb]. rewrite Hexp.
  unfold processSoftDelete.
  assert (isTempInitialItem sv = false) as ->.
  { unfold isTempItem in Hreal. by destruct (isTempInitialItem sv);
      rewrite ?orb_true_r in Hreal. }
  rewrite Hlock. cbn [andb].
  assert (negb (cas =? 0)%N && negb (cas =? sv_cas sv)%N = false) as ->.
  { destruct Hcas as [-> | ->]; [done|].
    rewrite N.eqb_refl. apply andb_false_r. }
  set (rev := u64 (sv_revSeqno sv + 1)).
  cbn [meta_revSeqno with_meta_revSeqno ItemMetaData_default].
  fold rev.
  set (v2 := with_sv_revSeqno rev (unlock sv)).
  assert (isPending v2 = false) as Hv2
    by (unfold v2, isPending; simpl; by rewrite <- isPending_unlock in Hpend).
  unfold softDeleteStoredValue. rewrite Hv2.
  cbn [durability genBySeqno VBQueueItemCtx_default].
  set (v3 := mark_deleted false Explicit v2).
  assert (isPending v3 = false) as Hv3 by exact Hv2.
  assert (sv_key v3 = ch_key cHandle) as Hk3
    by (unfold v3, v2; simpl; by rewrite sv_key_unlock).
  destruct (queueDirty_stored vb (vb_store v3 (vb_store v2 vb)) v3 Hv3)
    as (ctx & nv & vb2 & Hq & Hsq & Hk & Hval & Hdel & Hfl & Hcom & Hrev
        & Hsrc).
  { unfold same_but_at, vb_store, ht_store. rewrite Hv3, Hv2. simpl.
    repeat split; try done. eexists.
    change (sv_key (unlock sv)) with (sv_key v3).
    by rewrite insert_insert_eq. }
  rewrite Hq. simpl_result.
  assert (isDirty (unlock sv) = isDirty sv) as Hdirty
    by (unfold unlock; by destruct (isDeleted sv)).
  destruct Hsq.
  eexists _, _. split.
  { rewrite Hdirty. destruct (isDirty sv); reflexivity. }
  rewrite Hk3 in *. rewrite <- Hkey in *.
  assert (forall k,
             findForWrite (updateMaxDeletedRevSeqno rev (ht vb2)) k
             = findForWrite (ht vb2) k) as Hfind.
  { intros k. unfold updateMaxDeletedRevSeqno, findForWrite.
    by destruct (maxDeletedRevSeqno (ht vb2) <? rev)%N. }
  assert (sv_revSeqno sv + 1 < 2 ^ 64 ->
          sv_revSeqno sv
          < maxDeletedRevSeqno (updateMaxDeletedRevSeqno rev (ht vb2)))%N
    as Hmax.
  { intros Hsmall. unfold updateMaxDeletedRevSeqno.
    assert (rev = sv_revSeqno sv + 1)%N as Hr
      by (unfold rev, u64; by apply N.mod_small).
    destruct (N.ltb_spec (maxDeletedRevSeqno (ht vb2)) rev); simpl; lia. }
  destruct sq_queued0 as (qi & Hitems & Hqk & Hqv & Hqd & Hqs & Hqc & Hop).
  split; [|exact Hmax].
  split; simpl.
  - by rewrite sq_cas0.
  - exists nv. rewrite Hfind. unfold findForWrite.
    rewrite sq_pending0, Hp, sq_committed0, lookup_insert_eq.
    rewrite Hdel, Hval, Hsrc, Hrev, sq_seqno0. by repeat split.
  - exists qi. rewrite Hitems, Hqk, Hqv, Hqd, Hqs, Hqc, Hval, Hdel, sq_seqno0.
    by repeat split.
  - exists ctx. by rewrite sq_callbacks0, sq_ctx0, sq_seqno0.
  - intros k Hne. rewrite Hfind. unfold findForWrite.
    rewrite sq_pending0, sq_committed0. by rewrite lookup_insert_ne.
Qed.

(** *** Deleting an expired document *)

Lemma same_but_at_found vb key sv :
  ht_committed (ht vb) !! key = Some sv -> same_but_at vb vb key.
Proof.
  intros Hfound. repeat split; try done. exists sv. by rewrite insert_id.
Qed.

Lemma same_but_at_store vb vbA key v :
  same_but_at vb vbA key -> isPending v = false -> sv_key v = key ->
  same_but_at vb (vb_store v vbA) key.
Proof.
  intros (Hp & [w Hc] & Hrest) Hv Hk.
  unfold same_but_at, vb_store, ht_store. rewrite Hv, Hk. simpl.
  split; [done|]. split; [|done].
  exists v. by rewrite Hc, insert_insert_eq.
Qed.

(** What is left of the body of an expired document: the value stays when
    it carries extended attributes. *)
Definition body_after_expiry (sv : StoredValue) : option string :=
  if bool_decide (is_Some (sv_value sv)) && is_xattr (sv_datatype sv)
  then sv_value sv else None.

(** X24. Expiry overrides the CAS and the lock of a delete: for a committed
    document that is not deleted but has expired, [deleteItem] returns
    KeyEnoent whatever CAS is given and whether or not the document is
    locked, and still queues the deletion: afterwards the value at the key
    is a tombstone with the source TTL, the next revision, the next seqno
    and a CAS fresh from the clock, which is handed back; the body is kept
    only when it carries extended attributes; one deletion is queued and
    announced and no other key is touched. *)
Theorem deleteItem_expired (vb : VBucket) (cas : N) (cookie : Cookie)
    (cHandle : CachingReadHandle) (sv : StoredValue) :
  ht_pending (ht vb) !! ch_key cHandle = None ->
  ht_committed (ht vb) !! ch_key cHandle = Some sv ->
  sv_key sv = ch_key cHandle ->
  isPending sv = false ->
  isDeleted sv = false ->
  isTempItem sv = false ->
  ch_isLogicallyDeleted cHandle (sv_bySeqno sv) = false ->
  isExpired sv ep_real_time = true ->
  exists cas' vb',
    deleteItem vb cas cookie None cHandle = Ok (ENGINE_KEY_ENOENT, cas', vb')
    /\ tombstoned vb vb' sv cas' TTL (body_after_expiry sv).
Proof.
  intros Hp Hfound Hkey Hpend Hlive Hreal Hcoll Hexp.
  unfold deleteItem, durabilityImpossible. simpl_result.
  assert (findForWrite (ht vb) (ch_key cHandle) = Some sv) as ->
    by (unfold findForWrite; by rewrite Hp).
  unfold absent_for_delete. rewrite Hlive, Hreal, Hcoll. cbn [orb].
  assert (isTempInitialItem sv = false) as Hinit.
  { unfold isTempItem in Hreal. by destruct (isTempInitialItem sv);
      rewrite ?orb_true_r in Hreal. }
  assert (exists sv1 vb1,
             unlock_if_not_active vb sv = (sv1, vb1)
             /\ same_but_at vb vb1 (ch_key cHandle)
             /\ (sv1 = sv \/ sv1 = unlock sv)) as (sv1 & vb1 & -> & Hsame & Hsv1).
  { unfold unlock_if_not_active.
    destruct (isLocked sv ep_current_time && is_replica_or_pending vb).
    - eexists _, _. split; [reflexivity|]. split; [|by right].
      apply same_but_at_store; [by eapply same_but_at_found| |].
      + by rewrite isPending_unlock.
      + by rewrite sv_key_unlock.
    - eexists _, _. split; [reflexivity|]. split; [|by left].
      by eapply same_but_at_found. }
  assert (unlock sv = with_sv_lock_expiry 0 sv) as Hunlock
    by (unfold unlock; by rewrite Hlive).
  assert (sv_key sv1 = ch_key cHandle /\ isPending sv1 = false
          /\ isExpired sv1 ep_real_time = true
          /\ isTempInitialItem sv1 = false
          /\ sv_revSeqno sv1 = sv_revSeqno sv
          /\ sv_value sv1 = sv_value sv
          /\ sv_datatype sv1 = sv_datatype sv)
    as (Hk1 & Hp1 & Hexp1 & Hinit1 & Hrev1 & Hval1 & Hdt1)
    by (destruct Hsv1 as [-> | ->]; rewrite ?Hunlock; done).
  rewrite Hexp1. unfold processExpiredItem. rewrite Hinit1. cbn [andb].
  rewrite Hrev1, Hval1, Hdt1.
  set (rev := u64 (sv_revSeqno sv + 1)).
  set (keep := bool_decide (is_Some (sv_value sv))
               && is_xattr (sv_datatype sv)).
  set (v2 := with_sv_revSeqno rev sv1).
  assert (isPending v2 = false) as Hv2 by exact Hp1.
  unfold softDeleteStoredValue. rewrite Hv2.
  cbn [durability genBySeqno VBQueueItemCtx_default].
  set (v3 := mark_deleted keep TTL v2).
  assert (isPending v3 = false) as Hv3
    by (unfold v3, mark_deleted; by destruct keep).
  assert (sv_key v3 = ch_key cHandle) as Hk3
    by (unfold v3, mark_deleted; by destruct keep).
  destruct (queueDirty_stored vb (vb_store v3 (vb_store v2 vb1)) v3 Hv3)
    as (ctx & nv & vb2 & Hq & Hsq & Hk & Hval & Hdel & Hfl & Hcom & Hrev
        & Hsrc).
  { rewrite Hk3. by repeat apply same_but_at_store. }
  rewrite Hq. simpl_result.
  destruct Hsq.
  eexists _, _. split; [reflexivity|].
  rewrite Hk3 in *. rewrite <- Hkey in *.
  assert (forall r k,
             findForWrite (updateMaxDeletedRevSeqno r (ht vb2)) k
             = findForWrite (ht vb2) k) as Hfind.
  { intros r k. unfold updateMaxDeletedRevSeqno, findForWrite.
    by destruct (maxDeletedRevSeqno (ht vb2) <? r)%N. }
  assert (sv_value v3 = body_after_expiry sv) as Hbody.
  { unfold v3, mark_deleted, body_after_expiry. fold keep.
    by destruct keep. }
  assert (sv_deleted v3 = true /\ sv_deleteSource v3 = TTL
          /\ sv_revSeqno v3 = rev) as (Hd3 & Hs3 & Hr3)
    by (unfold v3, mark_deleted; by destruct keep).
  destruct sq_queued0 as (qi & Hitems & Hqk & Hqv & Hqd & Hqs & Hqc & Hop).
  split; simpl.
  - by rewrite sq_cas0.
  - exists nv. rewrite Hfind. unfold findForWrite.
    rewrite sq_pending0, Hp, sq_committed0, lookup_insert_eq.
    rewrite Hdel, Hval, Hsrc, Hrev, sq_seqno0, Hbody, Hd3, Hs3, Hr3.
    by repeat split.
  - exists qi.
    rewrite Hitems, Hqk, Hqv, Hqd, Hqs, Hqc, Hval, Hdel, sq_seqno0, Hbody,
      Hd3.
    by repeat split.
  - exists ctx. by rewrite sq_callbacks0, sq_ctx0, sq_seqno0.
  - intros k Hne. rewrite Hfind. unfold findForWrite.
    rewrite sq_pending0, sq_committed0. by rewrite lookup_insert_ne.
Qed.

End WithEnvironment.


(** ** Concrete scenarios

    The environment is instantiated with rational arithmetic for [double]
    and a mutation threshold of 0.9; the scenarios below run the
    coordinator on small vBuckets. *)

Module Scenario.

Definition double : Type := QArith_base.Q.
Definition double_of_size (n : N) : double := QArith_base.inject_Z (Z.of_N n).
Definition double_mul : double -> double -> double := QArith_base.Qmult.
Definition double_le : double -> double -> bool := QArith_base.Qle_bool.
Definition mutationMemThreshold : double := QArith_base.Qmake 9 10.
Definition replicationThreshold : double := QArith_base.Qmake 99 100.

(** The projected usage: what is in use plus the key and the value of the
    item and a fixed overhead. *)
Definition estimateNewMemoryUsage (st : EPStats double) (itm : Item) : N :=
  estimatedTotalMemoryUsed double st
  + N.of_nat (String.length (it_key itm))
  + N.of_nat (String.length (default "" (it_value itm)))
  + 64.

Definition stats_of (used : N) : EPStats double :=
  {| maxDataSize := 1000; estimatedTotalMemoryUsed := used;
     replicationThrottleThreshold := replicationThreshold |}.

Definition empty_ht : HashTable :=
  {| ht_pending := ∅; ht_committed := ∅; maxDeletedRevSeqno := 0 |}.

Definition empty_cm : CheckpointManager :=
  {| cm_items := []; cm_lastBySeqno := 0; cm_openCheckpointId := 2 |}.

Definition vbucket (st : vbucket_state_t) (h : HashTable)
    (dm : DurabilityMonitor) (used : N) : VBucket double :=
  {| state := st; eviction := Value; areDeletedItemsAlwaysResident := false;
     ht := h; checkpointManager := empty_cm; backfillItems := [];
     durabilityMonitor := dm; replicationTopology := Json.Null;
     stats := stats_of used; hlc_maxCas := 100; bFilter := None;
     mightContainXattrs := false; bgFetches := [];
     syncWriteCompleteCb := []; newSeqnoCb := [] |}.

Definition value_at (key : DocKey) (value : string) (cas : N) (seqno : Z)
  : StoredValue :=
  {| sv_key := key; sv_value := Some value; sv_datatype := 0; sv_flags := 0;
     sv_exptime := 0; sv_cas := cas; sv_bySeqno := seqno; sv_revSeqno := 1;
     sv_committed := CommittedViaMutation; sv_lock_expiry := 0;
     sv_resident := true; sv_deleted := false; sv_deleteSource := Explicit;
     sv_dirty := false; sv_nru := 0 |}.

Definition mutation (key : DocKey) (value : string) (cas : N) : Item :=
  {| it_key := key; it_value := Some value; it_datatype := 0; it_flags := 0;
     it_exptime := 0; it_cas := cas; it_bySeqno := 0; it_revSeqno := 1;
     it_deleted := false; it_deleteSource := Explicit; it_op := op_mutation;
     it_durabilityReqs := no_requirements; it_prepareSeqno := 0 |}.

Definition committed_ht (v : StoredValue) : HashTable :=
  {| ht_pending := ∅; ht_committed := {[ sv_key v := v ]};
     maxDeletedRevSeqno := 0 |}.

Definition pending_ht (v : StoredValue) : HashTable :=
  {| ht_pending := {[ sv_key v := v ]}; ht_committed := ∅;
     maxDeletedRevSeqno := 0 |}.

Definition chain_AB : list (list (option string)) := [[Some "A"; Some "B"]].

Definition active_dm (chains : list (list (option string)))
    (tracked : list SyncWrite) : DurabilityMonitor :=
  ActiveDM {| adm_chains := chains; adm_trackedWrites := tracked |}.

Definition handle (key : DocKey) : CachingReadHandle :=
  {| ch_key := key; ch_valid := true; ch_isLogicallyDeleted := fun _ => false |}.

(** The clocks of the scenarios. *)
Definition now_rel : N := 50.
Definition now_real : N := 1000050.
Definition now_steady : N := 7000.

Definition run_set := set double double_of_size double_mul double_le
  mutationMemThreshold now_rel now_real now_steady estimateNewMemoryUsage.

Definition run_deleteItem := deleteItem double double_of_size double_mul
  double_le mutationMemThreshold now_rel now_real now_steady
  estimateNewMemoryUsage.

(** *** Memory admission (C6) *)

Definition vb_nearly_full : VBucket double :=
  vbucket vbucket_state_active empty_ht (active_dm chain_AB []) 900.

Lemma memory_admission_witness :
  ~ admitted double double_of_size double_mul double_le mutationMemThreshold
      estimateNewMemoryUsage vb_nearly_full (mutation "k" "v" 0) false /\
  run_set vb_nearly_full (mutation "k" "v" 0) None None (handle "k")
  = Ok (ENGINE_ENOMEM, mutation "k" "v" 0, vb_nearly_full).
Proof.
  assert (Hno : ~ admitted double double_of_size double_mul double_le
                    mutationMemThreshold estimateNewMemoryUsage
                    vb_nearly_full (mutation "k" "v" 0) false).
  { unfold admitted. vm_compute. discriminate. }
  split; [exact Hno|].
  apply (memory_admission double double_of_size double_mul double_le
           mutationMemThreshold now_rel now_real now_steady
           estimateNewMemoryUsage vb_nearly_full (mutation "k" "v" 0)).
  - exact Hno.
  - reflexivity.
  - reflexivity.
  - exact I.
Defined.

(** *** Commit (C3) *)

Definition prepared_value : StoredValue :=
  with_sv_committed Pending (value_at "k" "v" 7 1).

Definition vb_prepared : VBucket double :=
  vbucket vbucket_state_active (pending_ht prepared_value)
    (active_dm chain_AB []) 100.

Lemma commit_contract_witness :
  HashTable_wf (ht double vb_prepared) /\
  exists vb', commit double now_real now_steady vb_prepared "k" 1 None
                (handle "k") (Some 3%nat)
              = Ok (ENGINE_SUCCESS, vb').
Proof.
  assert (Hwf : HashTable_wf (ht double vb_prepared)).
  { apply (bool_decide_unpack _). vm_compute. exact I. }
  split; [exact Hwf|].
  apply (commit_contract double now_real now_steady vb_prepared "k" 1 None
           (handle "k") (Some 3%nat) Hwf).
  - reflexivity.
  - exact I.
Defined.

(** *** The CAS policy of set (C4) *)

Definition vb_with (v : StoredValue) : VBucket double :=
  vbucket vbucket_state_active (committed_ht v) (active_dm chain_AB []) 100.

Lemma set_cas_mismatch_policy_witness :
  exists rc,
    run_set (vb_with (value_at "k" "v" 5 1)) (mutation "k" "w" 9) None None
      (handle "k")
    = Ok (rc, mutation "k" "w" 9, vb_with (value_at "k" "v" 5 1)) /\
    rc = ENGINE_KEY_EEXISTS.
Proof.
  destruct (set_cas_mismatch_policy double double_of_size double_mul double_le
              mutationMemThreshold now_rel now_real now_steady
              estimateNewMemoryUsage (vb_with (value_at "k" "v" 5 1))
              (mutation "k" "w" 9) None None (handle "k")
              (value_at "k" "v" 5 1))
    as (rc & Hset & _ & _ & _ & Hexists).
  - constructor; try reflexivity; exact I.
  - reflexivity.
  - discriminate.
  - discriminate.
  - exists rc. split; [exact Hset|].
    apply Hexists; [reflexivity | left; split; reflexivity | left; reflexivity].
Defined.

(** An unlocked live value whose expiry time has passed. *)
Definition expired_value : StoredValue :=
  with_sv_exptime 10 (value_at "k" "v" 5 1).

(** C4 as stated fails here: the value is neither a temp marker nor
    deleted, the CAS is non-zero and does not match, and [set] answers
    KeyEnoent, not KeyEexists. *)
Lemma set_cas_mismatch_expired :
  findForWrite (ht double (vb_with expired_value)) "k" = Some expired_value /\
  isLocked expired_value now_rel = false /\
  it_cas (mutation "k" "w" 9) <> 0%N /\
  it_cas (mutation "k" "w" 9) <> sv_cas expired_value /\
  isTempNonExistentItem expired_value = false /\
  isTempDeletedItem expired_value = false /\
  isDeleted expired_value = false /\
  run_set (vb_with expired_value) (mutation "k" "w" 9) None None (handle "k")
  = Ok (ENGINE_KEY_ENOENT, mutation "k" "w" 9, vb_with expired_value).
Proof. repeat split; try discriminate; vm_compute; reflexivity. Qed.

(** *** The deleted-body rule (C5) *)

Definition deleted_value : StoredValue :=
  with_sv_deleted true (with_sv_value None (value_at "k" "v" 5 1)).

Lemma deleted_body_rule_witness :
  (isDeleted deleted_value = true \/ isTempDeletedItem deleted_value = true)
  /\ (exists itm',
        processSet double double_of_size double_mul double_le
          mutationMemThreshold now_rel now_real now_steady
          estimateNewMemoryUsage (vb_with deleted_value) (Some deleted_value)
          (mutation "k" "w" 5) 5 true false VBQueueItemCtx_default
          StoreIfStatus.Continue true
        = Ok (MutationStatus.NotFound, None, Some deleted_value, itm',
              vb_with deleted_value))
  /\ (exists status notify nv itm1 vb2,
        processSet double double_of_size double_mul double_le
          mutationMemThreshold now_rel now_real now_steady
          estimateNewMemoryUsage (vb_with deleted_value) (Some deleted_value)
          (mutation "k" "w" 5) 0 true false VBQueueItemCtx_default
          StoreIfStatus.Continue true
        = Ok (status, Some notify, Some nv, itm1, vb2)
        /\ sv_value nv = Some "w" /\ sv_deleted nv = false).
Proof.
  assert (isDeleted deleted_value = true
          \/ isTempDeletedItem deleted_value = true) as Hdeleted
    by (left; reflexivity).
  split; [exact Hdeleted|].
  destruct (deleted_body_rule double double_of_size double_mul double_le
              mutationMemThreshold now_rel now_real now_steady
              estimateNewMemoryUsage (vb_with deleted_value) deleted_value
              (mutation "k" "w" 5) true VBQueueItemCtx_default
              StoreIfStatus.Continue true Hdeleted) as [Hrefused Happlied].
  split.
  - destruct (Hrefused 5%N ltac:(discriminate) eq_refl)
      as (status & v' & itm' & vb' & Hrun & _ & _ & Hplain).
    destruct (Hplain eq_refl eq_refl eq_refl) as (-> & -> & ->).
    by exists itm'.
  - destruct (Happlied eq_refl eq_refl eq_refl eq_refl eq_refl 0%N
                (or_introl eq_refl))
      as (status & notify & nv & itm1 & vb2 & Hrun & _ & _ & Hvalue
          & Hlive & _).
    exists status, notify, nv, itm1, vb2. by repeat split.
Defined.

(** C5 as stated fails here: a non-delete write with CAS=0 over a value
    whose body is deleted succeeds, and the key holds a live value
    afterwards. *)
Lemma set_zero_cas_over_deleted :
  isDeleted deleted_value = true /\
  it_deleted (mutation "k" "w" 0) = false /\
  it_cas (mutation "k" "w" 0) = 0%N /\
  exists itm' vb',
    run_set (vb_with deleted_value) (mutation "k" "w" 0) None None (handle "k")
    = Ok (ENGINE_SUCCESS, itm', vb') /\
    (isDeleted <$> ht_committed (ht double vb') !! "k") = Some false /\
    (sv_value <$> ht_committed (ht double vb') !! "k") = Some (Some "w").
Proof.
  repeat split; try reflexivity.
  eexists _, _. split; [vm_compute; reflexivity|].
  split; vm_compute; reflexivity.
Qed.

(** *** Locks on a replica (C10) *)




(** *** Durability impossible (C1) *)

Definition durable_reqs : Requirements :=
  {| req_level := Majority; req_timeout := Timeout_Millis 1 |}.

Definition prepare (key : DocKey) (value : string) : Item :=
  {| it_key := key; it_value := Some value; it_datatype := 0; it_flags := 0;
     it_exptime := 0; it_cas := 0; it_bySeqno := 0; it_revSeqno := 1;
     it_deleted := false; it_deleteSource := Explicit;
     it_op := op_pending_sync_write;
     it_durabilityReqs := durable_reqs; it_prepareSeqno := 0 |}.

(** The chain of DurabilityImpossible_1Replica: an active and an undefined
    replica. *)
Definition adm_one_undefined : ActiveDurabilityMonitor :=
  {| adm_chains := [[Some "active"; None]]; adm_trackedWrites := [] |}.

Definition vb_undefined_replica : VBucket double :=
  vbucket vbucket_state_active empty_ht (ActiveDM adm_one_undefined) 100.

Lemma durability_impossible_iff_witness :
  ~ durability_possible adm_one_undefined /\
  run_set vb_undefined_replica (prepare "k" "v") (Some 3%nat) None (handle "k")
  = Ok (ENGINE_DURABILITY_IMPOSSIBLE, prepare "k" "v", vb_undefined_replica).
Proof.
  destruct (durability_impossible_iff double double_of_size double_mul
              double_le mutationMemThreshold now_rel now_real now_steady
              estimateNewMemoryUsage vb_undefined_replica adm_one_undefined
              eq_refl eq_refl) as (Hiff & Hops & _).
  assert (Hno : ~ durability_possible adm_one_undefined).
  { intros H. apply Hiff in H. vm_compute in H. discriminate. }
  split; [exact Hno|].
  destruct (Hops (prepare "k" "v") (Some 3%nat) (handle "k") eq_refl)
    as (Hset & _).
  destruct (Hset None) as [Himp _].
  exact (Himp Hno).
Defined.

(** *** Timeout abort (C2) *)

Definition tracked_prepare : SyncWrite :=
  {| sw_key := "k"; sw_seqno := 1; sw_reqs := durable_reqs;
     sw_cookie := Some 3%nat; sw_start := 0 |}.

Definition vb_tracking : VBucket double :=
  vbucket vbucket_state_active (pending_ht prepared_value)
    (active_dm chain_AB [tracked_prepare]) 100.

Lemma processTimeout_aborts_expired_witness :
  prepares_resident (ht double vb_tracking) [tracked_prepare] /\
  exists vb' aborts,
    processDurabilityTimeout double now_steady vb_tracking 1000 = Ok vb' /\
    cm_items (checkpointManager double vb') = aborts /\
    Forall2 is_abort_of [tracked_prepare] aborts /\
    syncWriteCompleteCb double vb'
    = [(Some 3%nat, ENGINE_SYNC_WRITE_AMBIGUOUS)].
Proof.
  assert (Hres : prepares_resident (ht double vb_tracking) [tracked_prepare]).
  { apply (bool_decide_unpack _). vm_compute. exact I. }
  split; [exact Hres|].
  destruct (processTimeout_aborts_expired double double_of_size double_mul
              double_le mutationMemThreshold now_real now_steady
              vb_tracking
              {| adm_chains := chain_AB;
                 adm_trackedWrites := [tracked_prepare] |}
              1000 eq_refl eq_refl Hres)
    as (vb' & aborts & Hrun & _ & _ & _ & Hitems & Haborts & _ & Hnotified & _).
  exists vb', aborts. split; [exact Hrun|].
  split; [exact Hitems|]. split; [exact Haborts | exact Hnotified].
Defined.

(** *** A topology with a duplicated node (C7) *)

Definition duplicate_topology : Json.json :=
  Json.Array [Json.Array [Json.Str "a"; Json.Str "a"]].

Definition vb_replica : VBucket double :=
  vbucket vbucket_state_replica empty_ht
    (PassiveDM PassiveDurabilityMonitor_new) 100.

Lemma setState_topology_witness :
  exists vb',
    setState double vb_replica vbucket_state_active
      (topology_meta duplicate_topology)
    = (vb', Some invalid_argument) /\
    state double vb' = vbucket_state_active /\
    replicationTopology double vb' = duplicate_topology.
Proof.
  apply (setState_topology double vb_replica duplicate_topology).
  - vm_compute. eexists. reflexivity.
  - exists [Json.Array [Json.Str "a"; Json.Str "a"]].
    split; [reflexivity|]. split; [simpl; lia|].
    constructor; [|constructor].
    exists "a", [Json.Str "a"]. split; [reflexivity|].
    split; [simpl; lia|]. constructor; [|constructor].
    right. by eexists.
  - apply (proj1 (bool_decide_eq_false _)). vm_compute. reflexivity.
Defined.


(** *** Abort (X17) *)

Lemma abort_contract_witness :
  HashTable_wf (ht double vb_prepared) /\
  exists vb',
    abort double now_steady vb_prepared "k" 1 None (handle "k")
      (Some 3%nat)
    = Ok (ENGINE_SUCCESS, vb')
    /\ aborted_effects double vb_prepared vb' "k" 1 None (Some 3%nat).
Proof.
  assert (Hwf : HashTable_wf (ht double vb_prepared)).
  { apply (bool_decide_unpack _). vm_compute. exact I. }
  split; [exact Hwf|].
  exact (abort_contract double now_steady vb_prepared "k" 1 None
           (handle "k") (Some 3%nat) Hwf I).
Defined.

(** *** Add over a live document (X18) *)

Definition run_add := add double double_of_size double_mul double_le
  mutationMemThreshold now_real now_steady estimateNewMemoryUsage.

(** The vBucket is nearly full and the document is live: the add is refused
    as not stored, not for lack of memory. *)
Definition vb_full_with (v : StoredValue) : VBucket double :=
  vbucket vbucket_state_active (committed_ht v) (active_dm chain_AB []) 990.

Lemma add_never_overwrites_witness :
  run_add (vb_full_with (value_at "k" "old" 7 1)) (mutation "k" "new" 0) None
    (handle "k")
  = Ok (ENGINE_NOT_STORED, mutation "k" "new" 0,
        vb_full_with (value_at "k" "old" 7 1)).
Proof.
  apply (add_never_overwrites double double_of_size double_mul double_le
           mutationMemThreshold now_rel now_real now_steady
           estimateNewMemoryUsage (vb_full_with (value_at "k" "old" 7 1))
           (mutation "k" "new" 0) None (handle "k")).
  reflexivity.
Defined.

(** *** Replace of an absent document (X19) *)

Definition run_replace := replace double double_of_size double_mul double_le
  mutationMemThreshold now_rel now_real now_steady estimateNewMemoryUsage.

(** A vBucket with full eviction and no filter, so that the key may be on
    disk. *)
Definition vb_full_eviction : VBucket double :=
  {| state := vbucket_state_active; eviction := Full;
     areDeletedItemsAlwaysResident := false;
     ht := empty_ht; checkpointManager := empty_cm; backfillItems := [];
     durabilityMonitor := active_dm chain_AB [];
     replicationTopology := Json.Null;
     stats := stats_of 100; hlc_maxCas := 100; bFilter := None;
     mightContainXattrs := false; bgFetches := [];
     syncWriteCompleteCb := []; newSeqnoCb := [] |}.

Lemma replace_never_creates_witness :
  exists rc vb',
    run_replace vb_full_eviction (mutation "k" "new" 0) (Some 3%nat) None
      (handle "k")
    = Ok (rc, mutation "k" "new" 0, vb')
    /\ no_new_document double vb_full_eviction vb' "k"
    /\ rc = ENGINE_EWOULDBLOCK
    /\ bgFetches double vb' = [("k", Some 3%nat, false)].
Proof.
  destruct (replace_never_creates double double_of_size double_mul double_le
              mutationMemThreshold now_rel now_real now_steady
              estimateNewMemoryUsage vb_full_eviction (mutation "k" "new" 0)
              (Some 3%nat) None (handle "k"))
    as (rc & vb' & Hrun & Hnew & Hcode).
  - exact I.
  - reflexivity.
  - exact I.
  - exists rc, vb'. split; [exact Hrun|]. split; [exact Hnew|].
    vm_compute in Hrun. injection Hrun as <- <-. split; reflexivity.
Defined.

(** *** State changes without a topology (X20) *)

Definition tracked_on_replica : SyncWrite :=
  {| sw_key := "k"; sw_seqno := 1; sw_cookie := None;
     sw_reqs := no_requirements; sw_start := 0 |}.

Definition vb_replica_tracking : VBucket double :=
  vbucket vbucket_state_replica (pending_ht prepared_value)
    (PassiveDM {| pdm_trackedWrites := [tracked_on_replica] |}) 100.

Lemma setState_without_meta_witness :
  exists vb',
    setState double vb_replica_tracking vbucket_state_active Json.Null
    = (vb', None)
    /\ trackedWrites double vb' = [tracked_on_replica]
    /\ exists vb'',
         setState double vb' vbucket_state_active Json.Null = (vb'', None)
         /\ trackedWrites double vb'' = [].
Proof.
  destruct (setState_without_meta double vb_replica_tracking
              vbucket_state_active)
    as [(vb' & Hrun & Hstate & _ & _ & _ & _ & Hmon & Htracked & _) _].
  - by exists {| pdm_trackedWrites := [tracked_on_replica] |}.
  - exists vb'. split; [exact Hrun|]. split; [exact Htracked|].
    destruct (setState_without_meta double vb' vbucket_state_active Hmon)
      as [(vb'' & Hrun' & _ & _ & _ & _ & _ & _ & Htracked' & _) _].
    exists vb''. split; [exact Hrun'|].
    rewrite Htracked'. unfold tracked_after. by rewrite Hstate.
Defined.

(** *** A plain set over an existing document (X22) *)


(** *** A plain delete of an existing document (X23) *)

Lemma deleteItem_deletes_witness :
  exists cas' vb',
    run_deleteItem (vb_with (value_at "k" "old" 7 1)) 7 None None (handle "k")
    = Ok (ENGINE_SUCCESS, cas', vb')
    /\ tombstoned double (vb_with (value_at "k" "old" 7 1)) vb'
         (value_at "k" "old" 7 1) cas' Explicit None.
Proof.
  destruct (deleteItem_deletes double double_of_size double_mul double_le
           mutationMemThreshold now_rel now_real now_steady
           estimateNewMemoryUsage (vb_with (value_at "k" "old" 7 1)) 7 None
           (handle "k") (value_at "k" "old" 7 1))
    as (cas' & vb' & Hrun & Htomb & _).
  - split; vm_compute; reflexivity.
  - right. reflexivity.
  - by exists cas', vb'.
Defined.

(** *** A delete of an expired, locked document with a foreign CAS (X24) *)

Definition expired_locked_value : StoredValue :=
  with_sv_lock_expiry 60 expired_value.

Lemma deleteItem_expired_witness :
  isLocked expired_locked_value now_rel = true /\
  exists cas' vb',
    run_deleteItem (vb_with expired_locked_value) 999 None None (handle "k")
    = Ok (ENGINE_KEY_ENOENT, cas', vb')
    /\ tombstoned double (vb_with expired_locked_value) vb'
         expired_locked_value cas' TTL None.
Proof.
  split; [reflexivity|].
  apply (deleteItem_expired double double_of_size double_mul double_le
           mutationMemThreshold now_rel now_real now_steady
           estimateNewMemoryUsage (vb_with expired_locked_value) 999 None
           (handle "k") expired_locked_value); reflexivity.
Defined.

End Scenario.

(** * The rest of the vBucket *)

(** ** State names *)

(** [VBucket::toString]: the switch covers the four enumerators. *)
Definition toString (s : vbucket_state_t) : string :=
  match s with
  | vbucket_state_active => "active"
  | vbucket_state_replica => "replica"
  | vbucket_state_pending => "pending"
  | vbucket_state_dead => "dead"
  end.

(** [VBucket::fromString]: three names are compared, every other string is
    taken as dead. *)
Definition fromString (state : string) : vbucket_state_t :=
  if String.eqb state "active" then vbucket_state_active
  else if String.eqb state "replica" then vbucket_state_replica
  else if String.eqb state "pending" then vbucket_state_pending
  else vbucket_state_dead.

(** X10. [fromString] reads back every name [toString] writes, and a string
    that [fromString] takes as active, replica or pending is the name
    [toString] writes for that state; every other string is taken as
    dead. *)
Theorem state_names_round_trip :
  (forall s, fromString (toString s) = s)
  /\ (forall name,
         fromString name <> vbucket_state_dead ->
         toString (fromString name) = name).
Proof.
  split.
  - by intros [].
  - intros name. unfold fromString.
    destruct (String.eqb_spec name "active") as [->|_]; [done|].
    destruct (String.eqb_spec name "replica") as [->|_]; [done|].
    destruct (String.eqb_spec name "pending") as [->|_]; [done|].
    by intros [].
Qed.

(** ** Operations parked on a pending vBucket *)

Module Engine.

(** The codes with which parked cookies are notified. *)
Inductive code :=
  | ENGINE_SUCCESS
  | ENGINE_TMPFAIL
  | ENGINE_NOT_MY_VBUCKET.

#[global] Instance code_eq_dec : EqDecision code.
Proof. solve_decision. Defined.

End Engine.

Section PendingOperations.

(** [atomic_setIfBigger] of atomic.h and [fetch_sub] of the counter
    [stats.pendingOps], whose type stats.h declares: the new value of the
    counter from its old value and the argument. *)
Variable atomic_setIfBigger : N -> N -> N.
Variable fetch_sub : N -> N -> N.

(** The members that [addPendingOp] and [fireAllOps] touch. Time points are
    counted from the epoch of the steady clock, which is what a default
    [time_point] denotes; [++] on a counter is taken at 64 bits. *)
Record PendingOps := {
  po_state : vbucket_state_t;
  pendingOps : list Cookie;
  pendingOpsStart : Z;
  stats_pendingOps : N;
  stats_pendingOpsTotal : N;
  stats_pendingOpsMax : N;
  stats_pendingOpsMaxDuration : N;
  stats_pendingOpsHisto : list Z;
}.

(** [addPendingOp], with the reading of the steady clock it may take. *)
Definition addPendingOp (now : Z) (cookie : Cookie) (vb : PendingOps)
  : bool * PendingOps :=
  if negb (bool_decide (po_state vb = vbucket_state_pending))
  then (false, vb)
  else
    (true,
     {| po_state := po_state vb;
        pendingOps := (pendingOps vb ++ [cookie])%list;
        pendingOpsStart := match pendingOps vb with
                           | [] => now
                           | _ :: _ => pendingOpsStart vb
                           end;
        stats_pendingOps := u64 (stats_pendingOps vb + 1);
        stats_pendingOpsTotal := u64 (stats_pendingOpsTotal vb + 1);
        stats_pendingOpsMax := stats_pendingOpsMax vb;
        stats_pendingOpsMaxDuration := stats_pendingOpsMaxDuration vb;
        stats_pendingOpsHisto := stats_pendingOpsHisto vb |}).

(** The loop of [fireAllOps]: the operations are taken from the back. *)
Definition notifyAll (code : Engine.code) (ops : list Cookie)
  : list (Cookie * Engine.code) :=
  (fun cookie => (cookie, code)) <$> rev ops.

(** [fireAllOps(engine, code)]: the state after it and the notifications
    sent through [notifyIOComplete], in the order they are sent. The
    duration is counted in microseconds, the clock in nanoseconds. *)
Definition fireAllOps_with (now : Z) (code : Engine.code) (vb : PendingOps)
  : PendingOps * list (Cookie * Engine.code) :=
  if (0 <? pendingOpsStart vb)%Z then
    let d := ((now - pendingOpsStart vb) ÷ 1000)%Z in
    let timed := (pendingOpsStart vb <? now)%Z in
    ({| po_state := po_state vb;
        pendingOps := [];
        pendingOpsStart := 0;
        stats_pendingOps :=
          fetch_sub (stats_pendingOps vb) (N.of_nat (length (pendingOps vb)));
        stats_pendingOpsTotal := stats_pendingOpsTotal vb;
        stats_pendingOpsMax :=
          atomic_setIfBigger (stats_pendingOpsMax vb)
            (N.of_nat (length (pendingOps vb)));
        stats_pendingOpsMaxDuration :=
          if timed
          then atomic_setIfBigger (stats_pendingOpsMaxDuration vb)
                 (Z.to_N d)
          else stats_pendingOpsMaxDuration vb;
        stats_pendingOpsHisto :=
          if timed then (stats_pendingOpsHisto vb ++ [d])%list
          else stats_pendingOpsHisto vb |},
     notifyAll code (pendingOps vb))
  else (vb, []).

(** [fireAllOps(engine)]. *)
Definition fireAllOps (now : Z) (vb : PendingOps)
  : PendingOps * list (Cookie * Engine.code) :=
  match po_state vb with
  | vbucket_state_active => fireAllOps_with now Engine.ENGINE_SUCCESS vb
  | vbucket_state_pending => (vb, [])
  | _ => fireAllOps_with now Engine.ENGINE_NOT_MY_VBUCKET vb
  end.

(** The cookies are parked one after the other, each at its own reading of
    the clock. *)
Fixpoint addPendingOps (arrivals : list (Z * Cookie)) (vb : PendingOps)
  : PendingOps :=
  match arrivals with
  | [] => vb
  | (now, cookie) :: rest => addPendingOps rest (addPendingOp now cookie vb).2
  end.

(** The state member is assigned. *)
Definition with_po_state (to : vbucket_state_t) (vb : PendingOps)
  : PendingOps :=
  {| po_state := to;
     pendingOps := pendingOps vb;
     pendingOpsStart := pendingOpsStart vb;
     stats_pendingOps := stats_pendingOps vb;
     stats_pendingOpsTotal := stats_pendingOpsTotal vb;
     stats_pendingOpsMax := stats_pendingOpsMax vb;
     stats_pendingOpsMaxDuration := stats_pendingOpsMaxDuration vb;
     stats_pendingOpsHisto := stats_pendingOpsHisto vb |}.

(** The timer runs whenever an operation is parked. *)
Definition timer_running (vb : PendingOps) : Prop :=
  pendingOps vb <> [] -> (0 < pendingOpsStart vb)%Z.

Definition code_on_leaving (to : vbucket_state_t) : Engine.code :=
  match to with
  | vbucket_state_active => Engine.ENGINE_SUCCESS
  | _ => Engine.ENGINE_NOT_MY_VBUCKET
  end.

Lemma addPendingOps_pending (arrivals : list (Z * Cookie)) (vb : PendingOps) :
  po_state vb = vbucket_state_pending ->
  Forall (fun a => (0 < a.1)%Z) arrivals ->
  timer_running vb ->
  let vb' := addPendingOps arrivals vb in
  po_state vb' = vbucket_state_pending
  /\ pendingOps vb' = (pendingOps vb ++ arrivals.*2)%list
  /\ timer_running vb'.
Proof.
  revert vb. induction arrivals as [|[now cookie] rest IH];
    intros vb Hstate Hnow Htimer; cbn [addPendingOps].
  - by rewrite app_nil_r.
  - apply Forall_cons in Hnow as [Hnow Hrest]. cbn [fst] in Hnow.
    unfold addPendingOp. rewrite Hstate.
    rewrite bool_decide_eq_true_2 by done. cbn [negb snd].
    match goal with
    | |- context [addPendingOps rest ?v] => destruct (IH v) as (H1 & H2 & H3)
    end; try done.
    + intros _. cbn [pendingOpsStart pendingOps].
      destruct (pendingOps vb) eqn:E; [done|]. apply Htimer. by rewrite E.
    + split; [done|]. split; [|done].
      rewrite H2. cbn [pendingOps fmap list_fmap snd].
      by rewrite <- app_assoc.
Qed.

Lemma fireAllOps_with_all (now : Z) (code : Engine.code)
    (vb vb' : PendingOps) (notified : list (Cookie * Engine.code)) :
  timer_running vb ->
  fireAllOps_with now code vb = (vb', notified) ->
  notified = notifyAll code (pendingOps vb)
  /\ pendingOps vb' = []
  /\ timer_running vb'.
Proof.
  intros Htimer. unfold fireAllOps_with.
  destruct (Z.ltb_spec 0 (pendingOpsStart vb)) as [Hpos|Hzero].
  - intros [= <- <-]. split; [done|]. split; [done|].
    intros Hne. by destruct Hne.
  - intros [= <- <-].
    destruct (pendingOps vb) as [|c ops] eqn:E.
    + by repeat split.
    + assert (0 < pendingOpsStart vb)%Z by (apply Htimer; by rewrite E).
      lia.
Qed.

(** X11. Every operation parked on a pending vBucket is notified exactly once
    when the vBucket leaves the pending state: after any cookies were parked
    with [addPendingOp], each at a positive reading of the clock, and the
    state was set to another one, [fireAllOps] notifies all parked cookies,
    the last parked first, with success when the vBucket became active and
    with not-my-vbucket otherwise, and leaves none parked. *)
Theorem parked_operations_fired (vb : PendingOps)
    (arrivals : list (Z * Cookie)) (to : vbucket_state_t) (now : Z) :
  po_state vb = vbucket_state_pending ->
  timer_running vb ->
  Forall (fun a => (0 < a.1)%Z) arrivals ->
  to <> vbucket_state_pending ->
  let '(vb', notified) :=
    fireAllOps now (with_po_state to (addPendingOps arrivals vb)) in
  notified
  = (fun cookie => (cookie, code_on_leaving to))
      <$> rev (pendingOps vb ++ arrivals.*2)%list
  /\ pendingOps vb' = []
  /\ timer_running vb'.
Proof.
  intros Hstate Htimer Hnow Hto.
  destruct (addPendingOps_pending arrivals vb Hstate Hnow Htimer)
    as (_ & Hops & Htimer').
  set (parked := addPendingOps arrivals vb) in *.
  assert (timer_running (with_po_state to parked)) as Hrunning by done.
  destruct (fireAllOps now (with_po_state to parked)) as [vb' notified] eqn:E.
  unfold fireAllOps in E. cbn [with_po_state po_state] in E.
  rewrite <- Hops. unfold code_on_leaving.
  destruct to; try done;
    destruct (fireAllOps_with_all _ _ _ _ _ Hrunning E) as (-> & ? & ?);
    by repeat split.
Qed.

End PendingOperations.

(** ** Items handed to the flusher *)

Section Flush.

(** Queued items, the checkpoint manager and the cursor range are those of
    checkpoint_manager.h; [getItemsForPersistence] appends the items of the
    persistence cursor to the vector it is given, and returns the range of
    their snapshot and whether more are available. *)
Variable queued_item : Type.
Variable CheckpointCursorManager : Type.
Variable snapshot_range : Type.
Variable no_range : snapshot_range.
Variable getItemsForPersistence :
  CheckpointCursorManager -> nat ->
  list queued_item * snapshot_range * bool * CheckpointCursorManager.
Variable sizeof_queued_item : N.

(** [fetch_sub] of the counters [stats.vbBackfillQueueSize] and
    [memOverhead], whose types stats.h declares. *)
Variable fetch_sub : N -> N -> N.

Record ItemsToFlush := {
  itf_items : list queued_item;
  itf_range : snapshot_range;
  itf_moreAvailable : bool;
}.

Record Flushable := {
  rejectQueue : list queued_item;
  backfill_items : list queued_item;
  fl_checkpointManager : CheckpointCursorManager;
  stats_vbBackfillQueueSize : N;
  stats_memOverhead : N;
}.

(** The loop that moves the front of a queue to the back of the result for
    as long as the result is below the limit. *)
Fixpoint fill (approxLimit : nat) (items queue : list queued_item)
  : list queued_item * list queued_item :=
  match queue with
  | [] => (items, [])
  | front :: rest =>
      if (length items <? approxLimit)%nat
      then fill approxLimit (items ++ [front])%list rest
      else (items, queue)
  end.

Definition is_empty {A} (l : list A) : bool :=
  match l with [] => true | _ :: _ => false end.

Definition getItemsToPersist (approxLimit : nat) (vb : Flushable)
  : ItemsToFlush * Flushable :=
  let '(items, rejected) := fill approxLimit [] (rejectQueue vb) in
  let '(items', backfill) := fill approxLimit items (backfill_items vb) in
  let num_items := N.of_nat (length items' - length items) in
  let backfillEmpty := is_empty backfill in
  let ckptMgrLimit := (approxLimit - length items')%nat in
  let '(added, range, ckptMoreAvailable, manager) :=
    if (0 <? ckptMgrLimit)%nat
    then getItemsForPersistence (fl_checkpointManager vb) ckptMgrLimit
    else ([], no_range, true, fl_checkpointManager vb) in
  ({| itf_items := (items' ++ added)%list;
      itf_range := range;
      itf_moreAvailable :=
        negb (is_empty rejected) || negb backfillEmpty || ckptMoreAvailable |},
   {| rejectQueue := rejected;
      backfill_items := backfill;
      fl_checkpointManager := manager;
      stats_vbBackfillQueueSize :=
        fetch_sub (stats_vbBackfillQueueSize vb) num_items;
      stats_memOverhead :=
        fetch_sub (stats_memOverhead vb)
          (u64 (num_items * sizeof_queued_item)) |}).

Lemma fill_spec (approxLimit : nat) (queue items : list queued_item) :
  length items <= approxLimit ->
  let n := (approxLimit - length items)%nat in
  fill approxLimit items queue = ((items ++ take n queue)%list, drop n queue).
Proof.
  revert items. induction queue as [|front rest IH]; intros items Hlen n.
  - cbn [fill]. by rewrite take_nil, drop_nil, app_nil_r.
  - cbn [fill]. destruct (Nat.ltb_spec (length items) approxLimit) as [Hlt|Hge].
    + rewrite IH by (rewrite length_app; cbn [length]; lia).
      rewrite length_app. cbn [length].
      replace n with (S (approxLimit - (length items + 1))) by lia.
      cbn [take drop]. by rewrite <- app_assoc.
    + replace n with 0 by lia. cbn [take drop]. by rewrite app_nil_r.
Qed.

(** X12. [getItemsToPersist] hands over the first [approxLimit] items of
    the reject queue followed by the backfill queue, in their order, and
    leaves the rest queued in that order; it asks the checkpoint manager only
    when the two queues did not fill the limit, for the remainder of the
    limit, and appends what it gives; and it reports that nothing more is
    available only when both queues are empty afterwards. *)
Theorem getItemsToPersist_order (approxLimit : nat) (vb : Flushable) :
  let queued := (rejectQueue vb ++ backfill_items vb)%list in
  let asked := (length queued <? approxLimit)%nat in
  let answer :=
    getItemsForPersistence (fl_checkpointManager vb)
      (approxLimit - length queued) in
  let '(flush, vb') := getItemsToPersist approxLimit vb in
  itf_items flush
  = (take approxLimit queued ++ (if asked then answer.1.1.1 else []))%list
  /\ (rejectQueue vb' ++ backfill_items vb')%list = drop approxLimit queued
  /\ (backfill_items vb' <> backfill_items vb -> rejectQueue vb' = [])
  /\ fl_checkpointManager vb'
     = (if asked then answer.2 else fl_checkpointManager vb)
  /\ (itf_moreAvailable flush = false ->
      asked = true /\ rejectQueue vb' = [] /\ backfill_items vb' = []
      /\ answer.1.2 = false).
Proof.
  intros queued asked answer. unfold getItemsToPersist.
  rewrite fill_spec by (cbn [length]; lia).
  cbn [length app]. rewrite Nat.sub_0_r.
  rewrite fill_spec by (rewrite length_take; lia).
  rewrite length_take.
  set (r := rejectQueue vb) in *. set (b := backfill_items vb) in *.
  assert (length queued = length r + length b) as Hq
    by (unfold queued; by rewrite length_app).
  assert ((take approxLimit r
           ++ take (approxLimit - approxLimit `min` length r) b)%list
          = take approxLimit queued) as Htake.
  { unfold queued. rewrite take_app. f_equal.
    destruct (Nat.le_ge_cases approxLimit (length r)).
    - rewrite !Nat.min_l by lia.
      replace (approxLimit - approxLimit) with 0 by lia.
      replace (approxLimit - length r) with 0 by lia. done.
    - by rewrite Nat.min_r by lia. }
  assert ((drop approxLimit r
           ++ drop (approxLimit - approxLimit `min` length r) b)%list
          = drop approxLimit queued) as Hdrop.
  { unfold queued. rewrite drop_app. f_equal.
    destruct (Nat.le_ge_cases approxLimit (length r)).
    - rewrite !Nat.min_l by lia.
      replace (approxLimit - approxLimit) with 0 by lia.
      replace (approxLimit - length r) with 0 by lia. done.
    - by rewrite Nat.min_r by lia. }
  rewrite Htake.
  assert (approxLimit - length (take approxLimit queued)
          = approxLimit - length queued) as ->
    by (rewrite length_take; lia).
  assert ((0 <? approxLimit - length queued)%nat = asked) as ->.
  { unfold asked. destruct (Nat.ltb_spec (length queued) approxLimit);
      [by apply Nat.ltb_lt; lia | by apply Nat.ltb_ge; lia]. }
  fold answer.
  assert (forall q : list queued_item, is_empty q = true <-> q = []) as Hempty
    by (intros []; done).
  destruct asked eqn:Hasked.
  - destruct answer as [[[added range] more] manager] eqn:Hanswer.
    cbn [itf_items itf_moreAvailable rejectQueue backfill_items
           fl_checkpointManager fst snd].
    split; [done|]. split; [done|]. split.
    + intros Hb. destruct (Nat.le_ge_cases approxLimit (length r)).
      * destruct Hb. rewrite Nat.min_l by lia.
        by replace (approxLimit - approxLimit) with 0 by lia.
      * by rewrite drop_ge.
    + split; [done|]. intros Hmore.
      apply orb_false_iff in Hmore as [Hmore ->].
      apply orb_false_iff in Hmore as [Hr%negb_false_iff%Hempty
                                         Hb%negb_false_iff%Hempty].
      done.
  - cbn [itf_items itf_moreAvailable rejectQueue backfill_items
           fl_checkpointManager fst snd].
    split; [done|]. split; [done|]. split.
    + intros Hb. destruct (Nat.le_ge_cases approxLimit (length r)).
      * destruct Hb. rewrite Nat.min_l by lia.
        by replace (approxLimit - approxLimit) with 0 by lia.
      * by rewrite drop_ge.
    + split; [done|]. by rewrite orb_true_r.
Qed.

End Flush.

(** ** High-priority requests waiting for persistence *)

Inductive HighPriorityVBNotify :=
  | Seqno
  | ChkPersistence.

#[global] Instance HighPriorityVBNotify_eq_dec :
  EqDecision HighPriorityVBNotify.
Proof. solve_decision. Defined.

(** A request: the cookie that waits, the seqno or checkpoint id it waits
    for, what kind of id that is, and the time it was added. *)
Record HighPriorityVBEntry := {
  hp_cookie : Cookie;
  hp_id : N;
  hp_reqType : HighPriorityVBNotify;
  hp_start : Z;
}.

(** The members the high-priority requests touch. The flush timeout is
    counted in seconds, the clock in nanoseconds, the histogram in
    microseconds. *)
Record HighPriority := {
  hpVBReqs : list HighPriorityVBEntry;
  numHpVBReqs : N;
  chkFlushTimeout : Z;
  stats_chkPersistenceHisto : list Z;
  engineSpecificCleared : list Cookie;
}.

Definition MIN_CHK_FLUSH_TIMEOUT : Z := 10.
Definition MAX_CHK_FLUSH_TIMEOUT : Z := 30.

(** [adjustCheckpointFlushTimeout]: the new value of the timeout. *)
Definition adjustCheckpointFlushTimeout (wall_time : Z) : Z :=
  let middle := ((MIN_CHK_FLUSH_TIMEOUT + MAX_CHK_FLUSH_TIMEOUT) ÷ 2)%Z in
  if (wall_time <=? MIN_CHK_FLUSH_TIMEOUT)%Z then MIN_CHK_FLUSH_TIMEOUT
  else if (wall_time <=? middle)%Z then middle
  else MAX_CHK_FLUSH_TIMEOUT.

(** [addHighPriorityVBEntry], at the given reading of the clock. *)
Definition addHighPriorityVBEntry (now : Z) (seqnoOrChkId : N)
    (cookie : Cookie) (reqType : HighPriorityVBNotify) (vb : HighPriority)
  : HighPriority :=
  let reqs :=
    (hpVBReqs vb ++ [{| hp_cookie := cookie; hp_id := seqnoOrChkId;
                        hp_reqType := reqType; hp_start := now |}])%list in
  {| hpVBReqs := reqs;
     numHpVBReqs := N.of_nat (length reqs);
     chkFlushTimeout := chkFlushTimeout vb;
     stats_chkPersistenceHisto := stats_chkPersistenceHisto vb;
     engineSpecificCleared := engineSpecificCleared vb |}.

(** What the loop of [getHighPriorityNotifications] carries along. *)
Record Notifying := {
  toNotify : gmap Cookie Engine.code;
  n_timeout : Z;
  n_histo : list Z;
  n_cleared : list Cookie;
}.

(** The loop over the requests. The request at position [i] is looked at
    at the reading [clock i] of the steady clock; the requests that stay are
    returned. *)
Fixpoint notifyLoop (clock : nat -> Z) (idNum : N)
    (notifyType : HighPriorityVBNotify) (i : nat)
    (entries : list HighPriorityVBEntry) (acc : Notifying)
  : list HighPriorityVBEntry * Notifying :=
  match entries with
  | [] => ([], acc)
  | entry :: rest =>
      if negb (bool_decide (notifyType = hp_reqType entry)) then
        let '(kept, acc') :=
          notifyLoop clock idNum notifyType (S i) rest acc in
        (entry :: kept, acc')
      else
        let wall_time := (clock i - hp_start entry)%Z in
        let spent := (wall_time ÷ 1000000000)%Z in
        if (hp_id entry <=? idNum)%N then
          notifyLoop clock idNum notifyType (S i) rest
            {| toNotify :=
                 <[hp_cookie entry := Engine.ENGINE_SUCCESS]> (toNotify acc);
               n_timeout := adjustCheckpointFlushTimeout spent;
               n_histo := (n_histo acc ++ [(wall_time ÷ 1000)%Z])%list;
               n_cleared := n_cleared acc |}
        else if (n_timeout acc <? spent)%Z then
          notifyLoop clock idNum notifyType (S i) rest
            {| toNotify :=
                 <[hp_cookie entry := Engine.ENGINE_TMPFAIL]> (toNotify acc);
               n_timeout := adjustCheckpointFlushTimeout spent;
               n_histo := n_histo acc;
               n_cleared := (n_cleared acc ++ [hp_cookie entry])%list |}
        else
          let '(kept, acc') :=
            notifyLoop clock idNum notifyType (S i) rest acc in
          (entry :: kept, acc')
  end.

Definition getHighPriorityNotifications (clock : nat -> Z) (idNum : N)
    (notifyType : HighPriorityVBNotify) (vb : HighPriority)
  : gmap Cookie Engine.code * HighPriority :=
  let '(kept, acc) :=
    notifyLoop clock idNum notifyType 0 (hpVBReqs vb)
      {| toNotify := ∅; n_timeout := chkFlushTimeout vb;
         n_histo := stats_chkPersistenceHisto vb;
         n_cleared := engineSpecificCleared vb |} in
  (toNotify acc,
   {| hpVBReqs := kept;
      numHpVBReqs := N.of_nat (length kept);
      chkFlushTimeout := n_timeout acc;
      stats_chkPersistenceHisto := n_histo acc;
      engineSpecificCleared := n_cleared acc |}).

(** [tmpFailAndGetAllHpNotifies]; the count of the requests is not stored
    anew. *)
Definition tmpFailAndGetAllHpNotifies (vb : HighPriority)
  : gmap Cookie Engine.code * HighPriority :=
  (foldl (fun toNotify entry =>
            <[hp_cookie entry := Engine.ENGINE_TMPFAIL]> toNotify)
     ∅ (hpVBReqs vb),
   {| hpVBReqs := [];
      numHpVBReqs := numHpVBReqs vb;
      chkFlushTimeout := chkFlushTimeout vb;
      stats_chkPersistenceHisto := stats_chkPersistenceHisto vb;
      engineSpecificCleared :=
        (engineSpecificCleared vb ++ (hp_cookie <$> hpVBReqs vb))%list |}).

(** A request that the loop may leave waiting. *)
Definition still_waiting (idNum : N) (notifyType : HighPriorityVBNotify)
    (entry : HighPriorityVBEntry) : Prop :=
  hp_reqType entry <> notifyType \/ (idNum < hp_id entry)%N.

(** What a notification tells about the requests of its cookie. *)
Definition notified_for (idNum : N) (notifyType : HighPriorityVBNotify)
    (entries : list HighPriorityVBEntry) (cookie : Cookie)
    (code : Engine.code) : Prop :=
  exists entry,
    entry ∈ entries /\ hp_cookie entry = cookie
    /\ hp_reqType entry = notifyType
    /\ ((code = Engine.ENGINE_SUCCESS /\ (hp_id entry <= idNum)%N)
        \/ (code = Engine.ENGINE_TMPFAIL /\ (idNum < hp_id entry)%N)).

Definition other_type (notifyType : HighPriorityVBNotify)
    (entry : HighPriorityVBEntry) : Prop :=
  hp_reqType entry <> notifyType.

#[global] Instance other_type_dec notifyType entry :
  Decision (other_type notifyType entry).
Proof. unfold other_type. apply _. Defined.

Lemma notifyLoop_spec (clock : nat -> Z) (idNum : N)
    (notifyType : HighPriorityVBNotify) (entries : list HighPriorityVBEntry)
    (i : nat) (acc : Notifying) :
  let '(kept, acc') := notifyLoop clock idNum notifyType i entries acc in
  sublist kept entries
  /\ filter (other_type notifyType) kept
     = filter (other_type notifyType) entries
  /\ Forall (still_waiting idNum notifyType) kept
  /\ (forall entry,
         entry ∈ entries -> hp_reqType entry = notifyType ->
         (hp_id entry <= idNum)%N -> is_Some (toNotify acc' !! hp_cookie entry))
  /\ (forall cookie, is_Some (toNotify acc !! cookie) ->
                     is_Some (toNotify acc' !! cookie))
  /\ (forall cookie code,
         toNotify acc' !! cookie = Some code ->
         toNotify acc !! cookie = Some code
         \/ notified_for idNum notifyType entries cookie code).
Proof.
  revert i acc. induction entries as [|entry rest IH]; intros i acc.
  - cbn [notifyLoop]. repeat split; try done.
    + intros entry Hin. by apply elem_of_nil in Hin.
    + intros cookie code H. by left.
  - cbn [notifyLoop].
    assert (forall cookie code,
               notified_for idNum notifyType rest cookie code ->
               notified_for idNum notifyType (entry :: rest) cookie code)
      as Hweaken.
    { intros cookie code (e & He & Hrest). exists e.
      split; [by apply list_elem_of_further | done]. }
    case_bool_decide as Htype; cbn [negb].
    + destruct (N.leb_spec (hp_id entry) idNum) as [Hle|Hgt];
        [|destruct (Z.ltb_spec (n_timeout acc)
                      ((clock i - hp_start entry) ÷ 1000000000))
            as [Hspent|Hspent]].
      * match goal with
        | |- context [notifyLoop _ _ _ (S i) rest ?a] =>
            specialize (IH (S i) a);
            destruct (notifyLoop clock idNum notifyType (S i) rest a)
              as [kept acc']
        end.
        cbn [toNotify] in IH.
        destruct IH as (Hsub & Hother & Hwait & Hdone & Hmono & Hwhy).
        split; [by apply sublist_cons|]. split.
        { rewrite Hother. rewrite filter_cons_False; [done|].
          unfold other_type. by intros []. }
        split; [done|]. split.
        { intros e [->|He]%elem_of_cons Ht Hid; [|by apply Hdone].
          apply Hmono. rewrite lookup_insert_eq. by eexists. }
        split.
        { intros cookie Hc. apply Hmono.
          rewrite lookup_insert. case_decide; [by eexists | done]. }
        intros cookie code Hc. destruct (Hwhy _ _ Hc) as [Hold|Hnew];
          [|right; by apply Hweaken].
        rewrite lookup_insert in Hold. case_decide as Hcookie; [|by left].
        injection Hold as <-. right. exists entry.
        split; [apply list_elem_of_here|]. split; [done|].
        split; [done|]. by left.
      * match goal with
        | |- context [notifyLoop _ _ _ (S i) rest ?a] =>
            specialize (IH (S i) a);
            destruct (notifyLoop clock idNum notifyType (S i) rest a)
              as [kept acc']
        end.
        cbn [toNotify] in IH.
        destruct IH as (Hsub & Hother & Hwait & Hdone & Hmono & Hwhy).
        split; [by apply sublist_cons|]. split.
        { rewrite Hother. rewrite filter_cons_False; [done|].
          unfold other_type. by intros []. }
        split; [done|]. split.
        { intros e [->|He]%elem_of_cons Ht Hid; [lia|by apply Hdone]. }
        split.
        { intros cookie Hc. apply Hmono.
          rewrite lookup_insert. case_decide; [by eexists | done]. }
        intros cookie code Hc. destruct (Hwhy _ _ Hc) as [Hold|Hnew];
          [|right; by apply Hweaken].
        rewrite lookup_insert in Hold. case_decide as Hcookie; [|by left].
        injection Hold as <-. right. exists entry.
        split; [apply list_elem_of_here|]. split; [done|].
        split; [done|]. by right.
      * specialize (IH (S i) acc).
        destruct (notifyLoop clock idNum notifyType (S i) rest acc)
          as [kept acc'].
        destruct IH as (Hsub & Hother & Hwait & Hdone & Hmono & Hwhy).
        split; [by apply sublist_skip|]. split.
        { rewrite !filter_cons_False by (unfold other_type; by intros []).
          done. }
        split; [apply Forall_cons; split; [by right | done]|]. split.
        { intros e [->|He]%elem_of_cons Ht Hid; [lia|by apply Hdone]. }
        split; [done|].
        intros cookie code Hc. destruct (Hwhy _ _ Hc) as [Hold|Hnew];
          [by left | right; by apply Hweaken].
    + specialize (IH (S i) acc).
      destruct (notifyLoop clock idNum notifyType (S i) rest acc)
        as [kept acc'].
      destruct IH as (Hsub & Hother & Hwait & Hdone & Hmono & Hwhy).
      split; [by apply sublist_skip|]. split.
      { rewrite !filter_cons_True by (unfold other_type; congruence).
        by rewrite Hother. }
      split; [apply Forall_cons; split; [left; congruence | done]|]. split.
      { intros e [->|He]%elem_of_cons Ht Hid; [congruence|by apply Hdone]. }
      split; [done|].
      intros cookie code Hc. destruct (Hwhy _ _ Hc) as [Hold|Hnew];
        [by left | right; by apply Hweaken].
Qed.

(** X13. [getHighPriorityNotifications] leaves the requests of the other
    kind waiting, all of them and in their order, and of the requested kind
    only requests for an id above the persisted one; it removes nothing but
    requests, keeps the stored count equal to the number of waiting requests,
    notifies the cookie of every request for an id up to the persisted one,
    and notifies a cookie only for a request of the requested kind: with
    success for an id up to the persisted one, with a temporary failure for
    an id above it. *)
Theorem getHighPriorityNotifications_spec (clock : nat -> Z) (idNum : N)
    (notifyType : HighPriorityVBNotify) (vb : HighPriority) :
  let '(notifications, vb') :=
    getHighPriorityNotifications clock idNum notifyType vb in
  sublist (hpVBReqs vb') (hpVBReqs vb)
  /\ filter (other_type notifyType) (hpVBReqs vb')
     = filter (other_type notifyType) (hpVBReqs vb)
  /\ Forall (still_waiting idNum notifyType) (hpVBReqs vb')
  /\ numHpVBReqs vb' = N.of_nat (length (hpVBReqs vb'))
  /\ (forall entry,
         entry ∈ hpVBReqs vb -> hp_reqType entry = notifyType ->
         (hp_id entry <= idNum)%N ->
         is_Some (notifications !! hp_cookie entry))
  /\ (forall cookie code,
         notifications !! cookie = Some code ->
         notified_for idNum notifyType (hpVBReqs vb) cookie code).
Proof.
  unfold getHighPriorityNotifications.
  match goal with
  | |- context [notifyLoop clock idNum notifyType 0 (hpVBReqs vb) ?a] =>
      pose proof (notifyLoop_spec clock idNum notifyType (hpVBReqs vb) 0 a)
        as Hloop;
      destruct (notifyLoop clock idNum notifyType 0 (hpVBReqs vb) a)
        as [kept acc']
  end.
  cbn [toNotify] in Hloop.
  destruct Hloop as (Hsub & Hother & Hwait & Hdone & _ & Hwhy).
  cbn [hpVBReqs numHpVBReqs]. repeat split; try done.
  intros cookie code Hc. destruct (Hwhy _ _ Hc) as [Hold|Hnew]; [|done].
  by rewrite lookup_empty in Hold.
Qed.

Lemma foldl_tmpfail (entries : list HighPriorityVBEntry)
    (toNotify : gmap Cookie Engine.code) (cookie : Cookie) :
  foldl (fun toNotify entry =>
           <[hp_cookie entry := Engine.ENGINE_TMPFAIL]> toNotify)
    toNotify entries !! cookie
  = if bool_decide (cookie ∈ hp_cookie <$> entries)
    then Some Engine.ENGINE_TMPFAIL
    else toNotify !! cookie.
Proof.
  revert toNotify. induction entries as [|entry rest IH]; intros toNotify.
  - cbn [foldl]. rewrite bool_decide_eq_false_2; [done|].
    by intros ?%elem_of_nil.
  - cbn [foldl]. rewrite IH, fmap_cons.
    destruct (decide (cookie ∈ hp_cookie <$> rest)) as [Hin|Hout].
    + rewrite !bool_decide_eq_true_2; try done. by apply list_elem_of_further.
    + rewrite (bool_decide_eq_false_2 _ Hout).
      rewrite lookup_insert.
      destruct (decide (hp_cookie entry = cookie)) as [Heq|Hne].
      * rewrite bool_decide_eq_true_2; [done|]. rewrite Heq.
        apply list_elem_of_here.
      * rewrite bool_decide_eq_false_2; [done|].
        intros [?|?]%elem_of_cons; congruence.
Qed.

(** X14. [tmpFailAndGetAllHpNotifies] notifies exactly the cookies of the
    waiting requests, each with a temporary failure, and leaves no request
    waiting; a request added with [addHighPriorityVBEntry] is among
    them. *)
Theorem tmpFailAndGetAllHpNotifies_spec (vb : HighPriority) (now : Z)
    (seqnoOrChkId : N) (cookie : Cookie) (reqType : HighPriorityVBNotify) :
  let '(notifications, vb') := tmpFailAndGetAllHpNotifies vb in
  (forall c, notifications !! c
             = if bool_decide (c ∈ hp_cookie <$> hpVBReqs vb)
               then Some Engine.ENGINE_TMPFAIL else None)
  /\ hpVBReqs vb' = []
  /\ (tmpFailAndGetAllHpNotifies
        (addHighPriorityVBEntry now seqnoOrChkId cookie reqType vb)).1
       !! cookie
     = Some Engine.ENGINE_TMPFAIL.
Proof.
  unfold tmpFailAndGetAllHpNotifies. split; [|split; [done|]].
  - intros c. by rewrite foldl_tmpfail, lookup_empty.
  - cbn [fst addHighPriorityVBEntry hpVBReqs].
    rewrite foldl_tmpfail, bool_decide_eq_true_2; [done|].
    rewrite fmap_app. apply elem_of_app. right. apply list_elem_of_here.
Qed.

(** ** Statistics of the disk queue *)

Section QueueStats.

(** [sizeof(Item)]. *)
Variable sizeof_Item : N.

(** [--] on the counter [dirtyQueueSize], whose type vbucket.h declares, and
    [fetch_sub] of [stats.diskQueueSize], whose type stats.h declares: the
    new value of the counter. *)
Variable decrement : N -> N.
Variable fetch_sub : N -> N -> N.

(** Above zero, [--] takes one off. *)
Hypothesis decrement_positive :
  forall n, (0 < n < 2 ^ 64)%N -> decrement n = (n - 1)%N.

(** The counters that queueing and flushing touch; [++], [fetch_add] and the
    locals of the decrementing loops are 64 bits wide. *)
Record QueueStats := {
  dirtyQueueSize : N;
  dirtyQueueMem : N;
  dirtyQueueFill : N;
  dirtyQueueDrain : N;
  dirtyQueueAge : N;
  dirtyQueuePendingWrites : N;
  stats_diskQueueSize : N;
}.

(** The loops of [decrDirtyQueueMem], [decrDirtyQueueAge] and
    [decrDirtyQueuePendingWrites] once the exchange succeeds. *)
Definition decr (oldVal decrementBy : N) : N :=
  if (oldVal <? decrementBy)%N then 0 else (oldVal - decrementBy)%N.

(** [doStatsForQueueing] for an item queued at [queuedTime]. *)
Definition doStatsForQueueing (queuedTime itemBytes : N) (s : QueueStats)
  : QueueStats :=
  {| dirtyQueueSize := u64 (dirtyQueueSize s + 1);
     dirtyQueueMem := u64 (dirtyQueueMem s + sizeof_Item);
     dirtyQueueFill := u64 (dirtyQueueFill s + 1);
     dirtyQueueDrain := dirtyQueueDrain s;
     dirtyQueueAge := u64 (dirtyQueueAge s + queuedTime);
     dirtyQueuePendingWrites := u64 (dirtyQueuePendingWrites s + itemBytes);
     stats_diskQueueSize := stats_diskQueueSize s |}.

Definition doStatsForFlushing (queuedTime itemBytes : N) (s : QueueStats)
  : QueueStats :=
  {| dirtyQueueSize := decrement (dirtyQueueSize s);
     dirtyQueueMem := decr (dirtyQueueMem s) sizeof_Item;
     dirtyQueueFill := dirtyQueueFill s;
     dirtyQueueDrain := u64 (dirtyQueueDrain s + 1);
     dirtyQueueAge := decr (dirtyQueueAge s) queuedTime;
     dirtyQueuePendingWrites := decr (dirtyQueuePendingWrites s) itemBytes;
     stats_diskQueueSize := stats_diskQueueSize s |}.

(** [resetStats], as far as these counters go. *)
Definition resetStats (s : QueueStats) : QueueStats :=
  {| dirtyQueueSize := 0;
     dirtyQueueMem := 0;
     dirtyQueueFill := 0;
     dirtyQueueDrain := 0;
     dirtyQueueAge := 0;
     dirtyQueuePendingWrites := 0;
     stats_diskQueueSize :=
       fetch_sub (stats_diskQueueSize s) (dirtyQueueSize s) |}.

(** Every counter holds a 64-bit value. *)
Definition in_range (s : QueueStats) : Prop :=
  (dirtyQueueSize s < 2 ^ 64)%N /\ (dirtyQueueMem s < 2 ^ 64)%N
  /\ (dirtyQueueFill s < 2 ^ 64)%N /\ (dirtyQueueDrain s < 2 ^ 64)%N
  /\ (dirtyQueueAge s < 2 ^ 64)%N
  /\ (dirtyQueuePendingWrites s < 2 ^ 64)%N.

(** The difference of two counters that may have wrapped around. *)
Definition u64_sub (a b : N) : N := u64 (a + 2 ^ 64 - u64 b).

(** The size of the queue is what was filled in less what was drained. *)
Definition balanced (s : QueueStats) : Prop :=
  in_range s
  /\ dirtyQueueSize s = u64_sub (dirtyQueueFill s) (dirtyQueueDrain s).

Lemma u64_small (n : N) : (n < 2 ^ 64)%N -> u64 n = n.
Proof. intros H. unfold u64. by apply N.mod_small. Qed.

Lemma u64_lt (n : N) : (u64 n < 2 ^ 64)%N.
Proof. unfold u64. by apply N.mod_lt. Qed.

Lemma decr_le (oldVal decrementBy : N) : (decr oldVal decrementBy <= oldVal)%N.
Proof. unfold decr. destruct (N.ltb_spec oldVal decrementBy); lia. Qed.

(** A sum of two 64-bit values wraps around at most once. *)
Lemma u64_cases (n : N) :
  (n < 2 ^ 65)%N ->
  u64 n = if (n <? 2 ^ 64)%N then n else (n - 2 ^ 64)%N.
Proof.
  intros Hn. destruct (N.ltb_spec n (2 ^ 64)) as [Hlt|Hge].
  - by apply u64_small.
  - unfold u64. symmetry. apply (N.mod_unique _ _ 1); lia.
Qed.

Ltac u64_arith :=
  unfold u64_sub, decr in *;
  repeat match goal with
         | |- context [u64 ?n] => rewrite (u64_cases n) in * by lia
         | H : context [u64 ?n] |- _ => rewrite (u64_cases n) in * by lia
         | |- context [(?a <? ?b)%N] =>
             destruct (N.ltb_spec a b); cbv iota in *
         | H : context [(?a <? ?b)%N] |- _ =>
             destruct (N.ltb_spec a b); cbv iota in *
         end;
  lia.

(** X15. The counters of the disk queue stay balanced: queueing an item,
    flushing an item of a queue that is not empty and resetting the
    statistics each keep the size of the queue equal, in 64-bit arithmetic,
    to the number of items filled in less the number drained; flushing never
    takes the memory, the age or the pending bytes below zero; and flushing
    an item right after queueing it restores the size, the memory, the age
    and the pending bytes, as long as queueing did not overflow them. *)
Theorem queue_stats_balanced (queuedTime itemBytes : N) (s : QueueStats) :
  balanced s ->
  balanced (doStatsForQueueing queuedTime itemBytes s)
  /\ ((0 < dirtyQueueSize s)%N ->
      balanced (doStatsForFlushing queuedTime itemBytes s))
  /\ balanced (resetStats s)
  /\ (dirtyQueueMem (doStatsForFlushing queuedTime itemBytes s)
      <= dirtyQueueMem s)%N
  /\ (dirtyQueueAge (doStatsForFlushing queuedTime itemBytes s)
      <= dirtyQueueAge s)%N
  /\ (dirtyQueuePendingWrites (doStatsForFlushing queuedTime itemBytes s)
      <= dirtyQueuePendingWrites s)%N
  /\ ((dirtyQueueSize s + 1 < 2 ^ 64)%N ->
      (dirtyQueueMem s + sizeof_Item < 2 ^ 64)%N ->
      (dirtyQueueAge s + queuedTime < 2 ^ 64)%N ->
      (dirtyQueuePendingWrites s + itemBytes < 2 ^ 64)%N ->
      let s' := doStatsForFlushing queuedTime itemBytes
                  (doStatsForQueueing queuedTime itemBytes s) in
      dirtyQueueSize s' = dirtyQueueSize s
      /\ dirtyQueueMem s' = dirtyQueueMem s
      /\ dirtyQueueAge s' = dirtyQueueAge s
      /\ dirtyQueuePendingWrites s' = dirtyQueuePendingWrites s).
Proof.
  intros [(Hsize & Hmem & Hfill & Hdrain & Hage & Hpending) Hbalance].
  assert (forall n, (0 < n < 2 ^ 64)%N -> (decrement n < 2 ^ 64)%N) as Hdecr
    by (intros n Hn; rewrite decrement_positive by done; lia).
  split; [|split; [intros Hpositive|split; [|split; [|split; [|split]]]]].
  - repeat split;
      cbn [doStatsForQueueing dirtyQueueSize dirtyQueueMem dirtyQueueFill
             dirtyQueueDrain dirtyQueueAge dirtyQueuePendingWrites];
      try apply u64_lt; try done.
    u64_arith.
  - repeat split;
      cbn [doStatsForFlushing dirtyQueueSize dirtyQueueMem dirtyQueueFill
             dirtyQueueDrain dirtyQueueAge dirtyQueuePendingWrites];
      try apply u64_lt; try done;
      try (eapply N.le_lt_trans; [apply decr_le | done]).
    + apply Hdecr. lia.
    + rewrite decrement_positive by lia. u64_arith.
  - repeat split;
      cbn [resetStats dirtyQueueSize dirtyQueueMem dirtyQueueFill
             dirtyQueueDrain dirtyQueueAge dirtyQueuePendingWrites];
      try done.
  - apply decr_le.
  - apply decr_le.
  - apply decr_le.
  - intros Hs Hm Ha Hp.
    cbn [doStatsForQueueing doStatsForFlushing dirtyQueueSize dirtyQueueMem
           dirtyQueueFill dirtyQueueDrain dirtyQueueAge
           dirtyQueuePendingWrites].
    rewrite !u64_small by lia.
    rewrite decrement_positive by lia.
    unfold decr. repeat split; try lia.
    + destruct (N.ltb_spec (dirtyQueueMem s + sizeof_Item) sizeof_Item); lia.
    + destruct (N.ltb_spec (dirtyQueueAge s + queuedTime) queuedTime); lia.
    + destruct (N.ltb_spec (dirtyQueuePendingWrites s + itemBytes) itemBytes);
        lia.
Qed.

End QueueStats.

(** ** Printing a vBucket filter *)

(** A vBucket id has 16 bits; [Vbid(n)] keeps the low 16 bits of a wider
    integer. *)
Definition Vbid (n : N) : N := (n mod 65536)%N.

(** The loop of [isRange]: [length] counts the elements from [it] on that
    follow one another without a gap. *)
Fixpoint isRange_loop (val length : N) (from_it : list N) : N :=
  match from_it with
  | [] => length
  | x :: rest =>
      if (Vbid (val + length) =? x)%N
      then isRange_loop val (length + 1) rest
      else length
  end.

(** [isRange(it, end, length)] for an iterator at [val], with the elements
    [rest] after it: the result and the value left in [length]. *)
Definition isRange (val : N) (rest : list N) : bool * N :=
  let length := u64 (isRange_loop val 0 (val :: rest) + 2 ^ 64 - 1) in
  ((1 <? length)%N, length).

(** What is written between the braces: a single id, or the first and the
    last id of a range. *)
Inductive piece :=
  | One (v : N)
  | Range (first last : N).

(** The loop of [operator<<] over the set, from the iterator on. Advancing
    [last] beyond the end of the set has no defined result. The recursion is
    bounded by the number of elements left. *)
Fixpoint print_from (fuel : nat) (from_it : list N) : option (list piece) :=
  match fuel, from_it with
  | _, [] => Some []
  | O, _ :: _ => None
  | S fuel', val :: rest =>
      let '(range, length) := isRange val rest in
      if range then
        match drop (N.to_nat length) from_it with
        | last :: after => (cons (Range val last)) <$> print_from fuel' after
        | [] => None
        end
      else (cons (One val)) <$> print_from fuel' rest
  end.

Inductive filter_output :=
  | output_empty
  | output_pieces (pieces : list piece).

(** [operator<<] for a filter whose set [acceptable] is given in its
    order. *)
Definition filter_print (acceptable : list N) : option filter_output :=
  match acceptable with
  | [] => Some output_empty
  | _ :: _ => output_pieces <$> print_from (length acceptable) acceptable
  end.

(** The ids that a piece stands for. *)
Definition ids_from (first : N) (count : nat) : list N :=
  (fun i => first + N.of_nat i)%N <$> seq 0 count.

Definition expand (p : piece) : list N :=
  match p with
  | One v => [v]
  | Range first last => ids_from first (S (N.to_nat (last - first)))
  end.

(** A range is written only for three ids or more. *)
Definition piece_ok (p : piece) : Prop :=
  match p with
  | One _ => True
  | Range first last => (first + 2 <= last)%N
  end.

Definition is_vbid (v : N) : Prop := (v < 65536)%N.

(** The order of a [std::set]: every element is below those after it. *)
Fixpoint increasing (l : list N) : Prop :=
  match l with
  | [] => True
  | x :: rest => Forall (N.lt x) rest /\ increasing rest
  end.

Lemma ids_from_S (first : N) (count : nat) :
  ids_from first (S count) = first :: ids_from (first + 1) count.
Proof.
  unfold ids_from. cbn [seq fmap list_fmap]. rewrite N.add_0_r. f_equal.
  rewrite <- fmap_S_seq, <- list_fmap_compose. apply list_fmap_ext.
  intros i x _. cbn. lia.
Qed.

(** The loop counts a run of consecutive ids, which the sorted set holds
    without wrapping around. *)
Lemma isRange_loop_run (from_it : list N) (val length : N) :
  Forall is_vbid from_it ->
  increasing from_it ->
  Forall (fun x => (val + length <= x)%N) from_it ->
  exists k,
    isRange_loop val length from_it = (length + N.of_nat k)%N
    /\ k <= List.length from_it
    /\ take k from_it = ids_from (val + length) k.
Proof.
  revert length.
  induction from_it as [|x rest IH]; intros length Hvb Hsorted Hlow.
  - exists 0. cbn. split; [lia|]. done.
  - apply Forall_cons in Hvb as [Hx Hvb].
    apply Forall_cons in Hlow as [Hlx Hlow].
    destruct Hsorted as [Habove Hsorted].
    cbn [isRange_loop].
    destruct (N.eqb_spec (Vbid (val + length)) x) as [Heq|Hne].
    + assert (val + length = x)%N as Hval.
      { unfold Vbid, is_vbid in *.
        pose proof (N.div_mod (val + length) 65536 ltac:(lia)).
        destruct (N.eq_dec ((val + length) / 65536)%N 0%N) as [Hq|Hq];
          [lia|].
        assert (1 <= (val + length) / 65536)%N by lia. nia. }
      destruct (IH (length + 1)%N Hvb Hsorted) as (k & Hk & Hlen & Htake).
      { rewrite Forall_forall in Habove. apply Forall_forall.
        intros y Hy. specialize (Habove _ Hy). lia. }
      exists (S k). split; [rewrite Hk; lia|]. split; [cbn; lia|].
      cbn [take]. rewrite ids_from_S, Htake. f_equal; [done|].
      f_equal. lia.
    + exists 0. split; [lia|]. split; [lia|]. done.
Qed.

Lemma increasing_drop (n : nat) (l : list N) :
  increasing l -> increasing (drop n l).
Proof.
  revert n. induction l as [|x rest IH]; intros n H; [by destruct n|].
  destruct n as [|n]; [done|]. cbn [drop]. apply IH. by destruct H.
Qed.

Lemma ids_from_last (first : N) (count : nat) :
  ids_from first (S count) !! count = Some (first + N.of_nat count)%N.
Proof.
  unfold ids_from. rewrite list_lookup_fmap, lookup_seq_lt by lia. done.
Qed.

Lemma print_from_spec (fuel : nat) (from_it : list N) :
  length from_it <= fuel ->
  Forall is_vbid from_it ->
  increasing from_it ->
  exists pieces,
    print_from fuel from_it = Some pieces
    /\ concat (expand <$> pieces) = from_it
    /\ Forall piece_ok pieces.
Proof.
  revert from_it. induction fuel as [|fuel IH]; intros from_it Hlen Hvb Hinc.
  { destruct from_it; [|cbn in Hlen; lia]. by exists []. }
  destruct from_it as [|val rest]; [by exists []|].
  cbn [length] in Hlen.
  apply Forall_cons in Hvb as [Hval Hvb]. destruct Hinc as [Habove Hinc].
  destruct (isRange_loop_run rest val 1 Hvb Hinc) as (k & Hk & Hklen & Htake).
  { eapply Forall_impl; [exact Habove|]. cbn. lia. }
  assert (N.of_nat k < 65536)%N as Hkbound.
  { destruct k as [|k]; [lia|].
    assert (rest !! k = Some (val + 1 + N.of_nat k)%N) as Hlast.
    { rewrite <- (lookup_take_lt rest (S k) k) by lia.
      rewrite Htake. apply ids_from_last. }
    rewrite Forall_forall in Hvb.
    pose proof (Hvb _ (list_elem_of_lookup_2 _ _ _ Hlast)) as Hb.
    unfold is_vbid in Hb. lia. }
  cbn [print_from]. unfold isRange. cbn [isRange_loop].
  assert (Vbid (val + 0) = val) as ->.
  { unfold Vbid. rewrite N.add_0_r. apply N.mod_small. exact Hval. }
  rewrite N.eqb_refl. change (0 + 1)%N with 1%N. rewrite Hk.
  assert (u64 (1 + N.of_nat k + 2 ^ 64 - 1) = N.of_nat k) as ->.
  { unfold u64.
    replace (1 + N.of_nat k + 2 ^ 64 - 1)%N
      with (N.of_nat k + 1 * 2 ^ 64)%N by lia.
    rewrite N.Div0.mod_add. apply N.mod_small. lia. }
  rewrite Nat2N.id.
  destruct (N.ltb_spec 1 (N.of_nat k)) as [Hrange|Hsingle].
  - destruct k as [|k]; [lia|]. cbn [drop].
    assert (rest !! k = Some (val + 1 + N.of_nat k)%N) as Hlast.
    { rewrite <- (lookup_take_lt rest (S k) k) by lia.
      rewrite Htake. apply ids_from_last. }
    rewrite (drop_S _ _ _ Hlast).
    destruct (IH (drop (S k) rest)) as (pieces & Hp & Hconcat & Hok).
    { rewrite length_drop. lia. }
    { by apply Forall_drop. }
    { by apply increasing_drop. }
    exists (Range val (val + 1 + N.of_nat k) :: pieces).
    rewrite Hp. split; [done|]. split.
    + cbn [fmap list_fmap concat expand]. rewrite Hconcat.
      replace (N.to_nat (val + 1 + N.of_nat k - val)) with (S k) by lia.
      rewrite ids_from_S, <- Htake. cbn [app]. f_equal.
      apply take_drop.
    + apply Forall_cons. split; [cbn; lia | done].
  - destruct (IH rest) as (pieces & Hp & Hconcat & Hok); try done; [lia|].
    exists (One val :: pieces). rewrite Hp. split; [done|]. split.
    + cbn [fmap list_fmap concat expand app]. by rewrite Hconcat.
    + by apply Forall_cons.
Qed.

(** X16. A filter is printed so that its set can be read back: for a set of
    16-bit ids in increasing order, [operator<<] writes the empty marker for
    the empty set and otherwise single ids and ranges that, expanded one
    after the other, give the ids of the set in order; a range is written
    only for three or more consecutive ids, and the iterator is never
    advanced beyond the end of the set. *)
Theorem filter_print_expands (acceptable : list N) :
  Forall is_vbid acceptable ->
  increasing acceptable ->
  match acceptable with
  | [] => filter_print acceptable = Some output_empty
  | _ :: _ =>
      exists pieces,
        filter_print acceptable = Some (output_pieces pieces)
        /\ concat (expand <$> pieces) = acceptable
        /\ Forall piece_ok pieces
  end.
Proof.
  intros Hvb Hinc. destruct acceptable as [|val rest]; [done|].
  destruct (print_from_spec (length (val :: rest)) (val :: rest))
    as (pieces & Hp & Hconcat & Hok); try done.
  exists pieces. unfold filter_print. by rewrite Hp.
Qed.

(** ** Runs of the utilities *)

Module Usage.

(** A pending vBucket on which nothing is parked yet; the counters of this
    run wrap around below zero, and the maximum is kept by comparison. *)
Definition parked : PendingOps :=
  {| po_state := vbucket_state_pending;
     pendingOps := [];
     pendingOpsStart := 0;
     stats_pendingOps := 0;
     stats_pendingOpsTotal := 0;
     stats_pendingOpsMax := 0;
     stats_pendingOpsMaxDuration := 0;
     stats_pendingOpsHisto := [] |}.

Definition setIfBigger (obj newValue : N) : N :=
  if (obj <? newValue)%N then newValue else obj.

Definition wrapping_sub (a b : N) : N := u64 (a + 2 ^ 64 - u64 b).

(** Two cookies are parked, the vBucket becomes active, and both are
    notified with success, the second first. *)
Lemma parked_operations_fired_witness :
  let '(vb', notified) :=
    fireAllOps setIfBigger wrapping_sub 9000
      (with_po_state vbucket_state_active
         (addPendingOps [(1000%Z, Some 1); (2000%Z, Some 2)] parked)) in
  notified
  = (fun cookie => (cookie, Engine.ENGINE_SUCCESS)) <$> [Some 2; Some 1]
  /\ pendingOps vb' = []
  /\ timer_running vb'.
Proof.
  apply (parked_operations_fired setIfBigger wrapping_sub parked
           [(1000%Z, Some 1); (2000%Z, Some 2)] vbucket_state_active 9000).
  - reflexivity.
  - intros Hparked. by destruct Hparked.
  - repeat constructor.
  - discriminate.
Defined.

(** A queue of two items, five filled in and three drained. *)
Definition two_queued : QueueStats :=
  {| dirtyQueueSize := 2;
     dirtyQueueMem := 240;
     dirtyQueueFill := 5;
     dirtyQueueDrain := 3;
     dirtyQueueAge := 77;
     dirtyQueuePendingWrites := 1024;
     stats_diskQueueSize := 2 |}.

(** A counter that stays at zero. *)
Definition clamping_decrement (n : N) : N := N.pred n.

Definition clamping_sub (a b : N) : N := (a - b)%N.

Lemma queue_stats_balanced_witness :
  balanced (doStatsForQueueing 120 7 512 two_queued)
  /\ dirtyQueueSize
       (doStatsForFlushing 120 clamping_decrement 7 512
          (doStatsForQueueing 120 7 512 two_queued)) = 2%N.
Proof.
  destruct (queue_stats_balanced 120 clamping_decrement clamping_sub
              ltac:(intros n Hn; unfold clamping_decrement; lia)
              7 512 two_queued)
    as (Hqueue & _ & _ & _ & _ & _ & Hrestore).
  - vm_compute. repeat split; congruence.
  - split; [exact Hqueue|].
    apply Hrestore; vm_compute; reflexivity.
Defined.

(** The set 0, 1, 2, 3, 5, 7, 8 is printed as a range and three ids. *)
Lemma filter_print_expands_witness :
  exists pieces,
    filter_print [0; 1; 2; 3; 5; 7; 8]%N = Some (output_pieces pieces)
    /\ concat (expand <$> pieces) = [0; 1; 2; 3; 5; 7; 8]%N
    /\ Forall piece_ok pieces.
Proof.
  apply (filter_print_expands [0; 1; 2; 3; 5; 7; 8]%N).
  - repeat constructor.
  - cbn. repeat split; repeat constructor.
Defined.

End Usage.

End VB.
